(** * Parking-meter clustering: schedule signatures and spatial clusters

    A shallow embedding of [cluster_meters.py]: the schedule normaliser
    ([norm_time], [canonical_days]), the signature builder
    ([build_schedule_signature]), the union-find clusterer
    ([UnionFind], [cluster_points_haversine]), [mode] and the aggregation
    loop of [main]; and of the field parsers of [parseMeterCsv.py]
    ([parse_time], [parse_days], [parse_time_limit_minutes],
    [derive_meter_state], [clean_columns]); followed by the properties
    of each component.

    Conventions.  A Python [str] is a [string] whose characters are the
    code points below 256, one [ascii] per code point.  [None] is the
    [None] of [option].  A Python [dict] is an association list in
    insertion order.  Floating point numbers are a type parameter with
    the operations the program applies to them. *)

From Stdlib Require Import ZArith NArith Ascii String DecimalString DecimalPos DecimalN.
From stdpp Require Import base decidable option list gmap strings sorting.

Local Open Scope string_scope.
Local Open Scope list_scope.

(** ** Python string primitives *)

Module PyStr.

Definition code (c : ascii) : N := N_of_ascii c.

(** [str.isspace] on one character: the code points below 256 that
    Unicode classifies as white space. *)
Definition isspace (c : ascii) : bool :=
  let n := code c in
  ((9 <=? n) && (n <=? 13) || (28 <=? n) && (n <=? 32)
   || (n =? 133) || (n =? 160))%N.

Definition isdigit (c : ascii) : bool :=
  let n := code c in ((48 <=? n) && (n <=? 57))%N.

Definition digit_val (c : ascii) : N := (code c - 48)%N.

(** [str.lower] on one character (Basic Latin and Latin-1). *)
Definition lower_char (c : ascii) : ascii :=
  let n := code c in
  if ((65 <=? n) && (n <=? 90)
      || (192 <=? n) && (n <=? 222) && negb (n =? 215))%N
  then ascii_of_N (n + 32) else c.

Fixpoint lower (s : string) : string :=
  match s with
  | EmptyString => EmptyString
  | String c r => String (lower_char c) (lower r)
  end.

Fixpoint lstrip (s : string) : string :=
  match s with
  | EmptyString => EmptyString
  | String c r => if isspace c then lstrip r else s
  end.

Definition rstrip (s : string) : string :=
  String.rev (lstrip (String.rev s)).

(** [s.strip()] *)
Definition strip (s : string) : string := rstrip (lstrip s).

(** [s.split(sep)] for a one-character separator: always at least one
    piece, empty pieces are kept. *)
Fixpoint split (sep : ascii) (s : string) : list string :=
  match s with
  | EmptyString => [EmptyString]
  | String c r =>
      if Ascii.eqb c sep then EmptyString :: split sep r
      else match split sep r with
           | p :: ps => String c p :: ps
           | [] => [String c EmptyString]
           end
  end.

(** [sep.join(parts)] *)
Definition join (sep : string) (parts : list string) : string :=
  String.concat sep parts.

(** [pat in s] *)
Fixpoint contains (pat s : string) : bool :=
  String.prefix pat s
  || match s with
     | EmptyString => false
     | String _ r => contains pat r
     end.

(** [bool(s)]: a string is true when it is not empty. *)
Definition truthy (s : string) : bool :=
  match s with EmptyString => false | _ => true end.

(** Decimal digits of a natural number, as [str(n)] prints them. *)
Definition of_N (n : N) : string := NilZero.string_of_uint (N.to_uint n).

Fixpoint zeros (k : nat) : string :=
  match k with O => EmptyString | S k' => String "0" (zeros k') end.

(** Right-justify [s] in a field of [w] characters filled with "0". *)
Definition zfill (w : nat) (s : string) : string :=
  zeros (w - String.length s) +:+ s.

(** [format(z, "02d")], [format(z, "05d")]: the sign comes first and
    counts towards the width. *)
Definition format_0d (w : nat) (z : Z) : string :=
  if (z <? 0)%Z then String "-" (zfill (w - 1) (of_N (Z.abs_N z)))
  else zfill w (of_N (Z.to_N z)).

(** Body of a decimal literal accepted by [int]: digits, with single
    underscores allowed between digits.  Returns the value and the
    number of digits read. *)
Fixpoint int_digits (prev_digit : bool) (acc : N) (cnt : nat) (s : string)
  : option (N * nat) :=
  match s with
  | EmptyString => if prev_digit then Some (acc, cnt) else None
  | String c r =>
      if isdigit c then int_digits true (10 * acc + digit_val c)%N (S cnt) r
      else if Ascii.eqb c "_" && prev_digit then int_digits false acc cnt r
      else None
  end.

(** The default limit of the interpreter on the number of digits of a
    decimal literal converted by [int]. *)
Definition int_max_str_digits : nat := 4300.

(** [int(s)] in base 10; [None] stands for [ValueError]. *)
Definition int (s : string) : option Z :=
  let t := strip s in
  let '(neg, body) :=
    match t with
    | String "-" r => (true, r)
    | String "+" r => (false, r)
    | _ => (false, t)
    end in
  match int_digits false 0%N 0 body with
  | Some (n, cnt) =>
      if (int_max_str_digits <? cnt)%nat then None
      else Some (if neg then (- Z.of_N n)%Z else Z.of_N n)
  | None => None
  end.

End PyStr.

(** ** Schedule normaliser *)

Definition DAY_ORDER : list string :=
  ["Mo"; "Tu"; "We"; "Th"; "Fr"; "Sa"; "Su"].

Definition DAY_MAP_LONG2ABBR : list (string * string) :=
  [("monday", "Mo"); ("tuesday", "Tu"); ("wednesday", "We");
   ("thursday", "Th"); ("friday", "Fr"); ("saturday", "Sa");
   ("sunday", "Su")].

(** [d.get(k)] on a dictionary given as an association list. *)
Fixpoint assoc_get {V} (d : list (string * V)) (k : string) : option V :=
  match d with
  | [] => None
  | (k', v) :: r => if String.eqb k' k then Some v else assoc_get r k
  end.

Definition in_list (x : string) (l : list string) : bool :=
  existsb (String.eqb x) l.

(** ** Exceptions *)

(** The exceptions that occur in the program; [SystemExit] carries the
    message given to [sys.exit]. *)
Inductive exn :=
| ValueError
| JSONDecodeError
| IndexError
| ImportError
| KeyError (key : string)
| SystemExit (msg : string).

(** A computation that returns a value or raises: [inr v] for a value,
    [inl e] for an exception that is raised. *)
Definition result (A : Type) : Type := exn + A.

Definition Ok {A} (a : A) : result A := inr a.
Definition Raise {A} (e : exn) : result A := inl e.

Definition rbind {A B} (m : result A) (k : A → result B) : result B :=
  match m with
  | inr a => k a
  | inl e => inl e
  end.

Notation "'do' x <- m ; k" := (rbind m (fun x => k))
  (at level 200, x pattern, m at level 100, k at level 200, only parsing).

(** [[f(x) for x in l]] where [f] may raise. *)
Fixpoint rmap {A B} (f : A → result B) (l : list A) : result (list B) :=
  match l with
  | [] => Ok []
  | x :: r => do y <- f x; do ys <- rmap f r; Ok (y :: ys)
  end.

(** A loop over [l] that updates [a] and may raise. *)
Fixpoint rfoldl {A B} (f : A → B → result A) (a : A) (l : list B) : result A :=
  match l with
  | [] => Ok a
  | x :: r => do a' <- f a x; rfoldl f a' r
  end.

(** An indexing: [None] is [IndexError]. *)
Definition indexed {A} (y : option A) : result A :=
  match y with
  | Some v => Ok v
  | None => Raise IndexError
  end.

Module Strptime.

(** [datetime.strptime] for the two formats the program uses, in the
    C locale.  The format is compiled to a regular expression matched
    case-insensitively from the start of the string, and the match has
    to cover the whole string:
      %I  is  1[0-2]|0[1-9]|[1-9]
      %M  is  [0-5]\d|\d
      %p  is  am|pm
      a blank in the format is  \s+
    Each matcher takes the continuation matching the rest of the
    pattern, so that a later failure retries the next alternative. *)

Definition in_range (lo hi : N) (c : ascii) : bool :=
  ((lo <=? PyStr.code c) && (PyStr.code c <=? hi))%N.

Definition match_I {A} (s : string) (k : N -> string -> option A) : option A :=
  let alt1 :=
    match s with
    | String "1" (String c r) =>
        if in_range 48 50 c then k (10 + PyStr.digit_val c)%N r else None
    | _ => None
    end in
  let alt2 :=
    match s with
    | String "0" (String c r) =>
        if in_range 49 57 c then k (PyStr.digit_val c) r else None
    | _ => None
    end in
  let alt3 :=
    match s with
    | String c r => if in_range 49 57 c then k (PyStr.digit_val c) r else None
    | _ => None
    end in
  match alt1 with
  | Some a => Some a
  | None => match alt2 with Some a => Some a | None => alt3 end
  end.

Definition match_M {A} (s : string) (k : N -> string -> option A) : option A :=
  let alt1 :=
    match s with
    | String c (String d r) =>
        if in_range 48 53 c && PyStr.isdigit d
        then k (10 * PyStr.digit_val c + PyStr.digit_val d)%N r else None
    | _ => None
    end in
  let alt2 :=
    match s with
    | String c r => if PyStr.isdigit c then k (PyStr.digit_val c) r else None
    | _ => None
    end in
  match alt1 with Some a => Some a | None => alt2 end.

Definition match_char {A} (ch : ascii) (s : string) (k : string -> option A)
  : option A :=
  match s with
  | String c r => if Ascii.eqb c ch then k r else None
  | _ => None
  end.

(** [\s+] is greedy and gives characters back one at a time. *)
Fixpoint match_spaces_star {A} (s : string) (k : string -> option A)
  : option A :=
  match s with
  | String c r =>
      if PyStr.isspace c then
        match match_spaces_star r k with
        | Some a => Some a
        | None => k s
        end
      else k s
  | EmptyString => k s
  end.

Definition match_spaces {A} (s : string) (k : string -> option A) : option A :=
  match s with
  | String c r => if PyStr.isspace c then match_spaces_star r k else None
  | _ => None
  end.

(** [true] for pm. *)
Definition match_p {A} (s : string) (k : bool -> string -> option A)
  : option A :=
  match s with
  | String a (String m r) =>
      if Ascii.eqb (PyStr.lower_char m) "m" then
        if Ascii.eqb (PyStr.lower_char a) "a" then k false r
        else if Ascii.eqb (PyStr.lower_char a) "p" then k true r
        else None
      else None
  | _ => None
  end.

(** The regular expression only has to match a prefix; what is left
    unmatched is checked afterwards. *)
Definition hour24 (i : N) (pm : bool) : N :=
  if pm then (if (i =? 12)%N then 12 else i + 12)%N
  else (if (i =? 12)%N then 0 else i)%N.

Definition check_end (h m : N) (rest : string) : exn + (N * N) :=
  match rest with
  | EmptyString => inr (h, m)
  | _ => inl ValueError
  end.

(** [strptime(s, "%I:%M %p")] as (hour, minute). *)
Definition strptime_IMp (s : string) : exn + (N * N) :=
  match
    match_I s (fun i s1 =>
    match_char ":" s1 (fun s2 =>
    match_M s2 (fun m s3 =>
    match_spaces s3 (fun s4 =>
    match_p s4 (fun pm rest => Some (hour24 i pm, m, rest))))))
  with
  | Some (h, m, rest) => check_end h m rest
  | None => inl ValueError
  end.

(** [strptime(s, "%I %p")] as (hour, minute). *)
Definition strptime_Ip (s : string) : exn + (N * N) :=
  match
    match_I s (fun i s1 =>
    match_spaces s1 (fun s2 =>
    match_p s2 (fun pm rest => Some (hour24 i pm, 0%N, rest))))
  with
  | Some (h, m, rest) => check_end h m rest
  | None => inl ValueError
  end.

(** [dt.strftime("%H:%M")] *)
Definition strftime_HM (hm : N * N) : string :=
  PyStr.zfill 2 (PyStr.of_N (fst hm)) +:+ ":" +:+ PyStr.zfill 2 (PyStr.of_N (snd hm)).

End Strptime.

Import Strptime.

(** The 24-hour attempt of [norm_time], the body of its first [try].
    [inl ValueError] when a step raises, [inr None] when the hour is
    out of range and control falls out of the [try] block. *)
Definition norm_time_24h (s : string) : exn + option string :=
  match PyStr.split ":" s with
  | [hh; mm] =>
      match PyStr.int hh with
      | None => inl ValueError
      | Some h =>
          if PyStr.contains "am" (PyStr.lower s)
             || PyStr.contains "pm" (PyStr.lower s)
          then inl ValueError
          else if ((0 <=? h) && (h <=? 23))%Z then
            match PyStr.int mm with
            | None => inl ValueError
            | Some m => inr (Some (PyStr.format_0d 2 h +:+ ":" +:+ PyStr.format_0d 2 m))
            end
          else inr None
      end
  | _ => inl ValueError
  end.

(** The 12-hour attempts: the loop over the two formats, each in a
    [try] that catches [ValueError] only, then the final [return s]. *)
Fixpoint norm_time_12h (fmts : list (string -> exn + (N * N))) (s : string)
  : exn + string :=
  match fmts with
  | [] => inr s
  | f :: rest =>
      match f s with
      | inr hm => inr (strftime_HM hm)
      | inl ValueError => norm_time_12h rest s
      | inl e => inl e
      end
  end.

(** [norm_time(t)]: [inl e] when exception [e] escapes, [inr r] when
    [r] is returned.  The first [try] catches [Exception], which covers
    every exception but [SystemExit]. *)
Definition norm_time (t : option string) : exn + string :=
  match t with
  | None => inr ""
  | Some t =>
      let s := PyStr.strip t in
      if negb (PyStr.truthy s) || in_list (PyStr.lower s) ["nan"; "none"]
      then inr ""
      else
        match norm_time_24h s with
        | inr (Some r) => inr r
        | inl (SystemExit msg) => inl (SystemExit msg)
        | inr None | inl _ => norm_time_12h [strptime_IMp; strptime_Ip] s
        end
  end.

(** The test [x and str(x).strip()] on an optional string. *)
Definition nonblank (o : option string) : bool :=
  match o with
  | Some s => PyStr.truthy s && PyStr.truthy (PyStr.strip s)
  | None => false
  end.

(** [[p.strip() for p in str(days_str).split(",") if p.strip()]] *)
Definition day_tokens (days_str : string) : list string :=
  map PyStr.strip
      (List.filter (fun p => PyStr.truthy (PyStr.strip p))
                   (PyStr.split "," days_str)).

(** One round of the loop over [DAY_ORDER]; the state is [(abbr, seen)]. *)
Definition known_day_step (parts : list string)
    (st : list string * gset string) (d : string) : list string * gset string :=
  if in_list d parts && negb (bool_decide (d ∈ st.2))
  then (st.1 ++ [d], {[d]} ∪ st.2) else st.

(** One round of the loop over [parts]. *)
Definition other_token_step (seen : gset string)
    (abbr : list string) (p : string) : list string :=
  if negb (bool_decide (p ∈ seen)) && (String.length p <=? 3)%nat
  then abbr ++ [p] else abbr.

(** [canonical_days(days_str, fallback_day_long)] *)
Definition canonical_days (days_str fallback_day_long : option string) : string :=
  if nonblank days_str then
    let parts := day_tokens (default "" days_str) in
    let '(abbr, seen) := foldl (known_day_step parts) ([], ∅) DAY_ORDER in
    let abbr := foldl (other_token_step seen) abbr parts in
    PyStr.join "," abbr
  else if nonblank fallback_day_long then
    default "" (assoc_get DAY_MAP_LONG2ABBR
                  (PyStr.lower (PyStr.strip (default "" fallback_day_long))))
  else "".

(** An absent value, or one that is empty once stripped. *)
Definition blank (o : option string) : Prop :=
  o = None ∨ ∃ s, o = Some s ∧ PyStr.strip s = "".


(** The time parsers raise nothing but [ValueError]. *)
Definition raises_only_ValueError {A} (r : result A) : Prop :=
  match r with inl ValueError | inr _ => True | inl _ => False end.

(** ** Most frequent value *)

(** [Counter]: the counts of the values seen, in the order in which
    each value was first seen.  [counter_incr c v] is [c[v] += 1]. *)
Fixpoint counter_incr (c : list (string * nat)) (v : string)
  : list (string * nat) :=
  match c with
  | [] => [(v, 1)]
  | (k, n) :: r =>
      if String.eqb k v then (k, S n) :: r else (k, n) :: counter_incr r v
  end.

Definition Counter (vals : list string) : list (string * nat) :=
  foldl counter_incr [] vals.

(** [max(items, key=count)] with [best] the maximum so far: a later
    item replaces it only when its count is strictly larger. *)
Fixpoint max_by_count (best : string * nat) (items : list (string * nat))
  : string * nat :=
  match items with
  | [] => best
  | it :: r => max_by_count (if (best.2 <? it.2)%nat then it else best) r
  end.

(** [c.most_common(1)] *)
Definition most_common_1 (c : list (string * nat)) : list (string * nat) :=
  match c with
  | [] => []
  | it :: r => [max_by_count it r]
  end.

(** The test [v and str(v).strip()] of [mode]. *)
Definition mode_keeps (v : string) : bool :=
  PyStr.truthy v && PyStr.truthy (PyStr.strip v).

(** [mode(values)].  The last branch stands for the [IndexError] of
    [most_common(1)[0]] on an empty counter, which [Counter_nonempty]
    shows unreachable. *)
Definition mode (values : list string) : string :=
  let vals := filter (λ v, mode_keeps v) values in
  match vals with
  | [] => ""
  | _ :: _ =>
      match most_common_1 (Counter vals) with
      | c :: _ => c.1
      | [] => ""
      end
  end.

(** Number of occurrences of [v] in [l]. *)
Definition occurrences (v : string) (l : list string) : nat :=
  length (filter (λ x, x = v) l).

(** What the counter holds after counting [l]: [keys] are the distinct
    values of [l] in the order of their first occurrence. *)
Inductive first_seen : list string → list string → Prop :=
| first_seen_nil : first_seen [] []
| first_seen_old l keys v :
    first_seen l keys → v ∈ keys → first_seen (l ++ [v]) keys
| first_seen_new l keys v :
    first_seen l keys → v ∉ keys → first_seen (l ++ [v]) (keys ++ [v]).


(** ** JSON text of string dictionaries *)

(** A [dict] from strings to strings, in insertion order. *)
Notation dict := (list (string * string)) (only parsing).

(** [d[k] = v]: an existing key keeps its place. *)
Fixpoint dict_set (d : dict) (k v : string) : dict :=
  match d with
  | [] => [(k, v)]
  | (k', v') :: r =>
      if String.eqb k' k then (k', v) :: r else (k', v') :: dict_set r k v
  end.

Module Json.

Definition dquote : ascii := "034"%char.
Definition backslash : ascii := "092"%char.

Definition hex_digit (n : N) : ascii :=
  if (n <? 10)%N then ascii_of_N (48 + n) else ascii_of_N (87 + n).

(** The six-character escape of a code point below 256. *)
Definition escape_u (c : ascii) : string :=
  String backslash (String "u" (String "0" (String "0"
    (String (hex_digit (PyStr.code c / 16))
       (String (hex_digit (PyStr.code c mod 16)) EmptyString))))).

(** The text of one character inside a JSON string.  With
    [ensure_ascii] every character outside the printable ASCII range
    is escaped; without it only the control characters are. *)
Definition escape_char (ensure_ascii : bool) (c : ascii) : string :=
  let n := PyStr.code c in
  if (n =? 34)%N then String backslash (String dquote EmptyString)
  else if (n =? 92)%N then String backslash (String backslash EmptyString)
  else if (n =? 10)%N then String backslash "n"
  else if (n =? 13)%N then String backslash "r"
  else if (n =? 9)%N then String backslash "t"
  else if (n =? 8)%N then String backslash "b"
  else if (n =? 12)%N then String backslash "f"
  else if (n <? 32)%N || ensure_ascii && (126 <? n)%N then escape_u c
  else String c EmptyString.

Fixpoint escape (ensure_ascii : bool) (s : string) : string :=
  match s with
  | EmptyString => EmptyString
  | String c r => escape_char ensure_ascii c +:+ escape ensure_ascii r
  end.

(** A JSON string with its quotes. *)
Definition dumps_str (ensure_ascii : bool) (s : string) : string :=
  String dquote (escape ensure_ascii s +:+ String dquote EmptyString).

Definition dumps_item (ensure_ascii : bool) (kv : string * string) : string :=
  dumps_str ensure_ascii kv.1 +:+ ": " +:+ dumps_str ensure_ascii kv.2.

(** [json.dumps(d)] for a dictionary of strings, items in the order of
    the dictionary. *)
Definition dumps_dict (ensure_ascii : bool) (d : dict) : string :=
  "{" +:+ PyStr.join ", " (map (dumps_item ensure_ascii) d) +:+ "}".

(** Order of the items of a dictionary under [sort_keys]. *)
Definition key_le (a b : string * string) : Prop := String.le a.1 b.1.

Global Instance key_le_dec : RelDecision key_le.
Proof. intros a b. unfold key_le. apply _. Defined.

Definition sort_keys (d : dict) : dict := merge_sort key_le d.

(** [json.dumps(d, sort_keys=True)] *)
Definition dumps_dict_sorted (ensure_ascii : bool) (d : dict) : string :=
  dumps_dict ensure_ascii (sort_keys d).

(** [json.dumps(l, sort_keys=True, ensure_ascii=...)] and
    [json.dumps(l, ensure_ascii=...)] for a list of dictionaries. *)
Definition dumps_list (sorted ensure_ascii : bool) (l : list dict) : string :=
  "[" +:+ PyStr.join ", "
            (map (if sorted then dumps_dict_sorted ensure_ascii
                  else dumps_dict ensure_ascii) l) +:+ "]".

(** *** Reading *)

Definition hex_val (c : ascii) : option N :=
  let n := PyStr.code c in
  if ((48 <=? n) && (n <=? 57))%N then Some (n - 48)%N
  else if ((97 <=? n) && (n <=? 102))%N then Some (n - 87)%N
  else if ((65 <=? n) && (n <=? 70))%N then Some (n - 55)%N
  else None.

Definition hex4 (a b c d : ascii) : option N :=
  match hex_val a, hex_val b, hex_val c, hex_val d with
  | Some x, Some y, Some z, Some w => Some (((x * 16 + y) * 16 + z) * 16 + w)%N
  | _, _, _, _ => None
  end.

(** The character a one-letter escape stands for. *)
Definition unescape (e : ascii) : option ascii :=
  let n := PyStr.code e in
  if (n =? 34)%N then Some dquote
  else if (n =? 92)%N then Some backslash
  else if (n =? 47)%N then Some "/"%char
  else if (n =? 98)%N then Some (ascii_of_N 8)
  else if (n =? 102)%N then Some (ascii_of_N 12)
  else if (n =? 110)%N then Some (ascii_of_N 10)
  else if (n =? 114)%N then Some (ascii_of_N 13)
  else if (n =? 116)%N then Some (ascii_of_N 9)
  else None.

(** The decoder's string scanner, entered after the opening quote:
    the decoded string and the text after the closing quote.  A raw
    control character is refused; an escape of a code point of 256 or
    more is outside the strings modelled here. *)
Fixpoint scanstring (s : string) : option (string * string) :=
  match s with
  | EmptyString => None
  | String c r =>
      if Ascii.eqb c dquote then Some (EmptyString, r)
      else if Ascii.eqb c backslash then
        match r with
        | String e r1 =>
            if Ascii.eqb e "u" then
              match r1 with
              | String h1 (String h2 (String h3 (String h4 r2))) =>
                  match hex4 h1 h2 h3 h4 with
                  | Some n =>
                      if (n <? 256)%N then
                        match scanstring r2 with
                        | Some (t, rest) => Some (String (ascii_of_N n) t, rest)
                        | None => None
                        end
                      else None
                  | None => None
                  end
              | _ => None
              end
            else
              match unescape e with
              | Some ch =>
                  match scanstring r1 with
                  | Some (t, rest) => Some (String ch t, rest)
                  | None => None
                  end
              | None => None
              end
        | EmptyString => None
        end
      else if (PyStr.code c <? 32)%N then None
      else
        match scanstring r with
        | Some (t, rest) => Some (String c t, rest)
        | None => None
        end
  end.

Definition is_ws (c : ascii) : bool :=
  let n := PyStr.code c in ((n =? 32) || (n =? 9) || (n =? 10) || (n =? 13))%N.

Fixpoint skip_ws (s : string) : string :=
  match s with
  | String c r => if is_ws c then skip_ws r else s
  | EmptyString => s
  end.

(** The members of an object, entered at the quote that opens a key;
    [d] holds the members read so far.  Returns the dictionary and the
    text after the closing brace.  A value that is not a string is
    outside the documents modelled here.  [fuel] bounds the number of
    members. *)
Fixpoint parse_members (fuel : nat) (d : dict) (s : string)
  : option (dict * string) :=
  match fuel with
  | O => None
  | S fuel =>
      match s with
      | String q r =>
          if Ascii.eqb q dquote then
            match scanstring r with
            | Some (k, r1) =>
                match skip_ws r1 with
                | String ":" r2 =>
                    match skip_ws r2 with
                    | String q2 r3 =>
                        if Ascii.eqb q2 dquote then
                          match scanstring r3 with
                          | Some (v, r4) =>
                              match skip_ws r4 with
                              | String "," r5 =>
                                  parse_members fuel (dict_set d k v) (skip_ws r5)
                              | String "}" r5 => Some (dict_set d k v, r5)
                              | _ => None
                              end
                          | None => None
                          end
                        else None
                    | EmptyString => None
                    end
                | _ => None
                end
            | None => None
            end
          else None
      | EmptyString => None
      end
  end.

(** The decoder's object scanner, entered at the opening brace: the
    dictionary and the text after the closing brace. *)
Definition parse_object (s : string) : option (dict * string) :=
  match s with
  | String "{" r =>
      match skip_ws r with
      | String "}" r1 => Some ([], r1)
      | r1 => parse_members (String.length s) [] r1
      end
  | _ => None
  end.

(** [json.loads(s)] for a document that is an object with string
    values; [None] stands for [JSONDecodeError]. *)
Definition loads (s : string) : option dict :=
  match parse_object (skip_ws s) with
  | Some (d, rest) =>
      match skip_ws rest with
      | EmptyString => Some d
      | _ => None
      end
  | None => None
  end.

End Json.

(** The dictionary obtained by storing [items] one after the other
    into [d]. *)
Definition dict_of_items (d : dict) (items : list (string * string)) : dict :=
  foldl (λ d kv, dict_set d kv.1 kv.2) d items.

(** ** SHA-1 *)

Module Sha1.
Local Open Scope Z_scope.

(** 32-bit words are integers reduced modulo 2^32. *)
Definition w32 (x : Z) : Z := x mod 2 ^ 32.

Definition rotl (n x : Z) : Z :=
  w32 (Z.lor (Z.shiftl x n) (Z.shiftr x (32 - n))).

Definition not32 (x : Z) : Z := Z.lxor x 4294967295.

(** Big-endian bytes of [x], [n] of them. *)
Fixpoint be_bytes (n : nat) (x : Z) : list Z :=
  match n with
  | O => []
  | S n' => be_bytes n' (x / 256) ++ [x mod 256]
  end.

(** The message followed by the byte 0x80, zero bytes up to 56 modulo
    64, and the length in bits on eight bytes. *)
Definition pad (msg : list Z) : list Z :=
  let l := length msg in
  msg ++ [128] ++ replicate ((119 - l mod 64) mod 64)%nat 0
      ++ be_bytes 8 (8 * Z.of_nat l).

Fixpoint blocks (n : nat) (bytes : list Z) : list (list Z) :=
  match n with
  | O => []
  | S n' => take 64 bytes :: blocks n' (drop 64 bytes)
  end.

Definition be_word (b : list Z) : Z :=
  foldl (λ acc x, acc * 256 + x) 0 b.

Fixpoint words (n : nat) (bytes : list Z) : list Z :=
  match n with
  | O => []
  | S n' => be_word (take 4 bytes) :: words n' (drop 4 bytes)
  end.

(** The message schedule: the sixteen words of the block, extended to
    eighty. *)
Definition schedule (block : list Z) : list Z :=
  foldl (λ w t,
           let x i := nth (t - i)%nat w 0 in
           w ++ [rotl 1 (Z.lxor (Z.lxor (Z.lxor (x 3%nat) (x 8%nat)) (x 14%nat))
                           (x 16%nat))])
        (words 16 block) (seq 16 64).

Definition f (t : nat) (b c d : Z) : Z :=
  if (t <? 20)%nat then Z.lor (Z.land b c) (Z.land (not32 b) d)
  else if (t <? 40)%nat then Z.lxor (Z.lxor b c) d
  else if (t <? 60)%nat then
    Z.lor (Z.lor (Z.land b c) (Z.land b d)) (Z.land c d)
  else Z.lxor (Z.lxor b c) d.

Definition K (t : nat) : Z :=
  if (t <? 20)%nat then 1518500249
  else if (t <? 40)%nat then 1859775393
  else if (t <? 60)%nat then 2400959708
  else 3395469782.

Record state := State { h0 : Z; h1 : Z; h2 : Z; h3 : Z; h4 : Z }.

Definition init : state :=
  State 1732584193 4023233417 2562383102 271733878 3285377520.

Definition round (w : list Z) (s : state) (t : nat) : state :=
  let temp := w32 (rotl 5 (h0 s) + f t (h1 s) (h2 s) (h3 s) + h4 s + K t
                   + nth t w 0) in
  State temp (h0 s) (rotl 30 (h1 s)) (h2 s) (h3 s).

Definition compress (h : state) (block : list Z) : state :=
  let s := foldl (round (schedule block)) h (seq 0 80) in
  State (w32 (h0 h + h0 s)) (w32 (h1 h + h1 s)) (w32 (h2 h + h2 s))
        (w32 (h3 h + h3 s)) (w32 (h4 h + h4 s)).

(** The digest as one 160-bit number. *)
Definition digest (msg : list Z) : Z :=
  let p := pad msg in
  let s := foldl compress init (blocks (length p / 64) p) in
  (((h0 s * 2 ^ 32 + h1 s) * 2 ^ 32 + h2 s) * 2 ^ 32 + h3 s) * 2 ^ 32 + h4 s.

(** The hexadecimal digits of [x], [n] of them, most significant first. *)
Fixpoint hex (n : nat) (x : Z) : string :=
  match n with
  | O => EmptyString
  | S n' => hex n' (x / 16)
            +:+ String (Json.hex_digit (Z.to_N (x mod 16))) EmptyString
  end.

(** [hashlib.sha1(bytes).hexdigest()] *)
Definition hexdigest (msg : list Z) : string := hex 40 (digest msg).

End Sha1.

(** [s.encode("utf-8")] for code points below 256. *)
Fixpoint utf8 (s : string) : list Z :=
  match s with
  | EmptyString => []
  | String c r =>
      let n := Z.of_N (PyStr.code c) in
      if (n <? 128)%Z then n :: utf8 r
      else (192 + n / 64)%Z :: (128 + n mod 64)%Z :: utf8 r
  end.

(** ** Floating point numbers *)

(** The floating point numbers of the program and the operations it
    applies to them.  The functions of [math] raise [ValueError]
    outside their domain, [math.sin] and [math.cos] on an infinite
    number, [math.sqrt] on a negative number and [math.asin] outside
    the interval from -1 to 1: there they are [None].  The arithmetic
    operations return for all numbers, infinite and not-a-number
    included; the square is only taken of a sine, which does not
    overflow. *)
Class FloatOps (F : Type) := {
  f_zero : F;                          (* 0.0 *)
  f_two : F;                           (* 2 *)
  EARTH_RADIUS_M : F;                  (* 6371000.0 *)
  f_add : F → F → F;
  f_sub : F → F → F;
  f_mul : F → F → F;
  f_div : F → F → F;
  f_square : F → F;                    (* x ** 2 *)
  f_radians : F → F;                   (* math.radians *)
  f_sin : F → option F;                (* math.sin *)
  f_cos : F → option F;                (* math.cos *)
  f_asin : F → option F;               (* math.asin *)
  f_sqrt : F → option F;               (* math.sqrt *)
  f_leb : F → F → bool;                (* x <= y *)
  f_ltb : F → F → bool;                (* x < y *)
  f_mean : list F → F;                 (* Series.mean() *)
  f_round2 : F → F;                    (* round(x, 2) *)
  f_repr : F → string;                 (* str(x) *)
  to_numeric : string → option F       (* pd.to_numeric(errors="coerce");
                                          [None] is NaN, the missing value *)
}.

Section Program.
Context {F : Type} `{FloatOps F}.

(** A call of a function of [math]. *)
Definition math (y : option F) : result F :=
  match y with
  | Some v => Ok v
  | None => Raise ValueError
  end.

(** [haversine_m(lat1, lon1, lat2, lon2)], the calls of [math] in the
    order in which the expression is evaluated. *)
Definition haversine_m (lat1 lon1 lat2 lon2 : F) : result F :=
  let phi1 := f_radians lat1 in
  let phi2 := f_radians lat2 in
  let dphi := f_sub phi2 phi1 in
  let dlambda := f_radians (f_sub lon2 lon1) in
  do sin_dphi <- math (f_sin (f_div dphi f_two));
  do cos_phi1 <- math (f_cos phi1);
  do cos_phi2 <- math (f_cos phi2);
  do sin_dlambda <- math (f_sin (f_div dlambda f_two));
  let a := f_add (f_square sin_dphi)
                 (f_mul (f_mul cos_phi1 cos_phi2) (f_square sin_dlambda)) in
  do root <- math (f_sqrt a);
  do angle <- math (f_asin root);
  Ok (f_mul (f_mul f_two EARTH_RADIUS_M) angle).

(** The great-circle distance as the specification has it: the length
    of the shortest path between two points, given by latitude and
    longitude in degrees, on a sphere of the radius of the Earth.  By
    the haversine formula it is
      2 R asin (sqrt (hav (phi2 - phi1) + cos phi1 cos phi2 hav dlambda))
    with hav x = sin(x / 2) ** 2, [phi1] and [phi2] the latitudes and
    [dlambda] the difference of the longitudes, in radians.  It is
    undefined where one of the functions is. *)
Definition hav (x : F) : option F :=
  s ← f_sin (f_div x f_two); Some (f_square s).

Definition great_circle_distance (lat1 lon1 lat2 lon2 : F) : option F :=
  let phi1 := f_radians lat1 in
  let phi2 := f_radians lat2 in
  h_lat ← hav (f_sub phi2 phi1);
  c1 ← f_cos phi1;
  c2 ← f_cos phi2;
  h_lon ← hav (f_radians (f_sub lon2 lon1));
  chord ← f_sqrt (f_add h_lat (f_mul (f_mul c1 c2) h_lon));
  angle ← f_asin chord;
  Some (f_mul (f_mul f_two EARTH_RADIUS_M) angle).

(** [max(a, b)] of two floats: [b] only when it is greater. *)
Definition py_max (a b : F) : F := if f_ltb a b then b else a.

(** ** Rows *)

(** A row of the data frame once the coordinates are numeric: the
    text cells by column name, and the two coordinates. *)
Record Row := {
  cells : list (string * string);
  row_longitude : F;
  row_latitude : F
}.

(** A value found in a row. *)
Inductive pyval :=
| VStr (s : string)
| VFloat (x : F).

(** [str(v)] *)
Definition py_str (v : pyval) : string :=
  match v with
  | VStr s => s
  | VFloat x => f_repr x
  end.

(** [r.get(f)] *)
Definition row_get (r : Row) (f : string) : option pyval :=
  if String.eqb f "longitude" then Some (VFloat (row_longitude r))
  else if String.eqb f "latitude" then Some (VFloat (row_latitude r))
  else VStr <$> assoc_get (cells r) f.

(** [r.get(f)] for a column of text. *)
Definition row_get_text (r : Row) (f : string) : option string :=
  assoc_get (cells r) f.

(** ** Signature builder *)

(** The value stored under field [f] for row [r]; [days] is the
    normalised day list of the row. *)
Definition field_value (r : Row) (days : string) (f : string) : result string :=
  if String.eqb f "days" then Ok days
  else if String.eqb f "from_time" then norm_time (row_get_text r "from_time")
  else if String.eqb f "to_time" then norm_time (row_get_text r "to_time")
  else Ok (match row_get r f with
           | None => ""
           | Some v => py_str v
           end).

(** The loop over [fields] that fills [rec]. *)
Fixpoint fill_rec (r : Row) (days : string) (fields : list string) (rec : dict)
  : result dict :=
  match fields with
  | [] => Ok rec
  | f :: fs =>
      do v <- field_value r days f;
      fill_rec r days fs (dict_set rec f v)
  end.

(** The record built for one row. *)
Definition build_entry (fields : list string) (r : Row) : result dict :=
  let days := canonical_days (row_get_text r "days") (row_get_text r "day") in
  fill_rec r days fields [].

(** [sorted(uniq)] for a set of strings. *)
Definition sorted_strings (uniq : gset string) : list string :=
  merge_sort String.le (elements uniq).

Definition json_loads (s : string) : result dict :=
  match Json.loads s with
  | Some d => Ok d
  | None => Raise JSONDecodeError
  end.

(** The second half of [build_schedule_signature], from the list of
    records on: the canonical text that is hashed. *)
Definition signature_raw (entries_sorted : list dict) : string :=
  Json.dumps_list true false entries_sorted.

Definition signature_of_entries (entries : list dict)
  : result (string * list dict) :=
  let uniq : gset string :=
    list_to_set (map (Json.dumps_dict_sorted true) entries) in
  do entries_sorted <- rmap json_loads (sorted_strings uniq);
  let raw := signature_raw entries_sorted in
  let h := Sha1.hexdigest (utf8 raw) in
  Ok (h, entries_sorted).

(** [build_schedule_signature(meter_df, fields)] *)
Definition build_schedule_signature (meter_df : list Row) (fields : list string)
  : result (string * list dict) :=
  do entries <- rmap (build_entry fields) meter_df;
  signature_of_entries entries.

End Program.

Arguments Row : clear implicits.
Arguments pyval : clear implicits.

(** ** Indexing a list *)

(** The position that a Python [int] names as an index of a list of
    [n] elements: [i] itself from 0 to [n - 1], [n + i] from [-n] to
    -1, and none, which raises [IndexError], elsewhere. *)
Definition position (n : nat) (i : Z) : option nat :=
  if decide (0 ≤ i < Z.of_nat n)%Z then Some (Z.to_nat i)
  else if decide (- Z.of_nat n ≤ i < 0)%Z then Some (Z.to_nat (Z.of_nat n + i))
  else None.

(** [l[i]] *)
Definition list_get {A} (l : list A) (i : Z) : option A :=
  k ← position (length l) i; l !! k.

(** [l[i] = v] *)
Definition list_set {A} (l : list A) (i : Z) (v : A) : option (list A) :=
  k ← position (length l) i; Some (<[k := v]> l).

(** ** Union-find *)

Module UnionFind.

(** The two arrays of the structure: parents and ranks.  A parent is
    one of the numbers of [range(n)] that the structure starts with,
    a natural number; the argument of [find] and of [union] is any
    [int]. *)
Record t := Make { p : list nat; r : list nat }.

(** [UnionFind(n)]; [range(n)] and [[0]*n] are empty for a negative
    [n]. *)
Definition init (n : Z) : t :=
  {| p := seq 0 (Z.to_nat n); r := replicate (Z.to_nat n) 0 |}.

(** The loop of [find], at most [fuel] rounds of it.  [None] when an
    index is out of range or the rounds are used up.  The loop ends
    with [p[x] == x], and returns this [x], which then is a parent. *)
Fixpoint find_loop (fuel : nat) (p : list nat) (x : Z)
  : option (list nat * nat) :=
  match fuel with
  | O => None
  | S fuel =>
      px ← list_get p x;
      if (Z.of_nat px =? x)%Z then Some (p, Z.to_nat x)
      else
        ppx ← list_get p (Z.of_nat px);
        p' ← list_set p x ppx;
        x' ← list_get p' x;
        find_loop fuel p' (Z.of_nat x')
  end.

(** [uf.find(x)]: the structure after path halving and the
    representative.  Ranks grow strictly along parent links, so two
    rounds more than the largest rank are enough (see [find_spec]);
    the first round of a negative index ends at its position. *)
Definition find (uf : t) (x : Z) : option (t * nat) :=
  '(p', root) ← find_loop (S (S (max_list (r uf)))) (p uf) x;
  Some ({| p := p'; r := r uf |}, root).

(** [uf.union(a, b)]; the representatives [ra] and [rb] are
    positions. *)
Definition union (uf : t) (a b : Z) : option t :=
  '(uf1, ra) ← find uf a;
  '(uf2, rb) ← find uf1 b;
  if (ra =? rb)%nat then Some uf2
  else
    rank_a ← r uf2 !! ra;
    rank_b ← r uf2 !! rb;
    if (rank_a <? rank_b)%nat then
      Some {| p := <[ra := rb]> (p uf2); r := r uf2 |}
    else if (rank_b <? rank_a)%nat then
      Some {| p := <[rb := ra]> (p uf2); r := r uf2 |}
    else
      Some {| p := <[rb := ra]> (p uf2); r := <[ra := S rank_a]> (r uf2) |}.

End UnionFind.

(** *** The forest of a union-find structure *)

(** [repr p x a]: following the parent links of [p] from [x] ends at
    the root [a]. *)
Inductive repr (p : list nat) : nat → nat → Prop :=
| repr_root x : p !! x = Some x → repr p x x
| repr_step x y a : p !! x = Some y → y ≠ x → repr p y a → repr p x a.

(** Two elements with the same root. *)
Definition same_set (p : list nat) (x y : nat) : Prop :=
  ∃ a, repr p x a ∧ repr p y a.

(** The structure is well formed: as many ranks as parents, parents
    within range, and ranks growing strictly along parent links. *)
Definition uf_inv (uf : UnionFind.t) : Prop :=
  length (UnionFind.r uf) = length (UnionFind.p uf)
  ∧ (∀ x y, UnionFind.p uf !! x = Some y → y < length (UnionFind.p uf))
  ∧ (∀ x y rx ry,
       UnionFind.p uf !! x = Some y → y ≠ x →
       UnionFind.r uf !! x = Some rx → UnionFind.r uf !! y = Some ry → rx < ry).

(** ** Clusterer *)

(** The pairs [(i, j)] visited by
    [for i in range(n): for j in range(i+1, n)], in order. *)
Definition index_pairs (n : nat) : list (nat * nat) :=
  i ← seq 0 n; j ← seq (S i) (n - S i); [(i, j)].

(** The renumbering loop: [uniq] maps a root to its label, [next_id]
    is the next free label. *)
Definition relabel_step (st : gmap nat nat * nat * list nat) (root : nat)
  : gmap nat nat * nat * list nat :=
  let '(uniq, next_id, labels) := st in
  match uniq !! root with
  | None => (<[root := next_id]> uniq, S next_id, labels ++ [next_id])
  | Some l => (uniq, next_id, labels ++ [l])
  end.

Definition relabel (roots : list nat) : list nat :=
  (foldl relabel_step (∅, 0%nat, []) roots).2.

(** [[uniq[lab] for lab in labels]] with
    [uniq = {lab: i for i, lab in enumerate(sorted(set(labels)))}];
    [None] stands for [KeyError]. *)
Definition reindex_labels (labels : list Z) : option (list nat) :=
  let order := merge_sort Z.le (elements (list_to_set labels : gset Z)) in
  mapM (λ lab, fst <$> list_find (λ x, x = lab) order) labels.

(** What the renumbering loop maintains. *)
Definition relabel_inv (roots : list nat) (st : gmap nat nat * nat * list nat)
  : Prop :=
  let '(uniq, next_id, labels) := st in
  length labels = length roots
  ∧ (∀ i root, roots !! i = Some root →
       ∃ l, labels !! i = Some l ∧ uniq !! root = Some l)
  ∧ (∀ root l, uniq !! root = Some l → root ∈ roots)
  ∧ (∀ root root' l, uniq !! root = Some l → uniq !! root' = Some l → root = root')
  ∧ (∀ l, l ∈ labels ↔ (l < next_id)%nat)
  ∧ (∀ i, ∃ K, ∀ l, l ∈ take i labels ↔ (l < K)%nat).

Section Clusterer.
Context {F : Type} `{FloatOps F}.

(** The labels computed by scikit-learn,
    [DBSCAN(eps=radius_m / EARTH_RADIUS_M, min_samples=1,
            metric="haversine").fit_predict(X)]
    with [X] the points in radians, or the exception raised when the
    library is missing or fails. *)
Variable sklearn_dbscan : list F → list F → F → result (list Z).

(** The distance test of one pair of the fallback. *)
Definition within_radius (lats lons : list F) (radius_m : F) (i j : nat)
  : result bool :=
  do lat_i <- indexed (lats !! i);
  do lon_i <- indexed (lons !! i);
  do lat_j <- indexed (lats !! j);
  do lon_j <- indexed (lons !! j);
  do d <- haversine_m lat_i lon_i lat_j lon_j;
  Ok (f_leb d radius_m).

(** One round of the inner loop of the fallback. *)
Definition fallback_step (lats lons : list F) (radius_m : F)
    (uf : UnionFind.t) (ij : nat * nat) : result UnionFind.t :=
  do near <- within_radius lats lons radius_m ij.1 ij.2;
  if near : bool
  then indexed (UnionFind.union uf (Z.of_nat ij.1) (Z.of_nat ij.2))
  else Ok uf.

(** [[uf.find(i) for i in range(n)]], with the structure threaded
    through the calls. *)
Definition find_all (uf : UnionFind.t) (n : nat) : result (list nat) :=
  do st <- rfoldl (λ st i,
                     do st' <- indexed (UnionFind.find st.1 (Z.of_nat i));
                     Ok (st'.1, st.2 ++ [st'.2]))
                  (uf, []) (seq 0 n);
  Ok st.2.

(** The fallback strategy of [cluster_points_haversine], the code
    after the [try] block.  It raises [ValueError] when a distance is
    undefined, and [IndexError] when an index is out of range. *)
Definition cluster_fallback (lats lons : list F) (radius_m : F)
  : result (list nat) :=
  let n := length lats in
  do uf <- rfoldl (fallback_step lats lons radius_m)
                  (UnionFind.init (Z.of_nat n)) (index_pairs n);
  do roots <- find_all uf n;
  Ok (relabel roots).

(** [cluster_points_haversine(lats, lons, radius_m)]: the [try] block
    catches every exception but [SystemExit]. *)
Definition cluster_points_haversine (lats lons : list F) (radius_m : F)
  : result (list nat) :=
  let fallback := cluster_fallback lats lons radius_m in
  match length lats with
  | O => Ok []
  | S _ =>
      match sklearn_dbscan lats lons radius_m with
      | inr labels =>
          match reindex_labels labels with
          | Some l => Ok l
          | None => fallback
          end
      | inl (SystemExit msg) => Raise (SystemExit msg)
      | inl _ => fallback
      end
  end.

End Clusterer.

(** The great-circle distance from point [i] to point [j] of a list
    of points, each a latitude and a longitude. *)
Definition point_distance {F} `{FloatOps F} (pts : list (F * F)) (i j : nat)
  : option F :=
  a ← pts !! i; b ← pts !! j; great_circle_distance a.1 a.2 b.1 b.2.

(** Point [i] and a later point [j] are near: at most [radius_m]
    meters of great-circle distance apart, in the order [<=] of the
    floating point numbers. *)
Definition near {F} `{FloatOps F} (pts : list (F * F)) (radius_m : F)
    (i j : nat) : Prop :=
  (i < j)%nat ∧ ∃ d, point_distance pts i j = Some d ∧ f_leb d radius_m = true.

(** ** Grouping *)

(** Adds [a] to the group of key [k], a new last group when [k] is new. *)
Fixpoint group_insert {K A} `{EqDecision K} (gs : list (K * list A))
    (k : K) (a : A) : list (K * list A) :=
  match gs with
  | [] => [(k, [a])]
  | (k', l) :: rest =>
      if decide (k' = k) then (k', l ++ [a]) :: rest
      else (k', l) :: group_insert rest k a
  end.

(** [df.groupby(key, sort=False)]: the groups in the order in which
    their keys first occur, each with its rows in input order. *)
Definition groupby {K A} `{EqDecision K} (key : A → K) (l : list A)
  : list (K * list A) :=
  foldl (λ gs a, group_insert gs (key a) a) [] l.

(** Order of the groups under an integer key. *)
Definition group_le {A} (g1 g2 : nat * A) : Prop := (g1.1 ≤ g2.1)%nat.

Global Instance group_le_dec {A} : RelDecision (@group_le A).
Proof. intros g1 g2. unfold group_le. apply _. Defined.

(** [df.groupby(key)] for integer keys: the groups by increasing key. *)
Definition groupby_sorted {A} (key : A → nat) (l : list A)
  : list (nat * list A) :=
  merge_sort group_le (groupby key l).

(** ** Orchestrator *)

(** The input table as read by [pd.read_csv(..., dtype=str,
    keep_default_na=False)]: the column names and, for each row, its
    cells by column name.  Every row has a cell for every column. *)
Record Table := {
  columns : list string;
  rows : list (list (string * string))
}.

(** The files the program writes, [None] while a file is not written. *)
Record Files (C M : Type) := {
  clusters_csv : option (list C);
  members_csv : option (list M)
}.
Arguments clusters_csv {C M} _.
Arguments members_csv {C M} _.

(** [repr] of a list of column names, which need no escaping. *)
Definition repr_names (names : list string) : string :=
  "[" +:+ PyStr.join ", " (map (λ s, "'" +:+ s +:+ "'") names) +:+ "]".

(** The set [required_cols]. *)
Definition required_cols : gset string :=
  {["post_id"; "longitude"; "latitude"]}.

(** The order in which a run of the interpreter goes through the
    elements of a set of strings.  It follows the hashes of the
    strings, which change with the hash seed of the run; every element
    comes once. *)
Class HashSeed := {
  set_iter : gset string → list string;
  set_iter_elements s : set_iter s ≡ₚ elements s
}.

(** The columns of [required_cols] that the table lacks, as the list
    comprehension of [main] computes them: in the order in which the
    run goes through the set. *)
Definition missing_columns `{HashSeed} (df : Table) : list string :=
  filter (λ c, ¬ (c ∈ columns df)) (set_iter required_cols).

Section Orchestrator.
Context {F : Type} `{FloatOps F} `{HashSeed}.
Variable sklearn_dbscan : list F → list F → F → result (list Z).

(** The command line: the table found in the input file, the radius
    and the signature fields. *)
Record Args := {
  input_csv : Table;
  radius_m : F;
  signature_fields : list string
}.

(** One element of [meters]. *)
Record Meter := {
  post_id : string;
  longitude : F;
  latitude : F;
  street_name : string;
  street_num : string;
  blockface_id : string;
  cap_color : string;
  schedule_hash : string;
  schedule_json : string
}.

(** One element of [cluster_records]. *)
Record ClusterRecord := {
  c_cluster_id : string;
  c_schedule_hash : string;
  count_meters : nat;
  post_ids : string;
  centroid_latitude : F;
  centroid_longitude : F;
  approx_max_radius_m : F;
  street_name_mode : string;
  cap_color_mode : string;
  blockface_ids : string;
  c_schedule_json : string
}.

(** One element of [member_records]. *)
Record MemberRecord := {
  m_cluster_id : string;
  m_post_id : string;
  m_latitude : F;
  m_longitude : F;
  m_street_name : string;
  m_street_num : string;
  m_blockface_id : string;
  m_cap_color : string;
  m_schedule_hash : string
}.

(** The numeric conversion of the two coordinate columns followed by
    [dropna]: a row whose longitude or latitude is not a number is
    dropped. *)
Definition coerce_row (raw : list (string * string)) : option (Row F) :=
  lon ← assoc_get raw "longitude" ≫= to_numeric;
  lat ← assoc_get raw "latitude" ≫= to_numeric;
  Some {| cells := raw; row_longitude := lon; row_latitude := lat |}.

Definition numeric_rows (df : Table) : list (Row F) := omap coerce_row (rows df).

(** [mode(g.get(col, [])) if col in g else ""] *)
Definition column_mode (cols : list string) (g : list (Row F)) (col : string)
  : string :=
  if in_list col cols
  then mode (map (λ r, default "" (row_get_text r col)) g)
  else "".

(** The dictionary appended to [meters] for the group [g] of post
    [pid]. *)
Definition build_meter (cols fields : list string) (pid : string)
    (g : list (Row F)) : result Meter :=
  do sig <- build_schedule_signature g fields;
  Ok {| post_id := pid;
        longitude := f_mean (map row_longitude g);
        latitude := f_mean (map row_latitude g);
        street_name := column_mode cols g "street_name";
        street_num := column_mode cols g "street_num";
        blockface_id := column_mode cols g "blockface_id";
        cap_color := column_mode cols g "cap_color";
        schedule_hash := sig.1;
        schedule_json := Json.dumps_list false false sig.2 |}.

(** The first loop of [main]: one meter per post, in the order in
    which the posts first occur. *)
Definition build_meters (cols fields : list string) (df : list (Row F))
  : result (list Meter) :=
  rmap (λ g, build_meter cols fields g.1 g.2)
       (groupby (λ r, default "" (row_get_text r "post_id")) df).

(** [f"C{global_cluster_id:05d}"] *)
Definition cluster_id_of (global_cluster_id : nat) : string :=
  String "C" (PyStr.format_0d 5 (Z.of_nat global_cluster_id)).

(** The diagnostic radius: the loop that starts from 0.0 and takes the
    maximum with the distance of each member to the centroid. *)
Definition max_radius (clat clon : F) (sub : list Meter) : result F :=
  rfoldl (λ max_r m,
            do d <- haversine_m clat clon (latitude m) (longitude m);
            Ok (py_max max_r d))
         f_zero sub.

(** The dictionary appended to [cluster_records], [max_r] being the
    radius that the loop has found. *)
Definition cluster_summary (cid shash : string) (sub : list Meter) (max_r : F)
  : ClusterRecord :=
  let clat := f_mean (map latitude sub) in
  let clon := f_mean (map longitude sub) in
  {| c_cluster_id := cid;
     c_schedule_hash := shash;
     count_meters := length sub;
     post_ids := PyStr.join "|" (merge_sort String.le (map post_id sub));
     centroid_latitude := clat;
     centroid_longitude := clon;
     approx_max_radius_m := f_round2 max_r;
     street_name_mode := mode (map street_name sub);
     cap_color_mode := mode (map cap_color sub);
     blockface_ids :=
       PyStr.join "|"
         (sorted_strings
            (list_to_set
               (filter (λ x, PyStr.truthy (PyStr.strip x)) (map blockface_id sub))));
     c_schedule_json := default "" (schedule_json <$> head sub) |}.

Definition member_record (cid shash : string) (m : Meter) : MemberRecord :=
  {| m_cluster_id := cid;
     m_post_id := post_id m;
     m_latitude := latitude m;
     m_longitude := longitude m;
     m_street_name := street_name m;
     m_street_num := street_num m;
     m_blockface_id := blockface_id m;
     m_cap_color := cap_color m;
     m_schedule_hash := shash |}.

(** The state of the second loop of [main]. *)
Record Acc := {
  global_cluster_id : nat;
  cluster_records : list ClusterRecord;
  member_records : list MemberRecord
}.

(** One round of the loop over the local clusters of a group. *)
Definition emit_cluster (shash : string) (acc : Acc) (sub : list Meter)
  : result Acc :=
  let gid := S (global_cluster_id acc) in
  let cid := cluster_id_of gid in
  let clat := f_mean (map latitude sub) in
  let clon := f_mean (map longitude sub) in
  do max_r <- max_radius clat clon sub;
  Ok {| global_cluster_id := gid;
        cluster_records :=
          cluster_records acc ++ [cluster_summary cid shash sub max_r];
        member_records :=
          member_records acc ++ map (member_record cid shash) sub |}.

(** [g["local_cluster"] = labels; g.groupby("local_cluster")]: the
    assignment raises [ValueError] when there is not one label per
    row. *)
Definition split_by_label (g : list Meter) (labels : list nat)
  : result (list (list Meter)) :=
  if decide (length labels = length g) then
    Ok (map (λ grp, map snd grp.2)
            (groupby_sorted fst (zip labels g)))
  else Raise ValueError.

(** One round of the loop over the signature groups. *)
Definition cluster_group (radius : F) (acc : Acc) (g : string * list Meter)
  : result Acc :=
  do labels <- cluster_points_haversine sklearn_dbscan
                 (map latitude g.2) (map longitude g.2) radius;
  do subs <- split_by_label g.2 labels;
  rfoldl (emit_cluster g.1) acc subs.

Fixpoint cluster_groups (radius : F) (acc : Acc)
    (groups : list (string * list Meter)) : result Acc :=
  match groups with
  | [] => Ok acc
  | g :: rest =>
      do acc' <- cluster_group radius acc g;
      cluster_groups radius acc' rest
  end.

(** [main()], from the table read from the input file to the two
    files written.  An empty list of meters makes a data frame without
    columns, on which [groupby("schedule_hash")] raises [KeyError]; a
    distance that is undefined raises [ValueError]. *)
Definition main (args : Args) (fs : Files ClusterRecord MemberRecord)
  : result unit * Files ClusterRecord MemberRecord :=
  let df := input_csv args in
  let missing := missing_columns df in
  match missing with
  | _ :: _ =>
      (Raise (SystemExit ("Missing required columns in input CSV: "
                           +:+ repr_names missing)), fs)
  | [] =>
      match
        (do meters <- build_meters (columns df) (signature_fields args)
                        (numeric_rows df);
         match meters with
         | [] => Raise (KeyError "schedule_hash")
         | _ :: _ =>
             cluster_groups (radius_m args)
               {| global_cluster_id := 0; cluster_records := [];
                  member_records := [] |}
               (groupby schedule_hash meters)
         end)
      with
      | inr acc =>
          (Ok (), {| clusters_csv := Some (cluster_records acc);
                     members_csv := Some (member_records acc) |})
      | inl e => (Raise e, fs)
      end
  end.

End Orchestrator.

Arguments Args : clear implicits.
Arguments Meter : clear implicits.
Arguments ClusterRecord : clear implicits.
Arguments MemberRecord : clear implicits.
Arguments Acc : clear implicits.

(** The radius found for a cluster all of whose members have a
    distance to the centroid, as those of a run that ends well have. *)
Definition radius_of {F} `{FloatOps F} (sub : list (Meter F)) : F :=
  match max_radius (f_mean (map latitude sub)) (f_mean (map longitude sub)) sub with
  | inr max_r => max_r
  | inl _ => f_zero
  end.

(** Every member of the cluster has a distance to the centroid. *)
Definition radius_defined {F} `{FloatOps F} (sub : list (Meter F)) : Prop :=
  ∃ max_r,
    max_radius (f_mean (map latitude sub)) (f_mean (map longitude sub)) sub
    = Ok max_r.

(** The row written for such a cluster. *)
Definition cluster_record {F} `{FloatOps F} (cid shash : string)
    (sub : list (Meter F)) : ClusterRecord F :=
  cluster_summary cid shash sub (radius_of sub).

(** The rows written for a run of clusters, given as the signature
    hash and the members of each, when [gid0] identifiers are already
    in use. *)
Definition cluster_rows_of {F} `{FloatOps F} (gid0 : nat)
    (es : list (string * list (Meter F))) : list (ClusterRecord F) :=
  imap (λ i e, cluster_record (cluster_id_of (S (gid0 + i))) e.1 e.2) es.

Definition member_rows_of {F} `{FloatOps F} (gid0 : nat)
    (es : list (string * list (Meter F))) : list (list (MemberRecord F)) :=
  imap (λ i e, map (member_record (cluster_id_of (S (gid0 + i))) e.1) e.2) es.

(** What the second loop of [main] has emitted for [groups]: clusters
    that are not empty, that together hold the meters of the groups,
    and each of which lies within one group and carries its hash. *)
Definition emitted {F} (groups es : list (string * list (Meter F))) : Prop :=
  Forall (λ e, e.2 ≠ []) es
  ∧ concat es.*2 ≡ₚ concat groups.*2
  ∧ Forall (λ e, ∃ g, g ∈ groups ∧ e.1 = g.1 ∧ ∀ m, m ∈ e.2 → m ∈ g.2) es.

Section fallback_invariant.
Context {F : Type} `{FloatOps F}.
Variables (lats lons : list F) (radius_m : F).

(** The edges found among the pairs already visited. *)
Definition edge_in (visited : list (nat * nat)) (i j : nat) : Prop :=
  (i, j) ∈ visited ∧ within_radius lats lons radius_m i j = Ok true.

(** What the double loop maintains. *)
Definition fallback_inv (visited : list (nat * nat)) (uf : UnionFind.t)
  : Prop :=
  uf_inv uf ∧ length (UnionFind.p uf) = length lats
  ∧ (∀ x y, same_set (UnionFind.p uf) x y → rtsc (edge_in visited) x y)
  ∧ (∀ i j, edge_in visited i j → same_set (UnionFind.p uf) i j).

End fallback_invariant.

(** The text of a list of records: its closing part after a record. *)
Definition list_tail_text (l : list dict) : string :=
  match l with
  | [] => "]"
  | _ :: _ => ", " +:+ PyStr.join ", " (map (Json.dumps_dict_sorted false) l) +:+ "]"
  end.

(** Reading a zero-padded decimal text back. *)
Definition read_decimal (s : string) : option N :=
  N.of_uint <$> NilEmpty.uint_of_string s.

(** ** An instance for the examples *)

(** Integers in place of floating point numbers: points on a grid,
    with a distance that grows with the offsets in latitude and
    longitude.  An angle of more than a million is out of the grid:
    it has no sine and no cosine, as an infinite angle has none. *)
Global Instance grid_floats : FloatOps Z := {|
  f_zero := 0%Z;
  f_two := 2%Z;
  EARTH_RADIUS_M := 1%Z;
  f_add := Z.add;
  f_sub := Z.sub;
  f_mul := Z.mul;
  f_div := Z.div;
  f_square := λ x, (x * x)%Z;
  f_radians := λ x, x;
  f_sin := λ x, if (Z.abs x <=? 1000000)%Z then Some x else None;
  f_cos := λ x, if (Z.abs x <=? 1000000)%Z then Some 1%Z else None;
  f_asin := λ x, Some x;
  f_sqrt := λ x, if (x <? 0)%Z then None else Some (Z.sqrt x);
  f_leb := Z.leb;
  f_ltb := Z.ltb;
  f_mean := λ l, (foldr Z.add 0 l / Z.of_nat (length l))%Z;
  f_round2 := λ x, x;
  f_repr := PyStr.format_0d 0;
  to_numeric := PyStr.int
|}.

(** A run that goes through a set of strings in the order of the
    strings. *)
Definition sorted_seed : HashSeed :=
  {| set_iter := elements;
     set_iter_elements := λ s, Permutation_refl (elements s) |}.

(** scikit-learn is not installed. *)
Definition no_sklearn {F} (lats lons : list F) (radius_m : F)
  : result (list Z) := Raise ImportError.

(** A row of a meter at the origin, for the examples. *)
Definition example_row (days from_time : string) : Row Z :=
  {| cells := [("post_id", "7"); ("days", days); ("from_time", from_time)];
     row_longitude := 0%Z; row_latitude := 0%Z |}.


(** The exit status of the process: [sys.exit] with a message, like an
    exception that is not caught, ends it with status 1. *)
Definition exit_status {A} (r : result A) : nat :=
  match r with
  | inr _ => 0
  | inl _ => 1
  end.

(** A table of four meters for the examples: two schedules, posts 1
    and 2 ten units apart, post 3 far away, and a row whose latitude
    is not a number. *)
Definition example_table : Table := {|
  columns := ["post_id"; "longitude"; "latitude"; "days"; "from_time"];
  rows :=
    [[("post_id", "1"); ("longitude", "0"); ("latitude", "0");
      ("days", "Mo,Tu"); ("from_time", "7:00 AM")];
     [("post_id", "2"); ("longitude", "10"); ("latitude", "0");
      ("days", "Tu,Mo"); ("from_time", "07:00")];
     [("post_id", "3"); ("longitude", "500"); ("latitude", "0");
      ("days", "Mo,Tu"); ("from_time", "07:00")];
     [("post_id", "4"); ("longitude", "0"); ("latitude", "0");
      ("days", "Sa"); ("from_time", "09:00")];
     [("post_id", "5"); ("longitude", "0"); ("latitude", "north");
      ("days", "Sa"); ("from_time", "09:00")]]
|}.

Definition example_args : Args Z := {|
  input_csv := example_table;
  radius_m := 20%Z;
  signature_fields := ["days"; "from_time"]
|}.

(** No output file exists yet. *)
Definition no_files {C M} : Files C M :=
  {| clusters_csv := None; members_csv := None |}.

(** The example table without its latitude column. *)
Definition example_args_no_latitude : Args Z := {|
  input_csv := {| columns := ["post_id"; "longitude"; "days"];
                  rows := [[("post_id", "1"); ("longitude", "0"); ("days", "Mo")]] |};
  radius_m := 20%Z;
  signature_fields := ["days"; "from_time"]
|}.
(** ** Characters of a string *)

(** Every character of [s] satisfies [P]. *)
Fixpoint all_chars (P : ascii → bool) (s : string) : bool :=
  match s with
  | EmptyString => true
  | String c r => P c && all_chars P r
  end.

(** A string that [strip] leaves as it is. *)
Definition trimmed (s : string) : Prop := PyStr.strip s = s.

(** A character other than [sep]. *)
Definition is_not (sep : ascii) (c : ascii) : bool := negb (Ascii.eqb c sep).

(** A character that is no white space. *)
Definition nonspace (c : ascii) : bool := negb (PyStr.isspace c).

(** ** Decimal digits *)

(** The digit of value [v] put in front of the digits [lu], which are
    given least significant first. *)
Definition lu_cons (v : N) (lu : Decimal.uint) : Decimal.uint :=
  match v with
  | 0 => Decimal.D0 lu | 1 => Decimal.D1 lu | 2 => Decimal.D2 lu
  | 3 => Decimal.D3 lu | 4 => Decimal.D4 lu | 5 => Decimal.D5 lu
  | 6 => Decimal.D6 lu | 7 => Decimal.D7 lu | 8 => Decimal.D8 lu
  | _ => Decimal.D9 lu
  end%N.

(** The number of decimal digits of [n], as [str(n)] prints them. *)
Definition decimal_length (n : N) : nat := Decimal.nb_digits (N.to_uint n).

(** * The schedule builder, [parseMeterCsv.py] *)

(** ** Time parser *)

(** The hour of a 24-hour clock in [strptime]:
      %H  is  2[0-3]|[0-1]\d|\d *)
Definition match_H {A} (s : string) (k : N -> string -> option A) : option A :=
  let alt1 :=
    match s with
    | String "2" (String c r) =>
        if in_range 48 51 c then k (20 + PyStr.digit_val c)%N r else None
    | _ => None
    end in
  let alt2 :=
    match s with
    | String c (String d r) =>
        if in_range 48 49 c && PyStr.isdigit d
        then k (10 * PyStr.digit_val c + PyStr.digit_val d)%N r else None
    | _ => None
    end in
  let alt3 :=
    match s with
    | String c r => if PyStr.isdigit c then k (PyStr.digit_val c) r else None
    | _ => None
    end in
  match alt1 with
  | Some a => Some a
  | None => match alt2 with Some a => Some a | None => alt3 end
  end.

(** [strptime(s, "%H:%M")] as (hour, minute). *)
Definition strptime_HM (s : string) : exn + (N * N) :=
  match
    match_H s (fun h s1 =>
    match_char ":" s1 (fun s2 =>
    match_M s2 (fun m rest => Some (h, m, rest))))
  with
  | Some (h, m, rest) => check_end h m rest
  | None => inl ValueError
  end.

(** A loop of [parse_time] over formats: the first format that parses
    gives the result, [ValueError] moves on to the next format, and
    [None] is left when no format parses. *)
Fixpoint parse_time_loop (fmts : list (string -> exn + (N * N))) (s : string)
  : exn + option string :=
  match fmts with
  | [] => inr None
  | f :: rest =>
      match f s with
      | inr hm => inr (Some (strftime_HM hm))
      | inl ValueError => parse_time_loop rest s
      | inl e => inl e
      end
  end.

(** [parse_time(s)]: [inl e] when exception [e] escapes, [inr r] when
    [r] is returned. *)
Definition parse_time (s : option string) : exn + option string :=
  match s with
  | None => inr None
  | Some s =>
      let s := PyStr.strip s in
      if negb (PyStr.truthy s) || in_list (PyStr.lower s) ["nan"; "none"]
      then inr None
      else
        match parse_time_loop [strptime_IMp; strptime_HM] s with
        | inr None => parse_time_loop [strptime_Ip] s
        | r => r
        end
  end.

(** A text of one or two digits that [int] reads as [n]. *)
Definition numeral (p : string) (n : N) : Prop :=
  all_chars PyStr.isdigit p = true
  ∧ (1 ≤ String.length p ≤ 2)%nat
  ∧ PyStr.int p = Some (Z.of_N n).

(** A time of day as [strftime("%H:%M")] prints it. *)
Definition clock_text (r : string) : Prop :=
  ∃ h m, (h < 24)%N ∧ (m < 60)%N ∧ r = strftime_HM (h, m).

(** The test of [norm_time] for a 12-hour mark in the text. *)
Definition has_am_pm (s : string) : bool :=
  PyStr.contains "am" (PyStr.lower s) || PyStr.contains "pm" (PyStr.lower s).

(** A character that is neither a colon nor, in any case, one of the
    letters "a" and "p": a digit or a sign, for instance. *)
Definition time_char (c : ascii) : bool :=
  is_not ":" c
  && negb (Ascii.eqb (PyStr.lower_char c) "a")
  && negb (Ascii.eqb (PyStr.lower_char c) "p")
  && nonspace c.

(** ** Day parser *)

(** [str.title] gives a text that may hold code points of 256 and
    more, so its result is given as a list of code points. *)

(** The characters with a case, among the code points below 256. *)
Definition cased (c : ascii) : bool :=
  let n := PyStr.code c in
  ((65 <=? n) && (n <=? 90) || (97 <=? n) && (n <=? 122)
   || (n =? 170) || (n =? 181) || (n =? 186)
   || (192 <=? n) && (n <=? 214) || (216 <=? n) && (n <=? 246)
   || (248 <=? n))%N.

(** The title case of one character: the capital letter, which for
    the sharp s is "Ss" and for the micro sign and the y with
    diaeresis lies above 255. *)
Definition title_char (c : ascii) : list N :=
  let n := PyStr.code c in
  if ((97 <=? n) && (n <=? 122))%N then [n - 32]%N
  else if (n =? 181)%N then [924%N]
  else if (n =? 223)%N then [83%N; 115%N]
  else if ((224 <=? n) && (n <=? 254) && negb (n =? 247))%N then [n - 32]%N
  else if (n =? 255)%N then [376%N]
  else [n].

(** [s.title()]: a character that follows a cased character is put
    in lower case, any other character in title case. *)
Fixpoint title_from (previous_is_cased : bool) (s : string) : list N :=
  match s with
  | EmptyString => []
  | String c r =>
      (if previous_is_cased then [PyStr.code (PyStr.lower_char c)]
       else title_char c) ++ title_from (cased c) r
  end.

Definition title (s : string) : list N := title_from false s.

(** The code points of a string. *)
Fixpoint codes (s : string) : list N :=
  match s with
  | EmptyString => []
  | String c r => PyStr.code c :: codes r
  end.

(** [s[:n]] *)
Fixpoint str_take (n : nat) (s : string) : string :=
  match n, s with
  | S n', String c r => String c (str_take n' r)
  | _, _ => EmptyString
  end.

(** [parse_days(s)] *)
Definition parse_days (s : option string) : list string :=
  match s with
  | None => []
  | Some s =>
      if negb (PyStr.truthy s)
         || in_list (PyStr.lower (PyStr.strip s)) ["nan"; "none"]
      then []
      else
        let parts := day_tokens s in
        let parts := map (λ p, title (str_take 2 p)) parts in
        filter (λ d, codes d ∈ parts) DAY_ORDER
  end.

(** All the characters. *)
Definition all_ascii : list ascii := map ascii_of_nat (seq 0 256).

(** ** Time limit *)

(** The longest run of digits at the start of [s]. *)
Fixpoint digit_run (s : string) : string :=
  match s with
  | String c r => if PyStr.isdigit c then String c (digit_run r) else EmptyString
  | EmptyString => EmptyString
  end.

(** [re.search(r"(\d+)", s)]: the first run of digits of [s], the
    group of the match, or [None] when [s] holds no digit. *)
Fixpoint first_digits (s : string) : option string :=
  match s with
  | EmptyString => None
  | String c r =>
      if PyStr.isdigit c then Some (String c (digit_run r)) else first_digits r
  end.

(** [parse_time_limit_minutes(s)]: [int] raises [ValueError] on a run
    of more than 4300 digits. *)
Definition parse_time_limit_minutes (s : option string) : result (option Z) :=
  match s with
  | None => Ok None
  | Some s =>
      match first_digits s with
      | Some g =>
          match PyStr.int g with
          | Some z => Ok (Some z)
          | None => Raise ValueError
          end
      | None => Ok None
      end
  end.

(** A character that is no digit. *)
Definition nondigit (c : ascii) : bool := negb (PyStr.isdigit c).

(** A text that does not start with a digit. *)
Definition no_digit_ahead (s : string) : bool :=
  match s with
  | String c _ => nondigit c
  | EmptyString => true
  end.

(** ** Meter state *)

(** [derive_meter_state(schedule_type, applied_rule, cap_color)] *)
Definition derive_meter_state (schedule_type applied_rule cap_color : option string)
  : string :=
  let st := PyStr.lower (PyStr.strip (default "" schedule_type)) in
  let rule := PyStr.strip (default "" applied_rule) in
  let rule_l := PyStr.lower rule in
  let color := PyStr.strip (default "" cap_color) in
  if PyStr.contains "tow" st then "Tow-away"
  else if PyStr.contains "operating" st || PyStr.contains "operate" st then
    if PyStr.contains "commercial" rule_l then "Commercial Loading (metered)"
    else if PyStr.contains "general metered" rule_l
            || PyStr.contains "general" rule_l then "General Metered"
    else if PyStr.truthy rule then rule
    else "Metered"
  else if PyStr.contains "alternate" st then
    "Alternate: " +:+ (if PyStr.truthy rule then rule
                       else if PyStr.truthy color then color
                       else "Rule")
  else
    PyStr.strip (if PyStr.truthy (default "" schedule_type)
                 then default "" schedule_type
                 else if PyStr.truthy rule then rule
                 else if PyStr.truthy color then color
                 else "Schedule").

(** ** Cleaning a table *)

(** [clean_columns(df)] on a table read with [dtype=str]: the headers
    and the cells are stripped. *)
Definition clean_columns (df : Table) : Table :=
  {| columns := map PyStr.strip (columns df);
     rows := map (map (λ kv, (PyStr.strip kv.1, PyStr.strip kv.2))) (rows df) |}.

(** ** Runs of union-find operations *)

(** [uf = UnionFind(n)] followed by [uf.union(a, b)] for each pair of
    [ops] in turn; [None] when an index is out of range. *)
Definition unions (n : Z) (ops : list (Z * Z)) : option UnionFind.t :=
  foldl (λ st ab, uf ← st; UnionFind.union uf ab.1 ab.2)
        (Some (UnionFind.init n)) ops.

(** The test [uf.find(x) == uf.find(y)], with the structure after the
    two calls. *)
Definition same_root (uf : UnionFind.t) (x y : Z) : option (UnionFind.t * bool) :=
  '(uf1, a) ← UnionFind.find uf x;
  '(uf2, b) ← UnionFind.find uf1 y;
  Some (uf2, bool_decide (a = b)).

(** The elements [a] and [b] of [range(n)] are named by a pair of
    [ops], in one order or the other; an index [u] from [-n] to
    [n - 1] names the element [u mod n]. *)
Definition linked (n : Z) (ops : list (Z * Z)) (a b : Z) : Prop :=
  ∃ u v, ((u, v) ∈ ops ∨ (v, u) ∈ ops) ∧ a = (u mod n)%Z ∧ b = (v mod n)%Z.

(** A scikit-learn that answers [labels] whatever the points are, for
    the examples. *)
Definition sklearn_answers {F} (labels : list Z) (lats lons : list F) (radius_m : F)
  : result (list Z) := Ok labels.

(** A digit of a hexadecimal number in lower case. *)
Definition hex_char (c : ascii) : bool :=
  PyStr.isdigit c || in_range 97 102 c.

(** The post of a row: the key of the first grouping of [main]. *)
Definition row_post_id {F} (r : Row F) : string :=
  default "" (row_get_text r "post_id").

(** The exceptions that the second loop of [main] can end with. *)
Definition clustering_error (e : exn) : Prop :=
  (∃ msg, e = SystemExit msg) ∨ e = IndexError ∨ e = ValueError.

(** A table with the required columns and no row at all. *)
Definition header_only_args : Args Z := {|
  input_csv := {| columns := ["post_id"; "longitude"; "latitude"]; rows := [] |};
  radius_m := 20%Z;
  signature_fields := ["days"]
|}.


(** ** Hash collisions *)

(** The five words of a SHA-1 state are 32-bit numbers. *)
Definition state_in_range (s : Sha1.state) : Prop :=
  (0 ≤ Sha1.h0 s < 2 ^ 32 ∧ 0 ≤ Sha1.h1 s < 2 ^ 32 ∧ 0 ≤ Sha1.h2 s < 2 ^ 32
   ∧ 0 ≤ Sha1.h3 s < 2 ^ 32 ∧ 0 ≤ Sha1.h4 s < 2 ^ 32)%Z.

(** A row whose only cell is a note. *)
Definition noted_row {F} (x0 : F) (note : string) : Row F :=
  {| cells := [("note", note)]; row_longitude := x0; row_latitude := x0 |}.
(** * Properties *)

(** ** Schedule normaliser *)

Example norm_time_ex1 : norm_time (Some " 7:05 ") = inr "07:05".
Proof. vm_compute. reflexivity. Qed.
Example norm_time_ex2 : norm_time (Some "7:00 PM") = inr "19:00".
Proof. vm_compute. reflexivity. Qed.
Example norm_time_ex3 : norm_time (Some "12 am") = inr "00:00".
Proof. vm_compute. reflexivity. Qed.
Example norm_time_ex4 : norm_time (Some "12:5_9") = inr "12:59".
Proof. vm_compute. reflexivity. Qed.
Example canonical_days_ex1 :
  canonical_days (Some "Fr, Mo,xx ,Mo,Holiday,tu") None = "Mo,Fr,xx,tu".
Proof. vm_compute. reflexivity. Qed.
Example canonical_days_ex2 : canonical_days (Some " ") (Some " Sunday ") = "Su".
Proof. vm_compute. reflexivity. Qed.

Lemma strptime_IMp_raises s : raises_only_ValueError (strptime_IMp s).
Proof.
  unfold strptime_IMp. destruct (match_I _ _) as [[[h m] rest]|]; [|done].
  by destruct rest.
Qed.

Lemma strptime_Ip_raises s : raises_only_ValueError (strptime_Ip s).
Proof.
  unfold strptime_Ip. destruct (match_I _ _) as [[[h m] rest]|]; [|done].
  by destruct rest.
Qed.

Lemma norm_time_24h_raises s : raises_only_ValueError (norm_time_24h s).
Proof.
  unfold norm_time_24h. repeat case_match; done.
Qed.

Lemma norm_time_12h_returns fmts s :
  Forall (λ f, raises_only_ValueError (f s)) fmts →
  ∃ r, norm_time_12h fmts s = inr r.
Proof.
  induction 1 as [|f fmts Hf _ IH]; simpl; [by eexists|].
  destruct (f s) as [[]|hm]; first [done | by eexists].
Qed.

(** No exception escapes [norm_time]. *)
Lemma norm_time_never_raises t : ∃ r, norm_time t = inr r.
Proof.
  destruct t as [t|]; [|by eexists]. unfold norm_time.
  destruct (_ || _); [by eexists|].
  assert (H12 : ∃ r, norm_time_12h [strptime_IMp; strptime_Ip]
                       (PyStr.strip t) = inr r).
  { apply norm_time_12h_returns. repeat constructor;
      [apply strptime_IMp_raises|apply strptime_Ip_raises]. }
  pose proof (norm_time_24h_raises (PyStr.strip t)) as H24.
  destruct (norm_time_24h _) as [[]|[r|]]; first [done | by eexists].
Qed.

(** Empty, blank and missing inputs give the empty string. *)
Lemma norm_time_blank t :
  t = None ∨ (∃ s, t = Some s ∧ PyStr.strip s = "") → norm_time t = inr "".
Proof.
  intros [->|(s & -> & Hs)]; [done|]. unfold norm_time. by rewrite Hs.
Qed.

(** C3, the part that holds and the input on which the claim fails: no
    exception escapes [norm_time] and a blank input gives the empty
    string, but a text that is no time at all, such as "noon", is
    returned as it is instead of the empty string the docstring
    promises for unknown inputs. *)
Theorem norm_time_unparseable_returned :
  (∀ t, ∃ r, norm_time t = inr r)
  ∧ norm_time None = inr "" ∧ norm_time (Some "  ") = inr ""
  ∧ norm_time_24h "noon" = inl ValueError
  ∧ strptime_IMp "noon" = inl ValueError
  ∧ strptime_Ip "noon" = inl ValueError
  ∧ norm_time (Some "noon") = inr "noon".
Proof.
  split; [apply norm_time_never_raises|].
  repeat split; vm_compute; reflexivity.
Qed.

Lemma in_list_elem_of x l : in_list x l = true ↔ x ∈ l.
Proof.
  unfold in_list. rewrite existsb_exists. split.
  - intros (y & Hy & Heq). apply String.eqb_eq in Heq as ->.
    by apply list_elem_of_In.
  - intros Hx. exists x. split; [by apply list_elem_of_In|apply String.eqb_refl].
Qed.

Section canonical_days_loops.
Variable parts : list string.

Lemma known_day_loop L acc seen :
  NoDup L → (∀ d, d ∈ L → d ∉ seen) →
  foldl (known_day_step parts) (acc, seen) L
  = (acc ++ filter (λ d, d ∈ parts) L,
     list_to_set (filter (λ d, d ∈ parts) L) ∪ seen).
Proof.
  intros HL. revert acc seen.
  induction HL as [|d L Hd HL IH]; intros acc seen Hseen; simpl.
  - rewrite app_nil_r. f_equal. set_solver.
  - unfold known_day_step at 2. simpl.
    rewrite (bool_decide_eq_false_2 (d ∈ seen)) by (apply Hseen; left).
    rewrite andb_true_r.
    destruct (in_list d parts) eqn:Hin.
    + apply in_list_elem_of in Hin.
      rewrite IH by set_solver.
      rewrite filter_cons_True by done.
      rewrite <- app_assoc. simpl. f_equal. set_solver.
    + assert (d ∉ parts) by (rewrite <- in_list_elem_of; congruence).
      rewrite IH by set_solver.
      by rewrite filter_cons_False.
Qed.

Lemma other_token_loop (seen : gset string) (P : string → Prop)
    `{∀ p, Decision (P p)} l acc :
  (∀ p, p ∈ l → (p ∉ seen ↔ P p)) →
  foldl (other_token_step seen) acc l
  = acc ++ filter (λ p, P p ∧ (String.length p ≤ 3)%nat) l.
Proof.
  revert acc. induction l as [|p l IH]; intros acc Hl; simpl.
  - by rewrite app_nil_r.
  - rewrite IH by (intros; apply Hl; by right).
    unfold other_token_step.
    destruct (decide (P p ∧ (String.length p ≤ 3)%nat)) as [[HP Hlen]|Hno].
    + rewrite filter_cons_True by done.
      rewrite bool_decide_eq_false_2 by (apply Hl; [left|done]).
      apply Nat.leb_le in Hlen. rewrite Hlen. simpl.
      by rewrite <- app_assoc.
    + rewrite filter_cons_False by done.
      destruct (bool_decide (p ∈ seen)) eqn:Hs; simpl; [done|].
      apply bool_decide_eq_false in Hs.
      destruct (String.length p <=? 3)%nat eqn:Hlen; [|done].
      apply Nat.leb_le in Hlen. destruct Hno. split; [|done].
      apply Hl; [left|done].
Qed.
End canonical_days_loops.

Lemma DAY_ORDER_NoDup : NoDup DAY_ORDER.
Proof. apply (bool_decide_unpack _). by vm_compute. Qed.

Lemma nonblank_Some s : nonblank (Some s) = true ↔ PyStr.strip s ≠ "".
Proof.
  simpl. destruct s as [|c s]; [vm_compute; naive_solver|].
  simpl. destruct (PyStr.strip (String c s)); simpl; naive_solver.
Qed.

Lemma nonblank_blank o : nonblank o = false ↔ blank o.
Proof.
  destruct o as [s|]; [|by split; [left|]].
  rewrite <- not_true_iff_false, nonblank_Some. unfold blank. split.
  - intros Hs. right. exists s. split; [done|].
    by destruct (decide (PyStr.strip s = "")); [|destruct Hs].
  - intros [?|(s' & [= <-] & Hs)]; [done|]. by rewrite Hs; intros [].
Qed.

(** C4, the part that holds and an input on which the claim fails:
    for a non-blank token list, [canonical_days] is the day codes of
    [DAY_ORDER] that occur letter for letter among the stripped
    tokens, in the order of [DAY_ORDER] and each once, followed by the
    tokens that are no day code and have at most three characters, in
    input order; for a blank or missing list it is the code of the
    long day name given as fallback, and the empty string without a
    fallback or with one that is no day name.  But a token in another
    case or of another length is not recognised as a day: the list
    "tu,MO,Wed,mo" comes back as it is, where [parse_days] of the
    other program finds the days Mo, Tu and We in it. *)
Theorem canonical_days_spec (days fb : option string) :
  (∀ ds, days = Some ds → PyStr.strip ds ≠ "" →
     canonical_days days fb
     = PyStr.join ","
         (filter (λ d, d ∈ day_tokens ds) DAY_ORDER
          ++ filter (λ p, p ∉ DAY_ORDER ∧ (String.length p ≤ 3)%nat) (day_tokens ds))
     ∧ NoDup (filter (λ d, d ∈ day_tokens ds) DAY_ORDER)
     ∧ filter (λ d, d ∈ day_tokens ds) DAY_ORDER `sublist_of` DAY_ORDER)
  ∧ (blank days → ∀ f long d,
       fb = Some f → PyStr.lower (PyStr.strip f) = long →
       (long, d) ∈ DAY_MAP_LONG2ABBR → canonical_days days fb = d)
  ∧ (blank days → blank fb → canonical_days days fb = "")
  ∧ (blank days → ∀ f,
       fb = Some f →
       assoc_get DAY_MAP_LONG2ABBR (PyStr.lower (PyStr.strip f)) = None →
       canonical_days days fb = "")
  ∧ canonical_days (Some "tu,MO,Wed,mo") None = "tu,MO,Wed,mo"
  ∧ parse_days (Some "tu,MO,Wed,mo") = ["Mo"; "Tu"; "We"].
Proof.
  split; [|split; [|split; [|split; [|split]]]].
  - intros ds -> Hds. split; [|split].
    + unfold canonical_days.
      rewrite (proj2 (nonblank_Some ds) Hds). simpl default.
      rewrite (known_day_loop _ _ [] ∅ DAY_ORDER_NoDup) by set_solver.
      simpl app at 1.
      rewrite (other_token_loop _ (λ p, p ∉ DAY_ORDER)); [done|].
      intros p Hp.
      rewrite elem_of_union, elem_of_list_to_set, list_elem_of_filter.
      set_solver.
    + apply NoDup_filter, DAY_ORDER_NoDup.
    + apply sublist_filter.
  - intros Hd f long d -> Hlow Hin. unfold canonical_days.
    rewrite (proj2 (nonblank_blank days) Hd).
    assert (Hnb : nonblank (Some f) = true).
    { apply nonblank_Some. intros Hs. rewrite Hs in Hlow. subst long.
      set_solver. }
    rewrite Hnb. simpl default. rewrite Hlow.
    unfold DAY_MAP_LONG2ABBR in Hin.
    repeat (apply elem_of_cons in Hin as [[= -> ->]|Hin]; [reflexivity|]).
    by apply elem_of_nil in Hin.
  - intros Hd Hf. unfold canonical_days.
    by rewrite (proj2 (nonblank_blank days) Hd), (proj2 (nonblank_blank fb) Hf).
  - intros Hd f -> Hnone. unfold canonical_days.
    rewrite (proj2 (nonblank_blank days) Hd).
    destruct (nonblank (Some f)); [|done].
    change (default "" (Some f)) with f. by rewrite Hnone.
  - vm_compute. reflexivity.
  - vm_compute. reflexivity.
Qed.

Lemma canonical_days_spec_witness :
  canonical_days (Some "Sa, Mo,xx,Mo,Holiday") None = "Mo,Sa,xx"
  ∧ canonical_days (Some " ") (Some "Friday") = "Fr"
  ∧ canonical_days None None = "".
Proof.
  pose proof (canonical_days_spec (Some "Sa, Mo,xx,Mo,Holiday") None) as (H1 & _ & _).
  pose proof (canonical_days_spec (Some " ") (Some "Friday")) as (_ & H2 & _).
  pose proof (canonical_days_spec None None) as (_ & _ & H3 & _).
  split; [|split].
  - destruct (H1 _ eq_refl) as (-> & _); [by vm_compute|].
    vm_compute. reflexivity.
  - apply (H2 (or_intror (ex_intro _ " " (conj eq_refl eq_refl)))
              "Friday" "friday" "Fr" eq_refl eq_refl).
    do 4 right. left.
  - apply H3; by left.
Defined.

(** ** Most frequent value *)

Example mode_ex1 : mode ["b"; ""; "a"; " "; "a"; "b"; "c"] = "b".
Proof. vm_compute. reflexivity. Qed.
Example mode_ex2 : mode [""; "  "] = "".
Proof. vm_compute. reflexivity. Qed.

Lemma occurrences_snoc v l x :
  occurrences v (l ++ [x]) = (occurrences v l + if decide (x = v) then 1 else 0)%nat.
Proof.
  unfold occurrences. rewrite filter_app, length_app. f_equal.
  destruct (decide (x = v)).
  - by rewrite filter_cons_True.
  - by rewrite filter_cons_False.
Qed.

Lemma occurrences_pos v l : v ∈ l ↔ (0 < occurrences v l)%nat.
Proof.
  unfold occurrences. split.
  - intros Hv. assert (Hf : v ∈ filter (λ x, x = v) l)
      by (by apply list_elem_of_filter).
    destruct (filter _ l); [by apply elem_of_nil in Hf|simpl; lia].
  - intros Hlen. destruct (filter (λ x, x = v) l) as [|y f] eqn:Hf;
      [simpl in Hlen; lia|].
    assert (Hy : y ∈ filter (λ x, x = v) l) by (rewrite Hf; left).
    apply list_elem_of_filter in Hy as [-> ?]. done.
Qed.

Lemma first_seen_elem l keys : first_seen l keys → ∀ v, v ∈ keys ↔ v ∈ l.
Proof.
  induction 1 as [|l keys v _ IH Hv|l keys v _ IH Hv]; intros w.
  - done.
  - rewrite elem_of_app, list_elem_of_singleton, <- IH. naive_solver.
  - rewrite !elem_of_app, !list_elem_of_singleton, <- IH. naive_solver.
Qed.

Lemma first_seen_NoDup l keys : first_seen l keys → NoDup keys.
Proof.
  induction 1 as [| |l keys v _ IH Hv]; [constructor|done|].
  apply NoDup_app. split; [done|]. split; [|apply NoDup_singleton].
  intros x Hx ->%list_elem_of_singleton. done.
Qed.

(** Every value that occurs before the first occurrence of a key comes
    earlier among the keys. *)
Lemma first_seen_order l keys :
  first_seen l keys →
  ∀ k1 k k2, keys = k1 ++ k :: k2 →
    ∃ pre suf, l = pre ++ k :: suf ∧ k ∉ pre ∧ ∀ v, v ∈ pre → v ∈ k1.
Proof.
  induction 1 as [|l keys v Hfs IH Hv|l keys v Hfs IH Hv]; intros k1 k k2 Hk.
  - by destruct k1.
  - destruct (IH _ _ _ Hk) as (pre & suf & -> & Hpre & Hord).
    exists pre, (suf ++ [v]). by rewrite <- app_assoc.
  - destruct k2 as [|k' k2 _] using rev_ind.
    + apply (app_inj_2 _ _ _ [_]) in Hk as [-> [= ->]]; [|done].
      exists l, []. split; [done|]. split.
      * by rewrite <- (first_seen_elem _ _ Hfs).
      * intros w. by rewrite (first_seen_elem _ _ Hfs).
    + rewrite app_comm_cons, app_assoc in Hk.
      apply (app_inj_2 _ _ _ [_]) in Hk as [-> _]; [|done].
      destruct (IH _ _ _ eq_refl) as (pre & suf & -> & Hpre & Hord).
      exists pre, (suf ++ [v]). by rewrite <- app_assoc.
Qed.

Lemma counter_incr_old c v :
  v ∈ c.*1 → NoDup c.*1 →
  (counter_incr c v).*1 = c.*1
  ∧ ∀ k n, (k, n) ∈ counter_incr c v ↔
      ∃ n0, (k, n0) ∈ c ∧ n = (n0 + if decide (v = k) then 1 else 0)%nat.
Proof.
  induction c as [|[k0 n0] c IH]; intros Hv Hnd; [by apply elem_of_nil in Hv|].
  simpl in *. apply NoDup_cons in Hnd as [Hk0 Hnd].
  destruct (String.eqb_spec k0 v) as [->|Hne].
  - split; [done|]. intros k n. rewrite !elem_of_cons. split.
    + intros [[= -> ->]|Hin].
      * exists n0. rewrite decide_True by done. split; [by left|lia].
      * exists n. split; [by right|]. rewrite decide_False; [lia|].
        intros <-. apply Hk0. apply list_elem_of_fmap. by exists (v, n).
    + intros (m & [[= -> ->]|Hin]%elem_of_cons & ->).
      * left. rewrite decide_True by done. f_equal; lia.
      * right. rewrite decide_False; [by rewrite Nat.add_0_r|].
        intros <-. apply Hk0. apply list_elem_of_fmap. by exists (v, m).
  - apply elem_of_cons in Hv as [->|Hv]; [done|].
    destruct (IH Hv Hnd) as [Hkeys Hcnt]. split; [by rewrite fmap_cons, Hkeys|].
    intros k n. rewrite !elem_of_cons, Hcnt. split.
    + intros [[= -> ->]|(m & Hin & ->)].
      * exists n0. rewrite decide_False by done. split; [by left|lia].
      * exists m. split; [by right|done].
    + intros (m & [[= -> ->]|Hin]%elem_of_cons & ->).
      * left. rewrite decide_False by done. f_equal; lia.
      * right. by exists m.
Qed.

Lemma counter_incr_new c v :
  v ∉ c.*1 → counter_incr c v = c ++ [(v, 1)].
Proof.
  induction c as [|[k0 n0] c IH]; intros Hv; [done|]. simpl in *.
  apply not_elem_of_cons in Hv as [Hne Hv].
  destruct (String.eqb_spec k0 v) as [->|_]; [done|]. by rewrite IH.
Qed.

Lemma Counter_snoc l v : Counter (l ++ [v]) = counter_incr (Counter l) v.
Proof. unfold Counter. by rewrite foldl_app. Qed.

(** The counter lists the distinct values in the order of their first
    occurrence, each with its number of occurrences. *)
Lemma Counter_spec l :
  first_seen l (Counter l).*1
  ∧ ∀ k n, (k, n) ∈ Counter l → n = occurrences k l.
Proof.
  induction l as [|v l [Hfs Hcnt]] using rev_ind; [split; [constructor|]|].
  { intros k n Hin. by apply elem_of_nil in Hin. }
  rewrite Counter_snoc.
  destruct (decide (v ∈ (Counter l).*1)) as [Hv|Hv].
  - destruct (counter_incr_old _ _ Hv (first_seen_NoDup _ _ Hfs)) as [Hk Hc].
    split; [rewrite Hk; by constructor|].
    intros k n (m & Hin & ->)%Hc. rewrite occurrences_snoc.
    by rewrite (Hcnt _ _ Hin).
  - rewrite counter_incr_new by done. split.
    + rewrite fmap_app. by constructor.
    + intros k n [Hin|[= -> ->]%list_elem_of_singleton]%elem_of_app.
      * rewrite occurrences_snoc, (Hcnt _ _ Hin), decide_False; [lia|].
        intros ->. apply Hv, list_elem_of_fmap. by exists (k, n).
      * rewrite occurrences_snoc, decide_True by done.
        assert (occurrences v l = 0%nat) as ->; [|done].
        destruct (occurrences v l) eqn:Ho; [done|].
        assert (v ∈ l) by (apply occurrences_pos; lia).
        destruct Hv. by apply (first_seen_elem _ _ Hfs).
Qed.

Lemma Counter_nonempty v l : Counter (v :: l) ≠ [].
Proof.
  intros Hc. destruct (Counter_spec (v :: l)) as [Hfs _].
  rewrite Hc in Hfs. assert (v ∈ @nil string); [|by eapply elem_of_nil].
  apply (first_seen_elem _ _ Hfs). left.
Qed.

(** [max_by_count] returns the first item of maximal count: with
    [best] standing between [c1] and [c2] among the items seen so far,
    the result splits the whole list in the same way. *)
Lemma max_by_count_spec items c1 c2 best :
  (∀ it, it ∈ c1 → (it.2 < best.2)%nat) →
  (∀ it, it ∈ c2 → (it.2 ≤ best.2)%nat) →
  ∃ d1 d2, c1 ++ best :: c2 ++ items = d1 ++ max_by_count best items :: d2
    ∧ (∀ it, it ∈ d1 → (it.2 < (max_by_count best items).2)%nat)
    ∧ (∀ it, it ∈ d2 → (it.2 ≤ (max_by_count best items).2)%nat).
Proof.
  revert c1 c2 best.
  induction items as [|it items IH]; intros c1 c2 best H1 H2.
  - exists c1, c2. by rewrite app_nil_r.
  - simpl. destruct (best.2 <? it.2)%nat eqn:Hlt.
    + apply Nat.ltb_lt in Hlt.
      destruct (IH (c1 ++ best :: c2) [] it) as (d1 & d2 & Heq & Hd1 & Hd2).
      * intros x [Hx|[->|Hx]%elem_of_cons]%elem_of_app.
        -- specialize (H1 _ Hx). lia.
        -- done.
        -- specialize (H2 _ Hx). lia.
      * intros x Hx. by apply elem_of_nil in Hx.
      * exists d1, d2. split; [|done]. rewrite <- Heq.
        by rewrite <- app_assoc.
    + apply Nat.ltb_ge in Hlt.
      destruct (IH c1 (c2 ++ [it]) best H1) as (d1 & d2 & Heq & Hd1 & Hd2).
      * intros x [Hx| ->%list_elem_of_singleton]%elem_of_app; [auto|done].
      * exists d1, d2. split; [|done]. rewrite <- Heq.
        by rewrite <- (app_assoc c2).
Qed.

Lemma filter_split {A} (P : A → Prop) `{∀ x, Decision (P x)} l l1 x l2 :
  filter P l = l1 ++ x :: l2 →
  ∃ k1 k2, l = k1 ++ x :: k2 ∧ filter P k1 = l1 ∧ filter P k2 = l2.
Proof.
  revert l1. induction l as [|y l IH]; intros l1 Hf; [by destruct l1|].
  destruct (decide (P y)) as [Hy|Hy].
  - rewrite filter_cons_True in Hf by done.
    destruct l1 as [|z l1]; simplify_eq/=.
    + exists [], l. by rewrite filter_nil.
    + destruct (IH _ H1) as (k1 & k2 & -> & <- & <-).
      exists (z :: k1), k2. by rewrite filter_cons_True.
  - rewrite filter_cons_False in Hf by done.
    destruct (IH _ Hf) as (k1 & k2 & -> & <- & <-).
    exists (y :: k1), k2. by rewrite filter_cons_False.
Qed.

Lemma occurrences_kept v values :
  mode_keeps v →
  occurrences v (filter (λ v, mode_keeps v) values) = occurrences v values.
Proof.
  intros Hv. unfold occurrences. f_equal.
  induction values as [|x values IH]; [done|].
  destruct (decide (x = v)) as [->|Hne].
  - rewrite (filter_cons_True (λ v, mode_keeps v)) by done.
    rewrite !filter_cons_True by done. by rewrite IH.
  - rewrite (filter_cons_False (λ x, x = v) x values) by done. rewrite <- IH.
    destruct (decide (mode_keeps x)).
    + rewrite (filter_cons_True (λ v, mode_keeps v)) by done.
      by rewrite filter_cons_False.
    + by rewrite (filter_cons_False (λ v, mode_keeps v)).
Qed.

(** C10: [mode] returns the empty string when no value is kept (every
    value is empty or blank); otherwise it returns a kept value whose
    number of occurrences is maximal among the kept values, and every
    kept value that occurs before its first occurrence in the input
    occurs strictly less often. *)
Theorem mode_most_frequent_first (values : list string) :
  (filter (λ v, mode_keeps v) values = [] → mode values = "")
  ∧ (filter (λ v, mode_keeps v) values ≠ [] →
     mode_keeps (mode values)
     ∧ (∀ v, mode_keeps v →
          (occurrences v values ≤ occurrences (mode values) values)%nat)
     ∧ ∃ pre suf, values = pre ++ mode values :: suf
         ∧ mode values ∉ pre
         ∧ ∀ v, v ∈ pre → mode_keeps v →
             (occurrences v values < occurrences (mode values) values)%nat).
Proof.
  unfold mode. split; [by intros ->|]. intros Hne.
  destruct (filter _ values) as [|v0 vs] eqn:Hvals; [done|]. clear Hne.
  destruct (Counter (v0 :: vs)) as [|it r] eqn:HC;
    [by apply Counter_nonempty in HC|].
  simpl most_common_1. cbv iota.
  destruct (max_by_count_spec r [] [] it) as (d1 & d2 & Heq & Hd1 & Hd2);
    [by intros ? ?%elem_of_nil..|].
  simpl in Heq. set (m := max_by_count it r) in *.
  destruct (Counter_spec (v0 :: vs)) as [Hfs Hcnt]. rewrite HC, Heq in Hfs, Hcnt.
  assert (Hm : m.2 = occurrences m.1 (v0 :: vs)).
  { apply Hcnt. destruct m. apply elem_of_app. right. left. }
  assert (Hmin : m.1 ∈ v0 :: vs).
  { apply (first_seen_elem _ _ Hfs). rewrite fmap_app, fmap_cons.
    apply elem_of_app. right. left. }
  assert (Hmk : mode_keeps m.1).
  { rewrite <- Hvals in Hmin. by apply list_elem_of_filter in Hmin as [? _]. }
  assert (Hocc : ∀ v, mode_keeps v →
            occurrences v (v0 :: vs) = occurrences v values).
  { intros v Hv. rewrite <- Hvals. by apply occurrences_kept. }
  split; [done|]. split.
  - intros v Hv. rewrite <- !Hocc, <- Hm by done.
    destruct (decide (v ∈ v0 :: vs)) as [Hin|Hin].
    + apply (first_seen_elem _ _ Hfs), list_elem_of_fmap in Hin
        as ([k n] & -> & Hin).
      simpl. rewrite <- (Hcnt _ _ Hin).
      apply elem_of_app in Hin as [Hin|[Hkm|Hin]%elem_of_cons].
      * specialize (Hd1 _ Hin). simpl in Hd1. lia.
      * by rewrite <- Hkm.
      * by specialize (Hd2 _ Hin).
    + destruct (occurrences v (v0 :: vs)) eqn:Ho; [lia|].
      destruct Hin. apply occurrences_pos. lia.
  - rewrite fmap_app, fmap_cons in Hfs.
    destruct (first_seen_order _ _ Hfs _ _ _ eq_refl)
      as (pre' & suf' & Hsplit & Hnot & Hord).
    rewrite <- Hvals in Hsplit.
    apply filter_split in Hsplit as (pre & suf & -> & <- & <-).
    exists pre, suf. split; [done|]. split.
    + intros Hin. apply Hnot. by apply list_elem_of_filter.
    + intros v Hv Hkeep. rewrite <- !Hocc, <- Hm by done.
      assert (Hv' : v ∈ d1.*1) by (apply Hord; by apply list_elem_of_filter).
      apply list_elem_of_fmap in Hv' as ([k n] & -> & Hin).
      rewrite <- (Hcnt (k, n).1 n); [by apply (Hd1 _ Hin)|].
      apply elem_of_app. by left.
Qed.

Lemma mode_most_frequent_first_witness :
  mode [""; " "] = ""
  ∧ (occurrences "a" ["b"; ""; "a"; "a"; "b"]
     ≤ occurrences (mode ["b"; ""; "a"; "a"; "b"]) ["b"; ""; "a"; "a"; "b"])%nat.
Proof.
  split.
  - apply (mode_most_frequent_first [""; " "]). reflexivity.
  - apply (mode_most_frequent_first ["b"; ""; "a"; "a"; "b"]).
    + vm_compute. discriminate.
    + vm_compute. exact I.
Defined.

(** ** JSON text *)

Example dumps_ex1 :
  Json.dumps_dict_sorted true [("to", "b\c"); ("days", "Mo,Tu")]
  = "{" +:+ String Json.dquote "days" +:+ String Json.dquote ": "
    +:+ String Json.dquote "Mo,Tu" +:+ String Json.dquote ", "
    +:+ String Json.dquote "to" +:+ String Json.dquote ": "
    +:+ String Json.dquote "b\\c" +:+ String Json.dquote "}".
Proof. vm_compute. reflexivity. Qed.
Example loads_ex1 :
  Json.loads (Json.dumps_dict_sorted true
                [("to", "b\c" +:+ String (ascii_of_N 200) "x"); ("days", "Mo,Tu")])
  = Some [("days", "Mo,Tu"); ("to", "b\c" +:+ String (ascii_of_N 200) "x")].
Proof. vm_compute. reflexivity. Qed.
Example loads_ex2 : Json.loads "{}" = Some [].
Proof. vm_compute. reflexivity. Qed.

Lemma string_app_nil_l (b : string) : "" +:+ b = b.
Proof. reflexivity. Qed.

Lemma string_app_cons x (a b : string) : String x a +:+ b = String x (a +:+ b).
Proof. reflexivity. Qed.

Lemma string_app_assoc (a b c : string) : (a +:+ b) +:+ c = a +:+ (b +:+ c).
Proof.
  induction a as [|x a IH]; [done|]. by rewrite !string_app_cons, IH.
Qed.

Lemma string_app_length (a b : string) :
  String.length (a +:+ b) = (String.length a + String.length b)%nat.
Proof.
  induction a as [|x a IH]; [done|]. rewrite string_app_cons. simpl. by rewrite IH.
Qed.

(** Reading back one escaped character. *)
Lemma scanstring_escape_char ens c tail :
  Json.scanstring (Json.escape_char ens c +:+ tail)
  = match Json.scanstring tail with
    | Some (t, rest) => Some (String c t, rest)
    | None => None
    end.
Proof.
  destruct c as [[] [] [] [] [] [] [] []]; destruct ens; reflexivity.
Qed.

(** The scanner reads an escaped string back, up to its closing quote. *)
Lemma scanstring_escape ens s rest :
  Json.scanstring (Json.escape ens s +:+ String Json.dquote rest) = Some (s, rest).
Proof.
  induction s as [|c s IH]; [reflexivity|].
  cbn [Json.escape]. by rewrite string_app_assoc, scanstring_escape_char, IH.
Qed.

Lemma dumps_item_shape ens k v rest :
  Json.dumps_item ens (k, v) +:+ rest
  = String Json.dquote (Json.escape ens k +:+ String Json.dquote
      (String ":" (String " " (String Json.dquote
         (Json.escape ens v +:+ String Json.dquote rest))))).
Proof.
  unfold Json.dumps_item, Json.dumps_str. simpl fst. simpl snd.
  repeat first [rewrite string_app_cons | rewrite string_app_assoc
               | rewrite string_app_nil_l].
  reflexivity.
Qed.

(** One member is read back, and the scanner goes on with what
    follows it. *)
Lemma parse_members_item ens fuel d k v rest :
  Json.parse_members (S fuel) d (Json.dumps_item ens (k, v) +:+ rest)
  = match Json.skip_ws rest with
    | String "," r5 => Json.parse_members fuel (dict_set d k v) (Json.skip_ws r5)
    | String "}" r5 => Some (dict_set d k v, r5)
    | _ => None
    end.
Proof.
  rewrite dumps_item_shape. cbn [Json.parse_members].
  change (Ascii.eqb Json.dquote Json.dquote) with true. cbv iota.
  rewrite scanstring_escape.
  change (Json.skip_ws (String ":" ?x)) with (String ":" x). cbv iota beta.
  change (Json.skip_ws (String " " (String Json.dquote ?x)))
    with (String Json.dquote x).
  cbv iota beta.
  change (Ascii.eqb Json.dquote Json.dquote) with true. cbv iota.
  by rewrite scanstring_escape.
Qed.

Lemma join_cons_cons sep x y l :
  PyStr.join sep (x :: y :: l) = x +:+ sep +:+ PyStr.join sep (y :: l).
Proof. reflexivity. Qed.

Lemma join_items_starts_with_quote ens kv items rest :
  ∃ z, PyStr.join ", " (map (Json.dumps_item ens) (kv :: items)) +:+ rest
       = String Json.dquote z.
Proof.
  destruct kv as [k v]. destruct items as [|kv' items]; simpl map.
  - unfold PyStr.join. simpl String.concat. rewrite dumps_item_shape. by eexists.
  - rewrite join_cons_cons, string_app_assoc, dumps_item_shape. by eexists.
Qed.

Lemma skip_ws_quote z : Json.skip_ws (String Json.dquote z) = String Json.dquote z.
Proof. reflexivity. Qed.

(** The members of an object are read back in order. *)
Lemma parse_members_dumps ens items d fuel rest :
  items ≠ [] → (length items ≤ fuel)%nat →
  Json.parse_members fuel d
    (PyStr.join ", " (map (Json.dumps_item ens) items) +:+ String "}" rest)
  = Some (dict_of_items d items, rest).
Proof.
  revert d fuel. induction items as [|[k v] items IH]; intros d fuel Hne Hfuel;
    [done|].
  destruct fuel as [|fuel]; [simpl in Hfuel; lia|].
  destruct items as [|kv' items].
  - unfold PyStr.join. simpl map. simpl String.concat.
    by rewrite parse_members_item.
  - simpl map. rewrite join_cons_cons, string_app_assoc, parse_members_item.
    rewrite string_app_assoc.
    change (Json.skip_ws (", " +:+ ?x)) with (String "," (String " " x)).
    cbv iota beta.
    change (Json.skip_ws (String " " ?x)) with (Json.skip_ws x).
    destruct (join_items_starts_with_quote ens kv' items (String "}" rest))
      as [z Hz].
    simpl map in Hz, IH. rewrite Hz, skip_ws_quote, <- Hz.
    rewrite IH; [done|done|]. simpl in Hfuel |- *. lia.
Qed.

Lemma dumps_item_length ens kv :
  (1 ≤ String.length (Json.dumps_item ens kv))%nat.
Proof.
  unfold Json.dumps_item, Json.dumps_str. rewrite string_app_cons.
  cbn [String.length]. lia.
Qed.

Lemma join_items_length ens items :
  (length items ≤ String.length (PyStr.join ", " (map (Json.dumps_item ens) items)))%nat.
Proof.
  induction items as [|kv items IH]; [simpl; lia|].
  destruct items as [|kv' items].
  - apply dumps_item_length.
  - simpl map in *. rewrite join_cons_cons, !string_app_length.
    pose proof (dumps_item_length ens kv). simpl length in *. lia.
Qed.

Lemma parse_object_quote z :
  Json.parse_object (String "{" (String Json.dquote z))
  = Json.parse_members (String.length (String "{" (String Json.dquote z))) []
      (String Json.dquote z).
Proof. reflexivity. Qed.

(** The object scanner reads a dictionary text back, in the order of
    its items. *)
Lemma parse_object_dumps ens d rest :
  Json.parse_object (Json.dumps_dict ens d +:+ rest)
  = Some (dict_of_items [] d, rest).
Proof.
  unfold Json.dumps_dict. rewrite !string_app_assoc.
  rewrite string_app_cons, string_app_nil_l.
  destruct d as [|kv d]; [reflexivity|].
  destruct (join_items_starts_with_quote ens kv d ("}" +:+ rest)) as [z Hz].
  rewrite Hz, parse_object_quote, <- Hz.
  apply parse_members_dumps; [done|].
  pose proof (join_items_length ens (kv :: d)).
  cbn [String.length]. rewrite string_app_length. lia.
Qed.

Lemma dict_set_new d k v : k ∉ d.*1 → dict_set d k v = d ++ [(k, v)].
Proof.
  induction d as [|[k' v'] d IH]; intros Hk; [done|]. simpl in *.
  apply not_elem_of_cons in Hk as [Hne Hk].
  destruct (String.eqb_spec k' k) as [->|_]; [done|]. by rewrite IH.
Qed.

Lemma dict_of_items_NoDup acc items :
  NoDup (acc ++ items).*1 → dict_of_items acc items = acc ++ items.
Proof.
  revert acc. induction items as [|[k v] items IH]; intros acc Hnd.
  - by rewrite app_nil_r.
  - unfold dict_of_items. simpl. fold (dict_of_items (dict_set acc k v) items).
    rewrite dict_set_new.
    + rewrite IH; rewrite <- app_assoc; done.
    + rewrite fmap_app in Hnd. apply NoDup_app in Hnd as (_ & Hdisj & _).
      intros Hin. apply (Hdisj _ Hin). left.
Qed.

(** Reading the text of a dictionary with distinct keys gives the
    dictionary back. *)
Lemma loads_dumps_dict ens d :
  NoDup d.*1 → Json.loads (Json.dumps_dict ens d) = Some d.
Proof.
  intros Hnd. unfold Json.loads.
  assert (Hs : Json.skip_ws (Json.dumps_dict ens d) = Json.dumps_dict ens d)
    by reflexivity.
  rewrite Hs.
  assert (Hx : ∀ s : string, s +:+ "" = s).
  { clear. induction s as [|c s IH]; [done|]. by rewrite string_app_cons, IH. }
  rewrite <- (Hx (Json.dumps_dict ens d)), parse_object_dumps.
  simpl. by rewrite dict_of_items_NoDup.
Qed.

(** ** SHA-1 *)

Example sha1_abc :
  Sha1.hexdigest (utf8 "abc") = "a9993e364706816aba3e25717850c26c9cd0d89d".
Proof. vm_compute. reflexivity. Qed.
Example sha1_empty :
  Sha1.hexdigest (utf8 "") = "da39a3ee5e6b4b0d3255bfef95601890afd80709".
Proof. vm_compute. reflexivity. Qed.
Example sha1_two_blocks :
  Sha1.hexdigest (utf8 "abcdbcdecdefdefgefghfghighijhijkijkljklmklmnlmnomnopnopq")
  = "84983e441c3bd26ebaae4aa1f95129e5e54670f1".
Proof. vm_compute. reflexivity. Qed.

(** ** Signature builder *)

Lemma elem_of_list_map {A B} (f : A → B) l y : y ∈ map f l ↔ ∃ x, y = f x ∧ x ∈ l.
Proof.
  rewrite list_elem_of_In, in_map_iff. split.
  - intros (x & <- & Hx). exists x. by rewrite list_elem_of_In.
  - intros (x & -> & Hx). exists x. by rewrite <- list_elem_of_In.
Qed.

Lemma rmap_Ok {A B} (f : A → result B) l :
  (∀ x, x ∈ l → ∃ y, f x = Ok y) →
  ∃ ys, rmap f l = Ok ys ∧ Forall2 (λ x y, f x = Ok y) l ys.
Proof.
  induction l as [|x l IH]; intros Hl; [exists []; by split|].
  destruct (Hl x) as [y Hy]; [left|].
  destruct IH as (ys & Hys & Hall); [intros; apply Hl; by right|].
  exists (y :: ys). simpl. rewrite Hy, Hys. split; [done|by constructor].
Qed.

Lemma rmap_Ok_inv {A B} (f : A → result B) l ys :
  rmap f l = Ok ys → Forall2 (λ x y, f x = Ok y) l ys.
Proof.
  revert ys. induction l as [|x l IH]; intros ys; simpl.
  - intros [= <-]. constructor.
  - destruct (f x) as [e|y] eqn:Hy; [done|]. simpl.
    destruct (rmap f l) as [e|ys'] eqn:Hys; [done|]. simpl.
    intros [= <-]. constructor; [done|by apply IH].
Qed.

Lemma dict_set_keys d k v :
  (dict_set d k v).*1 = if decide (k ∈ d.*1) then d.*1 else d.*1 ++ [k].
Proof.
  induction d as [|[k' v'] d IH]; [done|]. cbn [dict_set].
  destruct (String.eqb_spec k' k) as [->|Hne]; rewrite !fmap_cons; simpl fst.
  - rewrite decide_True by left. done.
  - rewrite IH. destruct (decide (k ∈ d.*1)) as [Hin|Hin].
    + rewrite decide_True by (by right). done.
    + rewrite decide_False; [done|]. by intros [->|?]%elem_of_cons.
Qed.

Lemma dict_set_NoDup d k v : NoDup d.*1 → NoDup (dict_set d k v).*1.
Proof.
  intros Hnd. rewrite dict_set_keys. case_decide; [done|].
  apply NoDup_app. split; [done|]. split; [|apply NoDup_singleton].
  by intros x Hx ->%list_elem_of_singleton.
Qed.

Section signature.
Context {F : Type} `{FloatOps F}.

Lemma field_value_Ok (r : Row F) days f : ∃ v, field_value r days f = Ok v.
Proof.
  unfold field_value. repeat case_match; try by eexists.
  all: apply norm_time_never_raises.
Qed.

Lemma fill_rec_Ok (r : Row F) days fields rec :
  NoDup rec.*1 → ∃ e, fill_rec r days fields rec = Ok e ∧ NoDup e.*1.
Proof.
  revert rec. induction fields as [|f fields IH]; intros rec Hnd; simpl.
  - by exists rec.
  - destruct (field_value_Ok r days f) as [v ->]. simpl.
    apply IH. by apply dict_set_NoDup.
Qed.

(** Building the record of a row never raises, and its keys are
    distinct. *)
Lemma build_entry_Ok fields (r : Row F) :
  ∃ e, build_entry fields r = Ok e ∧ NoDup e.*1.
Proof. apply fill_rec_Ok. constructor. Qed.

Lemma key_le_total : Total Json.key_le.
Proof. intros a b. unfold Json.key_le. apply total, _. Qed.

Lemma sort_keys_NoDup d : NoDup d.*1 → NoDup (Json.sort_keys d).*1.
Proof.
  intros Hnd. unfold Json.sort_keys.
  by rewrite (merge_sort_Permutation Json.key_le d).
Qed.

(** Reading the sorted text of a record gives the record with its keys
    sorted. *)
Lemma json_loads_dumps_sorted ens d :
  NoDup d.*1 → json_loads (Json.dumps_dict_sorted ens d) = Ok (Json.sort_keys d).
Proof.
  intros Hnd. unfold json_loads, Json.dumps_dict_sorted.
  by rewrite loads_dumps_dict by by apply sort_keys_NoDup.
Qed.

Lemma elem_of_sorted_strings (uniq : gset string) s :
  s ∈ sorted_strings uniq ↔ s ∈ uniq.
Proof.
  unfold sorted_strings. by rewrite merge_sort_Permutation, elem_of_elements.
Qed.

(** The second half of the builder returns for records with distinct
    keys. *)
Lemma signature_of_entries_Ok (entries : list dict) :
  Forall (λ e, NoDup e.*1) entries →
  ∃ h es, signature_of_entries entries = Ok (h, es).
Proof.
  intros Hnd. unfold signature_of_entries.
  destruct (rmap_Ok json_loads
              (sorted_strings (list_to_set (map (Json.dumps_dict_sorted true) entries))))
    as (es & -> & _); [|by eexists _, _].
  intros s (e & -> & He)%elem_of_sorted_strings%elem_of_list_to_set%elem_of_list_map.
  exists (Json.sort_keys e). apply json_loads_dumps_sorted.
  by eapply Forall_forall in Hnd.
Qed.

(** The second half of the builder depends on the set of records only. *)
Lemma signature_of_entries_set (es1 es2 : list dict) :
  (∀ e, e ∈ es1 ↔ e ∈ es2) →
  signature_of_entries es1 = signature_of_entries es2.
Proof.
  intros Hset. unfold signature_of_entries.
  assert (list_to_set (map (Json.dumps_dict_sorted true) es1)
          =@{gset string} list_to_set (map (Json.dumps_dict_sorted true) es2))
    as ->; [|done].
  apply set_eq. intros s. rewrite !elem_of_list_to_set, !elem_of_list_map.
  naive_solver.
Qed.

Lemma build_entries_Ok fields (rows : list (Row F)) :
  ∃ es, rmap (build_entry fields) rows = Ok es
    ∧ Forall2 (λ r e, build_entry fields r = Ok e) rows es
    ∧ Forall (λ e, NoDup e.*1) es.
Proof.
  destruct (rmap_Ok (build_entry fields) rows) as (es & Hes & Hall).
  { intros r _. destruct (build_entry_Ok fields r) as (e & ? & _). by exists e. }
  exists es. split; [done|]. split; [done|].
  apply Forall_forall. intros e He.
  apply list_elem_of_lookup in He as [i Hi].
  destruct (Forall2_lookup_r _ _ _ _ _ Hall Hi) as (r & _ & Hr).
  destruct (build_entry_Ok fields r) as (e' & He' & Hnd).
  rewrite Hr in He'. by injection He' as <-.
Qed.

(** The signature is a function of the set of records the rows
    normalise to, and the builder always returns. *)
Lemma build_schedule_signature_entries fields (rows1 rows2 : list (Row F)) :
  (∀ e, (∃ r, r ∈ rows1 ∧ build_entry fields r = Ok e)
        ↔ (∃ r, r ∈ rows2 ∧ build_entry fields r = Ok e)) →
  build_schedule_signature rows1 fields = build_schedule_signature rows2 fields
  ∧ ∃ h es, build_schedule_signature rows1 fields = Ok (h, es).
Proof.
  intros Hset. unfold build_schedule_signature.
  destruct (build_entries_Ok fields rows1) as (es1 & -> & H1 & Hnd1).
  destruct (build_entries_Ok fields rows2) as (es2 & -> & H2 & Hnd2).
  simpl. split; [|by apply signature_of_entries_Ok].
  apply signature_of_entries_set.
  assert (Hin : ∀ rows es, Forall2 (λ r e, build_entry fields r = Ok e) rows es →
            ∀ e, e ∈ es ↔ ∃ r, r ∈ rows ∧ build_entry fields r = Ok e).
  { clear. intros rows es Hall e. split.
    - intros [i Hi]%list_elem_of_lookup.
      destruct (Forall2_lookup_r _ _ _ _ _ Hall Hi) as (r & Hr & Hre).
      exists r. split; [|done]. apply list_elem_of_lookup. by exists i.
    - intros (r & [i Hi]%list_elem_of_lookup & Hre).
      destruct (Forall2_lookup_l _ _ _ _ _ Hall Hi) as (e' & He' & Hre').
      apply list_elem_of_lookup. exists i.
      rewrite Hre in Hre'. by injection Hre' as <-. }
  intros e. by rewrite (Hin _ _ H1), (Hin _ _ H2).
Qed.

(** C1: the hash and the canonical entry list depend only on the set
    of records the rows of the meter normalise to, and the builder
    always returns them; in particular rows given in another order, or
    with some rows repeated, yield the same hash and the same entry
    list. *)
Theorem build_schedule_signature_set_of_entries fields (rows1 rows2 : list (Row F)) :
  ((∀ e, (∃ r, r ∈ rows1 ∧ build_entry fields r = Ok e)
         ↔ (∃ r, r ∈ rows2 ∧ build_entry fields r = Ok e)) →
   build_schedule_signature rows1 fields = build_schedule_signature rows2 fields
   ∧ ∃ h es, build_schedule_signature rows1 fields = Ok (h, es))
  ∧ (rows1 ≡ₚ rows2 →
     build_schedule_signature rows1 fields = build_schedule_signature rows2 fields)
  ∧ ((∀ r, r ∈ rows2 → r ∈ rows1) →
     build_schedule_signature (rows1 ++ rows2) fields
     = build_schedule_signature rows1 fields).
Proof.
  split; [apply build_schedule_signature_entries|]. split.
  - intros Hp. apply build_schedule_signature_entries.
    intros e. by setoid_rewrite Hp.
  - intros Hsub. apply build_schedule_signature_entries.
    intros e. setoid_rewrite elem_of_app. naive_solver.
Qed.

End signature.

Example build_schedule_signature_ex :
  match build_schedule_signature
          [example_row "Tu,Mo" "7:00 AM"; example_row "Sa" "09:30";
           example_row "Mo, Tu" "07:00"]
          ["days"; "from_time"]
  with
  | inr (_, entries) => entries
  | inl _ => []
  end
  = [[("days", "Mo,Tu"); ("from_time", "07:00")];
     [("days", "Sa"); ("from_time", "09:30")]].
Proof. vm_compute. reflexivity. Qed.

Lemma build_schedule_signature_set_of_entries_witness :
  build_schedule_signature
    [example_row "Mo" "7:00 AM"; example_row "Sa" "09:30"] ["days"; "from_time"]
  = build_schedule_signature
      [example_row "Sa" "09:30"; example_row "Mo" "7:00 AM"] ["days"; "from_time"]
  ∧ build_schedule_signature
      ([example_row "Mo" "7:00 AM"; example_row "Sa" "09:30"]
       ++ [example_row "Mo" "7:00 AM"]) ["days"; "from_time"]
    = build_schedule_signature
        [example_row "Mo" "7:00 AM"; example_row "Sa" "09:30"]
        ["days"; "from_time"].
Proof.
  pose proof (build_schedule_signature_set_of_entries ["days"; "from_time"]
                [example_row "Mo" "7:00 AM"; example_row "Sa" "09:30"]
                [example_row "Sa" "09:30"; example_row "Mo" "7:00 AM"])
    as (_ & Hperm & _).
  pose proof (build_schedule_signature_set_of_entries ["days"; "from_time"]
                [example_row "Mo" "7:00 AM"; example_row "Sa" "09:30"]
                [example_row "Mo" "7:00 AM"])
    as (_ & _ & Hdup).
  split.
  - exact (Hperm (perm_swap _ _ _)).
  - refine (Hdup _). intros r Hr. apply list_elem_of_singleton in Hr.
    rewrite Hr. left.
Defined.

(** ** Grouping *)

Section groupby.
Context {K A : Type} `{EqDecision K}.
Implicit Types (gs : list (K * list A)) (key : A → K).

Lemma group_insert_old gs k a :
  k ∈ gs.*1 →
  ∃ g1 l g2, gs = g1 ++ (k, l) :: g2 ∧ k ∉ g1.*1
    ∧ group_insert gs k a = g1 ++ (k, l ++ [a]) :: g2.
Proof.
  induction gs as [|[k' l'] gs IH]; intros Hk; [by apply elem_of_nil in Hk|].
  simpl. destruct (decide (k' = k)) as [->|Hne].
  - exists [], l', gs. split; [done|]. split; [|done]. apply not_elem_of_nil.
  - apply elem_of_cons in Hk as [->|Hk]; [done|].
    destruct (IH Hk) as (g1 & l & g2 & -> & Hg1 & ->).
    exists ((k', l') :: g1), l, g2. split; [done|]. split; [|done].
    rewrite fmap_cons. apply not_elem_of_cons. by split.
Qed.

Lemma group_insert_new gs k a :
  k ∉ gs.*1 → group_insert gs k a = gs ++ [(k, [a])].
Proof.
  induction gs as [|[k' l'] gs IH]; intros Hk; [done|]. simpl.
  rewrite fmap_cons in Hk. apply not_elem_of_cons in Hk as [Hne Hk].
  rewrite decide_False by done. by rewrite IH.
Qed.

Lemma groupby_snoc key l a :
  groupby key (l ++ [a]) = group_insert (groupby key l) (key a) a.
Proof. unfold groupby. by rewrite foldl_app. Qed.

(** The groups partition the list: their keys are distinct, no group
    is empty, the members of a group have its key, and together the
    groups hold the elements of the list. *)
Lemma groupby_spec key l :
  NoDup (groupby key l).*1
  ∧ Forall (λ g, g.2 ≠ [] ∧ Forall (λ a, key a = g.1) g.2) (groupby key l)
  ∧ concat (groupby key l).*2 ≡ₚ l.
Proof.
  induction l as [|a l (Hnd & Hall & Hperm)] using rev_ind.
  { split; [constructor|]. split; [constructor|done]. }
  rewrite groupby_snoc.
  destruct (decide (key a ∈ (groupby key l).*1)) as [Hin|Hin].
  - destruct (group_insert_old _ _ a Hin) as (g1 & grp & g2 & Hgs & Hg1 & ->).
    rewrite Hgs in Hnd, Hall, Hperm. split; [|split].
    + by rewrite fmap_app, fmap_cons in *.
    + apply Forall_app in Hall as [H1 [[Hne Hk] H2]%Forall_cons_1].
      apply Forall_app. split; [done|]. constructor; [|done]. simpl in *.
      split; [by destruct grp|]. apply Forall_app. split; [done|].
      by constructor.
    + rewrite fmap_app, fmap_cons, concat_app, concat_cons in *. simpl in *.
      rewrite <- Hperm, <- !app_assoc.
      do 2 apply Permutation_app_head. apply Permutation_cons_append.
  - rewrite group_insert_new by done. split; [|split].
    + rewrite fmap_app. apply NoDup_app. split; [done|].
      split; [|apply NoDup_singleton].
      by intros k Hk ->%list_elem_of_singleton.
    + apply Forall_app. split; [done|]. constructor; [|done]. simpl.
      split; [done|]. by constructor.
    + rewrite fmap_app, concat_app. simpl. by rewrite Hperm.
Qed.

End groupby.

(** ** Orchestrator *)

Lemma read_decimal_zeros k s : read_decimal (PyStr.zeros k +:+ s) = read_decimal s.
Proof.
  induction k as [|k IH]; [done|]. unfold read_decimal in *.
  change (PyStr.zeros (S k) +:+ s) with (String "0" (PyStr.zeros k +:+ s)).
  cbn [NilEmpty.uint_of_string]. rewrite <- IH.
  by destruct (NilEmpty.uint_of_string (PyStr.zeros k +:+ s)).
Qed.

Lemma read_decimal_of_N n : read_decimal (PyStr.of_N n) = Some n.
Proof.
  unfold read_decimal, PyStr.of_N, NilZero.string_of_uint.
  destruct (N.to_uint n) eqn:Hn.
  { destruct n; [done|]. simpl in Hn.
    pose proof (DecimalPos.Unsigned.of_to p) as Hp. by rewrite Hn in Hp. }
  all: rewrite NilEmpty.usu, <- Hn.
  all: apply (f_equal Some), DecimalN.Unsigned.of_to.
Qed.

(** Distinct counter values give distinct cluster identifiers. *)
Lemma cluster_id_of_inj n m : cluster_id_of n = cluster_id_of m → n = m.
Proof.
  unfold cluster_id_of, PyStr.format_0d.
  rewrite !(proj2 (Z.ltb_ge _ _)) by lia. intros [= Heq].
  assert (Hr : ∀ k, read_decimal (PyStr.zfill 5 (PyStr.of_N (Z.to_N (Z.of_nat k))))
                    = Some (N.of_nat k)).
  { intros k. unfold PyStr.zfill.
    rewrite read_decimal_zeros, read_decimal_of_N. f_equal. lia. }
  pose proof (Hr n) as Hn. rewrite Heq, Hr in Hn. injection Hn. lia.
Qed.

Lemma concat_Permutation_proper {A} (l1 l2 : list (list A)) :
  l1 ≡ₚ l2 → concat l1 ≡ₚ concat l2.
Proof.
  induction 1 as [|x l1 l2 _ IH|x y l|l1 l2 l3 _ IH1 _ IH2]; simpl.
  - done.
  - by rewrite IH.
  - rewrite !app_assoc. by rewrite (Permutation_app_comm y x).
  - by rewrite IH1.
Qed.

Lemma elem_of_concat {A} (x : A) (ls : list (list A)) :
  x ∈ concat ls ↔ ∃ l, l ∈ ls ∧ x ∈ l.
Proof.
  rewrite list_elem_of_In, in_concat.
  by setoid_rewrite list_elem_of_In.
Qed.

Section orchestrator.
Context {F : Type} `{FloatOps F}.
Variable sklearn_dbscan : list F → list F → F → result (list Z).
Implicit Types (es : list (string * list (Meter F))) (acc : Acc F).

(** [haversine_m] computes the great-circle distance of the
    specification, and raises [ValueError] where it is undefined. *)
Lemma haversine_m_distance (lat1 lon1 lat2 lon2 : F) :
  haversine_m lat1 lon1 lat2 lon2
  = math (great_circle_distance lat1 lon1 lat2 lon2).
Proof.
  unfold haversine_m, great_circle_distance, hav.
  destruct (f_sin (f_div (f_sub (f_radians lat2) (f_radians lat1)) f_two));
    [|done]. simpl.
  destruct (f_cos (f_radians lat1)); [|done]. simpl.
  destruct (f_cos (f_radians lat2)); [|done]. simpl.
  destruct (f_sin (f_div (f_radians (f_sub lon2 lon1)) f_two)); [|done]. simpl.
  destruct (f_sqrt _); [|done]. simpl.
  by destruct (f_asin _).
Qed.

Lemma math_Ok (y : option F) x : math y = Ok x ↔ y = Some x.
Proof. destruct y; simpl; split; by intros [= ->]. Qed.

Lemma math_Raise (y : option F) e : math y = inl e ↔ y = None ∧ e = ValueError.
Proof.
  destruct y; simpl; split; try done; [by intros [? _]|by intros [= <-]|].
  by intros [_ ->].
Qed.

Lemma rfoldl_app {A B} (f : A → B → result A) a (l1 l2 : list B) :
  rfoldl f a (l1 ++ l2) = rbind (rfoldl f a l1) (λ a', rfoldl f a' l2).
Proof.
  revert a. induction l1 as [|x l1 IH]; intros a; [done|]. simpl.
  destruct (f a x); [done|]. simpl. apply IH.
Qed.

(** The radius loop: the maximum of 0.0 and the distances from the
    centroid to the members, or [ValueError] when a member has no
    distance to it. *)
Lemma max_radius_spec clat clon (sub : list (Meter F)) :
  match max_radius clat clon sub with
  | inr max_r =>
      ∃ ds, Forall2 (λ m d, great_circle_distance clat clon (latitude m)
                              (longitude m) = Some d) sub ds
        ∧ max_r = foldl py_max f_zero ds
  | inl e =>
      e = ValueError
      ∧ Exists (λ m, great_circle_distance clat clon (latitude m) (longitude m)
                     = None) sub
  end.
Proof.
  unfold max_radius. generalize (f_zero (F:=F)).
  induction sub as [|m sub IH]; intros z; simpl.
  - exists []. split; [constructor|done].
  - rewrite haversine_m_distance.
    destruct (great_circle_distance _ _ _ _) as [d|] eqn:Hd; simpl.
    + specialize (IH (py_max z d)).
      destruct (rfoldl _ _ sub) as [e|max_r].
      * destruct IH as [-> Hex]. split; [done|]. by right.
      * destruct IH as (ds & Hds & ->). exists (d :: ds).
        split; [by constructor|done].
    + split; [done|]. by left.
Qed.

Lemma cluster_rows_of_cons gid e es :
  cluster_rows_of gid (e :: es)
  = cluster_record (cluster_id_of (S gid)) e.1 e.2 :: cluster_rows_of (S gid) es.
Proof.
  unfold cluster_rows_of. rewrite imap_cons, Nat.add_0_r. f_equal.
  apply imap_ext. intros i x _. simpl. do 2 f_equal. lia.
Qed.

Lemma member_rows_of_cons gid e es :
  member_rows_of gid (e :: es)
  = map (member_record (cluster_id_of (S gid)) e.1) e.2 :: member_rows_of (S gid) es.
Proof.
  unfold member_rows_of. rewrite imap_cons, Nat.add_0_r. f_equal.
  apply imap_ext. intros i x _. simpl. do 3 f_equal. lia.
Qed.

Lemma cluster_rows_of_app gid es1 es2 :
  cluster_rows_of gid (es1 ++ es2)
  = cluster_rows_of gid es1 ++ cluster_rows_of (gid + length es1) es2.
Proof.
  unfold cluster_rows_of. rewrite imap_app. f_equal.
  apply imap_ext. intros i e _. simpl. do 2 f_equal. lia.
Qed.

Lemma member_rows_of_app gid es1 es2 :
  member_rows_of gid (es1 ++ es2)
  = member_rows_of gid es1 ++ member_rows_of (gid + length es1) es2.
Proof.
  unfold member_rows_of. rewrite imap_app. f_equal.
  apply imap_ext. intros i e _. simpl. do 3 f_equal. lia.
Qed.

(** The rows added by the clusters of one signature group, or
    [ValueError] when a member of one of them has no distance to the
    centroid. *)
Lemma rfoldl_emit_cluster shash acc subs :
  match rfoldl (emit_cluster shash) acc subs with
  | inr acc' =>
      Forall radius_defined subs
      ∧ acc' = {| global_cluster_id := global_cluster_id acc + length subs;
                  cluster_records :=
                    cluster_records acc
                    ++ cluster_rows_of (global_cluster_id acc) (map (pair shash) subs);
                  member_records :=
                    member_records acc
                    ++ concat (member_rows_of (global_cluster_id acc)
                                 (map (pair shash) subs)) |}
  | inl e => e = ValueError ∧ Exists (λ sub, ¬ radius_defined sub) subs
  end.
Proof.
  revert acc. induction subs as [|sub subs IH]; intros acc.
  - simpl. split; [constructor|]. destruct acc. simpl.
    by rewrite Nat.add_0_r, !app_nil_r.
  - cbn [rfoldl]. unfold emit_cluster at 1.
    pose proof (max_radius_spec (f_mean (map latitude sub))
                  (f_mean (map longitude sub)) sub) as Hmax.
    destruct (max_radius _ _ sub) as [e|max_r] eqn:Hr; cbn [rbind Ok].
    + destruct Hmax as [-> _]. split; [done|]. left.
      intros [x Hx]. rewrite Hr in Hx. discriminate.
    + specialize (IH {| global_cluster_id := S (global_cluster_id acc);
                        cluster_records :=
                          cluster_records acc
                          ++ [cluster_summary (cluster_id_of (S (global_cluster_id acc)))
                                shash sub max_r];
                        member_records :=
                          member_records acc
                          ++ map (member_record
                                    (cluster_id_of (S (global_cluster_id acc))) shash)
                                 sub |}).
      destruct (rfoldl _ _ subs) as [e|acc'].
      * destruct IH as [-> Hex]. split; [done|]. by right.
      * destruct IH as [Hall ->]. split.
        { constructor; [by exists max_r|done]. }
        cbn [global_cluster_id cluster_records member_records map length].
        rewrite cluster_rows_of_cons, member_rows_of_cons, concat_cons.
        cbn [fst snd]. rewrite <- !app_assoc. cbn [app].
        unfold cluster_record at 1, radius_of. rewrite Hr.
        f_equal. lia.
Qed.

(** Splitting a group by label gives non-empty parts that together
    hold the meters of the group. *)
Lemma split_by_label_spec (g : list (Meter F)) labels subs :
  split_by_label g labels = Ok subs →
  Forall (λ sub, sub ≠ []) subs ∧ concat subs ≡ₚ g.
Proof.
  unfold split_by_label. case_decide as Hlen; [|done]. intros [= <-].
  destruct (groupby_spec fst (zip labels g)) as (_ & Hall & Hperm).
  pose proof (merge_sort_Permutation group_le (groupby fst (zip labels g)))
    as Hsort.
  fold (groupby_sorted fst (zip labels g)) in Hsort. split.
  - apply Forall_forall. intros sub (grp & -> & Hgrp)%elem_of_list_map.
    rewrite Hsort in Hgrp. eapply Forall_forall in Hall as [Hne _]; [|done].
    by destruct (grp.2).
  - rewrite (concat_Permutation_proper _ (map (λ grp, map snd grp.2)
                                            (groupby fst (zip labels g))))
      by (by apply Permutation_map).
    rewrite <- (map_map snd (map snd)), <- concat_map.
    change (map snd (groupby fst (zip labels g)))
      with ((groupby fst (zip labels g)).*2).
    rewrite (Permutation_map snd Hperm).
    change (map snd (zip labels g)) with ((zip labels g).*2).
    rewrite snd_zip; [done|lia].
Qed.

Lemma cluster_groups_spec radius groups acc acc' :
  cluster_groups sklearn_dbscan radius acc groups = Ok acc' →
  ∃ es, emitted groups es
    ∧ global_cluster_id acc' = global_cluster_id acc + length es
    ∧ cluster_records acc'
      = cluster_records acc ++ cluster_rows_of (global_cluster_id acc) es
    ∧ member_records acc'
      = member_records acc ++ concat (member_rows_of (global_cluster_id acc) es)
    ∧ Forall (λ e, radius_defined e.2) es.
Proof.
  revert acc. induction groups as [|[h g] groups IH]; intros acc; simpl.
  - intros [= <-]. exists []. unfold emitted. simpl.
    rewrite Nat.add_0_r, !app_nil_r. repeat split; constructor.
  - unfold cluster_group at 1. simpl.
    destruct (cluster_points_haversine _ _ _ _) as [e|labels]; [done|]. simpl.
    destruct (split_by_label g labels) as [e|subs] eqn:Hsplit; [done|]. simpl.
    pose proof (rfoldl_emit_cluster h acc subs) as Hemit.
    destruct (rfoldl (emit_cluster h) acc subs) as [e|acc1]; [done|]. simpl.
    destruct Hemit as [Hdef ->].
    intros (es & (Hne & Hperm & Hsub) & Hgid & Hcr & Hmr & Hrad)%IH.
    apply split_by_label_spec in Hsplit as [Hsne Hsperm].
    simpl in Hgid, Hcr, Hmr.
    exists (map (pair h) subs ++ es). split; [split; [|split]|].
    + apply Forall_app. split; [|done].
      apply Forall_forall. intros e (sub & -> & Hsubin)%elem_of_list_map. simpl.
      by eapply Forall_forall in Hsne.
    + rewrite fmap_app, concat_app, Hperm, fmap_cons, concat_cons.
      cbn [snd]. apply Permutation_app_tail.
      assert (Hsnd : ∀ l : list (list (Meter F)), (map (pair h) l).*2 = l).
      { clear. induction l as [|s l IH]; [done|]. simpl. by f_equal. }
      by rewrite Hsnd.
    + apply Forall_app. split.
      * apply Forall_forall. intros e (sub & -> & Hsubin)%elem_of_list_map.
        exists (h, g). split; [left|]. split; [done|]. simpl. intros m Hm.
        rewrite <- Hsperm. apply elem_of_concat. by exists sub.
      * eapply Forall_impl; [exact Hsub|]. intros e (g' & Hg' & ? & ?).
        exists g'. split; [by right|done].
    + rewrite cluster_rows_of_app, member_rows_of_app, concat_app,
        length_app, length_map.
      rewrite Hgid, Hcr, Hmr, <- !app_assoc. split; [lia|].
      split; [done|]. split; [done|].
      apply Forall_app. split; [|done].
      apply Forall_forall. intros e (sub & -> & Hsubin)%elem_of_list_map. simpl.
      by eapply Forall_forall in Hdef.
Qed.

End orchestrator.

Lemma NoDup_map_inj_on {A B} (f : A → B) (l : list A) x y :
  NoDup (map f l) → x ∈ l → y ∈ l → f x = f y → x = y.
Proof.
  induction l as [|a l IH]; simpl; intros Hnd Hx Hy Hf;
    [by apply elem_of_nil in Hx|].
  apply NoDup_cons in Hnd as [Ha Hnd].
  apply elem_of_cons in Hx as [->|Hx]; apply elem_of_cons in Hy as [->|Hy].
  - done.
  - destruct Ha. rewrite Hf. apply elem_of_list_map. by exists y.
  - destruct Ha. rewrite <- Hf. apply elem_of_list_map. by exists x.
  - by apply IH.
Qed.

Section orchestrator_output.
Context {F : Type} `{FloatOps F} `{HashSeed}.
Variable sklearn_dbscan : list F → list F → F → result (list Z).
Implicit Types (es : list (string * list (Meter F))) (acc : Acc F).

(** A membership row comes from a meter of one emitted cluster. *)
Lemma elem_of_member_rows gid es (m : MemberRecord F) :
  m ∈ concat (member_rows_of gid es) ↔
  ∃ i e mm, es !! i = Some e ∧ mm ∈ e.2
    ∧ m = member_record (cluster_id_of (S (gid + i))) e.1 mm.
Proof.
  revert gid. induction es as [|e es IH]; intros gid.
  - split; [by intros ?%elem_of_nil|]. by intros (i & e & mm & ? & _).
  - rewrite member_rows_of_cons, concat_cons, elem_of_app, IH, elem_of_list_map.
    split.
    + intros [(mm & -> & Hmm)|(i & e' & mm & Hi & Hmm & ->)].
      * exists 0, e, mm. by rewrite Nat.add_0_r.
      * exists (S i), e', mm. split; [done|]. split; [done|].
        do 2 f_equal. lia.
    + intros ([|i] & e' & mm & Hi & Hmm & ->); simplify_eq/=.
      * left. exists mm. by rewrite Nat.add_0_r.
      * right. exists i, e', mm. split; [done|]. split; [done|].
        do 2 f_equal. lia.
Qed.

(** A cluster row comes from one emitted cluster. *)
Lemma elem_of_cluster_rows gid es (c : ClusterRecord F) :
  c ∈ cluster_rows_of gid es ↔
  ∃ i e, es !! i = Some e
    ∧ c = cluster_record (cluster_id_of (S (gid + i))) e.1 e.2.
Proof.
  unfold cluster_rows_of. rewrite list_elem_of_lookup. split.
  - intros (i & Hi). rewrite list_lookup_imap in Hi.
    destruct (es !! i) as [e|] eqn:He; simplify_eq/=. by exists i, e.
  - intros (i & e & He & ->). exists i. by rewrite list_lookup_imap, He.
Qed.

Lemma filter_member_rows_same cid h (l : list (Meter F)) :
  filter (λ m, m_cluster_id m = cid) (map (member_record cid h) l)
  = map (member_record cid h) l.
Proof.
  induction l as [|x l IH]; [done|]. simpl. by rewrite filter_cons_True, IH.
Qed.

Lemma filter_member_rows_other cid cid' h (l : list (Meter F)) :
  cid' ≠ cid →
  filter (λ m, m_cluster_id m = cid) (map (member_record cid' h) l) = [].
Proof.
  intros Hne. induction l as [|x l IH]; [done|]. simpl.
  by rewrite filter_cons_False.
Qed.

Lemma filter_member_rows_none gid es cid :
  (∀ i, cluster_id_of (S (gid + i)) ≠ cid) →
  filter (λ m, m_cluster_id m = cid) (concat (member_rows_of gid es)) = [].
Proof.
  revert gid. induction es as [|e es IH]; intros gid Hne; [done|].
  rewrite member_rows_of_cons, concat_cons, filter_app.
  rewrite filter_member_rows_other by (rewrite <- (Nat.add_0_r gid); apply Hne).
  rewrite IH; [done|]. intros i. replace (S gid + i) with (gid + S i) by lia.
  apply Hne.
Qed.

(** The membership rows that refer to the cluster emitted at position
    [i] are the rows of its members, in order. *)
Lemma member_rows_of_cluster gid es i e :
  es !! i = Some e →
  filter (λ m, m_cluster_id m = cluster_id_of (S (gid + i)))
         (concat (member_rows_of gid es))
  = map (member_record (cluster_id_of (S (gid + i))) e.1) e.2.
Proof.
  revert gid i. induction es as [|e' es IH]; intros gid i Hi; [done|].
  rewrite member_rows_of_cons, concat_cons, filter_app.
  destruct i as [|i]; simplify_eq/=.
  - rewrite Nat.add_0_r, filter_member_rows_same, filter_member_rows_none;
      [by rewrite app_nil_r|].
    intros i Heq%cluster_id_of_inj. lia.
  - rewrite filter_member_rows_other by (intros Heq%cluster_id_of_inj; lia).
    replace (gid + S i) with (S gid + i) by lia. by rewrite IH.
Qed.

Lemma length_member_rows gid es :
  length (concat (member_rows_of gid es))
  = sum_list (map count_meters (cluster_rows_of gid es)).
Proof.
  revert gid. induction es as [|e es IH]; intros gid; [done|].
  rewrite member_rows_of_cons, cluster_rows_of_cons, concat_cons, length_app.
  simpl. by rewrite length_map, IH.
Qed.

Lemma post_ids_member_rows gid es :
  map m_post_id (concat (member_rows_of gid es)) = map post_id (concat es.*2).
Proof.
  revert gid. induction es as [|e es IH]; intros gid; [done|].
  rewrite member_rows_of_cons, fmap_cons, !concat_cons, !map_app, IH.
  f_equal. by rewrite map_map.
Qed.

Lemma elem_of_missing_columns df c :
  c ∈ missing_columns df ↔ c ∈ required_cols ∧ c ∉ columns df.
Proof.
  unfold missing_columns.
  rewrite list_elem_of_filter, (set_iter_elements required_cols), elem_of_elements.
  tauto.
Qed.

(** What a successful run has computed and written. *)
Lemma main_Ok_run args fs fs' :
  main sklearn_dbscan args fs = (Ok (), fs') →
  ∃ meters es,
    (∀ c, c ∈ required_cols → c ∈ columns (input_csv args))
    ∧ build_meters (columns (input_csv args)) (signature_fields args)
        (numeric_rows (input_csv args)) = Ok meters
    ∧ meters ≠ []
    ∧ emitted (groupby schedule_hash meters) es
    ∧ fs' = {| clusters_csv := Some (cluster_rows_of 0 es);
               members_csv := Some (concat (member_rows_of 0 es)) |}
    ∧ Forall (λ e, radius_defined e.2) es.
Proof.
  unfold main.
  destruct (missing_columns _) as [|c missing] eqn:Hmiss;
    [|intros Hx; inversion Hx].
  destruct (build_meters _ _ _) as [e|meters] eqn:Hmeters;
    [intros Hx; inversion Hx|].
  unfold rbind. destruct meters as [|m meters]; [intros Hx; inversion Hx|].
  destruct (cluster_groups _ _ _ _) as [e|acc] eqn:Hgroups;
    [intros Hx; inversion Hx|].
  intros [= <-]. exists (m :: meters).
  apply cluster_groups_spec in Hgroups as (es & Hem & _ & Hcr & Hmr & Hrad).
  simpl in Hcr, Hmr. exists es.
  split; [|split; [reflexivity|split; [discriminate|split; [exact Hem|split]]]].
  2: { rewrite Hcr, Hmr. reflexivity. }
  2: { exact Hrad. }
  intros c Hc. destruct (decide (c ∈ columns (input_csv args))) as [Hyes|Hno];
    [exact Hyes|].
  assert (c ∈ missing_columns (input_csv args)) as Hin.
  { apply elem_of_missing_columns. split; [exact Hc|exact Hno]. }
  rewrite Hmiss in Hin. apply elem_of_nil in Hin. destruct Hin.
Qed.

Lemma main_Ok_spec args fs fs' :
  main sklearn_dbscan args fs = (Ok (), fs') →
  ∃ meters es,
    (∀ c, c ∈ required_cols → c ∈ columns (input_csv args))
    ∧ build_meters (columns (input_csv args)) (signature_fields args)
        (numeric_rows (input_csv args)) = Ok meters
    ∧ meters ≠ []
    ∧ emitted (groupby schedule_hash meters) es
    ∧ fs' = {| clusters_csv := Some (cluster_rows_of 0 es);
               members_csv := Some (concat (member_rows_of 0 es)) |}.
Proof.
  intros (meters & es & H1 & H2 & H3 & H4 & H5 & _)%main_Ok_run.
  exists meters, es. split; [exact H1|]. split; [exact H2|]. split; [exact H3|].
  split; [exact H4|exact H5].
Qed.

(** The meters built by the first loop: one per post, with distinct
    post identifiers, which are those of the rows with numeric
    coordinates. *)
Lemma build_meters_spec cols fields (df : list (Row F)) meters :
  build_meters cols fields df = Ok meters →
  NoDup (map post_id meters)
  ∧ ∀ pid, pid ∈ map post_id meters
      ↔ ∃ r, r ∈ df ∧ default "" (row_get_text r "post_id") = pid.
Proof.
  unfold build_meters. intros Hall%rmap_Ok_inv.
  set (key := λ r : Row F, default "" (row_get_text r "post_id")) in *.
  destruct (groupby_spec key df) as (Hnd & Hgrp & Hperm).
  assert (Hids : map post_id meters = (groupby key df).*1).
  { clear -Hall. induction Hall as [|g m gs ms Hgm _ IH]; [done|].
    simpl. rewrite IH. f_equal. unfold build_meter in Hgm.
    destruct (build_schedule_signature _ _); [done|]. by injection Hgm as <-. }
  rewrite Hids. split; [done|]. intros pid. split.
  - intros ([k g] & -> & Hg)%list_elem_of_fmap.
    eapply Forall_forall in Hgrp as [Hne Hkey]; [|done]. simpl in *.
    destruct g as [|r g]; [done|]. exists r.
    apply Forall_cons_1 in Hkey as [Hr _]. split; [|done].
    rewrite <- Hperm. apply elem_of_concat. exists (r :: g). split; [|left].
    apply list_elem_of_fmap. by exists (k, r :: g).
  - intros (r & Hr & <-). rewrite <- Hperm in Hr.
    apply elem_of_concat in Hr as (g & ([k g'] & -> & Hg)%list_elem_of_fmap & Hr).
    eapply Forall_forall in Hgrp as Hg'; [|done]. destruct Hg' as [_ Hkey].
    simpl in *. eapply Forall_forall in Hkey; [|done].
    change (key r ∈ (groupby key df).*1). rewrite Hkey.
    apply list_elem_of_fmap. by exists (k, g').
Qed.

(** The clusters emitted for the groups of equal hash hold each meter
    once, and the members of a cluster have its hash. *)
Lemma emitted_groupby_hash (meters : list (Meter F)) es :
  emitted (groupby schedule_hash meters) es →
  concat es.*2 ≡ₚ meters
  ∧ ∀ e m, e ∈ es → m ∈ e.2 → schedule_hash m = e.1.
Proof.
  intros (_ & Hperm & Hsub).
  destruct (groupby_spec schedule_hash meters) as (_ & Hgrp & Hperm').
  split; [by rewrite Hperm|]. intros e m He Hm.
  eapply Forall_forall in Hsub as (g & Hg & -> & Hin); [|done].
  eapply Forall_forall in Hgrp as [_ Hkey]; [|done].
  eapply Forall_forall in Hkey; [done|]. by apply Hin.
Qed.

End orchestrator_output.

Section orchestrator_claims.
Context {F : Type} `{FloatOps F} `{HashSeed}.
Variable sklearn_dbscan : list F → list F → F → result (list Z).
Implicit Types (args : Args F) (fs : Files (ClusterRecord F) (MemberRecord F)).

Lemma build_meters_no_exit cols fields (df : list (Row F)) msg :
  build_meters cols fields df ≠ Raise (SystemExit msg).
Proof.
  unfold build_meters.
  destruct (rmap_Ok (λ g : string * list (Row F), build_meter cols fields g.1 g.2)
              (groupby (λ r, default "" (row_get_text r "post_id")) df))
    as (ms & -> & _); [|discriminate].
  intros [pid g] _. unfold build_meter. cbn [fst snd].
  destruct (build_schedule_signature_entries fields g g)
    as (_ & h & es & ->). { tauto. }
  eexists. reflexivity.
Qed.

Lemma rfoldl_raises {A B} (P : exn → Prop) (f : A → B → result A) a l e :
  (∀ a x e, f a x = inl e → P e) → rfoldl f a l = inl e → P e.
Proof.
  intros Hf. revert a. induction l as [|x l IH]; intros a; [done|]. simpl.
  destruct (f a x) as [e'|a'] eqn:Hfa; simpl.
  - intros [= <-]. by eapply Hf.
  - apply IH.
Qed.

Lemma indexed_raises {A} (y : option A) e : indexed y = inl e → e = IndexError.
Proof. destruct y; [done|]. by intros [= <-]. Qed.

Lemma haversine_m_raises (a b c d : F) e :
  haversine_m a b c d = inl e → e = ValueError.
Proof. rewrite haversine_m_distance. by intros [_ ->]%math_Raise. Qed.

Lemma within_radius_raises (lats lons : list F) r i j e :
  within_radius lats lons r i j = inl e → e = IndexError ∨ e = ValueError.
Proof.
  unfold within_radius.
  destruct (lats !! i); [|intros [= <-]; by left]. simpl.
  destruct (lons !! i); [|intros [= <-]; by left]. simpl.
  destruct (lats !! j); [|intros [= <-]; by left]. simpl.
  destruct (lons !! j); [|intros [= <-]; by left]. simpl.
  destruct (haversine_m _ _ _ _) as [e'|d] eqn:Hh; [|done]. simpl.
  intros [= <-]. right. by eapply haversine_m_raises.
Qed.

(** The fallback raises nothing but [IndexError] and [ValueError]. *)
Lemma cluster_fallback_raises (lats lons : list F) r e :
  cluster_fallback lats lons r = inl e → e = IndexError ∨ e = ValueError.
Proof.
  unfold cluster_fallback.
  destruct (rfoldl _ _ (index_pairs _)) as [e'|uf] eqn:Hloop; simpl.
  - intros [= <-].
    eapply (rfoldl_raises (λ e, e = IndexError ∨ e = ValueError));
      [|exact Hloop].
    intros uf [i j] e''. unfold fallback_step. simpl.
    destruct (within_radius _ _ _ _ _) as [e3|[]] eqn:Hw; simpl.
    + intros [= <-]. by eapply within_radius_raises.
    + intros ->%indexed_raises. by left.
    + done.
  - unfold find_all.
    destruct (rfoldl _ _ (seq _ _)) as [e'|st] eqn:Hfind; simpl; [|done].
    intros [= <-]. left.
    eapply (rfoldl_raises (λ e, e = IndexError)); [|exact Hfind].
    intros st i e''. cbv beta.
    destruct (indexed (UnionFind.find st.1 (Z.of_nat i))) as [e3|st'] eqn:Hi;
      simpl; [|done].
    intros [= <-]. by eapply indexed_raises.
Qed.

(** The clusterer passes on the [SystemExit] of scikit-learn and the
    exceptions of the fallback. *)
Lemma cluster_points_haversine_raises (lats lons : list F) r e :
  cluster_points_haversine sklearn_dbscan lats lons r = inl e →
  sklearn_dbscan lats lons r = inl e ∧ (∃ msg, e = SystemExit msg)
  ∨ e = IndexError ∨ e = ValueError.
Proof.
  unfold cluster_points_haversine. destruct (length lats); [done|].
  destruct (sklearn_dbscan lats lons r) as [e'|ls] eqn:Hs.
  - destruct e'; try (intros ?%cluster_fallback_raises; by right).
    intros [= <-]. left. split; [done|]. by eexists.
  - destruct (reindex_labels ls); [done|].
    intros ?%cluster_fallback_raises. by right.
Qed.

Lemma cluster_groups_raises radius groups acc e :
  cluster_groups sklearn_dbscan radius acc groups = inl e →
  (∃ lats lons msg, e = SystemExit msg
     ∧ sklearn_dbscan lats lons radius = inl (SystemExit msg))
  ∨ e = IndexError ∨ e = ValueError.
Proof.
  revert acc. induction groups as [|g groups IH]; intros acc; [done|].
  simpl. unfold cluster_group at 1.
  destruct (cluster_points_haversine _ _ _ _) as [e'|labels] eqn:Hc; simpl.
  - intros [= <-].
    apply cluster_points_haversine_raises in Hc as [[Hs [msg ->]]|Hc];
      [|by right].
    left. by eexists _, _, _.
  - destruct (split_by_label g.2 labels) as [e'|subs] eqn:Hsplit; simpl.
    { unfold split_by_label in Hsplit. case_decide; [discriminate|].
      injection Hsplit as <-. intros [= <-]. right. by right. }
    pose proof (rfoldl_emit_cluster g.1 acc subs) as Hemit.
    destruct (rfoldl (emit_cluster g.1) acc subs) as [e'|acc1]; simpl.
    + destruct Hemit as [-> _]. intros [= <-]. right. by right.
    + apply IH.
Qed.

Lemma cluster_groups_no_exit radius groups acc msg :
  (∀ lats lons r m, sklearn_dbscan lats lons r ≠ Raise (SystemExit m)) →
  cluster_groups sklearn_dbscan radius acc groups ≠ Raise (SystemExit msg).
Proof.
  intros Hsk [(lats & lons & m & _ & Hs)|[?|?]]%cluster_groups_raises;
    [by apply Hsk in Hs|done..].
Qed.

(** C9, the part that holds and an input on which the claim fails:
    the columns reported missing are exactly the required columns the
    table lacks, each once; when there is one, [main] ends in
    [sys.exit] with the message that lists them, whatever the rows
    are, with a non-zero status and the files left as they were; and
    [main] ends in [sys.exit] in no other case.  But the run of a
    table that has the three columns and no row also ends with a
    non-zero status and no file written, by a [KeyError]. *)
Theorem missing_required_columns_exit args fs :
  let missing := missing_columns (input_csv args) in
  (∀ c, c ∈ missing
        ↔ c ∈ ["post_id"; "longitude"; "latitude"] ∧ c ∉ columns (input_csv args))
  ∧ NoDup missing
  ∧ (missing ≠ [] →
     main sklearn_dbscan args fs
     = (Raise (SystemExit ("Missing required columns in input CSV: "
                            +:+ repr_names missing)), fs)
     ∧ exit_status (main sklearn_dbscan args fs).1 ≠ 0)
  ∧ ((∀ lats lons r m, sklearn_dbscan lats lons r ≠ Raise (SystemExit m)) →
     ∀ msg fs', main sklearn_dbscan args fs = (Raise (SystemExit msg), fs') →
       missing ≠ [])
  ∧ (missing_columns (input_csv header_only_args) = []
     ∧ main no_sklearn header_only_args no_files
       = (Raise (KeyError "schedule_hash"), no_files)
     ∧ exit_status (main no_sklearn header_only_args no_files).1 ≠ 0).
Proof.
  intros missing. subst missing.
  assert (Hexit : ∀ c l, missing_columns (input_csv args) = c :: l →
            main sklearn_dbscan args fs
            = (Raise (SystemExit ("Missing required columns in input CSV: "
                                   +:+ repr_names (c :: l))), fs)).
  { intros c l Hm. unfold main. rewrite Hm. reflexivity. }
  assert (Hrun : missing_columns (input_csv args) = [] →
            main sklearn_dbscan args fs
            = match
                rbind (build_meters (columns (input_csv args))
                         (signature_fields args) (numeric_rows (input_csv args)))
                  (λ meters,
                     match meters with
                     | [] => Raise (KeyError "schedule_hash")
                     | _ :: _ =>
                         cluster_groups sklearn_dbscan (radius_m args)
                           {| global_cluster_id := 0; cluster_records := [];
                              member_records := [] |}
                           (groupby schedule_hash meters)
                     end)
              with
              | inr acc =>
                  (Ok (), {| clusters_csv := Some (cluster_records acc);
                             members_csv := Some (member_records acc) |})
              | inl e => (Raise e, fs)
              end).
  { intros Hm. unfold main. rewrite Hm. reflexivity. }
  assert (Hreq : ∀ c, c ∈ required_cols
                      ↔ c ∈ ["post_id"; "longitude"; "latitude"]).
  { intros c. unfold required_cols.
    rewrite !elem_of_union, !elem_of_singleton, !elem_of_cons, elem_of_nil.
    tauto. }
  split; [|split; [|split; [|split]]].
  - intros c. by rewrite elem_of_missing_columns, Hreq.
  - unfold missing_columns. apply NoDup_filter.
    rewrite (set_iter_elements required_cols). apply NoDup_elements.
  - intros Hne.
    destruct (missing_columns (input_csv args)) as [|c l] eqn:Hm;
      [destruct Hne; reflexivity|].
    rewrite (Hexit c l eq_refl). split; [reflexivity|]. simpl. discriminate.
  - intros Hsk msg fs' Hmain Hnil. rewrite (Hrun Hnil) in Hmain.
    clear Hnil Hexit Hrun.
    destruct (build_meters _ _ _) as [e|meters] eqn:Hm.
    + simpl in Hmain. injection Hmain as -> _.
      by apply build_meters_no_exit in Hm.
    + unfold rbind in Hmain. destruct meters as [|m meters];
        [discriminate|].
      destruct (cluster_groups _ _ _ _) as [e|acc] eqn:Hg;
        [|discriminate].
      injection Hmain as -> _. by apply cluster_groups_no_exit in Hg.
  - assert (Hnone : missing_columns (input_csv header_only_args) = []).
    { destruct (missing_columns (input_csv header_only_args)) as [|c l] eqn:Hm;
        [reflexivity|].
      assert (Hc : c ∈ missing_columns (input_csv header_only_args))
        by (rewrite Hm; left).
      apply elem_of_missing_columns in Hc as [Hc Hno]. apply Hreq in Hc.
      destruct Hno. exact Hc. }
    split; [exact Hnone|].
    assert (Hmain : main no_sklearn header_only_args no_files
                    = (Raise (KeyError "schedule_hash"), no_files)).
    { unfold main. rewrite Hnone. reflexivity. }
    split; [exact Hmain|]. rewrite Hmain. simpl. discriminate.
Qed.

(** C6: in the membership table that a run writes, every row carries
    the signature hash of its meter, and two rows whose hashes differ
    never carry the same cluster identifier, wherever the meters
    lie. *)
Theorem different_signature_different_cluster args fs fs' :
  main sklearn_dbscan args fs = (Ok (), fs') →
  ∃ meters members,
    build_meters (columns (input_csv args)) (signature_fields args)
      (numeric_rows (input_csv args)) = Ok meters
    ∧ members_csv fs' = Some members
    ∧ (∀ m, m ∈ members →
         ∃ meter, meter ∈ meters ∧ m_post_id m = post_id meter
           ∧ m_schedule_hash m = schedule_hash meter
           ∧ m_latitude m = latitude meter ∧ m_longitude m = longitude meter)
    ∧ (∀ m1 m2, m1 ∈ members → m2 ∈ members →
         m_schedule_hash m1 ≠ m_schedule_hash m2 →
         m_cluster_id m1 ≠ m_cluster_id m2)
    ∧ (∀ meter1 meter2 m1 m2,
         meter1 ∈ meters → meter2 ∈ meters →
         schedule_hash meter1 ≠ schedule_hash meter2 →
         m1 ∈ members → m2 ∈ members →
         m_post_id m1 = post_id meter1 → m_post_id m2 = post_id meter2 →
         m_cluster_id m1 ≠ m_cluster_id m2).
Proof.
  intros (meters & es & _ & Hmeters & _ & Hem & ->)%main_Ok_spec.
  destruct (emitted_groupby_hash _ _ Hem) as [Hperm Hhash].
  destruct (build_meters_spec _ _ _ _ Hmeters) as [Hnd _].
  exists meters, (concat (member_rows_of 0 es)).
  split; [done|]. split; [done|].
  assert (Hrow : ∀ m, m ∈ concat (member_rows_of 0 es) →
            ∃ meter, meter ∈ meters ∧ m_post_id m = post_id meter
              ∧ m_schedule_hash m = schedule_hash meter
              ∧ m_latitude m = latitude meter ∧ m_longitude m = longitude meter).
  { intros m (i & e & mm & Hi & Hmm & ->)%elem_of_member_rows.
    exists mm. split.
    - rewrite <- Hperm. apply elem_of_concat. exists e.2. split; [|done].
      apply list_elem_of_fmap. exists e. split; [done|].
      by eapply list_elem_of_lookup_2.
    - simpl. repeat split. symmetry. eapply Hhash; [|done].
      by eapply list_elem_of_lookup_2. }
  assert (Hsep : ∀ m1 m2, m1 ∈ concat (member_rows_of 0 es) →
            m2 ∈ concat (member_rows_of 0 es) →
            m_schedule_hash m1 ≠ m_schedule_hash m2 →
            m_cluster_id m1 ≠ m_cluster_id m2).
  { intros m1 m2 (i1 & e1 & mm1 & Hi1 & _ & ->)%elem_of_member_rows
             (i2 & e2 & mm2 & Hi2 & _ & ->)%elem_of_member_rows.
    simpl. intros Hne Heq%cluster_id_of_inj. apply Hne.
    assert (i1 = i2) as -> by lia. congruence. }
  split; [done|]. split; [done|].
  intros meter1 meter2 m1 m2 Hin1 Hin2 Hne Hm1 Hm2 Hp1 Hp2.
  apply Hsep; [done..|].
  destruct (Hrow _ Hm1) as (x1 & Hx1 & Hpx1 & -> & _).
  destruct (Hrow _ Hm2) as (x2 & Hx2 & Hpx2 & -> & _).
  rewrite (NoDup_map_inj_on post_id meters x1 meter1) by congruence.
  rewrite (NoDup_map_inj_on post_id meters x2 meter2) by congruence.
  done.
Qed.

End orchestrator_claims.

Lemma NoDup_map_inj {A B} (f : A → B) (l : list A) :
  (∀ x y, f x = f y → x = y) → NoDup l → NoDup (map f l).
Proof.
  intros Hinj. induction 1 as [|x l Hx _ IH]; simpl; constructor; [|done].
  intros (y & Hxy & Hy)%elem_of_list_map. by rewrite (Hinj _ _ Hxy) in Hx.
Qed.

Section orchestrator_claims2.
Context {F : Type} `{FloatOps F} `{HashSeed}.
Variable sklearn_dbscan : list F → list F → F → result (list Z).
Implicit Types (args : Args F) (fs : Files (ClusterRecord F) (MemberRecord F)).

Lemma cluster_ids_of_rows gid (es : list (string * list (Meter F))) :
  map c_cluster_id (cluster_rows_of gid es)
  = map cluster_id_of (seq (S gid) (length es)).
Proof.
  revert gid. induction es as [|e es IH]; intros gid; [done|].
  rewrite cluster_rows_of_cons. simpl. f_equal. apply IH.
Qed.

(** The running maximum of [max_radius] is not exceeded by any of the
    values it has seen, and it is the start value or one of them. *)
Lemma foldl_py_max_spec {A} (dist : A → F) (z : F) (l : list A) :
  (∀ x, f_ltb x x = false) →
  (∀ x y z, f_ltb x y = true → f_ltb y z = true → f_ltb x z = true) →
  let r := foldl (λ r m, py_max r (dist m)) z l in
  (∀ m, m ∈ l → f_ltb r (dist m) = false)
  ∧ (r = z ∨ ∃ m, m ∈ l ∧ r = dist m).
Proof.
  intros Hirr Htrans. induction l as [|m l IH] using rev_ind; simpl.
  - split; [by intros ? ?%elem_of_nil|by left].
  - rewrite foldl_app. simpl. destruct IH as [Hub Hatt].
    set (r := foldl _ z l) in *. unfold py_max.
    destruct (f_ltb r (dist m)) eqn:Hlt; split.
    + intros x [Hx| ->%list_elem_of_singleton]%elem_of_app; [|apply Hirr].
      destruct (f_ltb (dist m) (dist x)) eqn:Hmx; [|done].
      rewrite <- (Hub x Hx). symmetry. by eapply Htrans.
    + right. exists m. split; [|done]. apply elem_of_app. right. left.
    + intros x [Hx| ->%list_elem_of_singleton]%elem_of_app; [by apply Hub|done].
    + destruct Hatt as [->|(x & Hx & ->)]; [by left|].
      right. exists x. split; [|done]. apply elem_of_app. by left.
Qed.

(** C7: the two tables that a run writes hold one membership row for
    each post that has a row with numeric coordinates, so that every
    such meter is in exactly one cluster; the member counts of the
    cluster rows add up to the number of membership rows; the cluster
    identifiers are distinct and are the same in the two tables; and
    the member count of a cluster is the number of membership rows
    that carry its identifier. *)
Theorem output_tables_partition args fs fs' :
  main sklearn_dbscan args fs = (Ok (), fs') →
  ∃ clusters members,
    clusters_csv fs' = Some clusters ∧ members_csv fs' = Some members
    ∧ NoDup (map m_post_id members)
    ∧ (∀ pid, pid ∈ map m_post_id members
         ↔ ∃ r, r ∈ numeric_rows (input_csv args)
             ∧ default "" (row_get_text r "post_id") = pid)
    ∧ sum_list (map count_meters clusters) = length members
    ∧ NoDup (map c_cluster_id clusters)
    ∧ (∀ cid, cid ∈ map m_cluster_id members ↔ cid ∈ map c_cluster_id clusters)
    ∧ (∀ c, c ∈ clusters →
         count_meters c
         = length (filter (λ m, m_cluster_id m = c_cluster_id c) members)
         ∧ (0 < count_meters c)%nat).
Proof.
  intros (meters & es & _ & Hmeters & _ & Hem & ->)%main_Ok_spec.
  destruct (emitted_groupby_hash _ _ Hem) as [Hperm _].
  destruct Hem as (Hne & _ & _).
  destruct (build_meters_spec _ _ _ _ Hmeters) as [Hnd Hids].
  exists (cluster_rows_of 0 es), (concat (member_rows_of 0 es)).
  split; [done|]. split; [done|].
  assert (Hpids : map m_post_id (concat (member_rows_of 0 es))
                  ≡ₚ map post_id meters).
  { rewrite post_ids_member_rows. by apply Permutation_map. }
  split; [by rewrite Hpids|]. split; [intros pid; by rewrite Hpids|].
  split; [by rewrite length_member_rows|].
  split; [|split].
  - rewrite cluster_ids_of_rows. apply NoDup_map_inj.
    + intros x y. apply cluster_id_of_inj.
    + apply NoDup_seq.
  - intros cid. rewrite !elem_of_list_map. split.
    + intros (m & -> & (i & e & mm & Hi & Hmm & ->)%elem_of_member_rows).
      exists (cluster_record (cluster_id_of (S (0 + i))) e.1 e.2).
      split; [done|]. apply elem_of_cluster_rows. by exists i, e.
    + intros (c & -> & (i & e & Hi & ->)%elem_of_cluster_rows).
      assert (He : e.2 ≠ []).
      { eapply Forall_forall in Hne; [done|]. by eapply list_elem_of_lookup_2. }
      destruct (e.2) as [|mm l] eqn:He2; [done|].
      exists (member_record (cluster_id_of (S (0 + i))) e.1 mm).
      split; [done|]. apply elem_of_member_rows. exists i, e, mm.
      rewrite He2. split; [done|]. split; [left|done].
  - intros c (i & e & Hi & ->)%elem_of_cluster_rows. cbn [c_cluster_id cluster_record count_meters].
    rewrite (member_rows_of_cluster 0 es i e Hi), length_map. split; [done|].
    assert (He : e.2 ≠ []).
    { eapply Forall_forall in Hne; [done|]. by eapply list_elem_of_lookup_2. }
    destruct (e.2); [done|]. simpl. lia.
Qed.

(** C8: in the tables a run writes, the centroid of a cluster row is
    the mean, as [Series.mean] computes it, of the latitudes and of
    the longitudes of the membership rows that carry its identifier;
    each of these members has a great-circle distance to the centroid,
    and the radius is, rounded to two decimals, the maximum of 0.0 and
    these distances: when [<] on floats is irreflexive and transitive,
    no member is farther from the centroid than this maximum, which is
    0.0 or the distance of a member. *)
Theorem centroid_and_max_radius args fs fs' :
  main sklearn_dbscan args fs = (Ok (), fs') →
  ∃ clusters members,
    clusters_csv fs' = Some clusters ∧ members_csv fs' = Some members
    ∧ ∀ c, c ∈ clusters →
        let ms := filter (λ m, m_cluster_id m = c_cluster_id c) members in
        ms ≠ []
        ∧ centroid_latitude c = f_mean (map m_latitude ms)
        ∧ centroid_longitude c = f_mean (map m_longitude ms)
        ∧ ∃ ds,
            Forall2 (λ m d,
                       great_circle_distance (centroid_latitude c)
                         (centroid_longitude c) (m_latitude m) (m_longitude m)
                       = Some d) ms ds
            ∧ approx_max_radius_m c = f_round2 (foldl py_max f_zero ds)
            ∧ ((∀ x, f_ltb x x = false) →
               (∀ x y z, f_ltb x y = true → f_ltb y z = true → f_ltb x z = true) →
               (∀ d, d ∈ ds → f_ltb (foldl py_max f_zero ds) d = false)
               ∧ (foldl py_max f_zero ds = f_zero ∨ foldl py_max f_zero ds ∈ ds)).
Proof.
  intros (meters & es & _ & Hmeters & _ & Hem & -> & Hrad)%main_Ok_run.
  destruct Hem as (Hne & _ & _).
  exists (cluster_rows_of 0 es), (concat (member_rows_of 0 es)).
  split; [done|]. split; [done|].
  intros c (i & e & Hi & ->)%elem_of_cluster_rows. cbv zeta.
  cbn [c_cluster_id centroid_latitude centroid_longitude approx_max_radius_m
       cluster_record cluster_summary].
  rewrite (member_rows_of_cluster 0 es i e Hi).
  assert (He : e.2 ≠ []).
  { eapply Forall_forall in Hne; [done|]. by eapply list_elem_of_lookup_2. }
  set (cid := cluster_id_of (S (0 + i))).
  assert (Hlat : map m_latitude (map (member_record cid e.1) e.2) = map latitude e.2)
    by (by rewrite map_map).
  assert (Hlon : map m_longitude (map (member_record cid e.1) e.2) = map longitude e.2)
    by (by rewrite map_map).
  split; [by destruct (e.2)|]. rewrite Hlat, Hlon.
  split; [done|]. split; [done|].
  assert (Hdef : radius_defined e.2).
  { eapply Forall_forall in Hrad; [done|]. by eapply list_elem_of_lookup_2. }
  destruct Hdef as [max_r Hmax].
  pose proof (max_radius_spec (f_mean (map latitude e.2))
                (f_mean (map longitude e.2)) e.2) as Hspec.
  unfold radius_of. rewrite Hmax in Hspec |- *.
  destruct Hspec as (ds & Hds & ->). exists ds.
  split; [|split; [done|]].
  - apply Forall2_fmap_l. eapply Forall2_impl; [exact Hds|]. done.
  - intros Hirr Htrans.
    destruct (foldl_py_max_spec (λ d : F, d) f_zero ds Hirr Htrans) as [Hub Hatt].
    split; [exact Hub|]. destruct Hatt as [Hz|(d & Hd & Heq)]; [by left|].
    right. assert (foldl py_max f_zero ds = d) as -> by exact Heq. exact Hd.
Qed.

End orchestrator_claims2.

(** *** The example run *)

Section example_runs.
Local Existing Instance sorted_seed.

Example example_run :
  main no_sklearn example_args no_files
  = (Ok (), (main no_sklearn example_args no_files).2).
Proof. vm_compute. reflexivity. Qed.

Example example_run_tables :
  option_map (map (λ c, (c_cluster_id c, count_meters c, post_ids c)))
    (clusters_csv (main no_sklearn example_args no_files).2)
  = Some [("C00001", 2, "1|2"); ("C00002", 1, "3"); ("C00003", 1, "4")]
  ∧ option_map (map (λ m, (m_cluster_id m, m_post_id m)))
      (members_csv (main no_sklearn example_args no_files).2)
    = Some [("C00001", "1"); ("C00001", "2"); ("C00002", "3"); ("C00003", "4")].
Proof. split; vm_compute; reflexivity. Qed.

Lemma missing_required_columns_exit_witness :
  main no_sklearn example_args_no_latitude no_files
  = (Raise (SystemExit "Missing required columns in input CSV: ['latitude']"),
     no_files)
  ∧ (∀ msg fs', main no_sklearn example_args no_files
                ≠ (Raise (SystemExit msg), fs'))
  ∧ main no_sklearn header_only_args no_files
    = (Raise (KeyError "schedule_hash"), no_files).
Proof.
  pose proof (missing_required_columns_exit no_sklearn
                example_args_no_latitude no_files) as (_ & _ & Hexit & _).
  pose proof (missing_required_columns_exit no_sklearn
                example_args no_files) as (_ & _ & _ & Honly & _ & Hkey & _).
  split; [|split].
  - refine (eq_trans (proj1 (Hexit _)) _).
    + vm_compute. discriminate.
    + vm_compute. reflexivity.
  - intros msg fs' Hmain. refine (Honly _ msg fs' Hmain _).
    + intros lats lons r m. discriminate.
    + vm_compute. reflexivity.
  - exact Hkey.
Defined.

Lemma different_signature_different_cluster_witness :
  ∃ members,
    members_csv (main no_sklearn example_args no_files).2 = Some members
    ∧ ∀ m1 m2, m1 ∈ members → m2 ∈ members →
        m_schedule_hash m1 ≠ m_schedule_hash m2 →
        m_cluster_id m1 ≠ m_cluster_id m2.
Proof.
  destruct (different_signature_different_cluster no_sklearn example_args
              no_files _ example_run)
    as (meters & members & _ & Hmembers & _ & Hsep & _).
  exists members. split; [exact Hmembers|exact Hsep].
Defined.

Lemma output_tables_partition_witness :
  ∃ clusters members,
    clusters_csv (main no_sklearn example_args no_files).2 = Some clusters
    ∧ members_csv (main no_sklearn example_args no_files).2 = Some members
    ∧ sum_list (map count_meters clusters) = length members
    ∧ ∀ cid, cid ∈ map m_cluster_id members ↔ cid ∈ map c_cluster_id clusters.
Proof.
  destruct (output_tables_partition no_sklearn example_args no_files _
              example_run)
    as (clusters & members & Hc & Hm & _ & _ & Hsum & _ & Hids & _).
  exists clusters, members.
  split; [exact Hc|split; [exact Hm|split; [exact Hsum|exact Hids]]].
Defined.

Lemma centroid_and_max_radius_witness :
  ∃ clusters members,
    clusters_csv (main no_sklearn example_args no_files).2 = Some clusters
    ∧ members_csv (main no_sklearn example_args no_files).2 = Some members
    ∧ ∀ c, c ∈ clusters →
        let ms := filter (λ m, m_cluster_id m = c_cluster_id c) members in
        centroid_latitude c = f_mean (map m_latitude ms)
        ∧ ∃ ds,
            Forall2 (λ m d,
                       great_circle_distance (centroid_latitude c)
                         (centroid_longitude c) (m_latitude m) (m_longitude m)
                       = Some d) ms ds
            ∧ approx_max_radius_m c = f_round2 (foldl py_max f_zero ds)
            ∧ ∀ d, d ∈ ds → f_ltb (foldl py_max f_zero ds) d = false.
Proof.
  destruct (centroid_and_max_radius no_sklearn example_args no_files _
              example_run)
    as (clusters & members & Hc & Hm & Hall).
  exists clusters, members. split; [exact Hc|split; [exact Hm|]].
  intros c Hin. destruct (Hall c Hin) as (_ & Hlat & _ & ds & Hds & Hr & Hmax).
  split; [exact Hlat|]. exists ds. split; [exact Hds|]. split; [exact Hr|].
  refine (proj1 (Hmax _ _)).
  - intros x. apply Z.ltb_irrefl.
  - intros x y z Hxy Hyz. apply Z.ltb_lt. apply Z.ltb_lt in Hxy, Hyz. lia.
Defined.

End example_runs.

(** ** Union-find *)

Section union_find.
Local Open Scope nat_scope.
Import UnionFind.
Implicit Types (p r : list nat) (uf : UnionFind.t).

(** Indexing with an [int]. *)
Lemma position_Some n i k :
  position n i = Some k
  ↔ (0 ≤ i < Z.of_nat n)%Z ∧ k = Z.to_nat i
    ∨ (- Z.of_nat n ≤ i < 0)%Z ∧ k = Z.to_nat (Z.of_nat n + i).
Proof.
  unfold position. repeat case_decide; split;
    try (intros [= <-]); try (intros [[? ->]|[? ->]]); try lia; auto.
Qed.

Lemma position_None n i :
  position n i = None ↔ ¬ (- Z.of_nat n ≤ i < Z.of_nat n)%Z.
Proof. unfold position. repeat case_decide; split; try done; lia. Qed.

Lemma position_lt n i k : position n i = Some k → k < n.
Proof. rewrite position_Some. lia. Qed.

Lemma position_mod n i k :
  position n i = Some k → Z.of_nat k = (i mod Z.of_nat n)%Z.
Proof.
  rewrite position_Some. intros [[Hi ->]|[Hi ->]].
  - rewrite Z.mod_small by lia. lia.
  - rewrite <- (Z.mod_add i 1 (Z.of_nat n)) by lia.
    rewrite Z.mod_small by lia. lia.
Qed.

Lemma position_of_nat n i : i < n → position n (Z.of_nat i) = Some i.
Proof. intros Hi. apply position_Some. left. lia. Qed.

Lemma list_get_of_nat {A} (l : list A) i : list_get l (Z.of_nat i) = l !! i.
Proof.
  unfold list_get. destruct (decide (i < length l)) as [Hi|Hi].
  - by rewrite position_of_nat.
  - rewrite (proj2 (position_None _ _)) by lia. simpl.
    symmetry. apply lookup_ge_None. lia.
Qed.

Lemma list_set_of_nat {A} (l : list A) i v :
  i < length l → list_set l (Z.of_nat i) v = Some (<[i := v]> l).
Proof. intros Hi. unfold list_set. by rewrite position_of_nat. Qed.

Lemma repr_is_root p x a : repr p x a → p !! a = Some a.
Proof. induction 1; done. Qed.

Lemma repr_lt p x a : repr p x a → x < length p.
Proof. destruct 1; by eapply lookup_lt_Some. Qed.

Lemma repr_functional p x a b : repr p x a → repr p x b → a = b.
Proof.
  intros Ha. revert b. induction Ha as [x Hx|x y a Hx Hne _ IH]; intros b Hb.
  - destruct Hb as [|? y ? Hx' Hne' _]; [done|]. congruence.
  - destruct Hb as [x Hx'|x y' b Hx' Hne' Hb]; [congruence|].
    apply IH. congruence.
Qed.

Lemma uf_inv_rank uf x : uf_inv uf → x < length (p uf) → ∃ rx, r uf !! x = Some rx.
Proof.
  intros (Hlen & _ & _) Hx. apply lookup_lt_is_Some. lia.
Qed.

Lemma max_list_lookup (l : list nat) i x : l !! i = Some x → x ≤ max_list l.
Proof.
  intros Hi. apply max_list_elem_of_le. by eapply list_elem_of_lookup_2.
Qed.

(** Every element of a well-formed structure has a root. *)
Lemma repr_exists uf x :
  uf_inv uf → x < length (p uf) → ∃ a, repr (p uf) x a.
Proof.
  intros Hinv. pose proof Hinv as (Hlen & Hrange & Hrank).
  intros Hx. destruct (uf_inv_rank uf x Hinv Hx) as [rx Hrx].
  remember (max_list (r uf) - rx) as k eqn:Hk.
  revert x rx Hx Hrx Hk. induction k as [k IH] using lt_wf_ind.
  intros x rx Hx Hrx Hk.
  destruct (lookup_lt_is_Some_2 (p uf) x Hx) as [y Hy].
  destruct (decide (y = x)) as [->|Hne]; [exists x; by constructor|].
  pose proof (Hrange _ _ Hy) as Hylt.
  destruct (uf_inv_rank uf y Hinv Hylt) as [ry Hry].
  pose proof (Hrank _ _ _ _ Hy Hne Hrx Hry).
  pose proof (max_list_lookup _ _ _ Hry).
  destruct (IH (max_list (r uf) - ry)) with (x := y) (rx := ry) as [a Ha];
    [lia|done..|].
  exists a. by econstructor.
Qed.

(** The path-halving step keeps the structure well formed and the
    roots where they are. *)
Lemma halve_inv p r x y z :
  uf_inv {| p := p; r := r |} →
  p !! x = Some y → y ≠ x → p !! y = Some z →
  uf_inv {| p := <[x := z]> p; r := r |}
  ∧ ∀ a b, repr p a b ↔ repr (<[x := z]> p) a b.
Proof.
  intros Hinv Hx Hne Hy. pose proof Hinv as (Hlen & Hrange & Hrank).
  simpl in *.
  assert (Hxlt : x < length p) by (by eapply lookup_lt_Some).
  assert (Hylt : y < length p) by (by eapply lookup_lt_Some).
  assert (Hzlt : z < length p) by (by eapply Hrange).
  destruct (lookup_lt_is_Some_2 r x) as [rx Hrx]; [lia|].
  destruct (lookup_lt_is_Some_2 r y) as [ry Hry]; [lia|].
  destruct (lookup_lt_is_Some_2 r z) as [rz Hrz]; [lia|].
  pose proof (Hrank _ _ _ _ Hx Hne Hrx Hry) as Hxy.
  assert (Hzx : z ≠ x).
  { intros ->. destruct (decide (x = y)) as [|Hxy']; [done|].
    pose proof (Hrank _ _ _ _ Hy Hxy' Hry Hrx). lia. }
  assert (Hinv' : uf_inv {| p := <[x := z]> p; r := r |}).
  { split; [|split]; simpl.
    - by rewrite length_insert.
    - intros a b. rewrite length_insert.
      destruct (decide (a = x)) as [->|Hax].
      + rewrite list_lookup_insert_eq by done. by intros [= <-].
      + rewrite list_lookup_insert_ne by done. apply Hrange.
    - intros a b ra rb.
      destruct (decide (a = x)) as [->|Hax].
      + rewrite list_lookup_insert_eq by done. intros [= <-] _ Hra Hrb.
        assert (ra = rx) as -> by congruence.
        assert (rb = rz) as -> by congruence.
        destruct (decide (z = y)) as [->|Hzy]; [congruence|].
        pose proof (Hrank _ _ _ _ Hy Hzy Hry Hrz). lia.
      + rewrite list_lookup_insert_ne by done. apply Hrank. }
  split; [done|].
  assert (Hfwd : ∀ a b, repr p a b → repr (<[x := z]> p) a b).
  { intros a b Hab. induction Hab as [a Ha|a c b Ha Hca _ IH].
    - apply repr_root. rewrite list_lookup_insert_ne; [done|]. congruence.
    - destruct (decide (a = x)) as [->|Hax].
      + assert (c = y) as -> by congruence.
        assert (Hy' : <[x := z]> p !! y = Some z)
          by (by rewrite list_lookup_insert_ne).
        destruct IH as [y Hyroot|y z' b Hyz Hz'y Hzb].
        * assert (z = y) as -> by congruence.
          eapply repr_step; [by apply list_lookup_insert_eq|done|].
          by apply repr_root.
        * assert (z' = z) as -> by congruence.
          eapply repr_step; [by apply list_lookup_insert_eq|done|done].
      + eapply repr_step; [by rewrite list_lookup_insert_ne|done|done]. }
  intros a b. split; [apply Hfwd|]. intros Hab.
  assert (Halt : a < length p).
  { apply repr_lt in Hab. by rewrite length_insert in Hab. }
  destruct (repr_exists {| p := p; r := r |} a Hinv Halt) as [b' Hb'].
  simpl in Hb'. by rewrite (repr_functional _ _ _ _ Hab (Hfwd _ _ Hb')).
Qed.


(** The loop of [find] ends within the rounds it is given, keeps the
    structure well formed and the roots in place, and returns the root
    of [x]. *)
Lemma find_loop_spec fuel p r x rx :
  uf_inv {| p := p; r := r |} → x < length p → r !! x = Some rx →
  max_list r - rx < fuel →
  ∃ p' a, find_loop fuel p (Z.of_nat x) = Some (p', a)
    ∧ uf_inv {| p := p'; r := r |} ∧ length p' = length p
    ∧ (∀ y b, repr p y b ↔ repr p' y b) ∧ repr p x a.
Proof.
  revert p x rx. induction fuel as [|fuel IH]; intros p x rx Hinv Hx Hrx Hfuel;
    [lia|].
  pose proof Hinv as (Hlen & Hrange & Hrank). simpl in Hlen, Hrange, Hrank.
  destruct (lookup_lt_is_Some_2 p x Hx) as [y Hy].
  cbn [find_loop]. rewrite list_get_of_nat, Hy. simpl.
  destruct (Z.eqb_spec (Z.of_nat y) (Z.of_nat x)) as [Heq|Hne'].
  { apply Nat2Z.inj in Heq as ->. rewrite Nat2Z.id.
    exists p, x. repeat split; try done. by apply repr_root. }
  assert (Hne : y ≠ x) by (intros ->; done).
  pose proof (Hrange _ _ Hy) as Hylt.
  destruct (lookup_lt_is_Some_2 p y Hylt) as [z Hz].
  rewrite list_get_of_nat, Hz. simpl. rewrite list_set_of_nat by done. simpl.
  rewrite list_get_of_nat, list_lookup_insert_eq by done. simpl.
  destruct (halve_inv p r x y z Hinv Hy Hne Hz) as [Hinv' Hrepr].
  pose proof (Hrange _ _ Hz) as Hzlt.
  destruct (lookup_lt_is_Some_2 r y) as [ry Hry]; [lia|].
  destruct (lookup_lt_is_Some_2 r z) as [rz Hrz]; [lia|].
  pose proof (Hrank _ _ _ _ Hy Hne Hrx Hry) as Hxy.
  assert (Hyz : ry ≤ rz).
  { destruct (decide (z = y)) as [->|Hzy]; [by simplify_eq|].
    pose proof (Hrank _ _ _ _ Hz Hzy Hry Hrz). lia. }
  pose proof (max_list_lookup _ _ _ Hrz) as Hmax.
  destruct (IH (<[x := z]> p) z rz) as (p' & a & Hfind & Hinv'' & Hlen' & Hrepr' & Ha);
    [done|by rewrite length_insert|done|lia|].
  exists p', a. split; [done|]. split; [done|].
  split; [by rewrite Hlen', length_insert|]. split.
  - intros u b. by rewrite Hrepr, Hrepr'.
  - apply Hrepr in Ha. eapply repr_step; [done..|].
    destruct (decide (z = y)) as [->|Hzy]; [done|]. by eapply repr_step.
Qed.

(** The loop of [find] from any index: a negative index takes one
    round to reach its position. *)
Lemma find_loop_index fuel p r x k rk :
  uf_inv {| p := p; r := r |} → position (length p) x = Some k →
  r !! k = Some rk → max_list r - rk < fuel →
  ∃ p' a, find_loop (S fuel) p x = Some (p', a)
    ∧ uf_inv {| p := p'; r := r |} ∧ length p' = length p
    ∧ (∀ y b, repr p y b ↔ repr p' y b) ∧ repr p k a.
Proof.
  intros Hinv Hpos Hrk Hfuel. pose proof (position_lt _ _ _ Hpos) as Hk.
  apply position_Some in Hpos as [[Hx Hkeq]|[Hx Hkeq]].
  { assert (x = Z.of_nat k) as -> by lia.
    eapply find_loop_spec; [done..|lia]. }
  pose proof Hinv as (Hlen & Hrange & Hrank). simpl in Hlen, Hrange, Hrank.
  assert (Hpos : position (length p) x = Some k).
  { apply position_Some. right. done. }
  destruct (lookup_lt_is_Some_2 p k Hk) as [y Hy].
  pose proof (Hrange _ _ Hy) as Hylt.
  destruct (lookup_lt_is_Some_2 p y Hylt) as [z Hz].
  pose proof (Hrange _ _ Hz) as Hzlt.
  assert (Hget : list_get p x = Some y).
  { unfold list_get. rewrite Hpos. exact Hy. }
  assert (Hset : list_set p x z = Some (<[k := z]> p)).
  { unfold list_set. by rewrite Hpos. }
  assert (Hget' : list_get (<[k := z]> p) x = Some z).
  { unfold list_get. rewrite length_insert, Hpos. simpl.
    by apply list_lookup_insert_eq. }
  cbn [find_loop]. rewrite Hget. simpl.
  destruct (Z.eqb_spec (Z.of_nat y) x) as [Heq|_]; [lia|].
  rewrite list_get_of_nat, Hz. simpl. rewrite Hset. simpl.
  rewrite Hget'. simpl.
  destruct (lookup_lt_is_Some_2 r y) as [ry Hry]; [lia|].
  destruct (lookup_lt_is_Some_2 r z) as [rz Hrz]; [lia|].
  pose proof (max_list_lookup _ _ _ Hrz) as Hmax.
  destruct (decide (y = k)) as [->|Hne].
  - assert (z = k) as -> by congruence.
    rewrite list_insert_id by done.
    eapply find_loop_spec; [done..|]. assert (rz = rk) by congruence. lia.
  - destruct (halve_inv p r k y z Hinv Hy Hne Hz) as [Hinv' Hrepr].
    pose proof (Hrank _ _ _ _ Hy Hne Hrk Hry) as Hky.
    assert (Hyz : ry ≤ rz).
    { destruct (decide (z = y)) as [->|Hzy]; [by simplify_eq|].
      pose proof (Hrank _ _ _ _ Hz Hzy Hry Hrz). lia. }
    destruct (find_loop_spec fuel (<[k := z]> p) r z rz)
      as (p' & a & Hfind & Hinv'' & Hlen' & Hrepr' & Ha);
      [done|by rewrite length_insert|done|lia|].
    exists p', a. split; [done|]. split; [done|].
    split; [by rewrite Hlen', length_insert|]. split.
    + intros u b. by rewrite Hrepr, Hrepr'.
    + apply Hrepr in Ha. eapply repr_step; [done..|].
      destruct (decide (z = y)) as [->|Hzy]; [done|]. by eapply repr_step.
Qed.

(** [find] from the index [x], which names the element [k]. *)
Lemma find_index_spec uf x k :
  uf_inv uf → position (length (p uf)) x = Some k →
  ∃ uf' a, find uf x = Some (uf', a)
    ∧ uf_inv uf' ∧ r uf' = r uf ∧ length (p uf') = length (p uf)
    ∧ (∀ y b, repr (p uf) y b ↔ repr (p uf') y b) ∧ repr (p uf) k a.
Proof.
  intros Hinv Hpos. destruct uf as [p0 r0]. simpl in *.
  pose proof (position_lt _ _ _ Hpos) as Hk.
  destruct (uf_inv_rank _ k Hinv Hk) as [rk Hrk]. simpl in Hrk.
  destruct (find_loop_index (S (max_list r0)) p0 r0 x k rk)
    as (p' & a & Hfind & Hinv' & Hlen & Hrepr & Ha); [done..|lia|].
  unfold find. cbn [p r]. rewrite Hfind. simpl.
  by exists {| p := p'; r := r0 |}, a.
Qed.

Lemma find_spec uf x :
  uf_inv uf → x < length (p uf) →
  ∃ uf' a, find uf (Z.of_nat x) = Some (uf', a)
    ∧ uf_inv uf' ∧ r uf' = r uf ∧ length (p uf') = length (p uf)
    ∧ (∀ y b, repr (p uf) y b ↔ repr (p uf') y b) ∧ repr (p uf) x a.
Proof.
  intros Hinv Hx. apply find_index_spec; [done|]. by apply position_of_nat.
Qed.

(** [find] raises [IndexError] exactly for an index out of range. *)
Lemma uf_find_None uf x :
  uf_inv uf → find uf x = None ↔ position (length (p uf)) x = None.
Proof.
  intros Hinv. split.
  - intros Hf. destruct (position (length (p uf)) x) as [k|] eqn:Hpos; [|done].
    destruct (find_index_spec uf x k Hinv Hpos) as (? & ? & Hf' & _). congruence.
  - intros Hpos.
    assert (Hget : list_get (p uf) x = None).
    { unfold list_get. by rewrite Hpos. }
    unfold find. cbn [find_loop]. by rewrite Hget.
Qed.

(** Making the root [c] a child of the root [d]. *)
Lemma link_spec p r r' c d :
  uf_inv {| p := p; r := r |} →
  p !! c = Some c → p !! d = Some d → c ≠ d →
  length r' = length r →
  (∀ x rx, x ≠ d → r !! x = Some rx → r' !! x = Some rx) →
  (∀ rd rd', r !! d = Some rd → r' !! d = Some rd' → rd ≤ rd') →
  (∀ rc rd, r' !! c = Some rc → r' !! d = Some rd → rc < rd) →
  uf_inv {| p := <[c := d]> p; r := r' |}
  ∧ ∀ x e, repr p x e → repr (<[c := d]> p) x (if decide (e = c) then d else e).
Proof.
  intros Hinv Hc Hd Hcd Hlen' Hsame Hmono Hlink.
  pose proof Hinv as (Hlen & Hrange & Hrank). simpl in Hlen, Hrange, Hrank.
  assert (Hclt : c < length p) by (by eapply lookup_lt_Some).
  split.
  - split; [|split]; simpl.
    + rewrite length_insert. lia.
    + intros a b. rewrite length_insert.
      destruct (decide (a = c)) as [->|Hac].
      * rewrite list_lookup_insert_eq by done. intros [= <-].
        by eapply lookup_lt_Some.
      * rewrite list_lookup_insert_ne by done. apply Hrange.
    + intros a b ra rb.
      destruct (decide (a = c)) as [->|Hac].
      * rewrite list_lookup_insert_eq by done. intros [= <-] _. apply Hlink.
      * rewrite list_lookup_insert_ne by done. intros Hab Hne Hra Hrb.
        assert (Had : a ≠ d) by congruence.
        assert (Halt : a < length r) by (apply lookup_lt_Some in Hab; lia).
        destruct (lookup_lt_is_Some_2 r a Halt) as [ra0 Hra0].
        rewrite (Hsame _ _ Had Hra0) in Hra. injection Hra as <-.
        pose proof (Hrange _ _ Hab) as Hblt.
        destruct (lookup_lt_is_Some_2 r b) as [rb0 Hrb0]; [lia|].
        pose proof (Hrank _ _ _ _ Hab Hne Hra0 Hrb0).
        destruct (decide (b = d)) as [->|Hbd].
        -- pose proof (Hmono _ _ Hrb0 Hrb). lia.
        -- rewrite (Hsame _ _ Hbd Hrb0) in Hrb. injection Hrb as <-. lia.
  - intros x e Hxe. induction Hxe as [x Hx|x y e Hx Hne _ IH].
    + destruct (decide (x = c)) as [->|Hxc].
      * eapply repr_step; [by apply list_lookup_insert_eq|done|].
        apply repr_root. by rewrite list_lookup_insert_ne.
      * apply repr_root. by rewrite list_lookup_insert_ne.
    + eapply repr_step; [|done|done].
      rewrite list_lookup_insert_ne; [done|]. congruence.
Qed.

(** The sets after [c] became a child of [d]: those of [c] and [d] are
    merged. *)
Lemma link_same_set p r p' c d :
  uf_inv {| p := p; r := r |} → length p' = length p →
  (∀ x e, repr p x e → repr p' x (if decide (e = c) then d else e)) →
  ∀ x y, same_set p' x y ↔
    ∃ ex ey, repr p x ex ∧ repr p y ey
      ∧ (if decide (ex = c) then d else ex) = (if decide (ey = c) then d else ey).
Proof.
  intros Hinv Hlen Hlink x y. split.
  - intros (a & Hxa & Hya).
    destruct (repr_exists _ x Hinv) as [ex Hex];
      [apply repr_lt in Hxa; simpl; lia|].
    destruct (repr_exists _ y Hinv) as [ey Hey];
      [apply repr_lt in Hya; simpl; lia|].
    simpl in *. exists ex, ey. split; [done|]. split; [done|].
    rewrite <- (repr_functional _ _ _ _ Hxa (Hlink _ _ Hex)).
    apply (repr_functional _ _ _ _ Hya (Hlink _ _ Hey)).
  - intros (ex & ey & Hex & Hey & Heq).
    exists (if decide (ex = c) then d else ex). split; [by apply Hlink|].
    rewrite Heq. by apply Hlink.
Qed.


Lemma same_set_ext p p' :
  (∀ y b, repr p y b ↔ repr p' y b) → ∀ x y, same_set p x y ↔ same_set p' x y.
Proof. intros Hrepr x y. unfold same_set. by setoid_rewrite Hrepr. Qed.

Lemma same_set_roots p x y ex ey :
  repr p x ex → repr p y ey → same_set p x y ↔ ex = ey.
Proof.
  intros Hx Hy. split.
  - intros (a & Hxa & Hya).
    by rewrite (repr_functional _ _ _ _ Hx Hxa), (repr_functional _ _ _ _ Hy Hya).
  - intros <-. by exists ex.
Qed.

(** Merging the sets of [a] and [b], whose roots are [c] and [d] in
    one order or the other. *)
Lemma merged_same_set p a b ra rb c d x y :
  repr p a ra → repr p b rb → c ≠ d →
  (c = ra ∧ d = rb) ∨ (c = rb ∧ d = ra) →
  (∃ ex ey, repr p x ex ∧ repr p y ey
     ∧ (if decide (ex = c) then d else ex) = (if decide (ey = c) then d else ey))
  ↔ same_set p x y
    ∨ (same_set p x a ∧ same_set p b y) ∨ (same_set p x b ∧ same_set p a y).
Proof.
  intros Ha Hb Hcd Hor. split.
  - intros (ex & ey & Hex & Hey & Heq).
    rewrite (same_set_roots p x y ex ey), (same_set_roots p x a ex ra),
      (same_set_roots p b y rb ey), (same_set_roots p x b ex rb),
      (same_set_roots p a y ra ey) by done.
    repeat case_decide; naive_solver.
  - intros [(e & Hex & Hey)|[[(e & Hex & Hae) (e' & Hbe & Hey)]
                            |[(e & Hex & Hbe) (e' & Hae & Hey)]]].
    + by exists e, e.
    + exists e, e'. split; [done|]. split; [done|].
      rewrite (repr_functional _ _ _ _ Hae Ha), (repr_functional _ _ _ _ Hbe Hb).
      repeat case_decide; naive_solver.
    + exists e, e'. split; [done|]. split; [done|].
      rewrite (repr_functional _ _ _ _ Hae Ha), (repr_functional _ _ _ _ Hbe Hb).
      repeat case_decide; naive_solver.
Qed.

(** [union] returns, keeps the structure well formed, and merges the
    sets of the elements that its two arguments name. *)
Lemma union_index_spec uf ia ib a b :
  uf_inv uf → position (length (p uf)) ia = Some a →
  position (length (p uf)) ib = Some b →
  ∃ uf', union uf ia ib = Some uf'
    ∧ uf_inv uf' ∧ length (p uf') = length (p uf)
    ∧ ∀ x y, same_set (p uf') x y ↔
        same_set (p uf) x y
        ∨ (same_set (p uf) x a ∧ same_set (p uf) b y)
        ∨ (same_set (p uf) x b ∧ same_set (p uf) a y).
Proof.
  intros Hinv Ha Hb.
  destruct (find_index_spec uf ia a Hinv Ha)
    as (uf1 & ra & Hf1 & Hinv1 & Hr1 & Hl1 & Hrepr1 & Hra).
  destruct (find_index_spec uf1 ib b Hinv1)
    as (uf2 & rb & Hf2 & Hinv2 & Hr2 & Hl2 & Hrepr2 & Hrb);
    [by rewrite Hl1|].
  assert (Hrepr : ∀ y e, repr (p uf) y e ↔ repr (p uf2) y e).
  { intros y e. by rewrite Hrepr1, Hrepr2. }
  apply Hrepr1, Hrepr2 in Hra. apply Hrepr2 in Hrb.
  unfold union. rewrite Hf1. simpl. rewrite Hf2. simpl.
  destruct (Nat.eqb_spec ra rb) as [->|Hne].
  { exists uf2. split; [done|]. split; [done|]. split; [lia|].
    intros x y. rewrite !(same_set_ext _ _ Hrepr). split; [by left|].
    intros [H|[[(e & Hx & Hae) (e' & Hbe & Hy)]|[(e & Hx & Hbe) (e' & Hae & Hy)]]];
      [done|..].
    - exists rb. by rewrite <- (repr_functional _ _ _ _ Hae Hra) at 1;
        rewrite <- (repr_functional _ _ _ _ Hbe Hrb).
    - exists rb. by rewrite <- (repr_functional _ _ _ _ Hbe Hrb) at 1;
        rewrite <- (repr_functional _ _ _ _ Hae Hra). }
  destruct uf2 as [p2 r2]. simpl in *.
  pose proof (repr_is_root _ _ _ Hra) as Hroot_a.
  pose proof (repr_is_root _ _ _ Hrb) as Hroot_b.
  pose proof Hinv2 as (Hlen2 & _ & _). simpl in Hlen2.
  destruct (lookup_lt_is_Some_2 r2 ra) as [rank_a Hrank_a];
    [apply lookup_lt_Some in Hroot_a; lia|].
  destruct (lookup_lt_is_Some_2 r2 rb) as [rank_b Hrank_b];
    [apply lookup_lt_Some in Hroot_b; lia|].
  rewrite Hrank_a, Hrank_b. simpl.
  destruct (Nat.ltb_spec rank_a rank_b) as [Hlt|Hge];
    [|destruct (Nat.ltb_spec rank_b rank_a) as [Hlt|Hge']].
  - destruct (link_spec p2 r2 r2 ra rb) as [Hinv' Hlink]; try done.
    { intros ? ? ? ?. by simplify_eq. }
    { intros ? ? ? ?. by simplify_eq. }
    eexists. split; [done|]. split; [done|]. simpl.
    split; [rewrite length_insert; lia|]. intros x y.
    rewrite (link_same_set p2 r2 _ ra rb Hinv2 (length_insert _ _ _) Hlink).
    rewrite (merged_same_set p2 a b ra rb ra rb) by (done || by left).
    by rewrite !(same_set_ext _ _ Hrepr).
  - destruct (link_spec p2 r2 r2 rb ra) as [Hinv' Hlink]; try done.
    { intros ? ? ? ?. by simplify_eq. }
    { intros ? ? ? ?. by simplify_eq. }
    eexists. split; [done|]. split; [done|]. simpl.
    split; [rewrite length_insert; lia|]. intros x y.
    rewrite (link_same_set p2 r2 _ rb ra Hinv2 (length_insert _ _ _) Hlink).
    rewrite (merged_same_set p2 a b ra rb rb ra) by (done || by right).
    by rewrite !(same_set_ext _ _ Hrepr).
  - assert (rank_a = rank_b) as <- by lia.
    assert (Hra_lt : ra < length r2) by (by eapply lookup_lt_Some).
    destruct (link_spec p2 r2 (<[ra := S rank_a]> r2) rb ra) as [Hinv' Hlink];
      try done.
    { by rewrite length_insert. }
    { intros x rx Hx Hrx. by rewrite list_lookup_insert_ne. }
    { intros rd rd'. rewrite list_lookup_insert_eq by done.
      intros ? ?. simplify_eq. lia. }
    { intros rc rd. rewrite list_lookup_insert_eq by done.
      rewrite list_lookup_insert_ne by done. intros ? ?. simplify_eq. lia. }
    eexists. split; [done|]. split; [done|]. simpl.
    split; [rewrite length_insert; lia|]. intros x y.
    rewrite (link_same_set p2 r2 _ rb ra Hinv2 (length_insert _ _ _) Hlink).
    rewrite (merged_same_set p2 a b ra rb rb ra) by (done || by right).
    by rewrite !(same_set_ext _ _ Hrepr).
Qed.

Lemma union_spec uf a b :
  uf_inv uf → a < length (p uf) → b < length (p uf) →
  ∃ uf', union uf (Z.of_nat a) (Z.of_nat b) = Some uf'
    ∧ uf_inv uf' ∧ length (p uf') = length (p uf)
    ∧ ∀ x y, same_set (p uf') x y ↔
        same_set (p uf) x y
        ∨ (same_set (p uf) x a ∧ same_set (p uf) b y)
        ∨ (same_set (p uf) x b ∧ same_set (p uf) a y).
Proof.
  intros Hinv Ha Hb. apply union_index_spec; [done|by apply position_of_nat..].
Qed.

(** [union] raises [IndexError] exactly when one of its arguments is
    out of range. *)
Lemma uf_union_None uf ia ib :
  uf_inv uf →
  union uf ia ib = None
  ↔ position (length (p uf)) ia = None ∨ position (length (p uf)) ib = None.
Proof.
  intros Hinv. split.
  - intros Hu.
    destruct (position (length (p uf)) ia) as [a|] eqn:Ha; [|by left].
    destruct (position (length (p uf)) ib) as [b|] eqn:Hb; [|by right].
    destruct (union_index_spec uf ia ib a b Hinv Ha Hb) as (? & Hu' & _).
    congruence.
  - intros [Ha|Hb]; unfold union.
    + by rewrite (proj2 (uf_find_None uf ia Hinv) Ha).
    + destruct (find uf ia) as [[uf1 ra]|] eqn:Hf1; [|done]. simpl.
      destruct (position (length (p uf)) ia) as [a|] eqn:Ha.
      * destruct (find_index_spec uf ia a Hinv Ha)
          as (uf1' & ra' & Hf1' & Hinv1 & _ & Hl1 & _).
        assert (uf1' = uf1) as -> by congruence.
        rewrite (proj2 (uf_find_None uf1 ib Hinv1)); [done|]. by rewrite Hl1.
      * apply (uf_find_None uf ia Hinv) in Ha. congruence.
Qed.

End union_find.

(** ** Renumbering *)

Section relabel.
Local Open Scope nat_scope.

Lemma relabel_inv_nil : relabel_inv [] (∅, 0, []).
Proof.
  unfold relabel_inv. split; [done|].
  split; [intros i root Hi; by rewrite lookup_nil in Hi|].
  split; [intros root l Hl; by rewrite lookup_empty in Hl|].
  split; [intros root root' l Hl; by rewrite lookup_empty in Hl|].
  split; [intros l; split; [by intros ?%elem_of_nil|lia]|].
  intros i. exists 0. intros l. rewrite take_nil.
  split; [by intros ?%elem_of_nil|lia].
Qed.

Lemma relabel_inv_step roots st root :
  relabel_inv roots st → relabel_inv (roots ++ [root]) (relabel_step st root).
Proof.
  destruct st as [[uniq next_id] labels].
  intros (Hlen & Hlab & Hdom & Hinj & Hall & Hpre). unfold relabel_step.
  assert (Hval : ∀ ρ l, uniq !! ρ = Some l → l < next_id).
  { intros ρ l Hρ. apply Hall.
    destruct (list_elem_of_lookup_1 _ _ (Hdom _ _ Hρ)) as [i Hi].
    destruct (Hlab _ _ Hi) as (l' & Hl' & Hu).
    assert (l' = l) as -> by congruence. by eapply list_elem_of_lookup_2. }
  assert (Hpre' : ∀ new K', (∀ l, l ∈ labels ++ [new] ↔ l < K') →
            ∀ i, ∃ K, ∀ l, l ∈ take i (labels ++ [new]) ↔ l < K).
  { intros new K' HK' i. destruct (decide (i ≤ length labels)) as [Hi|Hi].
    - rewrite take_app_le by done. apply Hpre.
    - exists K'. by rewrite take_ge by (rewrite length_app; simpl; lia). }
  destruct (uniq !! root) as [l|] eqn:Hroot.
  - split; [by rewrite !length_app, Hlen|].
    assert (Hl : l < next_id) by (by eapply Hval).
    split; [|split; [|split; [|split]]].
    + intros i ρ. destruct (decide (i < length roots)) as [Hi|Hi].
      * rewrite lookup_app_l by done. intros (l' & Hl' & Hu)%Hlab.
        exists l'. by rewrite lookup_app_l by (by eapply lookup_lt_Some).
      * rewrite lookup_app_r by lia. intros [Hi0 <-]%list_lookup_singleton_Some.
        exists l. rewrite lookup_app_r by lia.
        split; [|done]. by replace (i - length labels) with 0 by lia.
    + intros ρ l' Hρ. apply elem_of_app. left. by eapply Hdom.
    + done.
    + intros l'. rewrite elem_of_app, list_elem_of_singleton, Hall. split; [|auto].
      intros [?| ->]; done.
    + apply (Hpre' l next_id). intros l'.
      rewrite elem_of_app, list_elem_of_singleton, Hall. split; [|auto].
      intros [?| ->]; done.
  - split; [by rewrite !length_app, Hlen|].
    split; [|split; [|split; [|split]]].
    + intros i ρ. destruct (decide (i < length roots)) as [Hi|Hi].
      * rewrite lookup_app_l by done. intros Hρ.
        destruct (Hlab _ _ Hρ) as (l' & Hl' & Hu).
        exists l'. rewrite lookup_app_l by (by eapply lookup_lt_Some).
        split; [done|]. rewrite lookup_insert_ne; [done|]. congruence.
      * rewrite lookup_app_r by lia. intros [Hi0 <-]%list_lookup_singleton_Some.
        exists next_id. rewrite lookup_app_r by lia.
        replace (i - length labels) with 0 by lia.
        by rewrite lookup_insert_eq.
    + intros ρ l'. destruct (decide (ρ = root)) as [->|Hne].
      * intros _. apply elem_of_app. right. left.
      * rewrite lookup_insert_ne by done. intros Hρ.
        apply elem_of_app. left. by eapply Hdom.
    + intros ρ ρ' l'.
      destruct (decide (ρ = root)) as [->|Hne];
        destruct (decide (ρ' = root)) as [->|Hne']; [done|..].
      * rewrite lookup_insert_eq, lookup_insert_ne by done.
        intros [= <-] Hρ'. apply Hval in Hρ'. lia.
      * rewrite lookup_insert_eq, lookup_insert_ne by done.
        intros Hρ [= <-]. apply Hval in Hρ. lia.
      * rewrite !lookup_insert_ne by done. apply Hinj.
    + intros l'. rewrite elem_of_app, list_elem_of_singleton, Hall. lia.
    + apply (Hpre' next_id (S next_id)). intros l'.
      rewrite elem_of_app, list_elem_of_singleton, Hall. lia.
Qed.

(** The labels of a list of roots: one per root, equal for equal
    roots only, and such that the labels of every prefix are the
    numbers below some bound. *)
Lemma relabel_spec roots :
  length (relabel roots) = length roots
  ∧ (∀ i j ρi ρj li lj,
       roots !! i = Some ρi → roots !! j = Some ρj →
       relabel roots !! i = Some li → relabel roots !! j = Some lj →
       li = lj ↔ ρi = ρj)
  ∧ (∀ i, ∃ K, ∀ l, l ∈ take i (relabel roots) ↔ l < K).
Proof.
  assert (Hinv : relabel_inv roots (foldl relabel_step (∅, 0, []) roots)).
  { induction roots as [|ρ roots IH] using rev_ind; [apply relabel_inv_nil|].
    rewrite foldl_app. by apply relabel_inv_step. }
  unfold relabel. destruct (foldl relabel_step _ roots) as [[uniq next_id] labels].
  destruct Hinv as (Hlen & Hlab & _ & Hinj & _ & Hpre). simpl.
  split; [done|]. split; [|done].
  intros i j ρi ρj li lj Hi Hj Hli Hlj.
  destruct (Hlab _ _ Hi) as (li' & Hli' & Hui).
  destruct (Hlab _ _ Hj) as (lj' & Hlj' & Huj).
  assert (li' = li) as -> by congruence.
  assert (lj' = lj) as -> by congruence.
  split; [intros ->; by eapply Hinj|]. intros ->. congruence.
Qed.

End relabel.

(** ** The fallback strategy *)

Section fallback.
Local Open Scope nat_scope.
Import UnionFind.
Context {F : Type} `{FloatOps F}.
Variables (lats lons : list F) (radius_m : F).
Hypothesis Hlons : length lons = length lats.

Lemma init_inv n : uf_inv (init n).
Proof.
  unfold init. split; [|split]; simpl.
  - by rewrite length_replicate, length_seq.
  - intros x y [-> ?]%lookup_seq. by rewrite length_seq.
  - intros x y rx ry [-> ?]%lookup_seq. done.
Qed.

Lemma init_same_set n x y : same_set (p (init n)) x y → x = y.
Proof.
  assert (Hroot : ∀ a b, repr (seq 0 (Z.to_nat n)) a b → a = b).
  { intros a b Hab. destruct Hab as [|a c b [-> ?]%lookup_seq]; done. }
  intros (a & <-%Hroot & <-%Hroot). done.
Qed.

Lemma init_length n : length (p (init n)) = Z.to_nat n.
Proof. simpl. by rewrite length_seq. Qed.

Lemma elem_of_index_pairs n i j : (i, j) ∈ index_pairs n ↔ i < j < n.
Proof.
  unfold index_pairs. rewrite list_elem_of_bind. split.
  - intros (a & (b & [= <- <-]%list_elem_of_singleton & Hb%elem_of_seq)%list_elem_of_bind
              & Ha%elem_of_seq). lia.
  - intros Hij. exists i. split; [|apply elem_of_seq; lia].
    apply list_elem_of_bind. exists j. split; [left|]. apply elem_of_seq. lia.
Qed.

(** The distance test of the code is the test of the great-circle
    distance of the two points against the radius. *)
Lemma within_radius_distance i j :
  i < length lats → j < length lats →
  within_radius lats lons radius_m i j
  = match point_distance (zip lats lons) i j with
    | Some d => Ok (f_leb d radius_m)
    | None => Raise ValueError
    end.
Proof.
  intros Hi Hj. unfold within_radius, point_distance.
  destruct (lookup_lt_is_Some_2 lats i Hi) as [lat_i Hlat_i].
  destruct (lookup_lt_is_Some_2 lats j Hj) as [lat_j Hlat_j].
  destruct (lookup_lt_is_Some_2 lons i) as [lon_i Hlon_i]; [lia|].
  destruct (lookup_lt_is_Some_2 lons j) as [lon_j Hlon_j]; [lia|].
  rewrite Hlat_i, Hlon_i, Hlat_j, Hlon_j. simpl.
  assert (Hzi : zip lats lons !! i = Some (lat_i, lon_i)).
  { apply lookup_zip_with_Some. by exists lat_i, lon_i. }
  assert (Hzj : zip lats lons !! j = Some (lat_j, lon_j)).
  { apply lookup_zip_with_Some. by exists lat_j, lon_j. }
  rewrite Hzi, Hzj. simpl. rewrite haversine_m_distance.
  by destruct (great_circle_distance _ _ _ _).
Qed.

Lemma point_distance_lt (pts : list (F * F)) i j d :
  point_distance pts i j = Some d → i < length pts ∧ j < length pts.
Proof.
  unfold point_distance.
  destruct (pts !! i) eqn:Hi; [|done]. simpl.
  destruct (pts !! j) eqn:Hj; [|done]. simpl. intros _.
  split; by eapply lookup_lt_Some.
Qed.

Lemma length_zip_lats : length (zip lats lons) = length lats.
Proof. rewrite length_zip_with. lia. Qed.

(** Near points are the pairs that the test of the code accepts. *)
Lemma near_within_radius i j :
  near (zip lats lons) radius_m i j
  ↔ i < j ∧ within_radius lats lons radius_m i j = Ok true.
Proof.
  unfold near. split.
  - intros (Hij & d & Hd & Hle). split; [done|].
    destruct (point_distance_lt _ _ _ _ Hd) as [Hi Hj].
    rewrite length_zip_lats in Hi, Hj.
    rewrite within_radius_distance, Hd by done. by rewrite Hle.
  - intros [Hij Hw]. split; [done|].
    assert (Hj : j < length lats).
    { destruct (decide (j < length lats)) as [|Hge]; [done|].
      unfold within_radius in Hw.
      destruct (lats !! i); [|done]. simpl in Hw.
      destruct (lons !! i); [|done]. simpl in Hw.
      rewrite (proj2 (lookup_ge_None lats j)) in Hw by lia. done. }
    rewrite within_radius_distance in Hw by lia.
    destruct (point_distance _ i j) as [d|]; [|done].
    exists d. split; [done|]. by injection Hw.
Qed.

Lemma same_set_refl uf x : uf_inv uf → x < length (p uf) → same_set (p uf) x x.
Proof. intros Hinv Hx. destruct (repr_exists uf x Hinv Hx) as [a Ha]. by exists a. Qed.

Lemma same_set_sym q x y : same_set q x y → same_set q y x.
Proof. intros (a & ? & ?). by exists a. Qed.

Lemma same_set_trans q x y z : same_set q x y → same_set q y z → same_set q x z.
Proof.
  intros (a & Hx & Hy) (b & Hy' & Hz). exists a. split; [done|].
  by rewrite (repr_functional _ _ _ _ Hy Hy').
Qed.

Lemma fallback_inv_step visited uf i j b :
  i < length lats → j < length lats →
  fallback_inv lats lons radius_m visited uf →
  within_radius lats lons radius_m i j = Ok b →
  ∃ uf', (if b then indexed (union uf (Z.of_nat i) (Z.of_nat j)) else Ok uf)
         = Ok uf'
    ∧ fallback_inv lats lons radius_m (visited ++ [(i, j)]) uf'.
Proof.
  intros Hi Hj (Hinv & Hlen & Hsound & Hcomplete) Hb.
  assert (Hmono : ∀ x y, rtsc (edge_in lats lons radius_m visited) x y
                         → rtsc (edge_in lats lons radius_m (visited ++ [(i, j)])) x y).
  { intros x y. apply rtc_subrel. intros a c [[Hin Hw]|[Hin Hw]]; [left|right];
      (split; [apply elem_of_app; by left|done]). }
  destruct b.
  - destruct (union_spec uf i j Hinv) as (uf' & -> & Hinv' & Hlen' & Hsame);
      [lia..|].
    assert (Hij : rtsc (edge_in lats lons radius_m (visited ++ [(i, j)])) i j).
    { apply rtc_once. left. split; [|done]. apply elem_of_app. right. left. }
    exists uf'. split; [done|]. split; [done|]. split; [lia|]. split.
    + intros x y [Hxy|[[Hxi Hjy]|[Hxj Hiy]]]%Hsame.
      * by apply Hmono, Hsound.
      * etrans; [by apply Hmono, Hsound|]. etrans; [done|].
        by apply Hmono, Hsound.
      * etrans; [by apply Hmono, Hsound|]. etrans; [by symmetry|].
        by apply Hmono, Hsound.
    + intros a c [[Hin|[= -> ->]%list_elem_of_singleton]%elem_of_app Hw].
      * apply Hsame. left. by apply Hcomplete.
      * apply Hsame. right. left.
        split; apply same_set_refl; (done || lia).
  - exists uf. split; [done|]. split; [done|]. split; [done|]. split.
    + intros x y Hxy. by apply Hmono, Hsound.
    + intros a c [[Hin|[= -> ->]%list_elem_of_singleton]%elem_of_app Hw].
      * by apply Hcomplete.
      * rewrite Hb in Hw. done.
Qed.

(** The double loop: it unites the near pairs, or raises [ValueError]
    at a pair of points that has no distance. *)
Lemma fallback_loop_spec (pairs visited : list (nat * nat)) uf :
  (∀ i j, (i, j) ∈ pairs → i < length lats ∧ j < length lats) →
  fallback_inv lats lons radius_m visited uf →
  match rfoldl (fallback_step lats lons radius_m) uf pairs with
  | inr uf' =>
      fallback_inv lats lons radius_m (visited ++ pairs) uf'
      ∧ Forall (λ ij, is_Some (point_distance (zip lats lons) ij.1 ij.2)) pairs
  | inl e =>
      e = ValueError
      ∧ Exists (λ ij, point_distance (zip lats lons) ij.1 ij.2 = None) pairs
  end.
Proof.
  revert visited uf. induction pairs as [|[i j] pairs IH];
    intros visited uf Hrange Hinv.
  - simpl. rewrite app_nil_r. split; [done|constructor].
  - destruct (Hrange i j) as [Hi Hj]; [left|].
    cbn [rfoldl]. unfold fallback_step at 1. cbn [fst snd].
    pose proof (within_radius_distance i j Hi Hj) as Hw.
    destruct (point_distance (zip lats lons) i j) as [d|] eqn:Hd.
    + destruct (fallback_inv_step visited uf i j _ Hi Hj Hinv Hw)
        as (uf' & Hstep & Hinv').
      rewrite Hw. cbn [rbind Ok]. rewrite Hstep. cbn [rbind Ok].
      specialize (IH (visited ++ [(i, j)]) uf').
      destruct (rfoldl _ uf' pairs) as [e|uf''].
      * destruct IH as [-> Hex]; [|done|].
        { intros a b Hab. apply Hrange. by right. }
        split; [done|]. by right.
      * destruct IH as [Hinv'' Hall]; [|done|].
        { intros a b Hab. apply Hrange. by right. }
        rewrite <- app_assoc in Hinv''. split; [done|].
        constructor; [|done]. simpl. by rewrite Hd.
    + rewrite Hw. simpl. split; [done|]. by left.
Qed.

(** The roots found by the last loop. *)
Lemma find_all_spec uf n :
  uf_inv uf → n ≤ length (p uf) →
  ∃ roots, find_all uf n = Ok roots ∧ length roots = n
    ∧ ∀ i, i < n → ∃ a, roots !! i = Some a ∧ repr (p uf) i a.
Proof.
  intros Hinv Hn. unfold find_all.
  assert (Hgen : ∃ uf' roots,
            rfoldl (λ (st : UnionFind.t * list nat) i,
                      rbind (indexed (find st.1 (Z.of_nat i)))
                        (λ st', Ok (st'.1, st.2 ++ [st'.2])))
                   (uf, []) (seq 0 n) = Ok (uf', roots)
            ∧ uf_inv uf' ∧ length (p uf') = length (p uf)
            ∧ (∀ y b, repr (p uf) y b ↔ repr (p uf') y b)
            ∧ length roots = n
            ∧ ∀ i, i < n → ∃ a, roots !! i = Some a ∧ repr (p uf) i a).
  { induction n as [|n IH].
    - exists uf, []. do 5 (split; [done|]). intros i Hi. lia.
    - destruct IH as (uf' & roots & Hfold & Hinv' & Hlen & Hrepr & Hroots & Hall);
        [lia|].
      rewrite seq_S, rfoldl_app, Hfold. simpl.
      destruct (find_spec uf' n Hinv') as (uf'' & a & -> & Hinv'' & _ & Hlen'' & Hrepr'' & Ha);
        [lia|].
      simpl. exists uf'', (roots ++ [a]).
      split; [done|]. split; [done|]. split; [lia|]. split.
      + intros y b. by rewrite Hrepr, Hrepr''.
      + split; [rewrite length_app; simpl; lia|]. intros i Hi.
        destruct (decide (i < n)) as [Hlt|Hge].
        * destruct (Hall i Hlt) as (b & Hb & Hib). exists b.
          by rewrite lookup_app_l by lia.
        * assert (i = n) as -> by lia. exists a.
          rewrite lookup_app_r by lia. replace (n - length roots) with 0 by lia.
          split; [done|]. by apply Hrepr. }
  destruct Hgen as (uf' & roots & -> & _ & _ & _ & Hlen & Hall).
  simpl. by exists roots.
Qed.

(** The fallback returns when every pair of points has a distance, and
    then gives two positions the same label exactly when a chain of
    near positions joins them; it raises [ValueError] when a pair has no
    distance. *)
Lemma cluster_fallback_spec :
  match cluster_fallback lats lons radius_m with
  | inr labels =>
      (∀ i j, i < j < length lats → is_Some (point_distance (zip lats lons) i j))
      ∧ length labels = length lats
      ∧ (∀ i j li lj, labels !! i = Some li → labels !! j = Some lj →
           li = lj ↔ rtsc (near (zip lats lons) radius_m) i j)
      ∧ (∀ i, ∃ K, ∀ l, l ∈ take i labels ↔ l < K)
  | inl e =>
      e = ValueError
      ∧ ∃ i j, i < j < length lats ∧ point_distance (zip lats lons) i j = None
  end.
Proof.
  unfold cluster_fallback.
  pose proof (fallback_loop_spec (index_pairs (length lats)) []
                (init (Z.of_nat (length lats)))) as Hloop.
  destruct (rfoldl _ _ (index_pairs _)) as [e|uf].
  { destruct Hloop as [-> Hex].
    - intros i j Hij%elem_of_index_pairs. lia.
    - split; [apply init_inv|]. split; [by rewrite init_length, Nat2Z.id|]. split.
      + intros x y ->%init_same_set. done.
      + intros i j [?%elem_of_nil _]. done.
    - simpl. split; [done|]. apply Exists_exists in Hex as ([i j] & Hin & Hd).
      exists i, j. split; [by apply elem_of_index_pairs|done]. }
  destruct Hloop as [(Hinv & Hlen & Hsound & Hcomplete) Hdef].
  { intros i j Hij%elem_of_index_pairs. lia. }
  { split; [apply init_inv|]. split; [by rewrite init_length, Nat2Z.id|]. split.
    - intros x y ->%init_same_set. done.
    - intros i j [?%elem_of_nil _]. done. }
  simpl in Hsound, Hcomplete. cbn [rbind].
  destruct (find_all_spec uf (length lats) Hinv) as (roots & Hroots & Hrlen & Hall);
    [lia|].
  rewrite Hroots. simpl.
  destruct (relabel_spec roots) as (Hllen & Hlabels & Hprefix).
  split.
  { intros i j Hij.
    apply (proj1 (Forall_forall _ _) Hdef (i, j)).
    by apply elem_of_index_pairs. }
  split; [lia|]. split; [|done].
  assert (Hchain : ∀ x y, rtsc (near (zip lats lons) radius_m) x y →
            x < length lats → same_set (p uf) x y ∧ y < length lats).
  { intros x y Hxy. induction Hxy as [x|x y z Hxy _ IH]; intros Hx.
    - split; [|done]. apply same_set_refl; [done|lia].
    - assert (Hy : same_set (p uf) x y ∧ y < length lats).
      { destruct Hxy as [Hn|Hn]; pose proof Hn as (Hlt & d & Hd & _);
          apply near_within_radius in Hn as [_ Hw];
          destruct (point_distance_lt _ _ _ _ Hd) as [? ?];
          rewrite length_zip_lats in *.
        - split; [|done]. apply Hcomplete. split; [|done].
          apply elem_of_index_pairs. lia.
        - split; [|done]. apply same_set_sym, Hcomplete. split; [|done].
          apply elem_of_index_pairs. lia. }
      destruct Hy as [Hsxy Hy]. destruct (IH Hy) as [Hsyz Hz].
      split; [|done]. by eapply same_set_trans. }
  intros i j li lj Hi Hj.
  assert (Hilt : i < length lats) by (apply lookup_lt_Some in Hi; lia).
  assert (Hjlt : j < length lats) by (apply lookup_lt_Some in Hj; lia).
  destruct (Hall i Hilt) as (ρi & Hρi & Hri).
  destruct (Hall j Hjlt) as (ρj & Hρj & Hrj).
  rewrite (Hlabels i j ρi ρj li lj) by done.
  rewrite <- (same_set_roots (p uf) i j ρi ρj) by done. split.
  - intros Hs. eapply rtc_subrel; [|by apply Hsound].
    intros a b [[Hin%elem_of_index_pairs Hw]|[Hin%elem_of_index_pairs Hw]];
      [left|right]; (apply near_within_radius; split; [lia|done]).
  - intros Hc. by apply Hchain.
Qed.

End fallback.


Example cluster_fallback_chain :
  cluster_fallback (F := Z) [0; 0; 0; 0; 0]%Z [100; 0; 30; 15; 101]%Z 20%Z
  = Ok [0; 1; 1; 1; 0].
Proof. vm_compute. reflexivity. Qed.

Example cluster_fallback_out_of_grid :
  cluster_fallback (F := Z) [0; 0; 4000000]%Z [0; 10; 0]%Z 20%Z
  = Raise ValueError.
Proof. vm_compute. reflexivity. Qed.


(** ** Distinct records, distinct texts *)

(** The text of a character string determines the string. *)
Lemma utf8_inj s1 s2 : utf8 s1 = utf8 s2 → s1 = s2.
Proof.
  revert s2. induction s1 as [|c1 s1 IH]; intros [|c2 s2]; simpl.
  - done.
  - case_match; done.
  - case_match; done.
  - assert (Hc1 : (0 ≤ Z.of_N (PyStr.code c1) < 256)%Z).
    { unfold PyStr.code. pose proof (N_ascii_bounded c1). lia. }
    assert (Hc2 : (0 ≤ Z.of_N (PyStr.code c2) < 256)%Z).
    { unfold PyStr.code. pose proof (N_ascii_bounded c2). lia. }
    assert (Hcode : Z.of_N (PyStr.code c1) = Z.of_N (PyStr.code c2) → c1 = c2).
    { unfold PyStr.code. intros Hn%N2Z.inj.
      by rewrite <- (ascii_N_embedding c1), <- (ascii_N_embedding c2), Hn. }
    destruct (Z.ltb_spec (Z.of_N (PyStr.code c1)) 128);
      destruct (Z.ltb_spec (Z.of_N (PyStr.code c2)) 128).
    + intros [= Hn Hs]. f_equal; [by apply Hcode|by apply IH].
    + intros [= Hn Hs]. exfalso.
      pose proof (Z.div_pos (Z.of_N (PyStr.code c2)) 64). lia.
    + intros [= Hn Hs]. exfalso.
      pose proof (Z.div_pos (Z.of_N (PyStr.code c1)) 64). lia.
    + intros [= Hd Hm Hs]. f_equal; [|by apply IH]. apply Hcode.
      rewrite (Z.div_mod (Z.of_N (PyStr.code c1)) 64) by lia.
      rewrite (Z.div_mod (Z.of_N (PyStr.code c2)) 64) by lia. lia.
Qed.

Lemma sort_keys_Permutation d : Json.sort_keys d ≡ₚ d.
Proof. apply merge_sort_Permutation. Qed.

(** Two dictionaries with the same keys in the same order and the
    same items are equal. *)
Lemma dict_eq_of_keys (d1 d2 : dict) :
  NoDup d1.*1 → d1.*1 = d2.*1 → d1 ≡ₚ d2 → d1 = d2.
Proof.
  intros Hnd Hkeys Hperm. apply list_eq. intros i.
  destruct (d1 !! i) as [[k v1]|] eqn:H1.
  - assert (Hk2 : d2.*1 !! i = Some k).
    { rewrite <- Hkeys, list_lookup_fmap, H1. done. }
    rewrite list_lookup_fmap in Hk2.
    destruct (d2 !! i) as [[k' v2]|] eqn:H2; simplify_eq/=.
    assert (Hin : (k, v2) ∈ d1).
    { rewrite Hperm. by eapply list_elem_of_lookup_2. }
    apply list_elem_of_lookup_1 in Hin as [j Hj].
    assert (i = j) as ->.
    { eapply NoDup_lookup; [done|..].
      - by rewrite list_lookup_fmap, H1.
      - by rewrite list_lookup_fmap, Hj. }
    congruence.
  - symmetry. apply lookup_ge_None. apply lookup_ge_None in H1.
    rewrite <- (length_fmap fst d2), <- Hkeys, length_fmap. done.
Qed.

Lemma join_dicts_cons d l :
  PyStr.join ", " (map (Json.dumps_dict_sorted false) (d :: l)) +:+ "]"
  = Json.dumps_dict false (Json.sort_keys d) +:+ list_tail_text l.
Proof.
  destruct l as [|d' l]; [reflexivity|].
  simpl map. rewrite join_cons_cons, string_app_assoc. reflexivity.
Qed.

Lemma dumps_dict_head ens d rest :
  ∃ z, Json.dumps_dict ens d +:+ rest = String "{" z.
Proof.
  unfold Json.dumps_dict. rewrite !string_app_assoc, string_app_cons. by eexists.
Qed.

(** The text of a list of records determines the records, up to the
    order of their keys. *)
Lemma list_tail_text_inj (l1 l2 : list dict) :
  Forall (λ d, NoDup d.*1) l1 → Forall (λ d, NoDup d.*1) l2 →
  list_tail_text l1 = list_tail_text l2 →
  map Json.sort_keys l1 = map Json.sort_keys l2.
Proof.
  intros Hnd1. revert l2. induction Hnd1 as [|d1 l1 Hd1 Hnd1 IH];
    intros l2 Hnd2; destruct Hnd2 as [|d2 l2 Hd2 Hnd2]; [done|..].
  - simpl. intros [=].
  - simpl. intros [=].
  - unfold list_tail_text. intros Heq%(inj (String.app ", ")).
    rewrite !join_dicts_cons in Heq.
    pose proof (parse_object_dumps false (Json.sort_keys d1) (list_tail_text l1)) as H1.
    pose proof (parse_object_dumps false (Json.sort_keys d2) (list_tail_text l2)) as H2.
    rewrite Heq, H2 in H1. injection H1 as Hd Ht.
    rewrite !dict_of_items_NoDup in Hd by (simpl; by apply sort_keys_NoDup).
    simpl in Hd. simpl. f_equal; [done|]. by apply IH.
Qed.

Lemma signature_raw_inj (l1 l2 : list dict) :
  Forall (λ d, NoDup d.*1) l1 → Forall (λ d, NoDup d.*1) l2 →
  signature_raw l1 = signature_raw l2 →
  map Json.sort_keys l1 = map Json.sort_keys l2.
Proof.
  intros Hnd1 Hnd2. unfold signature_raw, Json.dumps_list.
  destruct l1 as [|d1 l1], l2 as [|d2 l2]; [done|..].
  - rewrite join_dicts_cons.
    destruct (dumps_dict_head false (Json.sort_keys d2) (list_tail_text l2)) as [z ->].
    intros [=].
  - rewrite join_dicts_cons.
    destruct (dumps_dict_head false (Json.sort_keys d1) (list_tail_text l1)) as [z ->].
    intros [=].
  - intros Heq%(inj (String.app "[")).
    apply (list_tail_text_inj (d1 :: l1) (d2 :: l2)); [done..|].
    unfold list_tail_text. by rewrite Heq.
Qed.

Section different_entries.
Context {F : Type} `{FloatOps F}.

Lemma fill_rec_keys (r : Row F) days fields rec e :
  fill_rec r days fields rec = Ok e →
  e.*1 = foldl (λ ks f, if decide (f ∈ ks) then ks else ks ++ [f]) rec.*1 fields.
Proof.
  revert rec. induction fields as [|f fields IH]; intros rec; simpl.
  - by intros [= <-].
  - destruct (field_value r days f) as [ex|v]; [done|]. simpl.
    intros He%IH. by rewrite He, dict_set_keys.
Qed.

(** Records built from the same fields have the same keys in the same
    order. *)
Lemma build_entry_keys fields (r1 r2 : Row F) e1 e2 :
  build_entry fields r1 = Ok e1 → build_entry fields r2 = Ok e2 →
  e1.*1 = e2.*1.
Proof.
  unfold build_entry. intros H1%fill_rec_keys H2%fill_rec_keys. congruence.
Qed.

(** What the second half of the builder returns: the hash is the
    digest of the text of the entry list, and the entry list holds the
    records with their keys sorted. *)
Lemma signature_of_entries_spec (entries : list dict) h es :
  Forall (λ e, NoDup e.*1) entries →
  signature_of_entries entries = Ok (h, es) →
  h = Sha1.hexdigest (utf8 (signature_raw es))
  ∧ ∀ d, d ∈ es ↔ ∃ e, e ∈ entries ∧ d = Json.sort_keys e.
Proof.
  intros Hnd. unfold signature_of_entries.
  set (uniq := list_to_set _ : gset string).
  destruct (rmap json_loads (sorted_strings uniq)) as [ex|es'] eqn:Hes; [done|].
  simpl. intros [= <- <-]. split; [done|].
  apply rmap_Ok_inv in Hes.
  assert (Hstr : ∀ s, s ∈ sorted_strings uniq ↔
            ∃ e, e ∈ entries ∧ s = Json.dumps_dict_sorted true e).
  { intros s. unfold uniq.
    rewrite elem_of_sorted_strings, elem_of_list_to_set, elem_of_list_map.
    naive_solver. }
  intros d. split.
  - intros [i Hi]%list_elem_of_lookup.
    destruct (Forall2_lookup_r _ _ _ _ _ Hes Hi) as (s & Hs & Hload).
    apply list_elem_of_lookup_2, Hstr in Hs as (e & He & ->).
    exists e. split; [done|].
    rewrite json_loads_dumps_sorted in Hload
      by (by eapply Forall_forall in Hnd).
    by injection Hload.
  - intros (e & He & ->).
    assert (Hs : Json.dumps_dict_sorted true e ∈ sorted_strings uniq)
      by (apply Hstr; by exists e).
    apply list_elem_of_lookup_1 in Hs as [i Hi].
    destruct (Forall2_lookup_l _ _ _ _ _ Hes Hi) as (d & Hd & Hload).
    rewrite json_loads_dumps_sorted in Hload
      by (by eapply Forall_forall in Hnd).
    injection Hload as <-. by eapply list_elem_of_lookup_2.
Qed.

(** The builder returns the digest of the text of the entry list. *)
Lemma build_schedule_signature_hash fields (rows : list (Row F)) h es :
  build_schedule_signature rows fields = Ok (h, es) →
  h = Sha1.hexdigest (utf8 (signature_raw es)).
Proof.
  unfold build_schedule_signature.
  destruct (build_entries_Ok fields rows) as (entries & -> & _ & Hnd). simpl.
  intros Hsig. by apply (signature_of_entries_spec entries h es Hnd).
Qed.

(** Entry lists that agree up to the order of the keys within a record
    come from the same set of records. *)
Lemma entries_of_sorted_lists fields (rows1 rows2 : list (Row F)) h1 es1 h2 es2 :
  build_schedule_signature rows1 fields = Ok (h1, es1) →
  build_schedule_signature rows2 fields = Ok (h2, es2) →
  map Json.sort_keys es1 = map Json.sort_keys es2 →
  ∀ e, (∃ r, r ∈ rows1 ∧ build_entry fields r = Ok e)
       → (∃ r, r ∈ rows2 ∧ build_entry fields r = Ok e).
Proof.
  unfold build_schedule_signature.
  destruct (build_entries_Ok fields rows1) as (entries1 & -> & Hall1 & Hnd1).
  destruct (build_entries_Ok fields rows2) as (entries2 & -> & Hall2 & Hnd2).
  simpl. intros Hs1 Hs2 Hmap e (r1 & Hr1 & He).
  destruct (signature_of_entries_spec _ _ _ Hnd1 Hs1) as [_ Hes1].
  destruct (signature_of_entries_spec _ _ _ Hnd2 Hs2) as [_ Hes2].
  assert (He1 : e ∈ entries1).
  { apply list_elem_of_lookup_1 in Hr1 as [i Hi].
    destruct (Forall2_lookup_l _ _ _ _ _ Hall1 Hi) as (e' & He' & Hre').
    rewrite He in Hre'. injection Hre' as <-. by eapply list_elem_of_lookup_2. }
  assert (Hin : Json.sort_keys (Json.sort_keys e) ∈ map Json.sort_keys es2).
  { rewrite <- Hmap. apply elem_of_list_map. exists (Json.sort_keys e).
    split; [done|]. apply Hes1. by exists e. }
  apply elem_of_list_map in Hin as (d2 & Hd2 & (e2 & He2 & ->)%Hes2).
  apply list_elem_of_lookup_1 in He2 as [i Hi].
  destruct (Forall2_lookup_r _ _ _ _ _ Hall2 Hi) as (r2 & Hr2 & Hre2).
  exists r2. split; [by eapply list_elem_of_lookup_2|].
  rewrite Hre2. f_equal. symmetry. apply dict_eq_of_keys.
  - destruct (build_entry_Ok fields r1) as (e' & He' & Hnd).
    rewrite He in He'. by injection He' as <-.
  - by eapply build_entry_keys.
  - rewrite <- (sort_keys_Permutation e), <- (sort_keys_Permutation e2).
    rewrite <- (sort_keys_Permutation (Json.sort_keys e)),
      <- (sort_keys_Permutation (Json.sort_keys e2)). by rewrite Hd2.
Qed.

(** X5: row sets of a meter whose sets of normalised
    records differ have different canonical entry lists, and the
    texts of these lists, whose SHA-1 digests are the two hashes, are
    different byte strings. *)
Theorem different_entries_different_text fields (rows1 rows2 : list (Row F))
    h1 es1 h2 es2 :
  build_schedule_signature rows1 fields = Ok (h1, es1) →
  build_schedule_signature rows2 fields = Ok (h2, es2) →
  ¬ (∀ e, (∃ r, r ∈ rows1 ∧ build_entry fields r = Ok e)
          ↔ (∃ r, r ∈ rows2 ∧ build_entry fields r = Ok e)) →
  es1 ≠ es2
  ∧ utf8 (signature_raw es1) ≠ utf8 (signature_raw es2)
  ∧ h1 = Sha1.hexdigest (utf8 (signature_raw es1))
  ∧ h2 = Sha1.hexdigest (utf8 (signature_raw es2)).
Proof.
  intros H1 H2 Hdiff.
  assert (Hsame : map Json.sort_keys es1 = map Json.sort_keys es2 → False).
  { intros Hmap. apply Hdiff. intros e. split.
    - by eapply entries_of_sorted_lists.
    - by eapply entries_of_sorted_lists. }
  assert (Hnd : ∀ (rows : list (Row F)) h es,
            build_schedule_signature rows fields = Ok (h, es) →
            Forall (λ d, NoDup d.*1) es).
  { intros rows h es. unfold build_schedule_signature.
    destruct (build_entries_Ok fields rows) as (entries & -> & _ & Hnd). simpl.
    intros Hsig. destruct (signature_of_entries_spec _ _ _ Hnd Hsig) as [_ Hes].
    apply Forall_forall. intros d (e & He & ->)%Hes.
    apply sort_keys_NoDup. by eapply Forall_forall in Hnd. }
  split; [|split; [|split]].
  - intros Heq. apply Hsame. by rewrite Heq.
  - intros Heq%utf8_inj. apply Hsame.
    apply signature_raw_inj; [by eapply Hnd..|done].
  - by eapply build_schedule_signature_hash.
  - by eapply build_schedule_signature_hash.
Qed.

End different_entries.
(** ** Strings *)

Lemma string_app_nil_r (s : string) : s +:+ "" = s.
Proof. induction s as [|c s IH]; [done|]. by rewrite string_app_cons, IH. Qed.

Lemma rev_app_spec s1 s2 : String.rev_app s1 s2 = String.rev s1 +:+ s2.
Proof.
  unfold String.rev. revert s2.
  induction s1 as [|c s1 IH]; intros s2; simpl; [done|].
  rewrite IH, (IH (String c "")), string_app_assoc. done.
Qed.

Lemma rev_cons c s : String.rev (String c s) = String.rev s +:+ String c "".
Proof. unfold String.rev at 1. simpl. apply rev_app_spec. Qed.

Lemma rev_snoc s c : String.rev (s +:+ String c "") = String c (String.rev s).
Proof.
  induction s as [|d s IH]; [done|].
  rewrite string_app_cons, !rev_cons, IH. done.
Qed.

Lemma string_rev_involutive s : String.rev (String.rev s) = s.
Proof.
  induction s as [|c s IH]; [done|]. by rewrite rev_cons, rev_snoc, IH.
Qed.

Lemma all_chars_app P a b :
  all_chars P (a +:+ b) = all_chars P a && all_chars P b.
Proof.
  induction a as [|c a IH]; [done|].
  rewrite string_app_cons. simpl. by rewrite IH, andb_assoc.
Qed.

Lemma all_chars_rev P s : all_chars P (String.rev s) = all_chars P s.
Proof.
  induction s as [|c s IH]; [done|].
  rewrite rev_cons, all_chars_app, IH. simpl.
  rewrite andb_true_r. apply andb_comm.
Qed.

Lemma all_chars_impl (P Q : ascii → bool) s :
  (∀ c, P c = true → Q c = true) → all_chars P s = true → all_chars Q s = true.
Proof.
  intros HPQ. induction s as [|c s IH]; [done|]. simpl.
  intros [Hc Hs]%andb_true_iff. by rewrite (HPQ _ Hc), IH.
Qed.

Lemma lstrip_idem s : PyStr.lstrip (PyStr.lstrip s) = PyStr.lstrip s.
Proof.
  induction s as [|c s IH]; [done|]. simpl.
  destruct (PyStr.isspace c) eqn:Hc; [done|]. simpl. by rewrite Hc.
Qed.

Lemma lstrip_decomp s :
  ∃ a, s = a +:+ PyStr.lstrip s ∧ all_chars PyStr.isspace a = true.
Proof.
  induction s as [|c s (a & Ha & Hsp)]; [by exists ""|]. simpl.
  destruct (PyStr.isspace c) eqn:Hc.
  - exists (String c a). rewrite string_app_cons, <- Ha. simpl. by rewrite Hc.
  - by exists "".
Qed.

Lemma lstrip_spaces s :
  PyStr.lstrip s = "" ↔ all_chars PyStr.isspace s = true.
Proof.
  induction s as [|c s IH]; [done|]. simpl.
  destruct (PyStr.isspace c); simpl; [done|]. split; discriminate.
Qed.

Lemma lstrip_app_spaces a s :
  all_chars PyStr.isspace a = true → PyStr.lstrip (a +:+ s) = PyStr.lstrip s.
Proof.
  induction a as [|c a IH]; [done|]. simpl all_chars.
  intros [Hc Ha]%andb_true_iff. rewrite string_app_cons. simpl.
  rewrite Hc. auto.
Qed.

Lemma all_chars_lstrip P s :
  all_chars P s = true → all_chars P (PyStr.lstrip s) = true.
Proof.
  induction s as [|c s IH]; [done|]. simpl.
  intros [Hc Hs]%andb_true_iff.
  destruct (PyStr.isspace c); [auto|]. simpl. by rewrite Hc, Hs.
Qed.

Lemma all_chars_strip P s :
  all_chars P s = true → all_chars P (PyStr.strip s) = true.
Proof.
  intros Hs. unfold PyStr.strip, PyStr.rstrip.
  rewrite all_chars_rev. apply all_chars_lstrip.
  rewrite all_chars_rev. by apply all_chars_lstrip.
Qed.

(** A string that ends with a character that is no white space keeps
    this end under [lstrip]. *)
Lemma lstrip_snoc x c :
  PyStr.isspace c = false →
  ∃ y, PyStr.lstrip (x +:+ String c "") = y +:+ String c "".
Proof.
  intros Hc. induction x as [|d x [y Hy]].
  - exists "". simpl. by rewrite Hc.
  - rewrite string_app_cons. simpl. destruct (PyStr.isspace d); [by exists y|].
    exists (String d x). by rewrite string_app_cons.
Qed.

Lemma rstrip_snoc s c :
  PyStr.isspace c = false →
  PyStr.rstrip (s +:+ String c "") = s +:+ String c "".
Proof.
  intros Hc. unfold PyStr.rstrip. rewrite rev_snoc. simpl. rewrite Hc.
  by rewrite <- rev_snoc, string_rev_involutive.
Qed.

Lemma lstrip_rstrip u :
  PyStr.lstrip u = u → PyStr.lstrip (PyStr.rstrip u) = PyStr.rstrip u.
Proof.
  destruct u as [|c r]; [done|]. simpl.
  destruct (PyStr.isspace c) eqn:Hc.
  - intros Hr. exfalso.
    destruct (lstrip_decomp r) as (a & Ha & _). rewrite Hr in Ha.
    apply (f_equal String.length) in Ha.
    rewrite string_app_length in Ha. simpl in Ha. lia.
  - intros _. unfold PyStr.rstrip. rewrite rev_cons.
    destruct (lstrip_snoc (String.rev r) c Hc) as [y ->].
    rewrite rev_snoc. simpl. by rewrite Hc.
Qed.

Lemma rstrip_idem u : PyStr.rstrip (PyStr.rstrip u) = PyStr.rstrip u.
Proof. unfold PyStr.rstrip. by rewrite string_rev_involutive, lstrip_idem. Qed.

(** [strip] is idempotent. *)
Lemma strip_idem s : PyStr.strip (PyStr.strip s) = PyStr.strip s.
Proof.
  unfold PyStr.strip.
  rewrite (lstrip_rstrip (PyStr.lstrip s)) by apply lstrip_idem.
  apply rstrip_idem.
Qed.

Lemma strip_spaces s :
  PyStr.strip s = "" ↔ all_chars PyStr.isspace s = true.
Proof.
  unfold PyStr.strip, PyStr.rstrip. split.
  - intros Hs. apply (f_equal String.rev) in Hs.
    rewrite string_rev_involutive in Hs. simpl in Hs.
    apply lstrip_spaces in Hs. rewrite all_chars_rev in Hs.
    destruct (lstrip_decomp s) as (a & Ha & Hsp).
    rewrite Ha, all_chars_app, Hsp, Hs. done.
  - intros Hs. apply lstrip_spaces in Hs. by rewrite Hs.
Qed.

(** A string whose first and last characters are no white space is
    left as it is. *)
Lemma strip_trimmed c s d :
  PyStr.isspace c = false → PyStr.isspace d = false →
  PyStr.strip (String c (s +:+ String d "")) = String c (s +:+ String d "").
Proof.
  intros Hc Hd. unfold PyStr.strip. simpl. rewrite Hc.
  rewrite <- string_app_cons. by apply rstrip_snoc.
Qed.

Lemma strip_single c :
  PyStr.isspace c = false → PyStr.strip (String c "") = String c "".
Proof. intros Hc. unfold PyStr.strip. simpl. rewrite Hc. by apply (rstrip_snoc ""). Qed.

(** *** Splitting and joining *)

Lemma split_nonempty sep s : PyStr.split sep s ≠ [].
Proof.
  induction s as [|c s IH]; [done|]. simpl.
  destruct (Ascii.eqb c sep); [done|]. by destruct (PyStr.split sep s).
Qed.

(** A string without the separator is one piece. *)
Lemma split_no_sep sep s :
  all_chars (is_not sep) s = true → PyStr.split sep s = [s].
Proof.
  induction s as [|c s IH]; [done|]. simpl. unfold is_not at 1.
  intros [Hc Hs]%andb_true_iff. apply negb_true_iff in Hc. rewrite Hc.
  by rewrite IH.
Qed.

Lemma split_app sep a b :
  all_chars (is_not sep) a = true →
  PyStr.split sep (a +:+ String sep b) = a :: PyStr.split sep b.
Proof.
  induction a as [|c a IH].
  - intros _. rewrite string_app_nil_l. simpl. by rewrite Ascii.eqb_refl.
  - simpl all_chars. unfold is_not at 1. intros [Hc Hs]%andb_true_iff.
    apply negb_true_iff in Hc. rewrite string_app_cons. simpl.
    by rewrite Hc, IH.
Qed.

(** The pieces hold no separator. *)
Lemma split_pieces sep s :
  Forall (λ p, all_chars (is_not sep) p = true) (PyStr.split sep s).
Proof.
  induction s as [|c s IH]; [by repeat constructor|]. simpl.
  destruct (Ascii.eqb c sep) eqn:Hc; [by constructor|].
  destruct (PyStr.split sep s) as [|p ps].
  { constructor; [|constructor]. simpl. unfold is_not. by rewrite Hc. }
  inversion IH as [|? ? Hp Hps]; subst. constructor; [|done].
  simpl. unfold is_not at 1. by rewrite Hc.
Qed.

(** Joining the pieces gives the string back, and splitting a joined
    list gives the list back when no element holds the separator. *)
Lemma join_split sep s :
  PyStr.join (String sep "") (PyStr.split sep s) = s.
Proof.
  induction s as [|c s IH]; [done|]. simpl.
  pose proof (split_nonempty sep s) as Hne.
  destruct (Ascii.eqb c sep) eqn:Hc.
  - apply Ascii.eqb_eq in Hc as ->.
    destruct (PyStr.split sep s) as [|p ps]; [done|].
    rewrite join_cons_cons, IH. done.
  - destruct (PyStr.split sep s) as [|p ps]; [done|].
    destruct ps as [|q ps].
    + unfold PyStr.join in *. simpl in *. by rewrite IH.
    + rewrite join_cons_cons in *. rewrite <- IH. by rewrite string_app_cons.
Qed.

Lemma split_join sep l :
  l ≠ [] → Forall (λ p, all_chars (is_not sep) p = true) l →
  PyStr.split sep (PyStr.join (String sep "") l) = l.
Proof.
  intros Hne Hall. induction Hall as [|p l Hp Hl IH]; [done|].
  destruct l as [|q l].
  - simpl. by apply split_no_sep.
  - rewrite join_cons_cons.
    rewrite string_app_cons, string_app_nil_l.
    rewrite split_app by done. by rewrite IH.
Qed.

(** ** Day lists *)

(** [filter] only looks at the elements of the list. *)
Lemma filter_ext_elem {A} (P Q : A → Prop) `{∀ x, Decision (P x)}
    `{∀ x, Decision (Q x)} (l : list A) :
  (∀ x, x ∈ l → (P x ↔ Q x)) → filter P l = filter Q l.
Proof.
  induction l as [|x l IH]; intros Hl; [done|].
  rewrite !filter_cons, IH by (intros; apply Hl; by right).
  destruct (decide (P x)) as [HP|HP], (decide (Q x)) as [HQ|HQ]; try done.
  - destruct HQ. apply Hl; [left|done].
  - destruct HP. apply Hl; [left|done].
Qed.

Lemma filter_all {A} (P : A → Prop) `{∀ x, Decision (P x)} (l : list A) :
  (∀ x, x ∈ l → P x) → filter P l = l.
Proof.
  induction l as [|x l IH]; intros Hl; [done|].
  rewrite filter_cons_True by (apply Hl; left).
  by rewrite IH by (intros; apply Hl; by right).
Qed.

Lemma filter_none {A} (P : A → Prop) `{∀ x, Decision (P x)} (l : list A) :
  (∀ x, x ∈ l → ¬ P x) → filter P l = [].
Proof.
  induction l as [|x l IH]; intros Hl; [done|].
  rewrite filter_cons_False by (apply Hl; left).
  by rewrite IH by (intros; apply Hl; by right).
Qed.

Lemma assoc_get_elem {V} (d : list (string * V)) k v :
  assoc_get d k = Some v → (k, v) ∈ d.
Proof.
  induction d as [|[k' v'] d IH]; [done|]. simpl.
  destruct (String.eqb k' k) eqn:Hk.
  - apply String.eqb_eq in Hk as ->. intros [= ->]. left.
  - intros Hd. right. auto.
Qed.

(** A token: stripped, not empty and without a comma. *)
Lemma day_tokens_token ds t :
  t ∈ day_tokens ds →
  PyStr.strip t = t ∧ t ≠ "" ∧ all_chars (is_not ",") t = true.
Proof.
  unfold day_tokens. intros (p & -> & Hp)%list_elem_of_fmap.
  apply list_elem_of_In, filter_In in Hp as [Hin Htr].
  split; [apply strip_idem|]. split.
  - intros Hs. by rewrite Hs in Htr.
  - apply all_chars_strip.
    pose proof (split_pieces "," ds) as Hall.
    rewrite Forall_forall in Hall. apply Hall. by apply list_elem_of_In.
Qed.

Lemma DAY_ORDER_token d :
  d ∈ DAY_ORDER →
  PyStr.strip d = d ∧ d ≠ "" ∧ all_chars (is_not ",") d = true.
Proof.
  unfold DAY_ORDER. intros Hd.
  repeat (apply elem_of_cons in Hd as [->|Hd];
          [by split; [vm_compute|split; [|vm_compute]]|]).
  by apply elem_of_nil in Hd.
Qed.

Lemma join_head sep t l : ∃ rest, PyStr.join sep (t :: l) = t +:+ rest.
Proof.
  destruct l as [|u l].
  - exists "". unfold PyStr.join. simpl. by rewrite string_app_nil_r.
  - rewrite join_cons_cons. by eexists.
Qed.

(** The tokens of a joined list of tokens are the list. *)
Lemma day_tokens_join toks :
  (∀ t, t ∈ toks →
     PyStr.strip t = t ∧ t ≠ "" ∧ all_chars (is_not ",") t = true) →
  day_tokens (PyStr.join "," toks) = toks
  ∧ (toks ≠ [] → PyStr.strip (PyStr.join "," toks) ≠ "").
Proof.
  intros Htok. destruct toks as [|t toks]; [done|]. split.
  - unfold day_tokens.
    rewrite (split_join "," (t :: toks)); [|done|].
    + set (l := t :: toks) in *. clearbody l. clear t toks.
      induction l as [|t l IH]; [done|].
      destruct (Htok t) as (Hs & Hne & _); [left|].
      simpl. rewrite Hs. destruct t as [|c t]; [done|]. simpl.
      rewrite Hs. f_equal. apply IH. intros; apply Htok. by right.
    + apply Forall_forall. intros x Hx. by apply Htok.
  - intros _ Hs. apply strip_spaces in Hs.
    destruct (join_head "," t toks) as [rest Hj]. rewrite Hj in Hs.
    rewrite all_chars_app in Hs. apply andb_true_iff in Hs as [Hs _].
    apply strip_spaces in Hs.
    destruct (Htok t) as (Hst & Hne & _); [left|]. congruence.
Qed.

(** What [canonical_days] computes from a day list that is not blank. *)
Lemma canonical_days_tokens ds fb :
  PyStr.strip ds ≠ "" →
  canonical_days (Some ds) fb
  = PyStr.join ","
      (filter (λ d, d ∈ day_tokens ds) DAY_ORDER
       ++ filter (λ p, p ∉ DAY_ORDER ∧ (String.length p ≤ 3)%nat) (day_tokens ds)).
Proof.
  intros Hds. unfold canonical_days.
  rewrite (proj2 (nonblank_Some ds) Hds). simpl default.
  rewrite (known_day_loop _ _ [] ∅ DAY_ORDER_NoDup) by set_solver.
  simpl app at 1.
  rewrite (other_token_loop _ (λ p, p ∉ DAY_ORDER)); [done|].
  intros p Hp.
  rewrite elem_of_union, elem_of_list_to_set, list_elem_of_filter.
  set_solver.
Qed.

Lemma canonical_days_of_tokens toks fb :
  (∀ t, t ∈ toks →
     PyStr.strip t = t ∧ t ≠ "" ∧ all_chars (is_not ",") t = true) →
  canonical_days (Some (PyStr.join "," toks)) fb
  = if decide (toks = []) then default "" (match fb with
       | Some f => if nonblank fb then
            assoc_get DAY_MAP_LONG2ABBR (PyStr.lower (PyStr.strip f)) else None
       | None => None end)
    else PyStr.join ","
      (filter (λ d, d ∈ toks) DAY_ORDER
       ++ filter (λ p, p ∉ DAY_ORDER ∧ (String.length p ≤ 3)%nat) toks).
Proof.
  intros Htok. destruct (day_tokens_join toks Htok) as [Hdt Hne].
  destruct (decide (toks = [])) as [->|Hno].
  - unfold canonical_days. simpl. destruct fb as [f|]; [|done]. simpl.
    by destruct (PyStr.truthy f && PyStr.truthy (PyStr.strip f)).
  - rewrite canonical_days_tokens by auto. by rewrite Hdt.
Qed.

(** X3: the result of [canonical_days] is a fixed point: normalising a
    normalised day list, without a fallback, changes nothing. *)
Lemma canonical_days_fixed (days fb : option string) :
  canonical_days (Some (canonical_days days fb)) None = canonical_days days fb.
Proof.
  destruct (nonblank days) eqn:Hnb.
  - destruct days as [ds|]; [|done]. apply nonblank_Some in Hnb.
    rewrite (canonical_days_tokens ds fb Hnb).
    set (K := filter (λ d, d ∈ day_tokens ds) DAY_ORDER).
    set (O := filter (λ p, p ∉ DAY_ORDER ∧ (String.length p ≤ 3)%nat)
                     (day_tokens ds)).
    assert (HK : ∀ d, d ∈ K ↔ d ∈ day_tokens ds ∧ d ∈ DAY_ORDER).
    { intros d. unfold K. by rewrite list_elem_of_filter. }
    assert (HO : ∀ p, p ∈ O ↔ (p ∉ DAY_ORDER ∧ (String.length p ≤ 3)%nat)
                               ∧ p ∈ day_tokens ds).
    { intros p. unfold O. by rewrite list_elem_of_filter. }
    rewrite canonical_days_of_tokens.
    + destruct (decide (K ++ O = [])) as [->|Hne]; [done|].
      f_equal. f_equal.
      * etrans; [|reflexivity]. unfold K at 2. apply filter_ext_elem. intros d Hd.
        rewrite elem_of_app, HK, HO. naive_solver.
      * rewrite filter_app.
        rewrite (filter_none _ K), (filter_all _ O); [done| |].
        -- intros p Hp%HO. tauto.
        -- intros p Hp%HK. tauto.
    + intros t [Ht%HK|Ht%HO]%elem_of_app.
      * apply DAY_ORDER_token. tauto.
      * apply (day_tokens_token ds). tauto.
  - remember (canonical_days days fb) as r eqn:Hr.
    unfold canonical_days in Hr. rewrite Hnb in Hr.
    destruct (nonblank fb); [|subst r; vm_compute; reflexivity].
    destruct (assoc_get _ _) as [d|] eqn:Hk;
      [|subst r; vm_compute; reflexivity].
    apply assoc_get_elem in Hk. simpl in Hr. subst r.
    unfold DAY_MAP_LONG2ABBR in Hk.
    repeat (apply elem_of_cons in Hk as [[= _ ->]|Hk];
            [vm_compute; reflexivity|]).
    by apply elem_of_nil in Hk.
Qed.

(** ** Decimal numbers *)

Lemma strip_no_space s : all_chars nonspace s = true → PyStr.strip s = s.
Proof.
  intros Hs.
  assert (Hl : ∀ u, all_chars nonspace u = true → PyStr.lstrip u = u).
  { intros [|c u]; [done|]. simpl. unfold nonspace at 1.
    intros [Hc _]%andb_true_iff. apply negb_true_iff in Hc. by rewrite Hc. }
  unfold PyStr.strip, PyStr.rstrip. rewrite (Hl s Hs).
  rewrite Hl by (by rewrite all_chars_rev). apply string_rev_involutive.
Qed.

Lemma isdigit_inv c :
  PyStr.isdigit c = true →
  c ∈ ["0"; "1"; "2"; "3"; "4"; "5"; "6"; "7"; "8"; "9"]%char.
Proof.
  destruct c as [[] [] [] [] [] [] [] []]; intros Hc; try discriminate Hc;
    set_solver.
Qed.

Lemma lu_cons_spec c lu :
  PyStr.isdigit c = true →
  DecimalPos.Unsigned.of_lu (lu_cons (PyStr.digit_val c) lu)
  = (10 * DecimalPos.Unsigned.of_lu lu + PyStr.digit_val c)%N
  ∧ Decimal.nb_digits (lu_cons (PyStr.digit_val c) lu) = S (Decimal.nb_digits lu).
Proof.
  intros Hc%isdigit_inv.
  repeat (apply elem_of_cons in Hc as [->|Hc];
          [match goal with
           | |- context [PyStr.digit_val ?c] =>
               let v := eval vm_compute in (PyStr.digit_val c) in
               change (PyStr.digit_val c) with v
           end;
           cbn [lu_cons DecimalPos.Unsigned.of_lu Decimal.nb_digits];
           split; [lia|done]|]).
  by apply elem_of_nil in Hc.
Qed.

(** What [int] has read is a numeral with as many digits as counted. *)
Lemma int_digits_lu s : ∀ pd acc cnt n cnt' lu,
  PyStr.int_digits pd acc cnt s = Some (n, cnt') →
  DecimalPos.Unsigned.of_lu lu = acc → Decimal.nb_digits lu = cnt →
  ∃ lu', DecimalPos.Unsigned.of_lu lu' = n ∧ Decimal.nb_digits lu' = cnt'.
Proof.
  induction s as [|c s IH]; intros pd acc cnt n cnt' lu; simpl.
  - destruct pd; [|done]. intros [= <- <-] ? ?. by exists lu.
  - destruct (PyStr.isdigit c) eqn:Hc.
    + intros Hrun Hacc Hcnt.
      destruct (lu_cons_spec c lu Hc) as [Hv Hn].
      apply (IH _ _ _ _ _ (lu_cons (PyStr.digit_val c) lu) Hrun);
        [by rewrite Hv, Hacc|by rewrite Hn, Hcnt].
    + destruct (Ascii.eqb c "_" && pd); [|done]. apply IH.
Qed.

Lemma decimal_length_of_lu lu :
  (decimal_length (DecimalPos.Unsigned.of_lu lu) ≤ max 1 (Decimal.nb_digits lu))%nat.
Proof.
  unfold decimal_length.
  rewrite <- DecimalPos.Unsigned.of_lu_rev.
  change (Pos.of_uint (Decimal.rev lu)) with (N.of_uint (Decimal.rev lu)).
  rewrite DecimalN.Unsigned.to_of.
  destruct (decide (Decimal.nb_digits (Decimal.rev lu) = 0%nat)) as [H0|Hne].
  { apply DecimalFacts.nb_digits_0 in H0 as ->. simpl. lia. }
  apply DecimalFacts.nb_digits_n0 in Hne.
  pose proof (DecimalFacts.nb_digits_unorm _ Hne) as Hle.
  rewrite DecimalFacts.nb_digits_rev in Hle. lia.
Qed.

(** A number accepted by [int] prints with at most 4300 digits. *)
Lemma int_decimal_length s z :
  PyStr.int s = Some z →
  (decimal_length (Z.abs_N z) ≤ PyStr.int_max_str_digits)%nat.
Proof.
  unfold PyStr.int.
  destruct (match PyStr.strip s with
            | String "-" r => (true, r) | String "+" r => (false, r)
            | _ => (false, PyStr.strip s) end) as [neg body].
  destruct (PyStr.int_digits false 0 0 body) as [[n cnt]|] eqn:Hrun; [|done].
  destruct (PyStr.int_max_str_digits <? cnt)%nat eqn:Hlim; [done|].
  apply Nat.ltb_ge in Hlim. intros [= <-].
  destruct (int_digits_lu _ _ _ _ _ _ Decimal.Nil Hrun eq_refl eq_refl)
    as (lu & <- & <-).
  pose proof (decimal_length_of_lu lu) as Hlen.
  assert (Habs : Z.abs_N (if neg
             then (- Z.of_N (DecimalPos.Unsigned.of_lu lu))%Z
             else Z.of_N (DecimalPos.Unsigned.of_lu lu))
           = DecimalPos.Unsigned.of_lu lu) by (destruct neg; lia).
  rewrite Habs. unfold PyStr.int_max_str_digits in *. lia.
Qed.

Lemma string_of_uint_digits d :
  all_chars PyStr.isdigit (NilEmpty.string_of_uint d) = true.
Proof. induction d; simpl; auto. Qed.

Lemma string_of_uint_length d :
  String.length (NilEmpty.string_of_uint d) = Decimal.nb_digits d.
Proof. induction d; simpl; auto. Qed.

Lemma to_uint_nonnil n : N.to_uint n ≠ Decimal.Nil.
Proof.
  destruct n as [|p]; [done|]. apply DecimalPos.Unsigned.to_uint_nonnil.
Qed.

Lemma of_N_uint n : PyStr.of_N n = NilEmpty.string_of_uint (N.to_uint n).
Proof.
  unfold PyStr.of_N, NilZero.string_of_uint.
  pose proof (to_uint_nonnil n). by destruct (N.to_uint n).
Qed.

Lemma of_N_digits n : all_chars PyStr.isdigit (PyStr.of_N n) = true.
Proof. rewrite of_N_uint. apply string_of_uint_digits. Qed.

Lemma of_N_length n : String.length (PyStr.of_N n) = decimal_length n.
Proof. rewrite of_N_uint. apply string_of_uint_length. Qed.

Lemma decimal_length_pos n : (0 < decimal_length n)%nat.
Proof.
  unfold decimal_length. pose proof (to_uint_nonnil n).
  destruct (N.to_uint n); simpl; [done|lia..].
Qed.

Lemma zeros_digits k : all_chars PyStr.isdigit (PyStr.zeros k) = true.
Proof. induction k; simpl; auto. Qed.

Lemma zeros_length k : String.length (PyStr.zeros k) = k.
Proof. induction k; simpl; auto. Qed.

Lemma zfill_digits w s :
  all_chars PyStr.isdigit s = true → all_chars PyStr.isdigit (PyStr.zfill w s) = true.
Proof.
  intros Hs. unfold PyStr.zfill. by rewrite all_chars_app, zeros_digits, Hs.
Qed.

(** Reading a printed numeral gives its value and its number of
    digits. *)
Lemma int_digits_print d : ∀ pd acc cnt lu,
  DecimalPos.Unsigned.of_lu lu = acc → d ≠ Decimal.Nil ∨ pd = true →
  PyStr.int_digits pd acc cnt (NilEmpty.string_of_uint d)
  = Some (DecimalPos.Unsigned.of_lu (Decimal.revapp d lu),
          (cnt + Decimal.nb_digits d)%nat).
Proof.
  induction d; intros pd acc cnt lu Hacc Hpd;
    [destruct Hpd as [Hd | ->]; [done|]; simpl; by rewrite Hacc, Nat.add_0_r|..];
    cbn [NilEmpty.string_of_uint PyStr.int_digits Decimal.revapp Decimal.nb_digits];
    match goal with
    | |- context [PyStr.isdigit ?c] =>
        change (PyStr.isdigit c) with true;
        let v := eval vm_compute in (PyStr.digit_val c) in
        change (PyStr.digit_val c) with v
    end; cbv iota;
    (erewrite IHd; [f_equal; f_equal; lia| |by right]);
    cbn [DecimalPos.Unsigned.of_lu]; lia.
Qed.

Lemma int_digits_of_N n pd cnt :
  PyStr.int_digits pd 0 cnt (PyStr.of_N n) = Some (n, (cnt + decimal_length n)%nat).
Proof.
  rewrite of_N_uint.
  rewrite (int_digits_print _ pd 0 cnt Decimal.Nil eq_refl)
    by (left; apply to_uint_nonnil).
  change (Decimal.revapp (N.to_uint n) Decimal.Nil) with (Decimal.rev (N.to_uint n)).
  rewrite <- DecimalPos.Unsigned.of_uint_alt.
  change (Pos.of_uint (N.to_uint n)) with (N.of_uint (N.to_uint n)).
  by rewrite DecimalN.Unsigned.of_to.
Qed.

Lemma int_digits_zeros k s pd cnt :
  PyStr.int_digits pd 0 cnt (PyStr.zeros (S k) +:+ s)
  = PyStr.int_digits true 0 (cnt + S k) s.
Proof.
  revert pd cnt. induction k as [|k IH]; intros pd cnt.
  - simpl PyStr.zeros. rewrite string_app_cons, string_app_nil_l. simpl.
    by rewrite Nat.add_1_r.
  - change (PyStr.zeros (S (S k))) with (String "0" (PyStr.zeros (S k))).
    rewrite string_app_cons.
    change (PyStr.int_digits pd 0 cnt (String "0" (PyStr.zeros (S k) +:+ s)))
      with (PyStr.int_digits true 0 (S cnt) (PyStr.zeros (S k) +:+ s)).
    rewrite IH. f_equal. lia.
Qed.

Lemma int_digits_zfill w n :
  PyStr.int_digits false 0 0 (PyStr.zfill w (PyStr.of_N n))
  = Some (n, max w (decimal_length n)).
Proof.
  unfold PyStr.zfill. rewrite of_N_length.
  destruct (w - decimal_length n)%nat as [|k] eqn:Hk.
  - simpl PyStr.zeros. rewrite string_app_nil_l, int_digits_of_N.
    f_equal. f_equal. lia.
  - rewrite int_digits_zeros, int_digits_of_N. f_equal. f_equal. lia.
Qed.

Lemma int_sign_digit t :
  t ≠ "" → all_chars PyStr.isdigit t = true →
  match t with
  | String "-" r => (true, r)
  | String "+" r => (false, r)
  | _ => (false, t)
  end = (false, t).
Proof.
  destruct t as [|c t]; [done|]. intros _. simpl.
  intros [Hc%isdigit_inv _]%andb_true_iff.
  repeat (apply elem_of_cons in Hc as [->|Hc]; [done|]).
  by apply elem_of_nil in Hc.
Qed.

Lemma isdigit_nonspace c : PyStr.isdigit c = true → nonspace c = true.
Proof.
  intros Hc%isdigit_inv.
  repeat (apply elem_of_cons in Hc as [->|Hc]; [done|]).
  by apply elem_of_nil in Hc.
Qed.

Lemma zfill_nonempty w n : PyStr.zfill w (PyStr.of_N n) ≠ "".
Proof.
  intros Hs. apply (f_equal String.length) in Hs.
  unfold PyStr.zfill in Hs. rewrite string_app_length, of_N_length in Hs.
  pose proof (decimal_length_pos n). simpl in Hs. lia.
Qed.

(** [int] reads a zero-padded number back. *)
Lemma int_zfill w n :
  (max w (decimal_length n) ≤ PyStr.int_max_str_digits)%nat →
  PyStr.int (PyStr.zfill w (PyStr.of_N n)) = Some (Z.of_N n).
Proof.
  intros Hlen. unfold PyStr.int.
  pose proof (zfill_digits w _ (of_N_digits n)) as Hd.
  rewrite strip_no_space by (eapply all_chars_impl; [apply isdigit_nonspace|done]).
  rewrite (int_sign_digit _ (zfill_nonempty w n) Hd).
  rewrite int_digits_zfill.
  by rewrite (proj2 (Nat.ltb_ge _ _) Hlen).
Qed.

(** [int] reads back what [format(z, "0Nd")] prints. *)
Lemma int_format_0d w z :
  (max w (decimal_length (Z.abs_N z)) ≤ PyStr.int_max_str_digits)%nat →
  PyStr.int (PyStr.format_0d w z) = Some z.
Proof.
  intros Hlen. unfold PyStr.format_0d. destruct (z <? 0)%Z eqn:Hz.
  - apply Z.ltb_lt in Hz. unfold PyStr.int.
    pose proof (zfill_digits (w - 1) _ (of_N_digits (Z.abs_N z))) as Hd.
    rewrite strip_no_space.
    2:{ simpl. eapply all_chars_impl; [apply isdigit_nonspace|done]. }
    rewrite int_digits_zfill.
    rewrite (proj2 (Nat.ltb_ge _ _)) by lia. f_equal. lia.
  - apply Z.ltb_ge in Hz. rewrite int_zfill.
    + f_equal. lia.
    + replace (Z.to_N z) with (Z.abs_N z) by lia. done.
Qed.

(** ** Time parsers *)

Lemma digit_pair c d :
  PyStr.isdigit c = true → PyStr.isdigit d = true →
  numeral (String c (String d "")) (10 * PyStr.digit_val c + PyStr.digit_val d).
Proof.
  intros Hc%isdigit_inv Hd%isdigit_inv. unfold numeral.
  repeat (apply elem_of_cons in Hc as [->|Hc];
    [repeat (apply elem_of_cons in Hd as [->|Hd];
       [split; [reflexivity|split; [simpl; lia|vm_compute; reflexivity]]|]);
     by apply elem_of_nil in Hd|]).
  by apply elem_of_nil in Hc.
Qed.

Lemma digit_single c :
  PyStr.isdigit c = true → numeral (String c "") (PyStr.digit_val c).
Proof.
  intros Hc%isdigit_inv. unfold numeral.
  repeat (apply elem_of_cons in Hc as [->|Hc];
    [split; [reflexivity|split; [simpl; lia|vm_compute; reflexivity]]|]).
  by apply elem_of_nil in Hc.
Qed.

Lemma in_range_digit lo hi c :
  (48 ≤ lo)%N → (hi ≤ 57)%N → in_range lo hi c = true →
  PyStr.isdigit c = true ∧ (lo - 48 ≤ PyStr.digit_val c ≤ hi - 48)%N.
Proof.
  unfold in_range, PyStr.isdigit, PyStr.digit_val. intros Hlo Hhi.
  intros [H1%N.leb_le H2%N.leb_le]%andb_true_iff. split; [|lia].
  apply andb_true_iff. split; apply N.leb_le; lia.
Qed.

Lemma digit_val_le c : PyStr.isdigit c = true → (PyStr.digit_val c ≤ 9)%N.
Proof.
  unfold PyStr.isdigit, PyStr.digit_val.
  intros [H1%N.leb_le H2%N.leb_le]%andb_true_iff. lia.
Qed.

Lemma match_H_single {A} c (k : N → string → option A) :
  match_H (String c "") k
  = if PyStr.isdigit c then k (PyStr.digit_val c) "" else None.
Proof. by destruct c as [[] [] [] [] [] [] [] []]. Qed.

Lemma match_H_pair {A} c d r (k : N → string → option A) :
  match_H (String c (String d r)) k
  = match (if Ascii.eqb c "2" && in_range 48 51 d
           then k (20 + PyStr.digit_val d)%N r else None) with
    | Some a => Some a
    | None =>
        match (if in_range 48 49 c && PyStr.isdigit d
               then k (10 * PyStr.digit_val c + PyStr.digit_val d)%N r
               else None) with
        | Some a => Some a
        | None => if PyStr.isdigit c
                  then k (PyStr.digit_val c) (String d r) else None
        end
    end.
Proof. by destruct c as [[] [] [] [] [] [] [] []]. Qed.

(** What a successful match of each piece of a format has read: the
    string is the matched text followed by the rest on which the
    continuation succeeds. *)
Lemma match_H_inv {A} s (k : N → string → option A) a :
  match_H s k = Some a →
  ∃ h p s', s = p +:+ s' ∧ k h s' = Some a ∧ (h < 24)%N ∧ numeral p h.
Proof.
  assert (Hone : ∀ c r, PyStr.isdigit c = true →
            k (PyStr.digit_val c) r = Some a →
            ∃ h p s', String c r = p +:+ s' ∧ k h s' = Some a
                      ∧ (h < 24)%N ∧ numeral p h).
  { intros c r Hc Hk. exists (PyStr.digit_val c), (String c ""), r.
    pose proof (digit_val_le c Hc).
    split; [done|]. split; [done|]. split; [lia|]. by apply digit_single. }
  destruct s as [|c [|d r]].
  - done.
  - rewrite match_H_single.
    destruct (PyStr.isdigit c) eqn:Hc; [|done]. by apply Hone.
  - rewrite match_H_pair.
    destruct (Ascii.eqb c "2" && in_range 48 51 d) eqn:H2.
    + apply andb_true_iff in H2 as [->%Ascii.eqb_eq Hd].
      apply in_range_digit in Hd as [Hd Hv]; [|lia..].
      destruct (k (20 + PyStr.digit_val d)%N r) as [a'|] eqn:Hk1.
      * intros [= ->]. exists (20 + PyStr.digit_val d)%N, (String "2" (String d "")), r.
        split; [done|]. split; [done|]. split; [lia|].
        by apply (digit_pair "2" d).
      * change (in_range 48 49 "2") with false. simpl. by apply Hone.
    + destruct (in_range 48 49 c && PyStr.isdigit d) eqn:Hcd.
      * apply andb_true_iff in Hcd as [Hc Hd].
        apply in_range_digit in Hc as [Hc Hv]; [|lia..].
        destruct (k _ r) as [a'|] eqn:Hk1.
        -- intros [= ->]. eexists _, (String c (String d "")), r.
           split; [done|]. split; [exact Hk1|].
           pose proof (digit_val_le d Hd).
           split; [lia|]. by apply digit_pair.
        -- rewrite Hc. by apply Hone.
      * destruct (PyStr.isdigit c) eqn:Hc; [|done]. by apply Hone.
Qed.

Lemma match_M_single {A} c (k : N → string → option A) :
  match_M (String c "") k
  = if PyStr.isdigit c then k (PyStr.digit_val c) "" else None.
Proof. reflexivity. Qed.

Lemma match_M_inv {A} s (k : N → string → option A) a :
  match_M s k = Some a →
  ∃ m p s', s = p +:+ s' ∧ k m s' = Some a ∧ (m < 60)%N ∧ numeral p m.
Proof.
  assert (Hone : ∀ c r, PyStr.isdigit c = true →
            k (PyStr.digit_val c) r = Some a →
            ∃ h p s', String c r = p +:+ s' ∧ k h s' = Some a
                      ∧ (h < 60)%N ∧ numeral p h).
  { intros c r Hc Hk. exists (PyStr.digit_val c), (String c ""), r.
    pose proof (digit_val_le c Hc).
    split; [done|]. split; [done|]. split; [lia|]. by apply digit_single. }
  unfold match_M. destruct s as [|c [|d r]].
  - done.
  - destruct (PyStr.isdigit c) eqn:Hc; [|done]. by apply Hone.
  - destruct (in_range 48 53 c && PyStr.isdigit d) eqn:Hcd.
    + apply andb_true_iff in Hcd as [Hc Hd].
      apply in_range_digit in Hc as [Hc Hv]; [|lia..].
      destruct (k _ r) as [a'|] eqn:Hk1.
      * intros [= ->]. eexists _, (String c (String d "")), r.
        split; [done|]. split; [exact Hk1|].
        pose proof (digit_val_le d Hd).
        split; [lia|]. by apply digit_pair.
      * rewrite Hc. by apply Hone.
    + destruct (PyStr.isdigit c) eqn:Hc; [|done]. by apply Hone.
Qed.

Lemma match_I_cons {A} c r (k : N → string → option A) :
  match_I (String c r) k
  = match (match r with
           | String d r' => if Ascii.eqb c "1" && in_range 48 50 d
                            then k (10 + PyStr.digit_val d)%N r' else None
           | EmptyString => None
           end) with
    | Some a => Some a
    | None =>
        match (match r with
               | String d r' => if Ascii.eqb c "0" && in_range 49 57 d
                                then k (PyStr.digit_val d) r' else None
               | EmptyString => None
               end) with
        | Some a => Some a
        | None => if in_range 49 57 c then k (PyStr.digit_val c) r else None
        end
    end.
Proof. by destruct c as [[] [] [] [] [] [] [] []], r. Qed.

Lemma match_I_inv {A} s (k : N → string → option A) a :
  match_I s k = Some a →
  ∃ i p s', s = p +:+ s' ∧ k i s' = Some a ∧ (1 ≤ i ≤ 12)%N.
Proof.
  destruct s as [|c r]; [done|]. rewrite match_I_cons.
  assert (Hone : (if in_range 49 57 c then k (PyStr.digit_val c) r else None)
                 = Some a →
            ∃ i p s', String c r = p +:+ s' ∧ k i s' = Some a ∧ (1 ≤ i ≤ 12)%N).
  { destruct (in_range 49 57 c) eqn:Hc; [|done]. intros Hk.
    apply in_range_digit in Hc as [Hc Hv]; [|lia..].
    exists (PyStr.digit_val c), (String c ""), r.
    split; [done|]. split; [done|]. lia. }
  destruct r as [|d r']; [done|].
  destruct (Ascii.eqb c "1" && in_range 48 50 d) eqn:H1.
  - apply andb_true_iff in H1 as [->%Ascii.eqb_eq Hd].
    apply in_range_digit in Hd as [Hd Hv]; [|lia..].
    destruct (k (10 + PyStr.digit_val d)%N r') as [a'|] eqn:Hk1.
    + intros [= ->]. exists (10 + PyStr.digit_val d)%N, (String "1" (String d "")), r'.
      split; [done|]. split; [done|]. lia.
    + change (Ascii.eqb "1" "0") with false. simpl andb. cbv iota. exact Hone.
  - destruct (Ascii.eqb c "0" && in_range 49 57 d) eqn:H0.
    + apply andb_true_iff in H0 as [->%Ascii.eqb_eq Hd].
      apply in_range_digit in Hd as [Hd Hv]; [|lia..].
      destruct (k (PyStr.digit_val d) r') as [a'|] eqn:Hk1.
      * intros [= ->]. exists (PyStr.digit_val d), (String "0" (String d "")), r'.
        split; [done|]. split; [done|]. lia.
      * exact Hone.
    + exact Hone.
Qed.

Lemma match_char_inv {A} ch s (k : string → option A) a :
  match_char ch s k = Some a → ∃ s', s = String ch s' ∧ k s' = Some a.
Proof.
  destruct s as [|c r]; [done|]. simpl.
  destruct (Ascii.eqb c ch) eqn:Hc; [|done].
  apply Ascii.eqb_eq in Hc as ->. by exists r.
Qed.

Lemma match_spaces_star_inv {A} s (k : string → option A) a :
  match_spaces_star s k = Some a → ∃ p s', s = p +:+ s' ∧ k s' = Some a.
Proof.
  induction s as [|c r IH]; simpl.
  - intros Hk. by exists "", "".
  - destruct (PyStr.isspace c).
    + destruct (match_spaces_star r k) as [a'|] eqn:Hr.
      * intros [= ->]. destruct (IH eq_refl) as (p & s' & -> & Hk).
        by exists (String c p), s'.
      * intros Hk. by exists "", (String c r).
    + intros Hk. by exists "", (String c r).
Qed.

Lemma match_spaces_inv {A} s (k : string → option A) a :
  match_spaces s k = Some a → ∃ p s', s = p +:+ s' ∧ k s' = Some a.
Proof.
  destruct s as [|c r]; [done|]. simpl.
  destruct (PyStr.isspace c); [|done].
  intros (p & s' & -> & Hk)%match_spaces_star_inv. by exists (String c p), s'.
Qed.

Lemma lower_app a b : PyStr.lower (a +:+ b) = PyStr.lower a +:+ PyStr.lower b.
Proof.
  induction a as [|c a IH]; [done|].
  rewrite string_app_cons. simpl. by rewrite IH.
Qed.

Lemma contains_app_r pat x t :
  PyStr.contains pat t = true → PyStr.contains pat (x +:+ t) = true.
Proof.
  intros Ht. induction x as [|c x IH]; [done|].
  rewrite string_app_cons. simpl. rewrite IH. apply orb_true_r.
Qed.

Lemma has_am_pm_app x t : has_am_pm t = true → has_am_pm (x +:+ t) = true.
Proof.
  unfold has_am_pm. rewrite lower_app.
  intros [Ht|Ht]%orb_true_iff; rewrite (contains_app_r _ _ _ Ht);
    [done|apply orb_true_r].
Qed.

Lemma match_p_inv {A} s (k : bool → string → option A) a :
  match_p s k = Some a →
  ∃ x y pm s', s = String x (String y s') ∧ k pm s' = Some a
    ∧ has_am_pm (String x (String y "")) = true.
Proof.
  destruct s as [|x [|y r]]; [done..|]. simpl.
  destruct (Ascii.eqb (PyStr.lower_char y) "m") eqn:Hy; [|done].
  apply Ascii.eqb_eq in Hy.
  destruct (Ascii.eqb (PyStr.lower_char x) "a") eqn:Hx.
  { apply Ascii.eqb_eq in Hx. intros Hk. exists x, y, false, r.
    split; [done|]. split; [done|]. unfold has_am_pm. simpl PyStr.lower.
    by rewrite Hx, Hy. }
  destruct (Ascii.eqb (PyStr.lower_char x) "p") eqn:Hp; [|done].
  apply Ascii.eqb_eq in Hp. intros Hk. exists x, y, true, r.
  split; [done|]. split; [done|]. unfold has_am_pm. simpl PyStr.lower.
  by rewrite Hp, Hy.
Qed.

Lemma hour24_lt i pm : (1 ≤ i ≤ 12)%N → (hour24 i pm < 24)%N.
Proof.
  unfold hour24. intros Hi.
  destruct pm; destruct (N.eqb_spec i 12); lia.
Qed.

Lemma check_end_inv h m rest hm :
  check_end h m rest = inr hm → rest = "" ∧ hm = (h, m).
Proof. destruct rest; [|done]. by intros [= <-]. Qed.

(** What the three formats accept. *)
Lemma strptime_IMp_inv s hm :
  strptime_IMp s = inr hm →
  (hm.1 < 24)%N ∧ (hm.2 < 60)%N ∧ has_am_pm s = true.
Proof.
  unfold strptime_IMp.
  destruct (match_I _ _) as [[[h m] rest]|] eqn:Hrun; [|done].
  intros [-> ->]%check_end_inv.
  apply match_I_inv in Hrun as (i & p1 & s1 & -> & Hrun & Hi).
  apply match_char_inv in Hrun as (s2 & -> & Hrun).
  apply match_M_inv in Hrun as (m' & p2 & s3 & -> & Hrun & Hm & _).
  apply match_spaces_inv in Hrun as (p3 & s4 & -> & Hrun).
  apply match_p_inv in Hrun as (x & y & pm & s5 & -> & [= <- <- ->] & Hap).
  simpl. split; [by apply hour24_lt|]. split; [done|].
  by apply has_am_pm_app, (has_am_pm_app (String ":" "")), has_am_pm_app,
    has_am_pm_app.
Qed.

Lemma strptime_Ip_inv s hm :
  strptime_Ip s = inr hm →
  (hm.1 < 24)%N ∧ (hm.2 < 60)%N ∧ has_am_pm s = true.
Proof.
  unfold strptime_Ip.
  destruct (match_I _ _) as [[[h m] rest]|] eqn:Hrun; [|done].
  intros [-> ->]%check_end_inv.
  apply match_I_inv in Hrun as (i & p1 & s1 & -> & Hrun & Hi).
  apply match_spaces_inv in Hrun as (p3 & s4 & -> & Hrun).
  apply match_p_inv in Hrun as (x & y & pm & s5 & -> & [= <- <- ->] & Hap).
  simpl. split; [by apply hour24_lt|]. split; [done|].
  by apply has_am_pm_app, has_am_pm_app.
Qed.

Lemma strptime_HM_inv s hm :
  strptime_HM s = inr hm →
  (hm.1 < 24)%N ∧ (hm.2 < 60)%N
  ∧ ∃ ph pm, s = ph +:+ String ":" pm ∧ numeral ph hm.1 ∧ numeral pm hm.2.
Proof.
  unfold strptime_HM.
  destruct (match_H _ _) as [[[h m] rest]|] eqn:Hrun; [|done].
  intros [-> ->]%check_end_inv.
  apply match_H_inv in Hrun as (h' & p1 & s1 & -> & Hrun & Hh & Hn1).
  apply match_char_inv in Hrun as (s2 & -> & Hrun).
  apply match_M_inv in Hrun as (m' & p2 & s3 & -> & [= -> -> ->] & Hm & Hn2).
  simpl. split; [done|]. split; [done|]. exists p1, p2.
  by rewrite string_app_nil_r.
Qed.

Lemma strptime_HM_raises s : raises_only_ValueError (strptime_HM s).
Proof.
  unfold strptime_HM. destruct (match_H _ _) as [[[h m] rest]|]; [|done].
  by destruct rest.
Qed.

Lemma prefix_cons c p d s :
  String.prefix (String c p) (String d s)
  = if Ascii.eqb c d then String.prefix p s else false.
Proof.
  simpl. destruct (ascii_dec c d) as [->|Hne].
  - by rewrite Ascii.eqb_refl.
  - apply Ascii.eqb_neq in Hne. by rewrite Hne.
Qed.

(** A text in which the first letter of [pat] does not occur, in
    either case, does not hold [pat]. *)
Lemma contains_first c pr s :
  all_chars (λ x, negb (Ascii.eqb (PyStr.lower_char x) c)) s = true →
  PyStr.contains (String c pr) (PyStr.lower s) = false.
Proof.
  induction s as [|d s IH]; [done|]. simpl all_chars.
  intros [Hd Hs]%andb_true_iff. apply negb_true_iff in Hd.
  simpl PyStr.lower. cbn [PyStr.contains]. rewrite prefix_cons.
  rewrite Ascii.eqb_sym, Hd. simpl. auto.
Qed.

Lemma time_char_no_am_pm s :
  all_chars time_char s = true → has_am_pm (String ":" s) = false
  ∧ ∀ x, all_chars time_char x = true → has_am_pm (x +:+ String ":" s) = false.
Proof.
  intros Hs.
  assert (Hgen : ∀ u, all_chars (λ c, time_char c || Ascii.eqb c ":") u = true →
            has_am_pm u = false).
  { intros u Hu. unfold has_am_pm.
    rewrite !contains_first; [done|..];
      (eapply all_chars_impl; [|exact Hu]); intros c; unfold time_char;
      destruct (Ascii.eqb c ":") eqn:Hc;
      try (apply Ascii.eqb_eq in Hc as ->; done);
      rewrite orb_false_r; intros Hx; repeat (apply andb_true_iff in Hx as [Hx ?]);
      done. }
  assert (Hs' : all_chars (λ c, time_char c || Ascii.eqb c ":") s = true).
  { eapply all_chars_impl; [|exact Hs]. by intros c ->. }
  split.
  - apply Hgen. simpl. by rewrite Hs'.
  - intros x Hx. apply Hgen. rewrite all_chars_app. simpl. rewrite Hs'.
    rewrite andb_true_r. eapply all_chars_impl; [|exact Hx]. by intros c ->.
Qed.

Lemma time_char_is_not s :
  all_chars time_char s = true → all_chars (is_not ":") s = true.
Proof.
  apply all_chars_impl. unfold time_char. intros c Hc.
  by repeat (apply andb_true_iff in Hc as [Hc ?]).
Qed.

(** The 24-hour attempt of [norm_time] on an hour and a minute written
    with digits and signs only. *)
Lemma norm_time_24h_parts a b h m :
  all_chars time_char a = true → all_chars time_char b = true →
  PyStr.int a = Some h → (0 ≤ h ≤ 23)%Z → PyStr.int b = Some m →
  norm_time_24h (a +:+ String ":" b)
  = inr (Some (PyStr.format_0d 2 h +:+ ":" +:+ PyStr.format_0d 2 m)).
Proof.
  intros Ha Hb Hh Hrange Hm. unfold norm_time_24h.
  rewrite split_app by by apply time_char_is_not.
  rewrite split_no_sep by by apply time_char_is_not.
  rewrite Hh.
  destruct (time_char_no_am_pm b Hb) as [_ Hno]. specialize (Hno a Ha).
  unfold has_am_pm in Hno. rewrite Hno.
  rewrite (proj2 (Z.leb_le 0 h)), (proj2 (Z.leb_le h 23)) by lia. simpl.
  by rewrite Hm.
Qed.

Lemma isdigit_time_char c : PyStr.isdigit c = true → time_char c = true.
Proof.
  intros Hc%isdigit_inv.
  repeat (apply elem_of_cons in Hc as [->|Hc]; [done|]).
  by apply elem_of_nil in Hc.
Qed.

Lemma format_0d_N w n :
  PyStr.format_0d w (Z.of_N n) = PyStr.zfill w (PyStr.of_N n).
Proof.
  unfold PyStr.format_0d.
  rewrite (proj2 (Z.ltb_ge _ _)) by lia. by rewrite N2Z.id.
Qed.

Lemma strftime_HM_format h m :
  strftime_HM (h, m)
  = PyStr.format_0d 2 (Z.of_N h) +:+ ":" +:+ PyStr.format_0d 2 (Z.of_N m).
Proof. unfold strftime_HM. by rewrite !format_0d_N. Qed.

Lemma norm_time_24h_HM s hm :
  strptime_HM s = inr hm → norm_time_24h s = inr (Some (strftime_HM hm)).
Proof.
  intros (Hh & Hm & ph & pm & -> & (Hd1 & _ & Hi1) & (Hd2 & _ & Hi2))%strptime_HM_inv.
  destruct hm as [h m]. simpl in *. rewrite strftime_HM_format.
  apply norm_time_24h_parts; try done; try lia;
    (eapply all_chars_impl; [apply isdigit_time_char|done]).
Qed.

Lemma norm_time_24h_am_pm s :
  has_am_pm s = true → norm_time_24h s = inl ValueError.
Proof.
  unfold has_am_pm, norm_time_24h. intros ->.
  destruct (PyStr.split ":" s) as [|hh [|mm [|]]]; try done.
  by destruct (PyStr.int hh).
Qed.

Lemma raises_ValueError {A} (r : result A) e :
  raises_only_ValueError r → r = inl e → e = ValueError.
Proof. intros Hr ->. by destruct e. Qed.

(** [parse_time] raises nothing. *)
Lemma parse_time_returns t : ∃ r, parse_time t = inr r.
Proof.
  destruct t as [t|]; [|by eexists]. unfold parse_time.
  destruct (_ || _); [by eexists|]. simpl.
  pose proof (strptime_IMp_raises (PyStr.strip t)) as H1.
  pose proof (strptime_HM_raises (PyStr.strip t)) as H2.
  pose proof (strptime_Ip_raises (PyStr.strip t)) as H3.
  destruct (strptime_IMp _) as [[]|]; try done; try by eexists.
  destruct (strptime_HM _) as [[]|]; try done; try by eexists.
  destruct (strptime_Ip _) as [[]|]; try done; by eexists.
Qed.

(** A time that [parse_time] returns comes from one of the three
    formats. *)
Lemma parse_time_Some t r :
  parse_time t = inr (Some r) →
  ∃ s hm, t = Some s ∧ r = strftime_HM hm
    ∧ (negb (PyStr.truthy (PyStr.strip s))
       || in_list (PyStr.lower (PyStr.strip s)) ["nan"; "none"]) = false
    ∧ (strptime_IMp (PyStr.strip s) = inr hm
       ∨ (strptime_IMp (PyStr.strip s) = inl ValueError
          ∧ strptime_HM (PyStr.strip s) = inr hm)
       ∨ (strptime_IMp (PyStr.strip s) = inl ValueError
          ∧ strptime_Ip (PyStr.strip s) = inr hm)).
Proof.
  destruct t as [t|]; [|done]. unfold parse_time.
  destruct (_ || _) eqn:Hblank; [done|]. simpl.
  pose proof (strptime_IMp_raises (PyStr.strip t)) as H1.
  pose proof (strptime_HM_raises (PyStr.strip t)) as H2.
  pose proof (strptime_Ip_raises (PyStr.strip t)) as H3.
  destruct (strptime_IMp _) as [[]|hm1] eqn:E1; try done.
  - destruct (strptime_HM _) as [[]|hm2] eqn:E2; try done.
    + destruct (strptime_Ip _) as [[]|hm3] eqn:E3; try done.
      intros [= <-]. exists t, hm3. naive_solver.
    + intros [= <-]. exists t, hm2. naive_solver.
  - intros [= <-]. exists t, hm1. naive_solver.
Qed.

(** X16: [parse_time] never raises, and what it returns is [None] or a
    time of day written as two digits, a colon and two digits, with
    the hour below 24 and the minute below 60. *)
Theorem parse_time_clock_text t :
  ∃ r, parse_time t = inr r ∧ ∀ x, r = Some x → clock_text x.
Proof.
  destruct (parse_time_returns t) as [r Hr]. exists r. split; [done|].
  intros x ->.
  apply parse_time_Some in Hr as (s & [h m] & _ & -> & _ & Hfmt).
  exists h, m.
  destruct Hfmt as [H|[[_ H]|[_ H]]];
    [apply strptime_IMp_inv in H|apply strptime_HM_inv in H
    |apply strptime_Ip_inv in H]; simpl in H; naive_solver.
Qed.

(** X17: where [parse_time] finds a time, [norm_time] returns the same
    text. *)
Theorem parse_time_norm_time t r :
  parse_time t = inr (Some r) → norm_time t = inr r.
Proof.
  intros (s & hm & -> & -> & Hblank & Hfmt)%parse_time_Some.
  unfold norm_time. rewrite Hblank.
  destruct Hfmt as [H|[[H1 H]|[H1 H]]].
  - destruct (strptime_IMp_inv _ _ H) as (_ & _ & Hap).
    rewrite (norm_time_24h_am_pm _ Hap). simpl. by rewrite H.
  - by rewrite (norm_time_24h_HM _ _ H).
  - destruct (strptime_Ip_inv _ _ H) as (_ & _ & Hap).
    rewrite (norm_time_24h_am_pm _ Hap). simpl. by rewrite H1, H.
Qed.

Lemma parse_time_norm_time_witness :
  parse_time (Some " 7:05 pm ") = inr (Some "19:05")
  ∧ norm_time (Some " 7:05 pm ") = inr "19:05".
Proof.
  assert (H : parse_time (Some " 7:05 pm ") = inr (Some "19:05"))
    by (vm_compute; reflexivity).
  split; [exact H|]. exact (parse_time_norm_time _ _ H).
Defined.

(** ** [norm_time] on its own results *)

Lemma N_forall_lt (P : N → bool) (k : nat) :
  forallb P (map N.of_nat (seq 0 k)) = true →
  ∀ n, (n < N.of_nat k)%N → P n = true.
Proof.
  intros Hall n Hn. rewrite forallb_forall in Hall. apply Hall.
  apply in_map_iff. exists (N.to_nat n). split; [lia|].
  apply in_seq. lia.
Qed.

Lemma decimal_length_small n : (n < 100)%N → (decimal_length n ≤ 2)%nat.
Proof.
  intros Hn. apply Nat.leb_le.
  apply (N_forall_lt (λ n, decimal_length n <=? 2)%nat 100); [|done].
  vm_compute. reflexivity.
Qed.

Lemma format_0d_time_char w z : all_chars time_char (PyStr.format_0d w z) = true.
Proof.
  unfold PyStr.format_0d. destruct (z <? 0)%Z; simpl;
    (eapply all_chars_impl; [apply isdigit_time_char|]);
    apply zfill_digits, of_N_digits.
Qed.

Lemma time_char_nonspace s :
  all_chars time_char s = true → all_chars nonspace s = true.
Proof.
  apply all_chars_impl. unfold time_char. intros c Hc.
  by repeat (apply andb_true_iff in Hc as [Hc ?]).
Qed.

(** A text that starts with a digit is not one of the words for a
    missing value. *)
Lemma digit_not_missing c x :
  PyStr.isdigit c = true →
  negb (PyStr.truthy (String c x))
  || in_list (PyStr.lower (String c x)) ["nan"; "none"] = false.
Proof.
  intros Hc%isdigit_inv.
  repeat (apply elem_of_cons in Hc as [->|Hc]; [done|]).
  by apply elem_of_nil in Hc.
Qed.

(** A zero-padded hour and minute are returned as they are. *)
Lemma norm_time_formatted h m :
  (0 ≤ h ≤ 23)%Z →
  (decimal_length (Z.abs_N m) ≤ PyStr.int_max_str_digits)%nat →
  norm_time (Some (PyStr.format_0d 2 h +:+ ":" +:+ PyStr.format_0d 2 m))
  = inr (PyStr.format_0d 2 h +:+ ":" +:+ PyStr.format_0d 2 m).
Proof.
  intros Hh Hm. unfold norm_time.
  set (a := PyStr.format_0d 2 h). set (b := PyStr.format_0d 2 m).
  assert (Ha : all_chars time_char a = true) by apply format_0d_time_char.
  assert (Hb : all_chars time_char b = true) by apply format_0d_time_char.
  rewrite strip_no_space.
  2:{ rewrite all_chars_app. simpl.
      by rewrite !time_char_nonspace. }
  assert (Hhead : ∃ c x, a +:+ ":" +:+ b = String c x ∧ PyStr.isdigit c = true).
  { unfold a. replace h with (Z.of_N (Z.to_N h)) by lia.
    rewrite format_0d_N.
    pose proof (zfill_nonempty 2 (Z.to_N h)) as Hne.
    pose proof (zfill_digits 2 _ (of_N_digits (Z.to_N h))) as Hd.
    destruct (PyStr.zfill 2 _) as [|c x]; [done|].
    exists c, (x +:+ ":" +:+ b). split; [done|].
    simpl in Hd. by apply andb_true_iff in Hd as [? _]. }
  destruct Hhead as (c & x & Heq & Hc).
  assert (Hnb : negb (PyStr.truthy (a +:+ ":" +:+ b))
                || in_list (PyStr.lower (a +:+ ":" +:+ b)) ["nan"; "none"] = false)
    by (rewrite Heq; by apply digit_not_missing).
  rewrite Hnb.
  change (a +:+ ":" +:+ b) with (a +:+ String ":" b).
  rewrite (norm_time_24h_parts a b h m); try done.
  - apply int_format_0d.
    assert (decimal_length (Z.abs_N h) ≤ 2)%nat
      by (apply decimal_length_small; lia).
    unfold PyStr.int_max_str_digits. lia.
  - apply int_format_0d. unfold PyStr.int_max_str_digits in *. lia.
Qed.

Lemma norm_time_clock hm :
  (hm.1 < 24)%N → (hm.2 < 60)%N →
  norm_time (Some (strftime_HM hm)) = inr (strftime_HM hm).
Proof.
  destruct hm as [h m]. simpl. intros Hh Hm. rewrite strftime_HM_format.
  apply norm_time_formatted; [lia|].
  assert (decimal_length (Z.abs_N (Z.of_N m)) ≤ 2)%nat
    by (apply decimal_length_small; lia).
  unfold PyStr.int_max_str_digits. lia.
Qed.

Lemma norm_time_24h_Some s r :
  norm_time_24h s = inr (Some r) →
  ∃ h m, (0 ≤ h ≤ 23)%Z
    ∧ (decimal_length (Z.abs_N m) ≤ PyStr.int_max_str_digits)%nat
    ∧ r = PyStr.format_0d 2 h +:+ ":" +:+ PyStr.format_0d 2 m.
Proof.
  unfold norm_time_24h.
  destruct (PyStr.split ":" s) as [|hh [|mm [|]]]; try done.
  destruct (PyStr.int hh) as [h|]; [|done].
  destruct (_ || _); [done|].
  destruct ((0 <=? h)%Z && (h <=? 23)%Z) eqn:Hh; [|done].
  destruct (PyStr.int mm) as [m|] eqn:Hm; [|done].
  intros [= <-]. exists h, m.
  apply andb_true_iff in Hh as [?%Z.leb_le ?%Z.leb_le].
  split; [lia|]. split; [|done]. by eapply int_decimal_length.
Qed.

Lemma norm_time_12h_cases s r :
  norm_time_12h [strptime_IMp; strptime_Ip] s = inr r →
  r = s ∨ ∃ hm, (hm.1 < 24)%N ∧ (hm.2 < 60)%N ∧ r = strftime_HM hm.
Proof.
  simpl.
  destruct (strptime_IMp s) as [e1|hm1] eqn:H1.
  - destruct e1; try done.
    destruct (strptime_Ip s) as [e2|hm2] eqn:H2.
    + destruct e2; try done. intros [= <-]. by left.
    + intros [= <-]. right. exists hm2.
      apply strptime_Ip_inv in H2. naive_solver.
  - intros [= <-]. right. exists hm1.
    apply strptime_IMp_inv in H1. naive_solver.
Qed.

Lemma norm_time_strip t :
  norm_time (Some (PyStr.strip t)) = norm_time (Some t).
Proof. unfold norm_time. by rewrite strip_idem. Qed.

(** X1: [norm_time] always returns, and what it returns is a fixed point:
    normalising a normalised time changes nothing. *)
Theorem norm_time_fixed t :
  ∃ r, norm_time t = inr r ∧ norm_time (Some r) = inr r.
Proof.
  destruct (norm_time_never_raises t) as [r Hr]. exists r. split; [done|].
  destruct t as [t|]; [|by injection Hr as <-].
  pose proof Hr as Hr'. unfold norm_time in Hr.
  destruct (_ || _); [by injection Hr as <-|].
  assert (H12 : norm_time_12h [strptime_IMp; strptime_Ip] (PyStr.strip t) = inr r →
                norm_time (Some r) = inr r).
  { intros [->|(hm & Hh & Hm & ->)]%norm_time_12h_cases.
    - by rewrite norm_time_strip.
    - by apply norm_time_clock. }
  destruct (norm_time_24h (PyStr.strip t)) as [e|[r24|]] eqn:H24.
  - destruct e; by apply H12.
  - injection Hr as <-.
    apply norm_time_24h_Some in H24 as (h & m & Hh & Hm & ->).
    by apply norm_time_formatted.
  - by apply H12.
Qed.

(** ** Day parser *)

Lemma elem_of_all_ascii c : In c all_ascii.
Proof.
  unfold all_ascii. apply in_map_iff. exists (nat_of_ascii c).
  split; [apply ascii_nat_embedding|].
  apply in_seq. pose proof (nat_ascii_bounded c). lia.
Qed.

Lemma forall_ascii (P : ascii → bool) :
  forallb P all_ascii = true → ∀ c, P c = true.
Proof.
  intros Hall c. rewrite forallb_forall in Hall. apply Hall, elem_of_all_ascii.
Qed.

Lemma title_char_nonempty c : title_char c ≠ [].
Proof. unfold title_char. by repeat case_match. Qed.

Lemma code_inj c d : PyStr.code c = PyStr.code d → c = d.
Proof.
  unfold PyStr.code. intros Hcd.
  by rewrite <- (ascii_N_embedding c), <- (ascii_N_embedding d), Hcd.
Qed.

(** The capital letters that start a day code: a character has such a
    letter as its title case exactly when it is the letter in either
    case, and it is then a cased character. *)
Lemma title_char_capital c A :
  A ∈ ["M"; "T"; "W"; "F"; "S"]%char →
  (title_char c = [PyStr.code A] ↔ PyStr.lower_char c = PyStr.lower_char A)
  ∧ (PyStr.lower_char c = PyStr.lower_char A → cased c = true).
Proof.
  intros HA.
  assert (Hchk : forallb (λ A, forallb (λ c,
      Bool.eqb (bool_decide (title_char c = [PyStr.code A]))
               (Ascii.eqb (PyStr.lower_char c) (PyStr.lower_char A))
      && (negb (Ascii.eqb (PyStr.lower_char c) (PyStr.lower_char A)) || cased c))
      all_ascii) ["M"; "T"; "W"; "F"; "S"]%char = true)
    by (vm_compute; reflexivity).
  rewrite forallb_forall in Hchk.
  specialize (Hchk A (proj1 (list_elem_of_In _ _) HA)).
  pose proof (forall_ascii _ Hchk c) as [H1 H2]%andb_true_iff.
  apply Bool.eqb_prop in H1. split.
  - rewrite <- (bool_decide_spec (title_char c = _)), H1.
    rewrite <- Ascii.eqb_eq. apply Is_true_true.
  - intros Hl%Ascii.eqb_eq. rewrite Hl in H2. exact H2.
Qed.

Lemma title_pair c1 c2 A b :
  A ∈ ["M"; "T"; "W"; "F"; "S"]%char →
  title (String c1 (String c2 "")) = [PyStr.code A; PyStr.code b]
  ↔ PyStr.lower_char c1 = PyStr.lower_char A ∧ PyStr.lower_char c2 = b.
Proof.
  intros HA. destruct (title_char_capital c1 A HA) as [Ht Hc].
  unfold title. cbn [title_from]. rewrite app_nil_r. split.
  - intros Heq.
    pose proof (title_char_nonempty c1) as Hne1.
    pose proof (title_char_nonempty c2) as Hne2.
    destruct (title_char c1) as [|x [|y l]] eqn:H1; [done| |].
    + injection Heq as -> Heq.
      pose proof (proj1 Ht eq_refl) as Hl. rewrite (Hc Hl) in Heq.
      injection Heq as Heq%code_inj. done.
    + exfalso. injection Heq as _ _ Heq.
      apply app_eq_nil in Heq as [_ Heq]. by destruct (cased c1).
  - intros [Hl1 Hl2]. rewrite (proj2 Ht Hl1), (Hc Hl1), Hl2. done.
Qed.

(** A text of at most two characters has the title case of a day code
    exactly when it is the day code up to the case of its letters. *)
Lemma title_day_pair c1 c2 d :
  d ∈ DAY_ORDER →
  title (String c1 (String c2 "")) = codes d
  ↔ PyStr.lower (String c1 (String c2 "")) = PyStr.lower d.
Proof.
  unfold DAY_ORDER. intros Hd.
  repeat (apply elem_of_cons in Hd as [->|Hd];
    [match goal with
     | |- _ ↔ _ = PyStr.lower (String ?A (String ?b "")) =>
         change (codes (String A (String b ""))) with [PyStr.code A; PyStr.code b];
         rewrite (title_pair c1 c2 A b) by set_solver;
         let la := eval vm_compute in (PyStr.lower_char A) in
         change (PyStr.lower (String A (String b ""))) with (String la (String b ""));
         change (PyStr.lower_char A) with la
     end; simpl PyStr.lower; split; [by intros [-> ->]|by intros [= -> ->]]|]).
  by apply elem_of_nil in Hd.
Qed.

Lemma title_day_single c d :
  d ∈ DAY_ORDER → title (String c "") ≠ codes d.
Proof.
  intros Hd.
  assert (Hchk : ∀ c,
    forallb (λ d, negb (bool_decide (title (String c "") = codes d)))
      DAY_ORDER = true).
  { apply (forall_ascii (λ c, forallb _ DAY_ORDER)). vm_compute. reflexivity. }
  specialize (Hchk c). rewrite forallb_forall in Hchk.
  specialize (Hchk d (proj1 (list_elem_of_In _ _) Hd)).
  apply negb_true_iff, bool_decide_eq_false in Hchk. exact Hchk.
Qed.

Lemma lower_length s : String.length (PyStr.lower s) = String.length s.
Proof. induction s as [|c s IH]; simpl; auto. Qed.

Lemma DAY_ORDER_length d : d ∈ DAY_ORDER → String.length d = 2%nat.
Proof.
  unfold DAY_ORDER. intros Hd.
  repeat (apply elem_of_cons in Hd as [->|Hd]; [done|]).
  by apply elem_of_nil in Hd.
Qed.

Lemma title_day p d :
  d ∈ DAY_ORDER →
  title (str_take 2 p) = codes d
  ↔ PyStr.lower (str_take 2 p) = PyStr.lower d.
Proof.
  intros Hd. pose proof (DAY_ORDER_length d Hd) as Hlen.
  destruct p as [|c1 [|c2 r]]; simpl str_take.
  - split.
    + destruct d; [done|]. discriminate.
    + intros Hl. apply (f_equal String.length) in Hl.
      rewrite !lower_length, Hlen in Hl. done.
  - split.
    + intros Ht. by apply title_day_single in Ht.
    + intros Hl. apply (f_equal String.length) in Hl.
      rewrite !lower_length, Hlen in Hl. done.
  - by apply title_day_pair.
Qed.

Lemma rstrip_decomp u :
  ∃ b, u = PyStr.rstrip u +:+ b ∧ all_chars PyStr.isspace b = true.
Proof.
  unfold PyStr.rstrip.
  destruct (lstrip_decomp (String.rev u)) as (a & Ha & Hsp).
  exists (String.rev a). split; [|by rewrite all_chars_rev].
  apply (f_equal String.rev) in Ha. rewrite string_rev_involutive in Ha.
  rewrite Ha at 1. clear.
  generalize (PyStr.lstrip (String.rev u)) as v. intros v.
  induction a as [|c a IH]; simpl.
  - by rewrite string_app_nil_l, string_app_nil_r.
  - rewrite string_app_cons, !rev_cons, IH, string_app_assoc. done.
Qed.

(** A string is its stripped part between two runs of white space. *)
Lemma strip_decomp s :
  ∃ a b, s = a +:+ PyStr.strip s +:+ b
    ∧ all_chars PyStr.isspace a = true ∧ all_chars PyStr.isspace b = true.
Proof.
  destruct (lstrip_decomp s) as (a & Ha & Hsa).
  destruct (rstrip_decomp (PyStr.lstrip s)) as (b & Hb & Hsb).
  exists a, b. unfold PyStr.strip. by rewrite <- Hb.
Qed.

Lemma lower_str_take n s :
  PyStr.lower (str_take n s) = str_take n (PyStr.lower s).
Proof.
  revert s. induction n as [|n IH]; intros [|c s]; simpl; try done.
  by rewrite IH.
Qed.

Lemma all_chars_lower P s :
  all_chars P (PyStr.lower s) = all_chars (λ c, P (PyStr.lower_char c)) s.
Proof. induction s as [|c s IH]; simpl; [done|]. by rewrite IH. Qed.

Lemma isspace_is_not_comma c : PyStr.isspace c = true → is_not "," c = true.
Proof.
  intros Hs.
  pose proof (forall_ascii (λ c, negb (PyStr.isspace c) || is_not "," c)
                eq_refl c) as Hc.
  cbv beta in Hc. by rewrite Hs in Hc.
Qed.

Lemma lower_is_not_comma c :
  is_not "," (PyStr.lower_char c) = true → is_not "," c = true.
Proof.
  intros Hs.
  pose proof (forall_ascii
    (λ c, negb (is_not "," (PyStr.lower_char c)) || is_not "," c) eq_refl c) as Hc.
  cbv beta in Hc. by rewrite Hs in Hc.
Qed.

(** A text that is one of the words for a missing value, up to case
    and surrounding white space, is a single token that starts like no
    day code. *)
Lemma missing_word_tokens s :
  in_list (PyStr.lower (PyStr.strip s)) ["nan"; "none"] = true →
  ∀ p d, p ∈ day_tokens s → d ∈ DAY_ORDER →
    PyStr.lower (str_take 2 p) ≠ PyStr.lower d.
Proof.
  intros Hw%in_list_elem_of.
  assert (Hcomma : all_chars (is_not ",") (PyStr.strip s) = true).
  { eapply all_chars_impl; [apply lower_is_not_comma|].
    rewrite <- all_chars_lower.
    apply elem_of_cons in Hw as [->|Hw]; [done|].
    apply elem_of_cons in Hw as [->|Hw]; [done|]. by apply elem_of_nil in Hw. }
  destruct (strip_decomp s) as (a & b & Hs & Ha & Hb).
  assert (Hall : all_chars (is_not ",") s = true).
  { rewrite Hs, !all_chars_app, Hcomma.
    rewrite (all_chars_impl _ _ a isspace_is_not_comma Ha).
    by rewrite (all_chars_impl _ _ b isspace_is_not_comma Hb). }
  intros p d Hp Hd. unfold day_tokens in Hp.
  rewrite (split_no_sep _ _ Hall) in Hp. simpl in Hp.
  destruct (PyStr.truthy (PyStr.strip s)); [|by apply elem_of_nil in Hp].
  simpl in Hp. apply list_elem_of_singleton in Hp as ->.
  rewrite lower_str_take.
  apply elem_of_cons in Hw as [->|Hw];
    [|apply elem_of_cons in Hw as [->|Hw]; [|by apply elem_of_nil in Hw]];
    unfold DAY_ORDER in Hd;
    repeat (apply elem_of_cons in Hd as [->|Hd]; [done|]);
    by apply elem_of_nil in Hd.
Qed.

Lemma str_take_full s n : (String.length s ≤ n)%nat → str_take n s = s.
Proof.
  revert n. induction s as [|c s IH]; intros [|n]; simpl; try done; [lia|].
  intros Hn. rewrite IH; [done|lia].
Qed.

Lemma parse_days_sublist s : parse_days s `sublist_of` DAY_ORDER.
Proof.
  destruct s as [t|]; [|apply sublist_nil_l]. unfold parse_days.
  destruct (_ || _); [apply sublist_nil_l|apply sublist_filter].
Qed.

Lemma parse_days_elem s d :
  d ∈ parse_days s
  ↔ d ∈ DAY_ORDER
    ∧ ∃ t p, s = Some t ∧ p ∈ day_tokens t
        ∧ PyStr.lower (str_take 2 p) = PyStr.lower d.
Proof.
  destruct s as [t|].
  2:{ split; [by intros ?%elem_of_nil|]. by intros (_ & ? & ? & ? & _). }
  unfold parse_days.
  destruct (negb (PyStr.truthy t)) eqn:Ht.
  { destruct t; [|done]. simpl. split; [by intros ?%elem_of_nil|].
    intros (_ & ? & p & [= <-] & Hp & _). by apply elem_of_nil in Hp. }
  destruct (in_list _ _) eqn:Hw; simpl.
  { split; [by intros ?%elem_of_nil|].
    intros (Hd & ? & p & [= <-] & Hp & Hl).
    by destruct (missing_word_tokens t Hw p d Hp Hd). }
  rewrite list_elem_of_filter, list_elem_of_fmap. split.
  - intros [(p & Hp%eq_sym & Hin) Hd]. split; [done|].
    exists t, p. split; [done|]. split; [done|]. by apply title_day.
  - intros (Hd & ? & p & [= <-] & Hp & Hl). split; [|done].
    exists p. split; [|done]. symmetry. by apply title_day.
Qed.

(** X18: the days that [parse_days] returns are day codes in the order of
    [DAY_ORDER], each at most once, and a day code is returned exactly
    when the first two characters of some token are its two letters in
    either case; the words for a missing value hold no day. *)
Theorem parse_days_spec (s : option string) :
  parse_days s `sublist_of` DAY_ORDER
  ∧ NoDup (parse_days s)
  ∧ ∀ d, d ∈ parse_days s
      ↔ d ∈ DAY_ORDER
        ∧ ∃ t p, s = Some t ∧ p ∈ day_tokens t
            ∧ PyStr.lower (str_take 2 p) = PyStr.lower d.
Proof.
  split; [apply parse_days_sublist|]. split; [|apply parse_days_elem].
  eapply sublist_NoDup; [apply DAY_ORDER_NoDup|apply parse_days_sublist].
Qed.

(** X19: every day code that [canonical_days] finds in a day list is also
    found by [parse_days], which reads the same list in the other
    program. *)
Theorem canonical_days_known_parse_days ds :
  filter (λ d, d ∈ day_tokens ds) DAY_ORDER `sublist_of` parse_days (Some ds)
  ∧ ∀ d, d ∈ DAY_ORDER → d ∈ day_tokens ds → d ∈ parse_days (Some ds).
Proof.
  assert (Hin : ∀ d, d ∈ DAY_ORDER → d ∈ day_tokens ds → d ∈ parse_days (Some ds)).
  { intros d Hd Hin. apply parse_days_elem. split; [done|].
    exists ds, d. split; [done|]. split; [done|].
    rewrite str_take_full; [done|]. by rewrite (DAY_ORDER_length d Hd). }
  split; [|done].
  assert (Hfilter : parse_days (Some ds)
                    = filter (λ d, d ∈ parse_days (Some ds)) DAY_ORDER).
  { pose proof (parse_days_sublist (Some ds)) as Hsub.
    pose proof DAY_ORDER_NoDup as Hnd. revert Hsub Hnd.
    generalize (parse_days (Some ds)) as l. generalize DAY_ORDER as L.
    intros L l Hsub. induction Hsub as [|x l1 l2 Hsub IH|x l1 l2 Hsub IH];
      intros Hnd; [done|..]; apply NoDup_cons in Hnd as [Hx Hnd].
    - rewrite filter_cons_True by left. f_equal.
      rewrite IH at 1 by done. apply filter_ext_elem.
      intros y Hy. rewrite elem_of_cons. split; [by right|].
      intros [->|?]; done.
    - rewrite filter_cons_False; [by apply IH|].
      intros Hx'. apply Hx. by eapply elem_of_sublist. }
  rewrite Hfilter. clear Hfilter.
  induction DAY_ORDER as [|x L IH]; [done|].
  rewrite !filter_cons.
  assert (HL : ∀ d, d ∈ L → d ∈ day_tokens ds → d ∈ parse_days (Some ds)).
  { intros d ?. apply Hin. by right. }
  destruct (decide (x ∈ day_tokens ds)) as [Hx|Hx].
  - rewrite decide_True by (apply Hin; [left|done]).
    apply sublist_skip. by apply IH.
  - destruct (decide (x ∈ parse_days (Some ds))).
    + apply sublist_cons. by apply IH.
    + by apply IH.
Qed.

(** ** Time limit *)

Lemma digit_run_digits s : all_chars PyStr.isdigit (digit_run s) = true.
Proof.
  induction s as [|c s IH]; [done|]. simpl.
  destruct (PyStr.isdigit c) eqn:Hc; [|done]. simpl. by rewrite Hc.
Qed.

Lemma digit_run_app g post :
  all_chars PyStr.isdigit g = true → no_digit_ahead post = true →
  digit_run (g +:+ post) = g.
Proof.
  intros Hg Hpost. induction g as [|c g IH].
  - rewrite string_app_nil_l. destruct post as [|d post]; [done|].
    simpl in *. unfold nondigit in Hpost.
    by rewrite (proj1 (negb_true_iff _) Hpost).
  - simpl in Hg. apply andb_true_iff in Hg as [Hc Hg].
    rewrite string_app_cons. simpl. by rewrite Hc, IH.
Qed.

Lemma first_digits_app pre g post :
  all_chars nondigit pre = true → g ≠ "" →
  all_chars PyStr.isdigit g = true → no_digit_ahead post = true →
  first_digits (pre +:+ g +:+ post) = Some g.
Proof.
  intros Hpre Hne Hg Hpost. induction pre as [|c pre IH].
  - rewrite string_app_nil_l. destruct g as [|c g]; [done|].
    simpl in Hg. apply andb_true_iff in Hg as [Hc Hg].
    rewrite string_app_cons. simpl. by rewrite Hc, digit_run_app.
  - simpl in Hpre. apply andb_true_iff in Hpre as [Hc Hpre].
    rewrite string_app_cons. simpl. unfold nondigit in Hc.
    rewrite (proj1 (negb_true_iff _) Hc). auto.
Qed.

Lemma first_digits_None s :
  first_digits s = None ↔ all_chars nondigit s = true.
Proof.
  induction s as [|c s IH]; [done|]. simpl. unfold nondigit at 1.
  destruct (PyStr.isdigit c); simpl; [|done]. split; discriminate.
Qed.

Lemma first_digits_Some s g :
  first_digits s = Some g → g ≠ "" ∧ all_chars PyStr.isdigit g = true.
Proof.
  induction s as [|c s IH]; [done|]. simpl.
  destruct (PyStr.isdigit c) eqn:Hc; [|done]. intros [= <-].
  split; [done|]. simpl. by rewrite Hc, digit_run_digits.
Qed.

Lemma int_digits_nonneg g z :
  all_chars PyStr.isdigit g = true → PyStr.int g = Some z → (0 ≤ z)%Z.
Proof.
  intros Hg. unfold PyStr.int.
  rewrite strip_no_space by (eapply all_chars_impl; [apply isdigit_nonspace|done]).
  destruct (decide (g = "")) as [->|Hne]; [by vm_compute|].
  rewrite int_sign_digit by done.
  destruct (PyStr.int_digits _ _ _ _) as [[n cnt]|]; [|done].
  destruct (_ <? _)%nat; [done|]. intros [= <-]. lia.
Qed.

(** X20: the time limit is the number written by the first run of digits
    of the text: what stands before it and after it, a sign, a unit or
    further numbers, is ignored.  There is no limit when the text is
    missing or holds no digit, the limit is never negative, and a run
    of more than 4300 digits raises [ValueError]. *)
Theorem parse_time_limit_minutes_spec :
  parse_time_limit_minutes None = Ok None
  ∧ (∀ s, parse_time_limit_minutes (Some s) = Ok None
          ↔ all_chars nondigit s = true)
  ∧ (∀ s z, parse_time_limit_minutes (Some s) = Ok (Some z) → (0 ≤ z)%Z)
  ∧ (∀ pre n k post,
       all_chars nondigit pre = true → no_digit_ahead post = true →
       parse_time_limit_minutes
         (Some (pre +:+ (PyStr.zeros k +:+ PyStr.of_N n) +:+ post))
       = if decide (k + decimal_length n ≤ PyStr.int_max_str_digits)%nat
         then Ok (Some (Z.of_N n)) else Raise ValueError).
Proof.
  split; [done|]. split; [|split].
  - intros s. unfold parse_time_limit_minutes. rewrite <- first_digits_None.
    destruct (first_digits s) as [g|]; [|done].
    split; [|done]. by destruct (PyStr.int g).
  - intros s z. unfold parse_time_limit_minutes.
    destruct (first_digits s) as [g|] eqn:Hg; [|done].
    apply first_digits_Some in Hg as [_ Hg].
    destruct (PyStr.int g) as [z'|] eqn:Hz; [|done].
    intros [= <-]. by eapply int_digits_nonneg.
  - intros pre n k post Hpre Hpost. unfold parse_time_limit_minutes.
    assert (Hd : all_chars PyStr.isdigit (PyStr.zeros k +:+ PyStr.of_N n) = true)
      by (by rewrite all_chars_app, zeros_digits, of_N_digits).
    assert (Hne : PyStr.zeros k +:+ PyStr.of_N n ≠ "").
    { intros Hs. apply (f_equal String.length) in Hs.
      rewrite string_app_length, of_N_length in Hs.
      pose proof (decimal_length_pos n). simpl in Hs. lia. }
    rewrite first_digits_app by done.
    unfold PyStr.int.
    rewrite strip_no_space by (eapply all_chars_impl; [apply isdigit_nonspace|done]).
    rewrite int_sign_digit by done.
    assert (Hrun : PyStr.int_digits false 0 0 (PyStr.zeros k +:+ PyStr.of_N n)
                   = Some (n, (k + decimal_length n)%nat)).
    { destruct k as [|k].
      - by rewrite string_app_nil_l, int_digits_of_N.
      - rewrite int_digits_zeros, int_digits_of_N. f_equal. }
    rewrite Hrun.
    destruct (decide _) as [Hle|Hgt].
    + by rewrite (proj2 (Nat.ltb_ge _ _) Hle).
    + by rewrite (proj2 (Nat.ltb_lt _ _)) by lia.
Qed.

Lemma parse_time_limit_minutes_spec_witness :
  parse_time_limit_minutes (Some "up to 02 hr 30 min") = Ok (Some 2%Z)
  ∧ parse_time_limit_minutes (Some "-15") = Ok (Some 15%Z)
  ∧ (0 ≤ 15)%Z
  ∧ parse_time_limit_minutes (Some "no limit") = Ok None.
Proof.
  pose proof parse_time_limit_minutes_spec as (_ & H2 & H3 & H4).
  split; [|split; [|split]].
  - exact (H4 "up to " 2%N 1%nat " hr 30 min" eq_refl eq_refl).
  - exact (H4 "-" 15%N 0%nat "" eq_refl eq_refl).
  - exact (H3 "-15" 15%Z eq_refl).
  - exact (proj2 (H2 "no limit") eq_refl).
Defined.

(** ** Meter state *)

Lemma strip_truthy_idem s :
  PyStr.truthy (PyStr.strip s) = true → PyStr.strip (PyStr.strip s) ≠ "".
Proof. rewrite strip_idem. by destruct (PyStr.strip s). Qed.

(** X21: the state is the empty text in one case only: a schedule type
    that is not empty but holds nothing but white space, whatever the
    rule and the colour are.  In every other case the state is not
    empty. *)
Theorem derive_meter_state_empty (schedule_type applied_rule cap_color : option string) :
  derive_meter_state schedule_type applied_rule cap_color = ""
  ↔ ∃ s, schedule_type = Some s ∧ s ≠ "" ∧ PyStr.strip s = "".
Proof.
  unfold derive_meter_state. split.
  - destruct (PyStr.contains "tow" _); [done|].
    destruct (_ || _).
    { destruct (PyStr.contains "commercial" _); [done|].
      destruct (_ || _); [done|].
      destruct (PyStr.truthy _) eqn:Hr; [|done].
      intros Heq. by rewrite Heq in Hr. }
    destruct (PyStr.contains "alternate" _); [done|].
    destruct (PyStr.truthy (default "" schedule_type)) eqn:Hst.
    { intros Hs. destruct schedule_type as [s|]; [|done]. simpl in *.
      exists s. split; [done|]. split; [|done]. by intros ->. }
    destruct (PyStr.truthy (PyStr.strip (default "" applied_rule))) eqn:Hr.
    { intros Hs. by apply strip_truthy_idem in Hr. }
    destruct (PyStr.truthy (PyStr.strip (default "" cap_color))) eqn:Hc.
    { intros Hs. by apply strip_truthy_idem in Hc. }
    by vm_compute.
  - intros (s & -> & Hne & Hs). simpl default. rewrite Hs.
    change (PyStr.lower "") with "".
    change (PyStr.contains "tow" "") with false.
    change (PyStr.contains "operating" "" || PyStr.contains "operate" "") with false.
    change (PyStr.contains "alternate" "") with false. cbv iota.
    destruct s; [done|]. simpl PyStr.truthy. cbv iota. exact Hs.
Qed.

(** ** Cleaning a table *)

(** X22: cleaning a table a second time changes nothing, and a cleaned
    table has no header and no cell with white space at either end. *)
Theorem clean_columns_idempotent (df : Table) :
  clean_columns (clean_columns df) = clean_columns df
  ∧ Forall trimmed (columns (clean_columns df))
  ∧ Forall (Forall (λ kv, trimmed kv.1 ∧ trimmed kv.2)) (rows (clean_columns df)).
Proof.
  destruct df as [cols rws]. unfold clean_columns. simpl. split; [|split].
  - f_equal.
    + rewrite <- list_fmap_compose. apply list_fmap_ext. intros _ c _.
      apply strip_idem.
    + rewrite <- list_fmap_compose. apply list_fmap_ext. intros _ row _. simpl.
      rewrite <- list_fmap_compose. apply list_fmap_ext. intros _ [k v] _. simpl.
      by rewrite !strip_idem.
  - apply Forall_fmap, Forall_forall. intros c _. apply strip_idem.
  - apply Forall_fmap, Forall_forall. intros row _.
    apply Forall_fmap, Forall_forall. intros [k v] _. simpl.
    split; apply strip_idem.
Qed.

(** ** Runs of union-find operations *)

Section unions.
Local Open Scope nat_scope.
Import UnionFind.

(** The indices of a list of [n] elements. *)
Lemma position_is_Some n x :
  is_Some (position (Z.to_nat n) x) ↔ (- n ≤ x < n)%Z.
Proof.
  split.
  - intros [k [[Hx _]|[Hx _]]%position_Some]; lia.
  - intros Hx. destruct (decide (0 ≤ x)%Z).
    + exists (Z.to_nat x). apply position_Some. left. lia.
    + exists (Z.to_nat (Z.of_nat (Z.to_nat n) + x)). apply position_Some.
      right. lia.
Qed.

Lemma position_element n x k :
  position (Z.to_nat n) x = Some k → Z.of_nat k = (x mod n)%Z.
Proof.
  intros Hpos. rewrite (position_mod _ _ _ Hpos).
  apply position_lt in Hpos. f_equal. lia.
Qed.

Lemma unions_snoc n ops ab :
  unions n (ops ++ [ab]) = uf ← unions n ops; union uf ab.1 ab.2.
Proof. unfold unions. by rewrite foldl_app. Qed.

Lemma linked_snoc n ops ia ib x y :
  linked n (ops ++ [(ia, ib)]) x y
  ↔ linked n ops x y
    ∨ (x = (ia mod n)%Z ∧ y = (ib mod n)%Z)
    ∨ (x = (ib mod n)%Z ∧ y = (ia mod n)%Z).
Proof.
  unfold linked. split.
  - intros (u & v & [[Hin|[= -> ->]%list_elem_of_singleton]%elem_of_app
                    |[Hin|[= -> ->]%list_elem_of_singleton]%elem_of_app]
            & -> & ->); eauto 10.
  - intros [(u & v & [Hin|Hin] & -> & ->)|[[-> ->]|[-> ->]]].
    + exists u, v. split; [left; apply elem_of_app; by left|done].
    + exists u, v. split; [right; apply elem_of_app; by left|done].
    + exists ia, ib. split; [left; apply elem_of_app; right; left|done].
    + exists ib, ia. split; [right; apply elem_of_app; right; left|done].
Qed.

(** A chain through the pairs with one pair more is a chain without
    it, or goes through the new pair in one direction or the other. *)
Lemma linked_chain_snoc n ops ia ib x y :
  rtc (linked n (ops ++ [(ia, ib)])) x y →
  rtc (linked n ops) x y
  ∨ (rtc (linked n ops) x (ia mod n)%Z ∧ rtc (linked n ops) (ib mod n)%Z y)
  ∨ (rtc (linked n ops) x (ib mod n)%Z ∧ rtc (linked n ops) (ia mod n)%Z y).
Proof.
  induction 1 as [x|x z y Hxz Hzy IH]; [by left|].
  apply linked_snoc in Hxz as [Hl|[[-> ->]|[-> ->]]];
    destruct IH as [H1|[[H1 H2]|[H1 H2]]].
  - left. by eapply rtc_l.
  - right. left. split; [by eapply rtc_l|done].
  - right. right. split; [by eapply rtc_l|done].
  - right. left. by split.
  - right. left. by split.
  - left. done.
  - right. right. by split.
  - left. done.
  - right. right. by split.
Qed.

(** After a run of unions within range, two elements are in the same
    set exactly when a chain of united pairs joins them. *)
Lemma unions_spec n ops :
  (∀ a b, (a, b) ∈ ops → (- n ≤ a < n)%Z ∧ (- n ≤ b < n)%Z) →
  ∃ uf, unions n ops = Some uf ∧ uf_inv uf ∧ length (p uf) = Z.to_nat n
    ∧ ∀ x y, same_set (p uf) x y
        ↔ x < Z.to_nat n ∧ y < Z.to_nat n
          ∧ rtc (linked n ops) (Z.of_nat x) (Z.of_nat y).
Proof.
  induction ops as [|[ia ib] ops IH] using rev_ind; intros Hrange.
  - exists (init n). split; [done|]. split; [apply init_inv|].
    split; [apply init_length|]. intros x y. split.
    + intros Hxy. pose proof (init_same_set n x y Hxy) as ->.
      destruct Hxy as (c & Hc & _). apply repr_lt in Hc.
      rewrite init_length in Hc. done.
    + intros (Hx & _ & Hxy).
      assert (Hnil : ∀ u v, rtc (linked n []) u v → u = v).
      { intros u v Huv. destruct Huv as [|u w v (? & ? & [Hin|Hin] & _) _];
          [done|by apply elem_of_nil in Hin..]. }
      apply Hnil, Nat2Z.inj in Hxy as ->.
      apply same_set_refl; [apply init_inv|]. by rewrite init_length.
  - destruct IH as (uf & Hrun & Hinv & Hlen & Hsame).
    { intros a' b' Hab. apply Hrange, elem_of_app. by left. }
    destruct (Hrange ia ib) as [Ha Hb]; [apply elem_of_app; right; left|].
    apply position_is_Some in Ha as [a Ha]. apply position_is_Some in Hb as [b Hb].
    pose proof (position_lt _ _ _ Ha) as Halt.
    pose proof (position_lt _ _ _ Hb) as Hblt.
    pose proof (position_element _ _ _ Ha) as Hae.
    pose proof (position_element _ _ _ Hb) as Hbe.
    destruct (union_index_spec uf ia ib a b Hinv)
      as (uf' & Hu & Hinv' & Hlen' & Hsame'); [by rewrite Hlen..|].
    exists uf'. rewrite unions_snoc, Hrun. simpl.
    split; [done|]. split; [done|]. split; [lia|].
    assert (Hmono : ∀ x y, rtc (linked n ops) x y
                           → rtc (linked n (ops ++ [(ia, ib)])) x y).
    { intros x y. apply rtc_subrel. intros u v Huv. apply linked_snoc. by left. }
    assert (Hab : rtc (linked n (ops ++ [(ia, ib)])) (Z.of_nat a) (Z.of_nat b)).
    { apply rtc_once, linked_snoc. right. left. by rewrite Hae, Hbe. }
    assert (Hba : rtc (linked n (ops ++ [(ia, ib)])) (Z.of_nat b) (Z.of_nat a)).
    { apply rtc_once, linked_snoc. right. right. by rewrite Hae, Hbe. }
    intros x y. rewrite Hsame', !Hsame. split.
    + intros [(Hx & Hy & Hxy)|[[(Hx & _ & Hxa) (_ & Hy & Hby)]
                               |[(Hx & _ & Hxb) (_ & Hy & Hay)]]].
      * auto.
      * split; [done|]. split; [done|].
        etrans; [by apply Hmono|]. etrans; [exact Hab|]. by apply Hmono.
      * split; [done|]. split; [done|].
        etrans; [by apply Hmono|]. etrans; [exact Hba|]. by apply Hmono.
    + intros (Hx & Hy & Hxy). rewrite Hae, Hbe.
      destruct (linked_chain_snoc _ _ _ _ _ _ Hxy) as [H1|[[H1 H2]|[H1 H2]]].
      * left. done.
      * right. left. rewrite <- Hae in H1. rewrite <- Hbe in H2.
        rewrite <- Hae, <- Hbe. done.
      * right. right. rewrite <- Hbe in H1. rewrite <- Hae in H2.
        rewrite <- Hae, <- Hbe. done.
Qed.

Lemma unions_in_range n ops :
  Forall (λ ab : Z * Z, (- n ≤ ab.1 < n)%Z ∧ (- n ≤ ab.2 < n)%Z) ops
  ↔ is_Some (unions n ops).
Proof.
  split.
  - intros Hall. destruct (unions_spec n ops) as (uf & -> & _); [|done].
    intros a b Hab. rewrite Forall_forall in Hall. exact (Hall _ Hab).
  - induction ops as [|[a b] ops IH] using rev_ind; [by constructor|].
    rewrite unions_snoc. intros [uf' Hrun].
    destruct (unions n ops) as [uf|] eqn:Hops; [|done]. simpl in Hrun.
    specialize (IH (mk_is_Some _ _ eq_refl)).
    apply Forall_app. split; [done|]. constructor; [|constructor]. simpl.
    destruct (unions_spec n ops) as (uf0 & Hrun0 & Hinv & Hlen & _).
    { intros a' b' Hab. rewrite Forall_forall in IH. exact (IH _ Hab). }
    rewrite Hops in Hrun0. injection Hrun0 as <-.
    rewrite <- !position_is_Some, <- Hlen.
    destruct (position (length (p uf)) a) as [ka|] eqn:Ha.
    + destruct (position (length (p uf)) b) as [kb|] eqn:Hb; [by split|].
      rewrite (proj2 (uf_union_None uf a b Hinv)) in Hrun; [done|by right].
    + rewrite (proj2 (uf_union_None uf a b Hinv)) in Hrun; [done|by left].
Qed.

End unions.

Section unions_theorem.
Local Open Scope nat_scope.
Import UnionFind.

(** X7: a run of unions on a fresh structure of [n] elements raises
    no [IndexError] exactly when every index lies from [-n] to
    [n - 1], a negative index counting from the end as in every list;
    and then [find] gives two indices the same representative exactly
    when a chain of united pairs joins the elements that they name. *)
Theorem union_find_connectivity n ops :
  (Forall (λ ab : Z * Z, (- n ≤ ab.1 < n)%Z ∧ (- n ≤ ab.2 < n)%Z) ops
   ↔ is_Some (unions n ops))
  ∧ ∀ uf x y, unions n ops = Some uf → (- n ≤ x < n)%Z → (- n ≤ y < n)%Z →
      ∃ uf' t, same_root uf x y = Some (uf', t)
        ∧ (t = true ↔ rtc (linked n ops) (x mod n)%Z (y mod n)%Z).
Proof.
  split; [apply unions_in_range|]. intros uf x y Hrun Hx Hy.
  assert (Hall : Forall (λ ab : Z * Z, (- n ≤ ab.1 < n)%Z ∧ (- n ≤ ab.2 < n)%Z) ops).
  { apply unions_in_range. by rewrite Hrun. }
  destruct (unions_spec n ops) as (uf0 & Hrun0 & Hinv & Hlen & Hsame).
  { intros a b Hab. rewrite Forall_forall in Hall. exact (Hall _ Hab). }
  rewrite Hrun in Hrun0. injection Hrun0 as <-.
  apply position_is_Some in Hx as [kx Hkx]. apply position_is_Some in Hy as [ky Hky].
  rewrite <- (position_element _ _ _ Hkx), <- (position_element _ _ _ Hky).
  pose proof (position_lt _ _ _ Hkx) as Hxlt.
  pose proof (position_lt _ _ _ Hky) as Hylt.
  destruct (find_index_spec uf x kx Hinv)
    as (uf1 & a & Hf1 & Hinv1 & _ & Hlen1 & Hrepr1 & Ha); [by rewrite Hlen|].
  destruct (find_index_spec uf1 y ky Hinv1)
    as (uf2 & b & Hf2 & _ & _ & _ & _ & Hb); [by rewrite Hlen1, Hlen|].
  apply Hrepr1 in Hb.
  exists uf2, (bool_decide (a = b)). unfold same_root. rewrite Hf1. simpl.
  rewrite Hf2. simpl. split; [done|].
  rewrite bool_decide_eq_true. split.
  - intros <-. apply Hsame. by exists a.
  - intros Hxy. destruct (proj2 (Hsame kx ky)) as (c & Hxc & Hyc); [done|].
    by rewrite (repr_functional _ _ _ _ Ha Hxc), (repr_functional _ _ _ _ Hb Hyc).
Qed.
End unions_theorem.

Lemma union_find_connectivity_witness :
  (∃ uf' t, unions 5 [(0, 1); (3, -3); (1, 3)]%Z ≫= (λ uf, same_root uf (-5) 2)
            = Some (uf', t)
     ∧ (t = true ↔ rtc (linked 5 [(0, 1); (3, -3); (1, 3)]%Z) 0%Z 2%Z))
  ∧ unions 5 [(0, 1); (3, 5)]%Z = None
  ∧ unions 5 [(0, -6)]%Z = None.
Proof.
  pose proof (union_find_connectivity 5 [(0, 1); (3, -3); (1, 3)]%Z) as [_ H].
  pose proof (union_find_connectivity 5 [(0, 1); (3, 5)]%Z) as [H' _].
  pose proof (union_find_connectivity 5 [(0, -6)]%Z) as [H'' _].
  split; [|split].
  - destruct (unions 5 [(0, 1); (3, -3); (1, 3)]%Z) as [uf|] eqn:Hrun;
      [|by vm_compute in Hrun].
    destruct (H uf (-5)%Z 2%Z eq_refl) as (uf' & t & Hsr & Ht); [lia..|].
    exists uf', t. simpl. by rewrite Hsr.
  - destruct (unions 5 [(0, 1); (3, 5)]%Z) as [uf|] eqn:Hrun; [|done].
    exfalso. pose proof (proj2 H' (mk_is_Some _ _ eq_refl)) as Hall.
    apply Forall_cons in Hall as [_ Hall].
    apply Forall_cons in Hall as [[_ Hbad] _]. simpl in Hbad. lia.
  - destruct (unions 5 [(0, -6)]%Z) as [uf|] eqn:Hrun; [|done].
    exfalso. pose proof (proj2 H'' (mk_is_Some _ _ eq_refl)) as Hall.
    apply Forall_cons in Hall as [[_ Hbad] _]. simpl in Hbad. lia.
Defined.

(** ** Labels of the clusterer *)

Section reindex.
Local Open Scope nat_scope.

Lemma StronglySorted_lookup_lt {A} (R : relation A) l i j a b :
  StronglySorted R l → i < j → l !! i = Some a → l !! j = Some b → R a b.
Proof.
  intros Hs. revert i j. induction Hs as [|x l Hs IH Hall]; intros i j Hij Hi Hj.
  - by rewrite lookup_nil in Hi.
  - destruct j as [|j]; [lia|]. simpl in Hj. destruct i as [|i].
    + injection Hi as <-. rewrite Forall_forall in Hall. apply Hall.
      by eapply list_elem_of_lookup_2.
    + simpl in Hi. apply (IH i j); [lia|done..].
Qed.

(** The renumbering of the labels of scikit-learn: one number per
    label, in the order of the labels, from 0 on without gaps. *)
Lemma reindex_labels_spec (labels : list Z) :
  ∃ l, reindex_labels labels = Some l
    ∧ length l = length labels
    ∧ (∀ i j a b li lj,
         labels !! i = Some a → labels !! j = Some b →
         l !! i = Some li → l !! j = Some lj → (a ≤ b)%Z ↔ li ≤ lj)
    ∧ (∀ x, x ∈ l ↔ x < size (list_to_set labels : gset Z)).
Proof.
  unfold reindex_labels.
  set (S := list_to_set labels : gset Z).
  set (order := merge_sort Z.le (elements S)).
  assert (Hperm : order ≡ₚ elements S) by apply merge_sort_Permutation.
  assert (Hsorted : StronglySorted Z.le order)
    by apply (StronglySorted_merge_sort _).
  assert (Hnd : NoDup order) by (rewrite Hperm; apply NoDup_elements).
  assert (Hlen : length order = size S).
  { by rewrite Hperm. }
  assert (Hin : ∀ x, x ∈ order ↔ x ∈ labels).
  { intros x. rewrite Hperm, elem_of_elements. unfold S.
    by rewrite elem_of_list_to_set. }
  assert (Hmono : ∀ i j a b, order !! i = Some a → order !! j = Some b →
            (a ≤ b)%Z ↔ i ≤ j).
  { intros i j a b Hi Hj. split.
    - intros Hab. destruct (decide (i ≤ j)) as [|Hgt]; [done|].
      assert (Hba : (b ≤ a)%Z)
        by (apply (StronglySorted_lookup_lt _ order j i); [done|lia|done..]).
      assert (a = b) as -> by lia.
      by rewrite (NoDup_lookup _ _ _ _ Hnd Hi Hj).
    - intros Hij. destruct (decide (i = j)) as [->|Hne].
      + rewrite Hi in Hj. injection Hj as <-. lia.
      + apply (StronglySorted_lookup_lt _ order i j); [done|lia|done..]. }
  set (idx := λ lab : Z, fst <$> list_find (λ x, x = lab) order).
  assert (Hidx : ∀ lab i, idx lab = Some i ↔ order !! i = Some lab).
  { intros lab i. unfold idx. split.
    - destruct (list_find _ order) as [[i' x]|] eqn:Hfind; [|done].
      intros [= <-]. apply list_find_Some in Hfind as (Hi & -> & _). done.
    - intros Hi.
      destruct (list_find_elem_of (λ x, x = lab) order lab) as [[i' x] Hfind];
        [by eapply list_elem_of_lookup_2|done|].
      rewrite Hfind. simpl. f_equal.
      apply list_find_Some in Hfind as (Hi' & -> & _).
      by rewrite (NoDup_lookup _ _ _ _ Hnd Hi Hi'). }
  assert (Hsome : ∃ l, mapM idx labels = Some l).
  { apply mapM_is_Some, Forall_forall. intros lab Hlab. simpl.
    apply Hin, list_elem_of_lookup in Hlab as [i Hi].
    exists i. by apply Hidx. }
  destruct Hsome as [l Hl]. exists l. split; [done|].
  apply mapM_Some in Hl.
  split; [symmetry; by eapply Forall2_length|]. split.
  - intros i j a b li lj Hi Hj Hli Hlj.
    destruct (Forall2_lookup_l _ _ _ _ _ Hl Hi) as (li' & Hli' & Hai).
    destruct (Forall2_lookup_l _ _ _ _ _ Hl Hj) as (lj' & Hlj' & Hbj).
    rewrite Hli in Hli'. rewrite Hlj in Hlj'.
    injection Hli' as <-. injection Hlj' as <-.
    apply Hidx in Hai, Hbj. by apply Hmono.
  - intros x. rewrite <- Hlen. split.
    + intros [q Hq]%list_elem_of_lookup.
      destruct (Forall2_lookup_r _ _ _ _ _ Hl Hq) as (lab & _ & Hx).
      apply Hidx in Hx. by eapply lookup_lt_Some.
    + intros Hx. destruct (lookup_lt_is_Some_2 order x Hx) as [lab Hlab].
      assert (Hlab' : lab ∈ labels) by (apply Hin; by eapply list_elem_of_lookup_2).
      apply list_elem_of_lookup in Hlab' as [q Hq].
      destruct (Forall2_lookup_l _ _ _ _ _ Hl Hq) as (x' & Hx' & Hidx').
      apply Hidx in Hidx'.
      rewrite (NoDup_lookup _ _ _ _ Hnd Hlab Hidx').
      by eapply list_elem_of_lookup_2.
Qed.
End reindex.

Section clusterer_labels.
Local Open Scope nat_scope.
Context {F : Type} `{FloatOps F}.
Variable sklearn_dbscan : list F → list F → F → result (list Z).

(** X9: when scikit-learn answers, its labels are renumbered: the result
    has one number per label, numbers follow the order of the labels
    (so that equal labels get equal numbers and different labels
    different numbers), and the numbers are exactly 0..K-1, with K
    the number of different labels. *)
Theorem cluster_points_haversine_sklearn lats lons radius_m labels :
  lats ≠ [] → sklearn_dbscan lats lons radius_m = inr labels →
  ∃ l, cluster_points_haversine sklearn_dbscan lats lons radius_m = Ok l
    ∧ length l = length labels
    ∧ (∀ i j a b li lj,
         labels !! i = Some a → labels !! j = Some b →
         l !! i = Some li → l !! j = Some lj → (a ≤ b)%Z ↔ li ≤ lj)
    ∧ (∀ x, x ∈ l ↔ x < size (list_to_set labels : gset Z)).
Proof.
  intros Hne Hsk. destruct (reindex_labels_spec labels) as (l & Hl & Hspec).
  exists l. split; [|done]. unfold cluster_points_haversine.
  destruct lats; [done|]. simpl length. cbv iota. by rewrite Hsk, Hl.
Qed.

Lemma cluster_points_haversine_cases lats lons radius_m :
  length lons = length lats →
  (∀ msg, sklearn_dbscan lats lons radius_m ≠ inl (SystemExit msg)) →
  (∃ l K, cluster_points_haversine sklearn_dbscan lats lons radius_m = Ok l
     ∧ (∀ x, x ∈ l ↔ x < K)
     ∧ (lats = [] → l = [])
     ∧ (∀ e, sklearn_dbscan lats lons radius_m = inl e →
          length l = length lats
          ∧ (lats ≠ [] → cluster_fallback lats lons radius_m = Ok l))
     ∧ (∀ labels, sklearn_dbscan lats lons radius_m = inr labels →
          lats ≠ [] → length l = length labels))
  ∨ (cluster_points_haversine sklearn_dbscan lats lons radius_m = Raise ValueError
     ∧ (∃ e, sklearn_dbscan lats lons radius_m = inl e)
     ∧ ∃ i j, i < j < length lats ∧ point_distance (zip lats lons) i j = None).
Proof.
  intros Hlen Hexit.
  destruct lats as [|lat lats'] eqn:Hlats.
  { left. exists [], 0. split; [done|]. split; [|by repeat split].
    intros x. split; [by intros ?%elem_of_nil|lia]. }
  rewrite <- Hlats in *.
  assert (Hne : lats ≠ []) by (by rewrite Hlats).
  assert (Hfb : ∀ e, sklearn_dbscan lats lons radius_m = inl e →
            cluster_points_haversine sklearn_dbscan lats lons radius_m
            = cluster_fallback lats lons radius_m).
  { intros e He. unfold cluster_points_haversine.
    rewrite Hlats at 1. simpl length. cbv iota. rewrite He.
    destruct e; try done. by destruct (Hexit msg). }
  destruct (sklearn_dbscan lats lons radius_m) as [e|labels] eqn:Hsk.
  - pose proof (cluster_fallback_spec lats lons radius_m Hlen) as Hspec.
    rewrite (Hfb e eq_refl).
    destruct (cluster_fallback lats lons radius_m) as [e'|fl].
    + right. destruct Hspec as [-> Hex]. split; [done|]. split; [|done].
      by exists e.
    + left. destruct Hspec as (_ & Hfllen & _ & Hprefix).
      destruct (Hprefix (length fl)) as [Kf HKf]. rewrite firstn_all in HKf.
      exists fl, Kf. split; [done|]. split; [done|].
      split; [done|]. split; [|done]. intros e' _. by split.
  - left. destruct (reindex_labels_spec labels) as (l & Hl & Hll & _ & Hrange).
    exists l, (size (list_to_set labels : gset Z)).
    split; [|split; [done|split; [done|split; [done|]]]].
    + unfold cluster_points_haversine.
      rewrite Hlats at 1. simpl length. cbv iota. by rewrite Hsk, Hl.
    + by intros ? [= <-] _.
Qed.

(** X10: for points given by as many latitudes as longitudes, and
    unless scikit-learn ends the run, the clusterer raises
    [ValueError] exactly when scikit-learn is missing or fails and two
    of the points have no great-circle distance; in every other case
    it returns a list of labels that are exactly the numbers 0..K-1
    for some K, and without scikit-learn these are the labels of the
    fallback, one per point.  No point gives no label. *)
Theorem cluster_points_haversine_returns lats lons radius_m :
  length lons = length lats →
  (∀ msg, sklearn_dbscan lats lons radius_m ≠ inl (SystemExit msg)) →
  (cluster_points_haversine sklearn_dbscan lats lons radius_m = Raise ValueError
   ↔ (∃ e, sklearn_dbscan lats lons radius_m = inl e)
     ∧ ∃ i j, i < j < length lats ∧ point_distance (zip lats lons) i j = None)
  ∧ (cluster_points_haversine sklearn_dbscan lats lons radius_m ≠ Raise ValueError →
     ∃ l K, cluster_points_haversine sklearn_dbscan lats lons radius_m = Ok l
       ∧ (∀ x, x ∈ l ↔ x < K)
       ∧ (lats = [] → l = [])
       ∧ (∀ e, sklearn_dbscan lats lons radius_m = inl e →
            length l = length lats
            ∧ (lats ≠ [] → cluster_fallback lats lons radius_m = Ok l))).
Proof.
  intros Hlen Hexit.
  destruct (cluster_points_haversine_cases lats lons radius_m Hlen Hexit)
    as [(l & K & Hl & HK & Hnil & Hfb & _)|(Hraise & Hsk & Hpair)].
  - split.
    + split; [by rewrite Hl|]. intros [[e He] (i & j & Hij & Hnone)].
      assert (Hne : lats ≠ []) by (intros ->; simpl in Hij; lia).
      destruct (Hfb e He) as [_ Hfl]. specialize (Hfl Hne).
      pose proof (cluster_fallback_spec lats lons radius_m Hlen) as Hspec.
      rewrite Hfl in Hspec. destruct Hspec as (Hdef & _).
      destruct (Hdef i j Hij) as [d Hd]. congruence.
    + intros _. by exists l, K.
  - split; [by split|]. by intros [].
Qed.

End clusterer_labels.

Lemma cluster_points_haversine_sklearn_witness :
  cluster_points_haversine (F := Z) (sklearn_answers [7; -1; 7; 3]%Z)
    [0; 0; 0; 0]%Z [0; 1; 2; 3]%Z 20%Z = Ok [2; 0; 2; 1].
Proof.
  destruct (cluster_points_haversine_sklearn (F := Z)
              (sklearn_answers [7; -1; 7; 3]%Z)
              [0; 0; 0; 0]%Z [0; 1; 2; 3]%Z 20%Z [7; -1; 7; 3]%Z)
    as (l & Hl & _); [done|done|].
  rewrite Hl. vm_compute in Hl. by injection Hl as <-.
Defined.

Lemma cluster_points_haversine_returns_witness :
  (∃ l K, cluster_points_haversine (F := Z) no_sklearn
            [0; 0; 0]%Z [0; 500; 10]%Z 20%Z = Ok l
     ∧ (∀ x, x ∈ l ↔ x < K) ∧ length l = 3)
  ∧ cluster_points_haversine (F := Z) no_sklearn
      [0; 0; 4000000]%Z [0; 10; 0]%Z 20%Z = Raise ValueError.
Proof.
  split.
  - destruct (cluster_points_haversine_returns (F := Z) no_sklearn
                [0; 0; 0]%Z [0; 500; 10]%Z 20%Z) as [_ Hret]; [done|done|].
    destruct Hret as (l & K & Hl & HK & _ & Hfb); [by vm_compute|].
    exists l, K. split; [done|]. split; [done|].
    by destruct (Hfb ImportError eq_refl).
  - destruct (cluster_points_haversine_returns (F := Z) no_sklearn
                [0; 0; 4000000]%Z [0; 10; 0]%Z 20%Z) as [Hraise _];
      [done|done|].
    apply Hraise. split; [by exists ImportError|].
    exists 0, 2. split; [simpl; lia|]. vm_compute. reflexivity.
Defined.

(** ** Canonical form of the signature *)

Lemma hex_length n x : String.length (Sha1.hex n x) = n.
Proof.
  revert x. induction n as [|n IH]; intros x; [done|]. simpl.
  rewrite string_app_length, IH. simpl. lia.
Qed.

Lemma hex_digit_hex_char n : (n < 16)%N → hex_char (Json.hex_digit n) = true.
Proof.
  intros Hn.
  apply (N_forall_lt (λ n, hex_char (Json.hex_digit n)) 16); [|done].
  vm_compute. reflexivity.
Qed.

Lemma hex_hex_chars n x : all_chars hex_char (Sha1.hex n x) = true.
Proof.
  revert x. induction n as [|n IH]; intros x; [done|]. simpl.
  rewrite all_chars_app, IH. simpl. rewrite hex_digit_hex_char; [done|].
  pose proof (Z.mod_pos_bound x 16). lia.
Qed.

Lemma key_le_trans : Transitive Json.key_le.
Proof. intros a b c. unfold Json.key_le. apply transitivity. Qed.

Lemma sort_keys_sorted d : StronglySorted Json.key_le (Json.sort_keys d).
Proof.
  pose proof key_le_total. pose proof key_le_trans.
  apply (StronglySorted_merge_sort _).
Qed.

(** Sorting the keys of a record whose keys are sorted changes
    nothing. *)
Lemma sort_keys_idem d :
  NoDup d.*1 → Json.sort_keys (Json.sort_keys d) = Json.sort_keys d.
Proof.
  intros Hnd.
  apply (StronglySorted_unique_strong Json.key_le);
    [|apply sort_keys_sorted..|by rewrite !sort_keys_Permutation].
  intros [k1 v1] [k2 v2] H1 H2 Hle1 Hle2. unfold Json.key_le in *. simpl in *.
  assert (k1 = k2) as -> by (by apply (anti_symm String.le)).
  f_equal. repeat rewrite sort_keys_Permutation in H1.
  repeat rewrite sort_keys_Permutation in H2.
  apply list_elem_of_lookup in H1 as [i Hi], H2 as [j Hj].
  assert (i = j) as ->.
  { apply (NoDup_lookup d.*1 i j k2 Hnd); rewrite list_lookup_fmap.
    - by rewrite Hi.
    - by rewrite Hj. }
  congruence.
Qed.

Lemma sorted_strings_sorted (uniq : gset string) :
  Sorted String.le (sorted_strings uniq) ∧ NoDup (sorted_strings uniq).
Proof.
  unfold sorted_strings. split.
  - apply (Sorted_merge_sort _).
  - rewrite merge_sort_Permutation. apply NoDup_elements.
Qed.

(** The texts of the entries that the second half of the builder
    returns are the sorted set of texts it has built. *)
Lemma signature_of_entries_texts (entries : list dict) h es :
  Forall (λ e, NoDup e.*1) entries →
  signature_of_entries entries = Ok (h, es) →
  map (Json.dumps_dict_sorted true) es
  = sorted_strings (list_to_set (map (Json.dumps_dict_sorted true) entries)).
Proof.
  intros Hnd. unfold signature_of_entries.
  set (uniq := list_to_set _ : gset string).
  destruct (rmap json_loads (sorted_strings uniq)) as [ex|es'] eqn:Hes; [done|].
  simpl. intros [= <- <-]. apply rmap_Ok_inv in Hes.
  assert (Hin : ∀ s, s ∈ sorted_strings uniq →
            ∃ e, e ∈ entries ∧ s = Json.dumps_dict_sorted true e).
  { intros s. unfold uniq.
    rewrite elem_of_sorted_strings, elem_of_list_to_set, elem_of_list_map.
    naive_solver. }
  revert Hin Hes. generalize (sorted_strings uniq) as texts. clear uniq.
  intros texts Hin Hes.
  induction Hes as [|s d texts es' Hload Hall IH]; [done|].
  simpl. f_equal.
  - destruct (Hin s) as (e & He & ->); [left|].
    rewrite json_loads_dumps_sorted in Hload
      by (by eapply Forall_forall in Hnd).
    injection Hload as <-. unfold Json.dumps_dict_sorted.
    rewrite sort_keys_idem; [done|]. by eapply Forall_forall in Hnd.
  - apply IH. intros s' Hs'. apply Hin. by right.
Qed.

Section canonical_signature.
Context {F : Type} `{FloatOps F}.

(** X4: the builder always returns, and what it returns is in canonical
    form: the hash is the SHA-1 digest of the text of the entry list,
    40 hexadecimal digits in lower case; the entries are the records
    of the rows with their keys sorted; and the entry list is sorted by
    the JSON text of the entries and holds no entry twice. *)
Theorem build_schedule_signature_canonical fields (rows : list (Row F)) :
  ∃ h es, build_schedule_signature rows fields = Ok (h, es)
    ∧ h = Sha1.hexdigest (utf8 (signature_raw es))
    ∧ String.length h = 40%nat ∧ all_chars hex_char h = true
    ∧ (∀ d, d ∈ es
         ↔ ∃ r e, r ∈ rows ∧ build_entry fields r = Ok e ∧ d = Json.sort_keys e)
    ∧ Sorted String.le (map (Json.dumps_dict_sorted true) es)
    ∧ NoDup (map (Json.dumps_dict_sorted true) es)
    ∧ Forall (λ d, StronglySorted Json.key_le d ∧ NoDup d.*1) es.
Proof.
  unfold build_schedule_signature.
  destruct (build_entries_Ok fields rows) as (entries & -> & Hall & Hnd). simpl.
  destruct (signature_of_entries_Ok entries Hnd) as (h & es & Hsig).
  exists h, es. split; [done|].
  destruct (signature_of_entries_spec entries h es Hnd Hsig) as [Hh Hes].
  pose proof (signature_of_entries_texts entries h es Hnd Hsig) as Htexts.
  split; [done|]. split; [subst h; apply hex_length|].
  split; [subst h; apply hex_hex_chars|].
  assert (Hmem : ∀ d, d ∈ es
            ↔ ∃ r e, r ∈ rows ∧ build_entry fields r = Ok e ∧ d = Json.sort_keys e).
  { intros d. rewrite Hes. split.
    - intros (e & [i Hi]%list_elem_of_lookup & ->).
      destruct (Forall2_lookup_r _ _ _ _ _ Hall Hi) as (r & Hr & Hre).
      exists r, e. split; [by eapply list_elem_of_lookup_2|done].
    - intros (r & e & [i Hi]%list_elem_of_lookup & Hre & ->).
      destruct (Forall2_lookup_l _ _ _ _ _ Hall Hi) as (e' & He' & Hre').
      rewrite Hre in Hre'. injection Hre' as <-.
      exists e. split; [by eapply list_elem_of_lookup_2|done]. }
  split; [done|]. rewrite Htexts.
  split; [apply sorted_strings_sorted|]. split; [apply sorted_strings_sorted|].
  apply Forall_forall. intros d (e & He & ->)%Hes.
  split; [apply sort_keys_sorted|].
  apply sort_keys_NoDup. by eapply Forall_forall in Hnd.
Qed.

End canonical_signature.

(** ** Runs of the orchestrator *)

Section groupby_order.
Context {K A : Type} `{EqDecision K}.

Lemma groupby_nil (key : A → K) l : groupby key l = [] ↔ l = [].
Proof.
  split; [|by intros ->].
  intros Hg. destruct (groupby_spec key l) as (_ & _ & Hperm).
  rewrite Hg in Hperm. simpl in Hperm. by apply Permutation_nil.
Qed.

Lemma groupby_keys (key : A → K) l k :
  k ∈ (groupby key l).*1 ↔ ∃ a, a ∈ l ∧ key a = k.
Proof.
  destruct (groupby_spec key l) as (_ & Hall & Hperm). split.
  - intros ([k' g] & -> & Hg)%list_elem_of_fmap. simpl.
    eapply Forall_forall in Hall as [Hne Hkeys]; [|exact Hg]. simpl in *.
    destruct g as [|a g]; [done|]. exists a. split.
    + rewrite <- Hperm. apply elem_of_concat. exists (a :: g). split; [|left].
      apply list_elem_of_fmap. by exists (k', a :: g).
    + by apply Forall_cons_1 in Hkeys as [? _].
  - intros (a & Ha & <-). rewrite <- Hperm in Ha.
    apply elem_of_concat in Ha as (g & ([k' g'] & -> & Hg)%list_elem_of_fmap & Ha).
    simpl in Ha. eapply Forall_forall in Hall as [_ Hkeys]; [|exact Hg].
    simpl in Hkeys. eapply Forall_forall in Hkeys; [|exact Ha]. rewrite Hkeys.
    apply list_elem_of_fmap. by exists (k', g').
Qed.

(** Each group holds the elements with its key in input order. *)
Lemma groupby_filter (key : A → K) l g :
  g ∈ groupby key l → g.2 = filter (λ a, key a = g.1) l.
Proof.
  revert g. induction l as [|a l IH] using rev_ind; intros g.
  { by intros ?%elem_of_nil. }
  rewrite groupby_snoc, filter_app.
  destruct (decide (key a ∈ (groupby key l).*1)) as [Hin|Hin].
  - destruct (group_insert_old _ _ a Hin) as (g1 & grp & g2 & Hgs & Hg1 & ->).
    intros [Hg|[->|Hg]%elem_of_cons]%elem_of_app.
    + assert (Hne : g.1 ≠ key a).
      { intros Heq. apply Hg1. rewrite <- Heq. apply list_elem_of_fmap.
        by exists g. }
      rewrite filter_cons_False, filter_nil, app_nil_r by done.
      apply IH. rewrite Hgs. apply elem_of_app. by left.
    + simpl. rewrite filter_cons_True, filter_nil by done. f_equal.
      apply (IH (key a, grp)). rewrite Hgs. apply elem_of_app. right. left.
    + assert (Hne : g.1 ≠ key a).
      { intros Heq. destruct (groupby_spec key l) as (Hnd & _ & _).
        rewrite Hgs, fmap_app, fmap_cons in Hnd.
        apply NoDup_app in Hnd as (_ & _ & Hnd).
        apply NoDup_cons in Hnd as [Hnd _]. apply Hnd. simpl.
        rewrite <- Heq. apply list_elem_of_fmap. by exists g. }
      rewrite filter_cons_False, filter_nil, app_nil_r by done.
      apply IH. rewrite Hgs. apply elem_of_app. right. by right.
  - rewrite group_insert_new by done.
    intros [Hg | ->%list_elem_of_singleton]%elem_of_app.
    + assert (Hne : g.1 ≠ key a).
      { intros Heq. apply Hin. rewrite <- Heq. apply list_elem_of_fmap.
        by exists g. }
      rewrite filter_cons_False, filter_nil, app_nil_r by done. by apply IH.
    + simpl. rewrite filter_cons_True, filter_nil by done.
      rewrite filter_none; [done|].
      intros b Hb Hkey. apply Hin, groupby_keys. by exists b.
Qed.
End groupby_order.

Section main_runs.
Local Open Scope nat_scope.
Context {F : Type} `{FloatOps F} `{HashSeed}.
Variable sklearn_dbscan : list F → list F → F → result (list Z).
Implicit Types (args : Args F) (fs : Files (ClusterRecord F) (MemberRecord F)).

Lemma build_meters_Ok cols fields (df : list (Row F)) :
  ∃ meters, build_meters cols fields df = Ok meters
    ∧ Forall2 (λ g m, build_meter cols fields g.1 g.2 = Ok m)
        (groupby row_post_id df) meters.
Proof.
  unfold build_meters.
  apply (rmap_Ok (λ g : string * list (Row F), build_meter cols fields g.1 g.2)).
  intros [pid g] _. unfold build_meter. cbn [fst snd].
  destruct (build_schedule_signature_entries fields g g)
    as (_ & h & es & ->). { tauto. }
  eexists. reflexivity.
Qed.

Lemma build_meters_nil cols fields (df : list (Row F)) :
  build_meters cols fields df = Ok [] ↔ df = [].
Proof.
  destruct (build_meters_Ok cols fields df) as (meters & Hm & Hall).
  rewrite Hm. split.
  - intros [= ->]. apply Forall2_nil_inv_r in Hall.
    by apply groupby_nil in Hall.
  - intros ->. vm_compute in Hm. injection Hm as <-. done.
Qed.

(** X11: a table that has the required columns but no row with numeric
    coordinates, a table with a header only for instance, does not
    give empty output files: the run ends with [KeyError] on
    "schedule_hash" and writes nothing.  This is the only way in which
    a run ends with [KeyError]. *)
Theorem main_no_numeric_row args fs :
  (missing_columns (input_csv args) = [] →
   numeric_rows (input_csv args) = [] →
   main sklearn_dbscan args fs = (Raise (KeyError "schedule_hash"), fs))
  ∧ (∀ k fs', main sklearn_dbscan args fs = (Raise (KeyError k), fs') →
       missing_columns (input_csv args) = []
       ∧ numeric_rows (input_csv args) = []
       ∧ k = "schedule_hash" ∧ fs' = fs).
Proof.
  unfold main. split.
  - intros -> ->.
    by rewrite (proj2 (build_meters_nil _ _ []) eq_refl).
  - intros k fs'.
    destruct (missing_columns _) as [|c missing]; [|intros Hx; inversion Hx].
    destruct (build_meters_Ok (columns (input_csv args)) (signature_fields args)
                (numeric_rows (input_csv args))) as (meters & Hm & _).
    rewrite Hm. unfold rbind, Ok. destruct meters as [|m meters].
    + intros [= <- <-]. apply build_meters_nil in Hm. done.
    + match goal with
      | |- context [cluster_groups ?a ?b ?c ?d] =>
          destruct (cluster_groups a b c d) as [e|acc] eqn:Hg
      end; [|intros Hx; inversion Hx].
      intros [= -> _]. apply cluster_groups_raises in Hg.
      destruct Hg as [(? & ? & msg & Hx & _)|[Hx|Hx]]; discriminate Hx.
Qed.



End main_runs.

Section main_tables.
Local Open Scope nat_scope.
Context {F : Type} `{FloatOps F} `{HashSeed}.
Variable sklearn_dbscan : list F → list F → F → result (list Z).
Implicit Types (args : Args F) (fs : Files (ClusterRecord F) (MemberRecord F)).
Implicit Types (es : list (string * list (Meter F))).

Lemma cluster_id_of_text n :
  cluster_id_of n = String "C" (PyStr.zfill 5 (PyStr.of_N (N.of_nat n))).
Proof.
  unfold cluster_id_of. f_equal.
  rewrite <- (format_0d_N 5 (N.of_nat n)). f_equal. lia.
Qed.

Lemma member_rows_by_cluster es :
  map (λ c, filter (λ m, m_cluster_id m = c_cluster_id c)
              (concat (member_rows_of 0 es)))
      (cluster_rows_of 0 es)
  = member_rows_of 0 es.
Proof.
  apply list_eq. intros i. rewrite list_lookup_fmap.
  unfold cluster_rows_of at 1. unfold member_rows_of at 2.
  rewrite !list_lookup_imap.
  destruct (es !! i) as [e|] eqn:He; [|done]. simpl. f_equal.
  by rewrite (member_rows_of_cluster 0 es i e He).
Qed.

(** X13: the cluster table of a run is numbered from 1 in the order in
    which the clusters are found: row [i], counted from 0, has the
    identifier "C" followed by [i + 1] padded with zeros to five
    digits.  The membership table lists the members cluster by
    cluster in the same order. *)
Theorem main_cluster_numbering args fs fs' :
  main sklearn_dbscan args fs = (Ok (), fs') →
  ∃ clusters members,
    clusters_csv fs' = Some clusters ∧ members_csv fs' = Some members
    ∧ (∀ i c, clusters !! i = Some c →
         c_cluster_id c = cluster_id_of (S i)
         ∧ c_cluster_id c
           = String "C" (PyStr.zfill 5 (PyStr.of_N (N.of_nat (S i)))))
    ∧ members
      = concat (map (λ c, filter (λ m, m_cluster_id m = c_cluster_id c) members)
                    clusters).
Proof.
  intros (meters & es & _ & _ & _ & _ & ->)%main_Ok_spec.
  exists (cluster_rows_of 0 es), (concat (member_rows_of 0 es)).
  split; [done|]. split; [done|]. split.
  - intros i c Hc. unfold cluster_rows_of in Hc.
    rewrite list_lookup_imap in Hc.
    destruct (es !! i) as [e|]; [|done]. injection Hc as <-. simpl.
    split; [done|]. apply cluster_id_of_text.
  - by rewrite member_rows_by_cluster.
Qed.

(** X14: the summary fields of a cluster row are computed from the
    membership rows that carry its identifier: the post identifiers
    sorted as texts and joined by "|", the most frequent street name
    and cap colour, the sorted set of the non-blank blockface
    identifiers, and the signature hash that every member carries. *)
Theorem main_cluster_summary args fs fs' :
  main sklearn_dbscan args fs = (Ok (), fs') →
  ∃ clusters members,
    clusters_csv fs' = Some clusters ∧ members_csv fs' = Some members
    ∧ ∀ c, c ∈ clusters →
        let ms := filter (λ m, m_cluster_id m = c_cluster_id c) members in
        post_ids c = PyStr.join "|" (merge_sort String.le (map m_post_id ms))
        ∧ StronglySorted String.le (merge_sort String.le (map m_post_id ms))
        ∧ street_name_mode c = mode (map m_street_name ms)
        ∧ cap_color_mode c = mode (map m_cap_color ms)
        ∧ blockface_ids c
          = PyStr.join "|"
              (sorted_strings
                 (list_to_set
                    (filter (λ x, PyStr.truthy (PyStr.strip x))
                            (map m_blockface_id ms))))
        ∧ Forall (λ m, m_schedule_hash m = c_schedule_hash c) ms.
Proof.
  intros (meters & es & _ & _ & _ & _ & ->)%main_Ok_spec.
  exists (cluster_rows_of 0 es), (concat (member_rows_of 0 es)).
  split; [done|]. split; [done|].
  intros c (i & e & He & ->)%elem_of_cluster_rows. simpl.
  rewrite (member_rows_of_cluster 0 es i e He).
  rewrite !map_map. simpl.
  split; [done|]. split; [apply (StronglySorted_merge_sort _)|].
  split; [done|]. split; [done|]. split; [done|].
  apply Forall_forall. by intros m (mm & -> & _)%elem_of_list_map.
Qed.

(** X15: every membership row of a run goes back to the rows of its post
    in the input, those with numeric coordinates, in input order: its
    coordinates are the means of their coordinates, its signature hash
    is the hash that the signature builder gives for them, and its
    street name, street number, blockface and cap colour are the most
    frequent values of their columns. *)
Theorem main_member_rows args fs fs' :
  main sklearn_dbscan args fs = (Ok (), fs') →
  ∃ members,
    members_csv fs' = Some members
    ∧ ∀ m, m ∈ members →
        let g := filter (λ r, row_post_id r = m_post_id m)
                        (numeric_rows (input_csv args)) in
        let cols := columns (input_csv args) in
        g ≠ []
        ∧ m_latitude m = f_mean (map row_latitude g)
        ∧ m_longitude m = f_mean (map row_longitude g)
        ∧ (∃ entries, build_schedule_signature g (signature_fields args)
                      = Ok (m_schedule_hash m, entries))
        ∧ m_street_name m = column_mode cols g "street_name"
        ∧ m_street_num m = column_mode cols g "street_num"
        ∧ m_blockface_id m = column_mode cols g "blockface_id"
        ∧ m_cap_color m = column_mode cols g "cap_color".
Proof.
  intros (meters & es & _ & Hmeters & _ & Hem & ->)%main_Ok_spec.
  exists (concat (member_rows_of 0 es)). split; [done|].
  intros m (i & e & mm & He & Hmm & ->)%elem_of_member_rows. simpl.
  destruct (emitted_groupby_hash _ _ Hem) as [Hperm Hhash].
  assert (Hin : mm ∈ meters).
  { rewrite <- Hperm. apply elem_of_concat. exists e.2. split; [|done].
    apply list_elem_of_fmap. exists e. split; [done|].
    by eapply list_elem_of_lookup_2. }
  assert (Hh : e.1 = schedule_hash mm).
  { symmetry. apply Hhash; [by eapply list_elem_of_lookup_2|done]. }
  destruct (build_meters_Ok (columns (input_csv args)) (signature_fields args)
              (numeric_rows (input_csv args))) as (meters' & Hm' & Hall).
  rewrite Hmeters in Hm'. injection Hm' as <-.
  apply list_elem_of_lookup in Hin as [j Hj].
  destruct (Forall2_lookup_r _ _ _ _ _ Hall Hj) as (g & Hg & Hbuild).
  apply list_elem_of_lookup_2 in Hg.
  pose proof (groupby_filter row_post_id _ g Hg) as Hrows.
  destruct (groupby_spec row_post_id (numeric_rows (input_csv args)))
    as (_ & Hne & _).
  eapply Forall_forall in Hne as [Hne _]; [|exact Hg].
  unfold build_meter in Hbuild.
  destruct (build_schedule_signature g.2 (signature_fields args))
    as [ex|[h es']] eqn:Hsig; [done|].
  simpl in Hbuild. injection Hbuild as <-. simpl in *.
  rewrite <- Hrows. split; [done|]. split; [done|]. split; [done|].
  split; [|done]. exists es'. by rewrite Hh.
Qed.

End main_tables.

(** *** Runs on the example tables *)

Section example_tables.
Local Existing Instance sorted_seed.

Lemma main_no_numeric_row_witness :
  main no_sklearn header_only_args no_files
  = (Raise (KeyError "schedule_hash"), no_files).
Proof.
  pose proof (main_no_numeric_row no_sklearn header_only_args no_files) as [Hrun _].
  refine (Hrun _ _); vm_compute; reflexivity.
Defined.


Lemma main_cluster_numbering_witness :
  ∃ clusters,
    clusters_csv (main no_sklearn example_args no_files).2 = Some clusters
    ∧ ∀ i c, clusters !! i = Some c → c_cluster_id c = cluster_id_of (S i).
Proof.
  destruct (main_cluster_numbering no_sklearn example_args no_files _ example_run)
    as (clusters & members & Hc & _ & Hids & _).
  exists clusters. split; [exact Hc|].
  intros i c Hi. exact (proj1 (Hids i c Hi)).
Defined.

Lemma main_cluster_summary_witness :
  ∃ clusters members,
    clusters_csv (main no_sklearn example_args no_files).2 = Some clusters
    ∧ members_csv (main no_sklearn example_args no_files).2 = Some members
    ∧ ∀ c, c ∈ clusters →
        post_ids c
        = PyStr.join "|"
            (merge_sort String.le
               (map m_post_id
                  (filter (λ m, m_cluster_id m = c_cluster_id c) members))).
Proof.
  destruct (main_cluster_summary no_sklearn example_args no_files _ example_run)
    as (clusters & members & Hc & Hm & Hall).
  exists clusters, members. split; [exact Hc|]. split; [exact Hm|].
  intros c Hin. exact (proj1 (Hall c Hin)).
Defined.

Lemma main_member_rows_witness :
  ∃ members,
    members_csv (main no_sklearn example_args no_files).2 = Some members
    ∧ ∀ m, m ∈ members →
        m_latitude m
        = f_mean (map row_latitude
                    (filter (λ r, row_post_id r = m_post_id m)
                            (numeric_rows (input_csv example_args)))).
Proof.
  destruct (main_member_rows no_sklearn example_args no_files _ example_run)
    as (members & Hm & Hall).
  exists members. split; [exact Hm|].
  intros m Hin. exact (proj1 (proj2 (Hall m Hin))).
Defined.

End example_tables.

Lemma parse_time_clock_text_witness :
  ∃ r, parse_time (Some "7 pm") = inr (Some r) ∧ clock_text r.
Proof.
  destruct (parse_time_clock_text (Some "7 pm")) as (r & Hr & Hclock).
  vm_compute in Hr. injection Hr as <-.
  exists "19:00". split; [vm_compute; reflexivity|]. exact (Hclock _ eq_refl).
Defined.

Lemma canonical_days_known_parse_days_witness :
  "Mo" ∈ parse_days (Some "Tu, Mo").
Proof.
  pose proof (canonical_days_known_parse_days "Tu, Mo") as [_ Hin].
  refine (Hin "Mo" _ _).
  - left.
  - vm_compute. right. left.
Defined.

Lemma different_entries_different_text_witness :
  ∃ h1 es1 h2 es2,
    build_schedule_signature [example_row "Mo" "07:00"] ["days"] = Ok (h1, es1)
    ∧ build_schedule_signature [example_row "Tu" "07:00"] ["days"] = Ok (h2, es2)
    ∧ es1 ≠ es2
    ∧ utf8 (signature_raw es1) ≠ utf8 (signature_raw es2).
Proof.
  destruct (build_schedule_signature_entries ["days"]
              [example_row "Mo" "07:00"] [example_row "Mo" "07:00"])
    as (_ & h1 & es1 & H1). { tauto. }
  destruct (build_schedule_signature_entries ["days"]
              [example_row "Tu" "07:00"] [example_row "Tu" "07:00"])
    as (_ & h2 & es2 & H2). { tauto. }
  exists h1, es1, h2, es2. split; [exact H1|]. split; [exact H2|].
  pose proof (different_entries_different_text ["days"]
                [example_row "Mo" "07:00"] [example_row "Tu" "07:00"]
                h1 es1 h2 es2 H1 H2) as Hdiff.
  refine (let '(conj Ha (conj Hb _)) := Hdiff _ in conj Ha Hb).
  intros Hall.
  destruct (proj1 (Hall [("days", "Mo")])) as (r & Hr & He).
  { exists (example_row "Mo" "07:00"). split; [left|]. vm_compute. reflexivity. }
  apply list_elem_of_singleton in Hr. subst r.
  vm_compute in He. discriminate He.
Defined.

(** ** Minutes that are no minutes *)

Lemma norm_time_parts a b h m :
  all_chars time_char a = true → all_chars time_char b = true →
  (∃ c x, a = String c x ∧ PyStr.isdigit c = true) →
  PyStr.int a = Some h → (0 ≤ h ≤ 23)%Z → PyStr.int b = Some m →
  norm_time (Some (a +:+ String ":" b))
  = inr (PyStr.format_0d 2 h +:+ ":" +:+ PyStr.format_0d 2 m).
Proof.
  intros Ha Hb (c & x & -> & Hc) Hh Hrange Hm. unfold norm_time.
  rewrite strip_no_space.
  2:{ rewrite all_chars_app. simpl all_chars at 2.
      by rewrite !time_char_nonspace. }
  assert (Hnb : negb (PyStr.truthy (String c x +:+ String ":" b))
                || in_list (PyStr.lower (String c x +:+ String ":" b))
                     ["nan"; "none"] = false)
    by (rewrite string_app_cons; by apply digit_not_missing).
  rewrite Hnb.
  by rewrite (norm_time_24h_parts _ b h m).
Qed.

Lemma no_am_pm_no_12h s :
  has_am_pm s = false →
  strptime_IMp s = inl ValueError ∧ strptime_Ip s = inl ValueError.
Proof.
  intros Hno. split.
  - pose proof (strptime_IMp_raises s) as Hr.
    destruct (strptime_IMp s) as [[]|hm] eqn:Hrun; try done.
    apply strptime_IMp_inv in Hrun as (_ & _ & Hyes). congruence.
  - pose proof (strptime_Ip_raises s) as Hr.
    destruct (strptime_Ip s) as [[]|hm] eqn:Hrun; try done.
    apply strptime_Ip_inv in Hrun as (_ & _ & Hyes). congruence.
Qed.

Lemma str_Z_time_char m : all_chars time_char (PyStr.format_0d 0 m) = true.
Proof. apply format_0d_time_char. Qed.

(** X2: the 24-hour path of [norm_time] checks the hour but not the
    minute: for an hour from 0 to 23 followed by a colon and any whole
    number that is no minute, negative or 60 and more, [norm_time]
    returns the zero-padded pair as if it were a time, where
    [parse_time] of the other program finds no time. *)
Theorem norm_time_minutes_unchecked (h : N) (m : Z) :
  (h ≤ 23)%N → (m < 0 ∨ 60 ≤ m)%Z →
  (decimal_length (Z.abs_N m) ≤ PyStr.int_max_str_digits)%nat →
  norm_time (Some (PyStr.of_N h +:+ String ":" (PyStr.format_0d 0 m)))
  = inr (PyStr.format_0d 2 (Z.of_N h) +:+ ":" +:+ PyStr.format_0d 2 m)
  ∧ parse_time (Some (PyStr.of_N h +:+ String ":" (PyStr.format_0d 0 m)))
    = inr None.
Proof.
  intros Hh Hm Hlen.
  set (a := PyStr.of_N h). set (b := PyStr.format_0d 0 m).
  assert (Ha : all_chars time_char a = true).
  { eapply all_chars_impl; [apply isdigit_time_char|apply of_N_digits]. }
  assert (Hb : all_chars time_char b = true) by apply str_Z_time_char.
  assert (Hia : PyStr.int a = Some (Z.of_N h)).
  { change a with (PyStr.zfill 0 (PyStr.of_N h)). apply int_zfill.
    assert (decimal_length h ≤ 2)%nat by (apply decimal_length_small; lia).
    unfold PyStr.int_max_str_digits. lia. }
  assert (Hib : PyStr.int b = Some m).
  { apply int_format_0d. unfold PyStr.int_max_str_digits in *. lia. }
  assert (Hhead : ∃ c x, a = String c x ∧ PyStr.isdigit c = true).
  { pose proof (of_N_digits h) as Hd. pose proof (of_N_length h) as Hl.
    pose proof (decimal_length_pos h). fold a in Hd, Hl.
    destruct a as [|c x]; [simpl in Hl; lia|]. exists c, x. split; [done|].
    simpl in Hd. by apply andb_true_iff in Hd as [? _]. }
  split; [apply norm_time_parts; try done; lia|].
  unfold parse_time.
  rewrite strip_no_space.
  2:{ rewrite all_chars_app. simpl all_chars at 2.
      by rewrite !time_char_nonspace. }
  destruct Hhead as (c & x & Hax & Hc).
  assert (Hnb : negb (PyStr.truthy (a +:+ String ":" b))
                || in_list (PyStr.lower (a +:+ String ":" b)) ["nan"; "none"] = false).
  { rewrite Hax, string_app_cons. by apply digit_not_missing. }
  rewrite Hnb.
  destruct (time_char_no_am_pm b Hb) as [_ Hno]. specialize (Hno a Ha).
  destruct (no_am_pm_no_12h _ Hno) as [H12a H12b].
  cbn [parse_time_loop]. rewrite H12a.
  pose proof (strptime_HM_raises (a +:+ String ":" b)) as Hr.
  destruct (strptime_HM _) as [[]|hm] eqn:Hrun; try done.
  - by rewrite H12b.
  - exfalso.
    apply strptime_HM_inv in Hrun
      as (_ & Hlt & ph & pm & Heq & (Hd1 & _ & _) & (Hd2 & _ & Hi2)).
    apply (f_equal (PyStr.split ":")) in Heq.
    rewrite !split_app, !split_no_sep in Heq;
      try (by apply time_char_is_not);
      try (apply time_char_is_not; eapply all_chars_impl;
           [apply isdigit_time_char|done]).
    injection Heq as _ Heq. rewrite Heq, Hi2 in Hib.
    injection Hib as <-. lia.
Qed.

Lemma norm_time_minutes_unchecked_witness :
  norm_time (Some "7:99") = inr "07:99"
  ∧ parse_time (Some "7:99") = inr None
  ∧ norm_time (Some "23:-5") = inr "23:-5".
Proof.
  pose proof (norm_time_minutes_unchecked 7 99) as H1.
  pose proof (norm_time_minutes_unchecked 23 (-5)) as H2.
  split; [|split].
  - refine (proj1 (H1 _ _ _)); [vm_compute; discriminate|lia|vm_compute; lia].
  - refine (proj2 (H1 _ _ _)); [vm_compute; discriminate|lia|vm_compute; lia].
  - refine (proj1 (H2 _ _ _)); [vm_compute; discriminate|lia|vm_compute; lia].
Defined.


(** ** Pairs visited by the fallback *)

Section index_pairs.
Local Open Scope nat_scope.

Lemma length_bind_sum {A B} (f : A → list B) (l : list A) :
  length (l ≫= f) = sum_list (map (λ x, length (f x)) l).
Proof.
  induction l as [|x l IH]; [done|].
  rewrite bind_cons, length_app, IH. done.
Qed.

Lemma sum_list_snoc l x : sum_list (l ++ [x]) = sum_list l + x.
Proof. induction l as [|y l IH]; simpl; lia. Qed.

Lemma index_pairs_rows n k :
  k ≤ n →
  2 * sum_list (map (λ i, n - S i) (seq 0 k)) + k * (k + 1) = 2 * k * n.
Proof.
  induction k as [|k IH]; intros Hk; [done|].
  rewrite seq_S, map_app. simpl map. rewrite sum_list_snoc. specialize (IH ltac:(lia)). nia.
Qed.

(** X8: the double loop of the fallback visits every pair of positions
    [i < j] of the point list exactly once, which makes
    [n * (n - 1) / 2] distance tests for [n] points. *)
Theorem index_pairs_spec n :
  NoDup (index_pairs n)
  ∧ (∀ i j, (i, j) ∈ index_pairs n ↔ i < j < n)
  ∧ 2 * length (index_pairs n) = n * (n - 1).
Proof.
  split; [|split].
  - unfold index_pairs. apply NoDup_bind.
    + intros i1 i2 [a b] _ _
        (j1 & [= -> ->]%list_elem_of_singleton & _)%list_elem_of_bind
        (j2 & [= -> ->]%list_elem_of_singleton & _)%list_elem_of_bind.
      done.
    + intros i _. apply NoDup_bind.
      * intros j1 j2 [a b] _ _ [= _ ->]%list_elem_of_singleton
          [= _ ->]%list_elem_of_singleton. done.
      * intros j _. apply NoDup_singleton.
      * apply NoDup_seq.
    + apply NoDup_seq.
  - intros i j. unfold index_pairs. rewrite list_elem_of_bind. split.
    + intros (a & (b & [= <- <-]%list_elem_of_singleton & Hb%elem_of_seq)%list_elem_of_bind
                & Ha%elem_of_seq). lia.
    + intros Hij. exists i. split; [|apply elem_of_seq; lia].
      apply list_elem_of_bind. exists j. split; [left|]. apply elem_of_seq. lia.
  - unfold index_pairs. rewrite length_bind_sum.
    assert (Hrow : ∀ i, length (seq (S i) (n - S i) ≫= λ j, [(i, j)]) = n - S i).
    { intros i. rewrite length_bind_sum.
      generalize (S i) as a, (n - S i) as b. intros a b.
      revert a. induction b as [|b IH]; intros a; [done|]. simpl.
      by rewrite IH. }
    rewrite (map_ext _ (λ i, n - S i)) by apply Hrow.
    pose proof (index_pairs_rows n n (le_n _)). nia.
Qed.

End index_pairs.

(** ** Hash collisions *)

Section pigeonhole.
Local Open Scope Z_scope.

Lemma bounded_search (f : Z → Z) (v B : Z) :
  0 ≤ B →
  (∃ i, 0 ≤ i < B ∧ f i = v) ∨ (∀ i, 0 ≤ i < B → f i ≠ v).
Proof.
  intros HB. revert B HB. apply natlike_ind.
  - right. intros i Hi. lia.
  - intros B HB [(i & Hi & Hf)|Hnone].
    + left. exists i. split; [lia|done].
    + destruct (decide (f B = v)) as [Heq|Hne].
      * left. exists B. split; [lia|done].
      * right. intros i Hi. destruct (decide (i = B)) as [->|]; [done|].
        apply Hnone. lia.
Qed.

(** A function from more than [B] numbers into the numbers below [B]
    takes some value twice. *)
Lemma pigeonhole (B : Z) :
  0 ≤ B →
  ∀ f : Z → Z, (∀ i, 0 ≤ i ≤ B → 0 ≤ f i < B) →
  ∃ i j, 0 ≤ i < j ∧ j ≤ B ∧ f i = f j.
Proof.
  intros HB. revert B HB. apply (natlike_ind (λ B, ∀ f : Z → Z,
    (∀ i, 0 ≤ i ≤ B → 0 ≤ f i < B) → ∃ i j, 0 ≤ i < j ∧ j ≤ B ∧ f i = f j)).
  - intros f Hf. specialize (Hf 0). lia.
  - intros B HB IH f Hf.
    destruct (bounded_search f (f (Z.succ B)) (Z.succ B)) as [(i & Hi & Heq)|Hnone];
      [lia|..].
    { exists i, (Z.succ B). split; [lia|]. split; [lia|done]. }
    set (v := f (Z.succ B)) in *.
    destruct (IH (λ i, if f i <? v then f i else f i - 1)) as (i & j & Hij & Hj & Heq).
    { intros i Hi. pose proof (Hf i). pose proof (Hf (Z.succ B)).
      pose proof (Hnone i). fold v in H0.
      destruct (Z.ltb_spec (f i) v); lia. }
    exists i, j. split; [done|]. split; [lia|].
    pose proof (Hnone i). pose proof (Hnone j). simpl in Heq.
    destruct (Z.ltb_spec (f i) v); destruct (Z.ltb_spec (f j) v); lia.
Qed.

End pigeonhole.

Section sha1_range.
Local Open Scope Z_scope.
Import Sha1.

Lemma w32_range x : 0 ≤ w32 x < 2 ^ 32.
Proof. unfold w32. apply Z.mod_pos_bound. reflexivity. Qed.

Lemma compress_in_range h block : state_in_range (compress h block).
Proof.
  unfold compress, state_in_range. cbn [h0 h1 h2 h3 h4].
  repeat split; apply w32_range.
Qed.

(** The digest is a number of 160 bits. *)
Lemma digest_range msg : 0 ≤ digest msg < 2 ^ 160.
Proof.
  unfold digest.
  assert (Hs : ∀ bs s, state_in_range s →
            state_in_range (foldl compress s bs)).
  { intros bs. induction bs as [|b bs IH]; intros s Hs; [done|].
    cbn [foldl]. apply IH, compress_in_range. }
  specialize (Hs (blocks (length (pad msg) / 64) (pad msg)) init).
  destruct Hs as (H0 & H1 & H2 & H3 & H4).
  { unfold state_in_range, init. cbn [h0 h1 h2 h3 h4].
    change (2 ^ 32) with 4294967296. lia. }
  change (2 ^ 160)
    with (4294967296 * 4294967296 * 4294967296 * 4294967296 * 4294967296).
  change (2 ^ 32) with 4294967296 in *. lia.
Qed.

Lemma string_snoc_inj a b c d :
  a +:+ String c "" = b +:+ String d "" → a = b ∧ c = d.
Proof.
  revert b. induction a as [|x a IH]; intros [|y b].
  - by intros [= ->].
  - rewrite string_app_nil_l, string_app_cons. intros [= -> Hb].
    destruct b; discriminate Hb.
  - rewrite string_app_nil_l, string_app_cons. intros [= -> Ha].
    destruct a; discriminate Ha.
  - rewrite !string_app_cons. intros [= -> Hab].
    destruct (IH _ Hab) as [-> ->]. done.
Qed.

Lemma hex_digit_inj n m :
  (n < 16)%N → (m < 16)%N → Json.hex_digit n = Json.hex_digit m → n = m.
Proof.
  intros Hn Hm Heq.
  assert (Hcode : ∀ k, (k < 16)%N →
            PyStr.code (Json.hex_digit k) = if (k <? 10)%N then (48 + k)%N else (87 + k)%N).
  { intros k Hk.
    assert (Hb := N_forall_lt (λ k, N.eqb (PyStr.code (Json.hex_digit k))
                       (if (k <? 10)%N then (48 + k)%N else (87 + k)%N)) 16
                    eq_refl k Hk).
    by apply N.eqb_eq in Hb. }
  apply (f_equal PyStr.code) in Heq. rewrite !Hcode in Heq by done.
  destruct (N.ltb_spec n 10), (N.ltb_spec m 10); lia.
Qed.

(** Numbers below 16^n have different hexadecimal texts. *)
Lemma hex_inj n x y :
  0 ≤ x < 16 ^ Z.of_nat n → 0 ≤ y < 16 ^ Z.of_nat n →
  hex n x = hex n y → x = y.
Proof.
  revert x y. induction n as [|n IH]; intros x y Hx Hy.
  { change (16 ^ Z.of_nat 0) with 1 in *. lia. }
  rewrite Nat2Z.inj_succ, Z.pow_succ_r in Hx, Hy by apply Nat2Z.is_nonneg.
  set (P := 16 ^ Z.of_nat n) in *.
  simpl. intros [Hq Hr]%string_snoc_inj.
  pose proof (Z.mod_pos_bound x 16 eq_refl) as Hmx.
  pose proof (Z.mod_pos_bound y 16 eq_refl) as Hmy.
  apply hex_digit_inj in Hr; [|lia..].
  apply IH in Hq.
  - rewrite (Z.div_mod x 16), (Z.div_mod y 16) by discriminate. lia.
  - split; [apply Z.div_pos; lia|]. apply Z.div_lt_upper_bound; lia.
  - split; [apply Z.div_pos; lia|]. apply Z.div_lt_upper_bound; lia.
Qed.

End sha1_range.

Section collision.
Context {F : Type} `{FloatOps F}.

Lemma build_entry_noted (x0 : F) note :
  build_entry ["note"] (noted_row x0 note) = Ok [("note", note)].
Proof. reflexivity. Qed.

Lemma signature_of_single_entry (e : dict) :
  NoDup e.*1 →
  signature_of_entries [e]
  = Ok (Sha1.hexdigest (utf8 (signature_raw [Json.sort_keys e])),
        [Json.sort_keys e]).
Proof.
  intros Hnd. unfold signature_of_entries.
  assert (Hset : (list_to_set (map (Json.dumps_dict_sorted true) [e]) : gset string)
                 = {[ Json.dumps_dict_sorted true e ]}).
  { simpl. apply (right_id_L ∅ (∪)). }
  rewrite Hset. unfold sorted_strings. rewrite elements_singleton.
  change (merge_sort String.le [Json.dumps_dict_sorted true e])
    with [Json.dumps_dict_sorted true e].
  cbn [rmap]. rewrite json_loads_dumps_sorted by done. reflexivity.
Qed.

Lemma build_schedule_signature_noted (x0 : F) note :
  build_schedule_signature [noted_row x0 note] ["note"]
  = Ok (Sha1.hexdigest (utf8 (signature_raw [[("note", note)]])),
        [[("note", note)]]).
Proof.
  assert (Hsort : Json.sort_keys [("note", note)] = [("note", note)])
    by reflexivity.
  assert (Hsig := signature_of_single_entry [("note", note)]
                    (NoDup_singleton "note")).
  rewrite Hsort in Hsig.
  unfold build_schedule_signature. cbn [rmap]. rewrite build_entry_noted.
  unfold rbind, Ok. exact Hsig.
Qed.

Lemma big_bound : (2 ^ 160 < 16 ^ Z.of_nat 41)%Z.
Proof. reflexivity. Qed.

Lemma pos_bound : (0 ≤ 2 ^ 160)%Z.
Proof. discriminate. Qed.

Lemma collision_indices :
  ∃ i j : Z, (0 ≤ i < j)%Z ∧ (j ≤ 2 ^ 160)%Z
    ∧ Sha1.digest (utf8 (signature_raw [[("note", Sha1.hex 41 i)]]))
      = Sha1.digest (utf8 (signature_raw [[("note", Sha1.hex 41 j)]])).
Proof.
  apply (pigeonhole (2 ^ 160) pos_bound
           (λ i, Sha1.digest (utf8 (signature_raw [[("note", Sha1.hex 41 i)]])))).
  intros i _. apply digest_range.
Qed.

Lemma collision_notes :
  ∃ i j : Z, Sha1.hex 41 i ≠ Sha1.hex 41 j
    ∧ Sha1.digest (utf8 (signature_raw [[("note", Sha1.hex 41 i)]]))
      = Sha1.digest (utf8 (signature_raw [[("note", Sha1.hex 41 j)]])).
Proof.
  destruct collision_indices as (i & j & Hij & Hj & Heq).
  exists i, j. split; [|exact Heq].
  pose proof big_bound as Hbig.
  intros Hhex. apply hex_inj in Hhex.
  - revert Hhex Hij. clear. intros -> ?. lia.
  - revert Hbig Hij Hj. generalize (2 ^ 160)%Z (16 ^ Z.of_nat 41)%Z. clear.
    intros B P ? ? ?. lia.
  - revert Hbig Hij Hj. generalize (2 ^ 160)%Z (16 ^ Z.of_nat 41)%Z. clear.
    intros B P ? ? ?. lia.
Qed.

Lemma noted_same_hash (x0 : F) n1 n2 :
  Sha1.digest (utf8 (signature_raw [[("note", n1)]]))
  = Sha1.digest (utf8 (signature_raw [[("note", n2)]])) →
  ∃ h, build_schedule_signature [noted_row x0 n1] ["note"] = Ok (h, [[("note", n1)]])
     ∧ build_schedule_signature [noted_row x0 n2] ["note"] = Ok (h, [[("note", n2)]]).
Proof.
  intros Heq. eexists. split; [apply build_schedule_signature_noted|].
  rewrite build_schedule_signature_noted. unfold Sha1.hexdigest.
  rewrite Heq. reflexivity.
Qed.

(** X6: the hash does not tell every schedule from every other: there are
    two notes of 41 hexadecimal digits such that two meters that
    differ in this one cell, and so have different entry lists, get
    the same signature hash.  There are more such notes than SHA-1
    digests. *)
Theorem schedule_hash_collision (x0 : F) :
  ∃ note1 note2 h es1 es2,
    note1 ≠ note2
    ∧ String.length note1 = 41%nat ∧ String.length note2 = 41%nat
    ∧ all_chars hex_char note1 = true ∧ all_chars hex_char note2 = true
    ∧ build_schedule_signature [noted_row x0 note1] ["note"] = Ok (h, es1)
    ∧ build_schedule_signature [noted_row x0 note2] ["note"] = Ok (h, es2)
    ∧ es1 ≠ es2.
Proof.
  destruct collision_notes as (i & j & Hne & Heq).
  destruct (noted_same_hash x0 _ _ Heq) as (h & H1 & H2).
  pose proof (hex_length 41 i) as Hl1. pose proof (hex_length 41 j) as Hl2.
  pose proof (hex_hex_chars 41 i) as Hc1. pose proof (hex_hex_chars 41 j) as Hc2.
  revert Hne H1 H2 Hl1 Hl2 Hc1 Hc2.
  generalize (Sha1.hex 41 i) as note1. generalize (Sha1.hex 41 j) as note2.
  clear Heq. intros note2 note1 Hne H1 H2 Hl1 Hl2 Hc1 Hc2.
  exists note1, note2, h, [[("note", note1)]], [[("note", note2)]].
  split; [exact Hne|]. split; [exact Hl1|]. split; [exact Hl2|].
  split; [exact Hc1|]. split; [exact Hc2|]. split; [exact H1|].
  split; [exact H2|].
  intros Hx. apply Hne. congruence.
Qed.
End collision.
